(** * js-caching: the cache engine of [createCache]

    A shallow embedding of [src/cache.js] (with the types of [src/types.js])
    and the properties of its lookup, single-flight creation, locking and
    trimming.

    The engine is asynchronous JavaScript: one thread of control, where every
    [await] is a point at which other callers may run.  Each async function is
    embedded as a task whose states are the [await]s it can be parked at; one
    transition of the engine runs one task from the [await] it is parked at to
    the next one, exactly the code that JavaScript runs without interruption.
    The user's callbacks (factory, transformer, destroy, clock) and the order
    in which parked tasks are resumed belong to the environment: they are the
    labels of the transitions. *)

From stdpp Require Import prelude strings gmap sorting.
From Stdlib Require Import ZArith Ascii.

(** ** JavaScript objects used as maps

    [store] is a plain object [{[hash: string]: CachedValue}].  The order in
    which [Object.keys] and lodash's [toPairs] enumerate it is observable
    ([sortBy] is stable): own keys that are array indices come first, in
    ascending numeric order, then the other keys in insertion order. *)
Module JsObject.

Definition is_digit (c : ascii) : bool :=
  ((48 <=? N_of_ascii c) && (N_of_ascii c <=? 57))%N.

Fixpoint digits (s : string) (acc : N) : option N :=
  match s with
  | EmptyString => Some acc
  | String c s' =>
      if is_digit c then digits s' (10 * acc + (N_of_ascii c - 48))%N else None
  end.

(** The canonical numeric strings of the integers below [2^32 - 1]. *)
Definition array_index (s : string) : option N :=
  match s with
  | EmptyString => None
  | String c s' =>
      if (N_of_ascii c =? 48)%N
      then match s' with EmptyString => Some 0%N | _ => None end
      else match digits s 0 with
           | Some n => if (n <=? 4294967294)%N then Some n else None
           | None => None
           end
  end.

Section obj.
Context {A : Type}.

Definition t := list (string * A).

(** [o[h]] on own properties. *)
Fixpoint get (h : string) (o : t) : option A :=
  match o with
  | [] => None
  | (k, v) :: o' => if decide (k = h) then Some v else get h o'
  end.

(** [h in o] on own properties. *)
Definition has (h : string) (o : t) : bool :=
  match get h o with Some _ => true | None => false end.

(** [delete o[h]]. *)
Fixpoint remove (h : string) (o : t) : t :=
  match o with
  | [] => []
  | (k, v) :: o' => if decide (k = h) then remove h o' else (k, v) :: remove h o'
  end.

Fixpoint replace (h : string) (v : A) (o : t) : t :=
  match o with
  | [] => []
  | (k, x) :: o' => if decide (k = h) then (k, v) :: o' else (k, x) :: replace h v o'
  end.

Fixpoint place_index (n : N) (h : string) (v : A) (o : t) : t :=
  match o with
  | [] => [(h, v)]
  | (k, x) :: o' =>
      match array_index k with
      | Some m => if (m <? n)%N then (k, x) :: place_index n h v o'
                  else (h, v) :: (k, x) :: o'
      | None => (h, v) :: (k, x) :: o'
      end
  end.

(** [o[h] = v]: an existing key keeps its place. *)
Definition set (h : string) (v : A) (o : t) : t :=
  match get h o with
  | Some _ => replace h v o
  | None =>
      match array_index h with
      | Some n => place_index n h v o
      | None => o ++ [(h, v)]
      end
  end.

(** [Object.keys(o)]. *)
Definition keys (o : t) : list string := o.*1.

(** [_.size(o)]. *)
Definition size (o : t) : nat := length o.

End obj.
End JsObject.

(** ** lodash's [sortBy]: a stable sort, ascending in the iteratee *)
Section sortBy.
Context {A : Type} (f : A → Z).

Fixpoint insert_by (x : A) (l : list A) : list A :=
  match l with
  | [] => [x]
  | y :: l' => if (f x <=? f y)%Z then x :: y :: l' else y :: insert_by x l'
  end.

Definition sortBy (l : list A) : list A := foldr insert_by [] l.

Definition le_by (x y : A) : Prop := (f x ≤ f y)%Z.
End sortBy.

(** ** Data model ([src/types.js]) *)

(** [CacheOptions]: [size] and [expiry] in milliseconds.  [cleanupInterval]
    and [setTimeout] only decide when the timer fires, which is the
    environment's choice here; [clock] is a parameter of the engine. *)
Module Opt.
Record CacheOptions := { size : option Z; expiry : option Z }.
End Opt.

(** [CachedValue<V>].  [destroy] records whether the factory supplied a
    callback; what the callback does is the environment's choice. *)
Record CachedValue (V : Type) := {
  value : V;
  insertionTimestamp : Z;
  timestamp : Z;
  locked : Z;
  destroy : bool;
}.
Arguments value {V} _.
Arguments insertionTimestamp {V} _.
Arguments timestamp {V} _.
Arguments locked {V} _.
Arguments destroy {V} _.

Definition set_timestamp {V} (now : Z) (e : CachedValue V) : CachedValue V :=
  {| value := value e; insertionTimestamp := insertionTimestamp e;
     timestamp := now; locked := locked e; destroy := destroy e |}.

Definition add_locked {V} (d : Z) (e : CachedValue V) : CachedValue V :=
  {| value := value e; insertionTimestamp := insertionTimestamp e;
     timestamp := timestamp e; locked := (locked e + d)%Z; destroy := destroy e |}.

(** What a promise settles with. *)
Inductive error := FactoryError | TransformerError | TypeError.

Inductive outcome (A : Type) := Fulfilled (a : A) | Rejected (e : error).
Arguments Fulfilled {A} a.
Arguments Rejected {A} e.

#[global] Instance error_eq_dec : EqDecision error.
Proof. solve_decision. Defined.

(** [validateOptions]: [true] when it returns, [false] when it throws. *)
Definition validateOptions (options : Opt.CacheOptions) : bool :=
  match Opt.size options with
  | Some n => negb (n <=? 0)%Z
  | None => true
  end.

(** The names every object inherits from [Object.prototype]: for these
    [hash in store] holds although the store has no such own key.  The
    embedding covers own keys; a call with such a hash is outside it. *)
Definition inherited (hash : string) : bool :=
  bool_decide (hash ∈ ["constructor"; "hasOwnProperty"; "isPrototypeOf";
    "propertyIsEnumerable"; "toLocaleString"; "toString"; "valueOf";
    "__proto__"; "__defineGetter__"; "__defineSetter__"; "__lookupGetter__";
    "__lookupSetter__"]).

(** ** Tasks: the async functions of the engine, parked at an [await] *)

(** Who awaits [getCachedValue(key)], hence what runs when it settles:
    [get] (line 201), [getWith] (line 154), one key of [getMultiple]
    (line 207) or one key of [getMultipleWith] (line 171). *)
Inductive caller := Get | GetWith | Item | ItemLock.

(** [await shrinkCache(now)]: either its promise has settled, or it is inside
    [trim] at [await Promise.all(...)] over the removals [cs] that are parked
    at [await destroy()]; [failed] holds when one of the removals has already
    rejected, so that [Promise.all] rejects without waiting for the others. *)
Inductive shrink :=
  | ShrinkSettled (o : outcome unit)
  | Trimming (cs : list nat) (failed : bool).

Inductive removal := AwaitDestroy | RemovalSettled.

Section Engine.
Context {K V W : Type}.

Inductive result :=
  | RValue (v : V)                 (* [get] *)
  | RItem (k : K) (v : V)          (* [{key, value}] of [getMultiple] *)
  | RLocked (k : K) (r : nat)      (* [{key, cachedValue}] of [getMultipleWith] *)
  | RPairs (kvs : list (K * V))    (* [getMultiple] *)
  | RTransformed (w : W).          (* [getWith], [getMultipleWith] *)

Inductive fetch :=
  | AwaitCreate                        (* line 104: [await create(key)] *)
  | AwaitShrink (r : nat) (sh : shrink) (* line 112: [await shrinkCache(now)] *)
  | AwaitWait                          (* line 138: inside [waitUntil] *)
  | Woken                              (* line 138: [waitUntil] has resolved *)
  | Fetched (o : outcome nat)          (* [getCachedValue] has settled *)
  | AwaitTransformer (r : nat)         (* line 158: [await transformer(...)] *)
  | Settled (o : outcome result).

Inductive multi :=
  | AwaitAll                               (* lines 169, 204: [Promise.all] *)
  | AwaitTransformerAll (kcs : list (K * nat)) (* line 181 *)
  | MultiSettled (o : outcome result).

Inductive task :=
  | Fetch (c : caller) (key : K) (hash : string) (now : Z) (st : fetch)
  | Multi (lock : bool) (keys : list K) (items : list nat) (st : multi)
  | Removal (hash : string) (st : removal)  (* lines 81-93, one candidate *)
  | Scheduled (sh : shrink).                (* lines 38-41, the timer's callback *)

(** What the environment saw the engine do with its callbacks. *)
Inductive event :=
  | EvFactory (t : nat) (k : K) (old : option nat)
      (* [create(key)] was called by task [t], [store[hash]] being [old] *)
  | EvFactoryFailed (t : nat) (k : K)
  | EvDestroy (hash : string) (r : nat)    (* [store[hash].destroy()] was called *)
  | EvDelete (hash : string)               (* [delete store[hash]] was executed *)
  | EvTransformer (t : nat) (kvs : list (K * V)).

(** The closure of [createCache]: [store] holds references into [heap],
    because callers keep the [CachedValue] objects they were handed and
    mutate them ([locked++]) whether or not the store still holds them. *)
Record engine := {
  store : @JsObject.t nat;
  heap : list (CachedValue V);
  initializing : gset string;
  shrinkLock : bool;
  reads : nat;                  (* how often [clock()] has been called *)
  tasks : list task;
  log : list event;
}.

Definition with_store (f : @JsObject.t nat → @JsObject.t nat) (s : engine) :=
  {| store := f (store s); heap := heap s; initializing := initializing s;
     shrinkLock := shrinkLock s; reads := reads s; tasks := tasks s; log := log s |}.
Definition with_heap (f : list (CachedValue V) → list (CachedValue V)) (s : engine) :=
  {| store := store s; heap := f (heap s); initializing := initializing s;
     shrinkLock := shrinkLock s; reads := reads s; tasks := tasks s; log := log s |}.
Definition with_initializing (f : gset string → gset string) (s : engine) :=
  {| store := store s; heap := heap s; initializing := f (initializing s);
     shrinkLock := shrinkLock s; reads := reads s; tasks := tasks s; log := log s |}.
Definition with_shrinkLock (b : bool) (s : engine) :=
  {| store := store s; heap := heap s; initializing := initializing s;
     shrinkLock := b; reads := reads s; tasks := tasks s; log := log s |}.
Definition with_reads (n : nat) (s : engine) :=
  {| store := store s; heap := heap s; initializing := initializing s;
     shrinkLock := shrinkLock s; reads := n; tasks := tasks s; log := log s |}.
Definition with_tasks (f : list task → list task) (s : engine) :=
  {| store := store s; heap := heap s; initializing := initializing s;
     shrinkLock := shrinkLock s; reads := reads s; tasks := f (tasks s); log := log s |}.
Definition emit (e : event) (s : engine) :=
  {| store := store s; heap := heap s; initializing := initializing s;
     shrinkLock := shrinkLock s; reads := reads s; tasks := tasks s; log := log s ++ [e] |}.

(** The state [s] with, of its log, only what was logged since [s0]: the
    engine never reads the log, which only records what it did. *)
Definition since (s0 s : engine) : engine :=
  {| store := store s; heap := heap s; initializing := initializing s;
     shrinkLock := shrinkLock s; reads := reads s; tasks := tasks s;
     log := drop (length (log s0)) (log s) |}.

Definition spawn (t : task) (s : engine) : engine := with_tasks (λ ts, ts ++ [t]) s.
Definition park (i : nat) (t : task) (s : engine) : engine := with_tasks (<[i := t]>) s.

(** [store[hash]], as the reference and the object it denotes. *)
Definition entry (s : engine) (hash : string) : option (nat * CachedValue V) :=
  r ← JsObject.get hash (store s); e ← heap s !! r; Some (r, e).

Variable hasher : K → string.
Variable options : Opt.CacheOptions.
Variable clock : nat → Z.

(** The state [createCache] returns its closures over. *)
Definition createCache : option engine :=
  if validateOptions options
  then Some {| store := []; heap := []; initializing := ∅; shrinkLock := false;
               reads := 0; tasks := []; log := [] |}
  else None.

Definition currentSize (s : engine) : nat := JsObject.size (store s).

(** [options.expiry && options.expiry.in(MILLISECONDS)] *)
Definition expiryInMilliseconds : option Z := Opt.expiry options.

(** JavaScript's numbers are IEEE-754 doubles.  Timestamps and durations are
    modelled as integers and their sum as the sum of integers; the sum of
    line 121 is that one when both summands and the sum are safe integers
    ([Number.isSafeInteger]: of magnitude below [2 ^ 53]), which the
    theorems that compare [insertionTimestamp + d] with a clock reading
    assume. *)
Definition safe_integer (z : Z) : Prop := (- 2 ^ 53 < z < 2 ^ 53)%Z.

(** Lines 119-122.  A duration of [0] milliseconds is falsy.  Both callers
    pass own keys of the store. *)
Definition isExpired (s : engine) (hash : string) (now : Z) : bool :=
  match expiryInMilliseconds with
  | Some d =>
      if decide (d = 0%Z) then false
      else match entry s hash with
           | Some (_, e) => (insertionTimestamp e + d <? now)%Z
           | None => false
           end
  | None => false
  end.

(** [_(store).toPairs()] *)
Definition toPairs (s : engine) : list (string * CachedValue V) :=
  omap (λ p, e ← heap s !! p.2; Some (p.1, e)) (store s).

(** Lines 69-76. *)
Definition oldestValues (s : engine) : list string :=
  match Opt.size options with
  | Some n =>
      (drop (Z.to_nat n) (reverse (sortBy (λ p, timestamp p.2) (toPairs s)))).*1
  | None => []
  end.

(** Lines 77-79. *)
Definition expiredValues (s : engine) (now : Z) : list string :=
  match Opt.expiry options with
  | Some _ => filter (λ hash, isExpired s hash now) (JsObject.keys (store s))
  | None => []
  end.

(** Lines 81-93, for each candidate up to its first [await]: the removals
    left parked at [await destroy()] are spawned as tasks; the result tells
    their ids and whether some candidate threw at [store[hash].locked]
    (line 82 is outside the [try]). *)
Fixpoint remove_candidates (cs : list string) (s : engine) : engine * list nat * bool :=
  match cs with
  | [] => (s, [], false)
  | hash :: cs' =>
      match entry s hash with
      | None =>
          let '(s', ids, _) := remove_candidates cs' s in (s', ids, true)
      | Some (r, e) =>
          if (0 <? locked e)%Z then remove_candidates cs' s
          else if destroy e then
            let id := length (tasks s) in
            let '(s', ids, failed) :=
              remove_candidates cs' (spawn (Removal hash AwaitDestroy) (emit (EvDestroy hash r) s)) in
            (s', id :: ids, failed)
          else remove_candidates cs'
                 (with_store (JsObject.remove hash) (emit (EvDelete hash) s))
      end
  end.

(** Lines 68-95 up to [await Promise.all(...)]. *)
Definition trim (s : engine) (now : Z) : engine * shrink :=
  let '(s', ids, failed) := remove_candidates (oldestValues s ++ expiredValues s now) s in
  (s', Trimming ids failed).

(** Lines 54-66 up to [await trim(now)]. *)
Definition shrinkCache (s : engine) (now : Z) : engine * shrink :=
  if shrinkLock s then (s, ShrinkSettled (Fulfilled ()))
  else if match Opt.size options with
          | Some n => (n <? Z.of_nat (currentSize s))%Z
          | None => false
          end || bool_decide (is_Some (Opt.expiry options))
  then trim (with_shrinkLock true s) now
  else (s, ShrinkSettled (Fulfilled ())).

(** Lines 102-104: [initializing.add(hash)], then the factory is called. *)
Definition addToStore (t : nat) (s : engine) (key : K) (hash : string) : engine * fetch :=
  (emit (EvFactory t key (JsObject.get hash (store s)))
     (with_initializing (λ i, {[hash]} ∪ i) s), AwaitCreate).

(** Lines 105-111: the new [CachedValue] object and [store[hash] = cachedValue]. *)
Definition publish (s : engine) (hash : string) (now : Z) (v : V) (d : bool) : engine * nat :=
  let r := length (heap s) in
  (with_store (JsObject.set hash r)
     (with_heap (λ h, h ++ [{| value := v; insertionTimestamp := now;
                                timestamp := now; locked := 0; destroy := d |}]) s), r).

(** Lines 146-147. *)
Definition touch (s : engine) (hash : string) (now : Z) : option (engine * fetch) :=
  r ← JsObject.get hash (store s);
  Some (with_heap (alter (set_timestamp now) r) s, Fetched (Fulfilled r)).

(** Lines 135-142 and, when neither branch is taken, lines 146-147 (the
    test of line 143 cannot succeed there). *)
Definition getOrInsertCachedValue (t : nat) (s : engine) (key : K) (hash : string)
    (now : Z) : option (engine * fetch) :=
  if (negb (JsObject.has hash (store s)) || isExpired s hash now)
     && negb (bool_decide (hash ∈ initializing s))
  then Some (addToStore t s key hash)
  else if bool_decide (hash ∈ initializing s) then Some (s, AwaitWait)
  else touch s hash now.

(** Lines 143-147 once [waitUntil] has resolved. *)
Definition afterWait (t : nat) (s : engine) (key : K) (hash : string) (now : Z)
    : option (engine * fetch) :=
  if negb (JsObject.has hash (store s)) then getOrInsertCachedValue t s key hash now
  else touch s hash now.

(** Lines 124-128, as a new task. *)
Definition getCachedValue (c : caller) (key : K) (s : engine) : option engine :=
  let hash := hasher key in
  if inherited hash then None
  else
    let now := clock (reads s) in
    '(s', st) ← getOrInsertCachedValue (length (tasks s)) (with_reads (S (reads s)) s) key hash now;
    Some (spawn (Fetch c key hash now st) s').

(** The calls the embedding covers are those for a hash that is no inherited
    name; [calls_own s] says that every call made so far was one.  (For an
    inherited name the code finds [hash in store], calls no factory, assigns
    [timestamp] on the inherited object and resolves with it.) *)
Definition own_hash (tk : task) : bool :=
  match tk with
  | Fetch _ _ hash _ _ => negb (inherited hash)
  | _ => true
  end.

Definition calls_own (s : engine) : bool := forallb own_hash (tasks s).

(** [keys.map(async key => ... await getCachedValue(key) ...)], lines 170 and 205. *)
Fixpoint getCachedValues (c : caller) (keys : list K) (s : engine) : option (engine * list nat) :=
  match keys with
  | [] => Some (s, [])
  | key :: keys' =>
      s' ← getCachedValue c key s;
      '(s'', ids) ← getCachedValues c keys' s';
      Some (s'', length (tasks s) :: ids)
  end.

Definition removal_settled (s : engine) (id : nat) : bool :=
  match tasks s !! id with
  | Some (Removal _ RemovalSettled) => true
  | _ => false
  end.

(** [await Promise.all(...)] of line 80. *)
Definition trim_settles (s : engine) (cs : list nat) (failed : bool) : option (outcome unit) :=
  if failed then Some (Rejected TypeError)
  else if forallb (removal_settled s) cs then Some (Fulfilled ())
  else None.

Definition item_outcome (s : engine) (id : nat) : option (outcome result) :=
  match tasks s !! id with
  | Some (Fetch _ _ _ _ (Settled o)) => Some o
  | _ => None
  end.

Definition rejection (o : option (outcome result)) : option error :=
  match o with Some (Rejected e) => Some e | _ => None end.
Definition fulfilment (o : option (outcome result)) : option result :=
  match o with Some (Fulfilled r) => Some r | _ => None end.

(** [Promise.all]: rejected as soon as one promise is, fulfilled with the
    results in the order of the promises once all are.  Of several
    rejections the earliest in the list is reported. *)
Definition promise_all (os : list (option (outcome result))) : option (outcome (list result)) :=
  match head (omap rejection os) with
  | Some e => Some (Rejected e)
  | None => rs ← mapM fulfilment os; Some (Fulfilled rs)
  end.

Definition as_pair (r : result) : option (K * V) :=
  match r with RItem k v => Some (k, v) | _ => None end.
Definition as_locked (r : result) : option (K * nat) :=
  match r with RLocked k c => Some (k, c) | _ => None end.

(** Lines 188-192. *)
Definition unlock_all (kcs : list (K * nat)) (h : list (CachedValue V)) : list (CachedValue V) :=
  foldl (λ h kc, alter (add_locked (-1)) kc.2 h) h kcs.

(** ** Transitions *)
Inductive label :=
  | CallGet (key : K)
  | CallGetWith (key : K)
  | CallGetMultiple (keys : list K)
  | CallGetMultipleWith (keys : list K)
  | Timer                                 (* the scheduled cleanup fires *)
  | Resume (t : nat)                      (* task [t] runs on; at [waitUntil], one poll *)
  | Created (t : nat) (v : V) (d : bool)  (* the factory's promise resolves *)
  | CreateFailed (t : nat)
  | Destroyed (t : nat)
  | DestroyFailed (t : nat)
  | Transformed (t : nat) (w : W)
  | TransformFailed (t : nat).

Definition resume_fetch (t : nat) (s : engine) (c : caller) (key : K) (hash : string)
    (now : Z) (st : fetch) : option engine :=
  match st with
  | AwaitShrink r (Trimming cs failed) =>
      (* [trim] returns or throws; [finally] of line 63 *)
      o ← trim_settles s cs failed;
      Some (park t (Fetch c key hash now (AwaitShrink r (ShrinkSettled o)))
              (with_shrinkLock false s))
  | AwaitShrink r (ShrinkSettled o) =>
      (* lines 113-115 *)
      Some (park t (Fetch c key hash now
                      (Fetched (match o with Fulfilled _ => Fulfilled r | Rejected e => Rejected e end)))
              (with_initializing (λ i, i ∖ {[hash]}) s))
  | AwaitWait =>
      if bool_decide (hash ∈ initializing s) then Some s
      else Some (park t (Fetch c key hash now Woken) s)
  | Woken =>
      '(s', st') ← afterWait t s key hash now;
      Some (park t (Fetch c key hash now st') s')
  | Fetched (Rejected e) => Some (park t (Fetch c key hash now (Settled (Rejected e))) s)
  | Fetched (Fulfilled r) =>
      e ← heap s !! r;
      match c with
      | Get => Some (park t (Fetch c key hash now (Settled (Fulfilled (RValue (value e))))) s)
      | Item => Some (park t (Fetch c key hash now (Settled (Fulfilled (RItem key (value e))))) s)
      | GetWith =>
          (* lines 155-158 *)
          Some (park t (Fetch c key hash now (AwaitTransformer r))
                  (emit (EvTransformer t [(key, value e)])
                     (with_heap (alter (add_locked 1) r) s)))
      | ItemLock =>
          (* lines 172-176 *)
          Some (park t (Fetch c key hash now (Settled (Fulfilled (RLocked key r))))
                  (with_heap (alter (add_locked 1) r) s))
      end
  | _ => None
  end.

Definition resume_multi (t : nat) (s : engine) (lock : bool) (keys : list K)
    (items : list nat) : option engine :=
  o ← promise_all (item_outcome s <$> items);
  match o with
  | Rejected e => Some (park t (Multi lock keys items (MultiSettled (Rejected e))) s)
  | Fulfilled rs =>
      if lock then
        (* lines 181-186 *)
        kcs ← mapM as_locked rs;
        kvs ← mapM (λ kc, e ← heap s !! kc.2; Some (kc.1, value e)) kcs;
        Some (park t (Multi lock keys items (AwaitTransformerAll kcs))
                (emit (EvTransformer t kvs) s))
      else
        kvs ← mapM as_pair rs;
        Some (park t (Multi lock keys items (MultiSettled (Fulfilled (RPairs kvs)))) s)
  end.

Definition resume (t : nat) (s : engine) : option engine :=
  tk ← tasks s !! t;
  match tk with
  | Fetch c key hash now st => resume_fetch t s c key hash now st
  | Multi lock keys items AwaitAll => resume_multi t s lock keys items
  | Scheduled (Trimming cs failed) =>
      o ← trim_settles s cs failed;
      Some (park t (Scheduled (ShrinkSettled o)) (with_shrinkLock false s))
  | _ => None
  end.

(** The end of [await transformer(...)]: the [finally] of lines 159-161 or
    187-193, then the result or the failure. *)
Definition transformer_settles (t : nat) (o : outcome result) (s : engine) : option engine :=
  tk ← tasks s !! t;
  match tk with
  | Fetch GetWith key hash now (AwaitTransformer r) =>
      Some (park t (Fetch GetWith key hash now (Settled o))
              (with_heap (alter (add_locked (-1)) r) s))
  | Multi true keys items (AwaitTransformerAll kcs) =>
      Some (park t (Multi true keys items (MultiSettled o))
              (with_heap (unlock_all kcs) s))
  | _ => None
  end.

Definition step (l : label) (s : engine) : option engine :=
  match l with
  | CallGet key => getCachedValue Get key s
  | CallGetWith key => getCachedValue GetWith key s
  | CallGetMultiple keys =>
      '(s', ids) ← getCachedValues Item keys s;
      Some (spawn (Multi false keys ids AwaitAll) s')
  | CallGetMultipleWith keys =>
      '(s', ids) ← getCachedValues ItemLock keys s;
      Some (spawn (Multi true keys ids AwaitAll) s')
  | Timer =>
      (* lines 38-39; the timer exists only under [options.expiry] *)
      if bool_decide (is_Some (Opt.expiry options)) then
        let t := length (tasks s) in
        let s0 := spawn (Scheduled (ShrinkSettled (Fulfilled ()))) (with_reads (S (reads s)) s) in
        let '(s', sh) := shrinkCache s0 (clock (reads s)) in
        Some (park t (Scheduled sh) s')
      else None
  | Resume t => resume t s
  | Created t v d =>
      tk ← tasks s !! t;
      match tk with
      | Fetch c key hash now AwaitCreate =>
          let '(s1, r) := publish s hash now v d in
          let '(s2, sh) := shrinkCache s1 now in
          Some (park t (Fetch c key hash now (AwaitShrink r sh)) s2)
      | _ => None
      end
  | CreateFailed t =>
      tk ← tasks s !! t;
      match tk with
      | Fetch c key hash now AwaitCreate =>
          (* line 115 *)
          Some (park t (Fetch c key hash now (Fetched (Rejected FactoryError)))
                  (emit (EvFactoryFailed t key)
                     (with_initializing (λ i, i ∖ {[hash]}) s)))
      | _ => None
      end
  | Destroyed t =>
      tk ← tasks s !! t;
      match tk with
      | Removal hash AwaitDestroy =>
          (* line 89 *)
          Some (park t (Removal hash RemovalSettled)
                  (with_store (JsObject.remove hash) (emit (EvDelete hash) s)))
      | _ => None
      end
  | DestroyFailed t =>
      tk ← tasks s !! t;
      match tk with
      | Removal hash AwaitDestroy =>
          (* lines 90-92 *)
          Some (park t (Removal hash RemovalSettled) s)
      | _ => None
      end
  | Transformed t w => transformer_settles t (Fulfilled (RTransformed w)) s
  | TransformFailed t => transformer_settles t (Rejected TransformerError) s
  end.

(** The state on which [trim] is called (line 60) when the environment does
    [l] on [s]: [shrinkCache] is called by the timer (line 39) and after the
    assignment of line 111 (line 112), and it sets [shrinkLock] and calls
    [trim] when the lock is free and a bound asks for it (lines 54-60). *)
Definition trims (s : engine) : bool :=
  negb (shrinkLock s)
  && (match Opt.size options with
      | Some n => (n <? Z.of_nat (currentSize s))%Z
      | None => false
      end || bool_decide (is_Some (Opt.expiry options))).

Definition trim_start (l : label) (s : engine) : option engine :=
  match l with
  | Timer =>
      if bool_decide (is_Some (Opt.expiry options)) then
        let s0 := spawn (Scheduled (ShrinkSettled (Fulfilled ()))) (with_reads (S (reads s)) s) in
        if trims s0 then Some (with_shrinkLock true s0) else None
      else None
  | Created t v d =>
      tk ← tasks s !! t;
      match tk with
      | Fetch c key hash now AwaitCreate =>
          let s1 := (publish s hash now v d).1 in
          if trims s1 then Some (with_shrinkLock true s1) else None
      | _ => None
      end
  | _ => None
  end.

(** A schedule is what the environment does, in order. *)
Fixpoint run (sch : list label) (s : engine) : option engine :=
  match sch with
  | [] => Some s
  | l :: sch' => s' ← step l s; run sch' s'
  end.

(** The states the engine can be in: those some schedule leads to from the
    state [createCache] starts in. *)
Definition reachable (s : engine) : Prop :=
  ∃ sch s0, createCache = Some s0 ∧ run sch s0 = Some s.

(** *** The transitions, case by case

    [Step l s s'] lists what [step l s] can be: one constructor for each
    path through the code between two [await]s. *)

(** Lines 135-147 on entry: insert, wait, or hit. *)
Inductive fetch_start (t : nat) (s : engine) (key : K) (hash : string) (now : Z)
    : engine → fetch → Prop :=
  | start_insert :
      JsObject.has hash (store s) = false ∨ isExpired s hash now = true →
      hash ∉ initializing s →
      fetch_start t s key hash now
        (emit (EvFactory t key (JsObject.get hash (store s)))
           (with_initializing (λ i, {[hash]} ∪ i) s)) AwaitCreate
  | start_wait :
      hash ∈ initializing s →
      fetch_start t s key hash now s AwaitWait
  | start_hit r :
      JsObject.get hash (store s) = Some r →
      hash ∉ initializing s →
      fetch_start t s key hash now
        (with_heap (alter (set_timestamp now) r) s) (Fetched (Fulfilled r)).

Inductive fetch_call (c : caller) (key : K) (s : engine) : engine → Prop :=
  | fetch_call_intro s1 st :
      inherited (hasher key) = false →
      fetch_start (length (tasks s)) (with_reads (S (reads s)) s) key (hasher key)
        (clock (reads s)) s1 st →
      fetch_call c key s (spawn (Fetch c key (hasher key) (clock (reads s)) st) s1).

Inductive fetch_calls (c : caller) : list K → engine → engine → list nat → Prop :=
  | fetch_calls_nil s : fetch_calls c [] s s []
  | fetch_calls_cons key keys s s1 s2 ids :
      fetch_call c key s s1 → fetch_calls c keys s1 s2 ids →
      fetch_calls c (key :: keys) s s2 (length (tasks s) :: ids).

Definition item_caller (lock : bool) : caller := if lock then ItemLock else Item.

(** The task and the outcome a settling transformer belongs to. *)
Definition transformer_label (l : label) : option (nat * outcome result) :=
  match l with
  | Transformed t w => Some (t, Fulfilled (RTransformed w))
  | TransformFailed t => Some (t, Rejected TransformerError)
  | _ => None
  end.

Definition multi_call (l : label) : option (bool * list K) :=
  match l with
  | CallGetMultiple keys => Some (false, keys)
  | CallGetMultipleWith keys => Some (true, keys)
  | _ => None
  end.

Definition single_call (l : label) : option (caller * K) :=
  match l with
  | CallGet key => Some (Get, key)
  | CallGetWith key => Some (GetWith, key)
  | _ => None
  end.

Inductive Step : label → engine → engine → Prop :=
  | Step_call l c key s s' :
      single_call l = Some (c, key) → fetch_call c key s s' → Step l s s'
  | Step_multi l lock keys s s1 ids :
      multi_call l = Some (lock, keys) →
      fetch_calls (item_caller lock) keys s s1 ids →
      Step l s (spawn (Multi lock keys ids AwaitAll) s1)
  | Step_timer s s1 sh :
      is_Some (Opt.expiry options) →
      shrinkCache (spawn (Scheduled (ShrinkSettled (Fulfilled ())))
                     (with_reads (S (reads s)) s)) (clock (reads s)) = (s1, sh) →
      Step Timer s (park (length (tasks s)) (Scheduled sh) s1)
  | Step_trimmed t s c key hash now r cs failed o :
      tasks s !! t = Some (Fetch c key hash now (AwaitShrink r (Trimming cs failed))) →
      trim_settles s cs failed = Some o →
      Step (Resume t) s
        (park t (Fetch c key hash now (AwaitShrink r (ShrinkSettled o)))
           (with_shrinkLock false s))
  | Step_shrunk t s c key hash now r o :
      tasks s !! t = Some (Fetch c key hash now (AwaitShrink r (ShrinkSettled o))) →
      Step (Resume t) s
        (park t (Fetch c key hash now
                   (Fetched (match o with Fulfilled _ => Fulfilled r | Rejected e => Rejected e end)))
           (with_initializing (λ i, i ∖ {[hash]}) s))
  | Step_poll t s c key hash now :
      tasks s !! t = Some (Fetch c key hash now AwaitWait) →
      hash ∈ initializing s →
      Step (Resume t) s s
  | Step_woken t s c key hash now :
      tasks s !! t = Some (Fetch c key hash now AwaitWait) →
      hash ∉ initializing s →
      Step (Resume t) s (park t (Fetch c key hash now Woken) s)
  | Step_retry t s c key hash now s1 st :
      tasks s !! t = Some (Fetch c key hash now Woken) →
      JsObject.has hash (store s) = false →
      fetch_start t s key hash now s1 st →
      Step (Resume t) s (park t (Fetch c key hash now st) s1)
  | Step_found t s c key hash now r :
      tasks s !! t = Some (Fetch c key hash now Woken) →
      JsObject.get hash (store s) = Some r →
      Step (Resume t) s
        (park t (Fetch c key hash now (Fetched (Fulfilled r)))
           (with_heap (alter (set_timestamp now) r) s))
  | Step_rejected t s c key hash now e :
      tasks s !! t = Some (Fetch c key hash now (Fetched (Rejected e))) →
      Step (Resume t) s (park t (Fetch c key hash now (Settled (Rejected e))) s)
  | Step_get t s key hash now r e :
      tasks s !! t = Some (Fetch Get key hash now (Fetched (Fulfilled r))) →
      heap s !! r = Some e →
      Step (Resume t) s
        (park t (Fetch Get key hash now (Settled (Fulfilled (RValue (value e))))) s)
  | Step_item t s key hash now r e :
      tasks s !! t = Some (Fetch Item key hash now (Fetched (Fulfilled r))) →
      heap s !! r = Some e →
      Step (Resume t) s
        (park t (Fetch Item key hash now (Settled (Fulfilled (RItem key (value e))))) s)
  | Step_lock t s key hash now r e :
      tasks s !! t = Some (Fetch GetWith key hash now (Fetched (Fulfilled r))) →
      heap s !! r = Some e →
      Step (Resume t) s
        (park t (Fetch GetWith key hash now (AwaitTransformer r))
           (emit (EvTransformer t [(key, value e)])
              (with_heap (alter (add_locked 1) r) s)))
  | Step_item_lock t s key hash now r e :
      tasks s !! t = Some (Fetch ItemLock key hash now (Fetched (Fulfilled r))) →
      heap s !! r = Some e →
      Step (Resume t) s
        (park t (Fetch ItemLock key hash now (Settled (Fulfilled (RLocked key r))))
           (with_heap (alter (add_locked 1) r) s))
  | Step_all_rejected t s lock keys items e :
      tasks s !! t = Some (Multi lock keys items AwaitAll) →
      promise_all (item_outcome s <$> items) = Some (Rejected e) →
      Step (Resume t) s (park t (Multi lock keys items (MultiSettled (Rejected e))) s)
  | Step_all_pairs t s keys items rs kvs :
      tasks s !! t = Some (Multi false keys items AwaitAll) →
      promise_all (item_outcome s <$> items) = Some (Fulfilled rs) →
      mapM as_pair rs = Some kvs →
      Step (Resume t) s
        (park t (Multi false keys items (MultiSettled (Fulfilled (RPairs kvs)))) s)
  | Step_all_locked t s keys items rs kcs kvs :
      tasks s !! t = Some (Multi true keys items AwaitAll) →
      promise_all (item_outcome s <$> items) = Some (Fulfilled rs) →
      mapM as_locked rs = Some kcs →
      mapM (λ kc, e ← heap s !! kc.2; Some (kc.1, value e)) kcs = Some kvs →
      Step (Resume t) s
        (park t (Multi true keys items (AwaitTransformerAll kcs))
           (emit (EvTransformer t kvs) s))
  | Step_scheduled t s cs failed o :
      tasks s !! t = Some (Scheduled (Trimming cs failed)) →
      trim_settles s cs failed = Some o →
      Step (Resume t) s (park t (Scheduled (ShrinkSettled o)) (with_shrinkLock false s))
  | Step_created t s c key hash now v d s2 sh :
      tasks s !! t = Some (Fetch c key hash now AwaitCreate) →
      shrinkCache (publish s hash now v d).1 now = (s2, sh) →
      Step (Created t v d) s
        (park t (Fetch c key hash now (AwaitShrink (length (heap s)) sh)) s2)
  | Step_create_failed t s c key hash now :
      tasks s !! t = Some (Fetch c key hash now AwaitCreate) →
      Step (CreateFailed t) s
        (park t (Fetch c key hash now (Fetched (Rejected FactoryError)))
           (emit (EvFactoryFailed t key) (with_initializing (λ i, i ∖ {[hash]}) s)))
  | Step_destroyed t s hash :
      tasks s !! t = Some (Removal hash AwaitDestroy) →
      Step (Destroyed t) s
        (park t (Removal hash RemovalSettled)
           (with_store (JsObject.remove hash) (emit (EvDelete hash) s)))
  | Step_destroy_failed t s hash :
      tasks s !! t = Some (Removal hash AwaitDestroy) →
      Step (DestroyFailed t) s (park t (Removal hash RemovalSettled) s)
  | Step_unlock l t o s key hash now r :
      transformer_label l = Some (t, o) →
      tasks s !! t = Some (Fetch GetWith key hash now (AwaitTransformer r)) →
      Step l s
        (park t (Fetch GetWith key hash now (Settled o))
           (with_heap (alter (add_locked (-1)) r) s))
  | Step_unlock_all l t o s keys items kcs :
      transformer_label l = Some (t, o) →
      tasks s !! t = Some (Multi true keys items (AwaitTransformerAll kcs)) →
      Step l s
        (park t (Multi true keys items (MultiSettled o)) (with_heap (unlock_all kcs) s)).

(** *** Auxiliary notions for the proofs *)

(** The store holds valid, pairwise distinct references under pairwise
    distinct keys. *)
Record store_ok (s : engine) : Prop := {
  ok_refs : Forall (λ p, p.2 < length (heap s)) (store s);
  ok_keys : NoDup (store s).*1;
  ok_objs : NoDup (store s).*2;
}.

(** What the engine ever does to the store and the objects: the fields
    [value], [insertionTimestamp] and [destroy] of an object are never
    assigned, objects are only added, and the store changes by
    [store[hash] = cachedValue] with a new object and by [delete]. *)
Definition keeps_identity (f : CachedValue V → CachedValue V) : Prop :=
  ∀ e, value (f e) = value e ∧ insertionTimestamp (f e) = insertionTimestamp e ∧
       destroy (f e) = destroy e.

Inductive evolves : engine → engine → Prop :=
  | evolves_same s s' :
      store s' = store s → heap s' = heap s → evolves s s'
  | evolves_alter s s' f r :
      keeps_identity f → store s' = store s → heap s' = alter f r (heap s) →
      evolves s s'
  | evolves_publish s s' hash e :
      store s' = JsObject.set hash (length (heap s)) (store s) →
      heap s' = heap s ++ [e] → evolves s s'
  | evolves_remove s s' hash :
      store s' = JsObject.remove hash (store s) → heap s' = heap s → evolves s s'
  | evolves_trans s1 s2 s3 : evolves s1 s2 → evolves s2 s3 → evolves s1 s3.

(** A task stays the call it was spawned for. *)
Definition same_call (a b : task) : Prop :=
  match a, b with
  | Fetch c k h n _, Fetch c' k' h' n' _ => c = c' ∧ k = k' ∧ h = h' ∧ n = n'
  | Multi lk ks its _, Multi lk' ks' its' _ => lk = lk' ∧ ks = ks' ∧ its = its'
  | Removal h _, Removal h' _ => h = h'
  | Scheduled _, Scheduled _ => True
  | _, _ => False
  end.

(** What a trim pass does to a candidate: it calls the [destroy] of an
    entry that the store holds and that is not locked, or deletes such an
    entry that has no [destroy]. *)
Definition trim_event (s : engine) (ev : event) : Prop :=
  match ev with
  | EvDestroy hash r =>
      ∃ e, entry s hash = Some (r, e) ∧ (locked e ≤ 0)%Z ∧ destroy e = true
  | EvDelete hash =>
      ∃ r e, entry s hash = Some (r, e) ∧ (locked e ≤ 0)%Z ∧ destroy e = false
  | _ => False
  end.

(** The states a fetch can be in when [getOrInsertCachedValue] returns its
    promise. *)
Definition starting (st : fetch) : Prop :=
  match st with
  | AwaitCreate | AwaitWait | Fetched (Fulfilled _) => True
  | _ => False
  end.

Definition parked_removal (tk : task) : Prop := ∃ hash, tk = Removal hash AwaitDestroy.

Definition tasks_grow (s s' : engine) : Prop :=
  ∀ t tk, tasks s !! t = Some tk → ∃ tk', tasks s' !! t = Some tk' ∧ same_call tk tk'.

(** What each caller of [getCachedValue] settles with. *)
Definition settled_for (c : caller) (key : K) (r : result) : Prop :=
  match c, r with
  | Get, RValue _ => True
  | GetWith, RTransformed _ => True
  | Item, RItem k _ => k = key
  | ItemLock, RLocked k _ => k = key
  | _, _ => False
  end.

Definition is_item (s : engine) (lock : bool) (id : nat) (key : K) : Prop :=
  ∃ hash now st, tasks s !! id = Some (Fetch (item_caller lock) key hash now st).

Definition multi_ok (lock : bool) (keys : list K) (st : multi) : Prop :=
  match st with
  | AwaitAll => True
  | AwaitTransformerAll kcs => kcs.*1 = keys
  | MultiSettled (Fulfilled (RPairs kvs)) => kvs.*1 = keys
  | MultiSettled _ => True
  end.

(** The bookkeeping of the batch calls: the items of a batch are the fetches
    of its keys, in order, and what has been assembled from them so far
    lists the keys in that order. *)
Record order_ok (s : engine) : Prop := {
  order_fetch : ∀ t c key hash now r,
    tasks s !! t = Some (Fetch c key hash now (Settled (Fulfilled r))) →
    settled_for c key r;
  order_multi : ∀ t lock keys items st,
    tasks s !! t = Some (Multi lock keys items st) →
    Forall2 (is_item s lock) items keys ∧ multi_ok lock keys st;
  order_log : ∀ t kvs,
    EvTransformer t kvs ∈ log s →
    match tasks s !! t with
    | Some (Multi true keys _ _) => kvs.*1 = keys
    | Some (Fetch GetWith key _ _ _) => kvs.*1 = [key]
    | _ => False
    end;
}.

(** Counting, for a hash: the fetches that are inside [addToStore] (from
    [initializing.add] to [initializing.delete]), those of them still at
    [await create(key)], the calls of the factory, its failures, and whether
    the store holds an entry. *)
Definition creating_at (h : string) (tk : task) : nat :=
  match tk with
  | Fetch _ _ hash _ AwaitCreate | Fetch _ _ hash _ (AwaitShrink _ _) =>
      if decide (hash = h) then 1 else 0
  | _ => 0
  end.

Definition flying_at (h : string) (tk : task) : nat :=
  match tk with
  | Fetch _ _ hash _ AwaitCreate => if decide (hash = h) then 1 else 0
  | _ => 0
  end.

Definition call_at (h : string) (ev : event) : nat :=
  match ev with
  | EvFactory _ k _ => if decide (hasher k = h) then 1 else 0
  | _ => 0
  end.

Definition failure_at (h : string) (ev : event) : nat :=
  match ev with
  | EvFactoryFailed _ k => if decide (hasher k = h) then 1 else 0
  | _ => 0
  end.

Definition creating (h : string) (s : engine) : nat := sum_list_with (creating_at h) (tasks s).
Definition flying (h : string) (s : engine) : nat := sum_list_with (flying_at h) (tasks s).
Definition factory_calls (h : string) (s : engine) : nat := sum_list_with (call_at h) (log s).
Definition factory_failures (h : string) (s : engine) : nat :=
  sum_list_with (failure_at h) (log s).
Definition stored (h : string) (s : engine) : nat :=
  if JsObject.has h (store s) then 1 else 0.

(** Single flight: a fetch carries the hash of its key, and for every hash
    there is one fetch inside [addToStore] when the hash is in
    [initializing], and none otherwise. *)
Record flight_ok (s : engine) : Prop := {
  flight_hash : ∀ t c key hash now st,
    tasks s !! t = Some (Fetch c key hash now st) → hash = hasher key;
  flight_one : ∀ h, creating h s = if decide (h ∈ initializing s) then 1 else 0;
}.

(** The entry a fetch has in hand, and the value a settled [get] returned. *)
Definition holds (st : fetch) : option nat :=
  match st with
  | AwaitShrink r _ | Fetched (Fulfilled r) | AwaitTransformer r
  | Settled (Fulfilled (RLocked _ r)) => Some r
  | _ => None
  end.

Definition yields (st : fetch) : option V :=
  match st with
  | Settled (Fulfilled (RValue v)) | Settled (Fulfilled (RItem _ v)) => Some v
  | _ => None
  end.

(** A cache that never evicts: neither [size] nor [expiry] is configured. *)
Definition unbounded : Prop := Opt.size options = None ∧ Opt.expiry options = None.

(** What disturbs the entry of a hash: its deletion from the store, and a
    call of the factory for it while the store holds an entry (an expired
    one, which the new entry overwrites). *)
Definition disturbs (h : string) (ev : event) : bool :=
  match ev with
  | EvDelete hash => bool_decide (hash = h)
  | EvFactory _ k (Some _) => bool_decide (hasher k = h)
  | _ => false
  end.

Definition quiet (h : string) (s : engine) : bool :=
  forallb (λ ev, negb (disturbs h ev)) (log s).

(** For a hash [h] that is quiet in the log of [s], every call of the
    factory in that log is accounted for (it failed, is still running, or
    its entry is in the store), the hash has a running creation only while
    it has no entry, and what a fetch for [h], of those from the task [m]
    on, has in hand or has returned is the entry of the hash. *)
Record quiet_ok (m : nat) (h : string) (s : engine) : Prop := {
  quiet_account : quiet h s = true →
    factory_calls h s = factory_failures h s + flying h s + stored h s;
  quiet_fresh : quiet h s = true → flying h s + stored h s ≤ 1;
  quiet_holds : ∀ t c key now st r,
    m ≤ t → quiet h s = true →
    tasks s !! t = Some (Fetch c key h now st) → holds st = Some r →
    JsObject.get h (store s) = Some r;
  quiet_yields : ∀ t c key now st v,
    m ≤ t → quiet h s = true →
    tasks s !! t = Some (Fetch c key h now st) → yields st = Some v →
    ∃ r e, JsObject.get h (store s) = Some r ∧ heap s !! r = Some e ∧ value e = v;
}.

(** What lets a parked fetch run on: the entry it has in hand is an object
    of the heap, only [getWith] waits for a transformer, and what the trim
    pass of a fetch waits for are removals. *)
Definition is_removal (s : engine) (id : nat) : Prop :=
  ∃ hash st, tasks s !! id = Some (Removal hash st).

Record live_ok (s : engine) : Prop := {
  live_held : ∀ t c key hash now st r,
    tasks s !! t = Some (Fetch c key hash now st) → holds st = Some r →
    r < length (heap s);
  live_caller : ∀ t c key hash now r,
    tasks s !! t = Some (Fetch c key hash now (AwaitTransformer r)) → c = GetWith;
  live_trim : ∀ t c key hash now r cs failed,
    tasks s !! t = Some (Fetch c key hash now (AwaitShrink r (Trimming cs failed))) →
    Forall (is_removal s) cs;
}.

(** The states of a fetch whose promise is, or may come to be, rejected
    without the factory failing again. *)
Definition failing (st : fetch) : bool :=
  match st with
  | AwaitShrink _ (ShrinkSettled (Fulfilled _)) => false
  | AwaitShrink _ _ | Fetched (Rejected _) | Settled (Rejected _) => true
  | _ => false
  end.

(** Some schedule leads from [s] to [s']. *)
Definition leads_to (s s' : engine) : Prop := ∃ sch, run sch s = Some s'.

(** Every task, but [t'] and the removals still at [await destroy()], is in
    [s'] what it was in [s]. *)
Definition kept_but (t' : option nat) (s s' : engine) : Prop :=
  ∀ t tk, Some t ≠ t' → tasks s !! t = Some tk → ¬ parked_removal tk →
          tasks s' !! t = Some tk.


(** ** Further notions *)

(** The tasks that are inside [trim], parked at its [await Promise.all(...)]
    (line 80): a fetch inside [addToStore], or the timer's callback. *)
Definition shrink_weight (sh : shrink) : nat :=
  match sh with Trimming _ _ => 1 | ShrinkSettled _ => 0 end.

Definition trimming_at (tk : task) : nat :=
  match tk with
  | Fetch _ _ _ _ (AwaitShrink _ sh) | Scheduled sh => shrink_weight sh
  | _ => 0
  end.

Definition trimming (s : engine) : nat := sum_list_with trimming_at (tasks s).

(** Promises that are not rejected by the engine itself: a trim pass that
    has not thrown, and calls that, if rejected, are rejected with the
    error of the factory or, for the calls that run a transformer, of the
    transformer. *)
Definition shrink_sound (sh : shrink) : Prop :=
  match sh with
  | Trimming _ failed => failed = false
  | ShrinkSettled o => o = Fulfilled ()
  end.

Definition outcome_sound {A} (transforms : bool) (o : outcome A) : Prop :=
  match o with
  | Fulfilled _ => True
  | Rejected e => e = FactoryError ∨ (transforms = true ∧ e = TransformerError)
  end.

Definition transforms (c : caller) : bool :=
  match c with GetWith => true | _ => false end.

Definition task_sound (tk : task) : Prop :=
  match tk with
  | Fetch c _ _ _ (AwaitShrink _ sh) => shrink_sound sh
  | Fetch c _ _ _ (Fetched o) => outcome_sound false o
  | Fetch c _ _ _ (Settled o) => outcome_sound (transforms c) o
  | Multi lock _ _ (MultiSettled o) => outcome_sound lock o
  | Scheduled sh => shrink_sound sh
  | _ => True
  end.

(** ** [memoize] ([src/memoize.js])

    [memoize(hash, behaviour, options)] is [createCache] with the factory
    [async key => ({value: await behaviour(key)})], which never supplies a
    [destroy], and it hands out [key => cache.get(key)] alone.  Of the
    environment's moves only the calls of [get], the outcomes of
    [behaviour], the resumptions and the timer remain. *)
Definition memoize_label (l : label) : bool :=
  match l with
  | CallGet _ | Resume _ | Timer | CreateFailed _ => true
  | Created _ _ d => negb d
  | _ => false
  end.

Definition memoized (s : engine) : Prop :=
  ∃ sch s0, createCache = Some s0 ∧ run sch s0 = Some s ∧
            forallb memoize_label sch = true.

(** What such a cache consists of: entries that are not locked and have no
    [destroy], calls of [get] and the timer's callbacks, and no call of a
    [destroy] or a transformer. *)
Definition plain_task (tk : task) : Prop :=
  match tk with
  | Fetch c _ _ _ _ => c = Get
  | Scheduled _ => True
  | _ => False
  end.

Definition plain_event (ev : event) : Prop :=
  match ev with
  | EvDestroy _ _ | EvTransformer _ _ => False
  | _ => True
  end.

Record plain (s : engine) : Prop := {
  plain_heap : Forall (λ e, locked e = 0%Z ∧ destroy e = false) (heap s);
  plain_tasks : Forall plain_task (tasks s);
  plain_log : Forall plain_event (log s);
}.

(** ** What a batch was assembled from *)

(** The fetch [id] of [getMultiple] resolved with the pair [kv]; it was
    rejected with [e]. *)
Definition item_gave (s : engine) (id : nat) (kv : K * V) : Prop :=
  ∃ hash now,
    tasks s !! id
    = Some (Fetch Item kv.1 hash now (Settled (Fulfilled (RItem kv.1 kv.2)))).

Definition item_failed (s : engine) (e : error) (id : nat) : Prop :=
  ∃ key hash now,
    tasks s !! id = Some (Fetch Item key hash now (Settled (Rejected e))).

Record batch_ok (s : engine) : Prop := {
  batch_pairs : ∀ t keys items kvs,
    tasks s !! t = Some (Multi false keys items (MultiSettled (Fulfilled (RPairs kvs)))) →
    Forall2 (item_gave s) items kvs;
  batch_rejected : ∀ t keys items e,
    tasks s !! t = Some (Multi false keys items (MultiSettled (Rejected e))) →
    Exists (item_failed s e) items;
}.

(** ** Who holds a lock

    The increments of [locked] that have not been undone, for the object
    [r]: one for each [getWith] whose transformer is running on it (lines
    155-160), and one for each key of a [getMultipleWith] that has been
    handed it (line 172) for as long as the batch has not run its
    [finally] (lines 187-192). *)
Definition holds_lock (r : nat) (tk : task) : nat :=
  match tk with
  | Fetch GetWith _ _ _ (AwaitTransformer r') => if decide (r' = r) then 1 else 0
  | _ => 0
  end.

Definition item_lock (r : nat) (o : option task) : nat :=
  match o with
  | Some (Fetch ItemLock _ _ _ (Settled (Fulfilled (RLocked _ r')))) =>
      if decide (r' = r) then 1 else 0
  | _ => 0
  end.

(** A batch has run its [finally] once its transformer has settled; a
    batch that [Promise.all] rejected never gets there. *)
Definition released (st : multi) : bool :=
  match st with
  | MultiSettled (Fulfilled _) | MultiSettled (Rejected TransformerError) => true
  | _ => false
  end.

Definition batch_locks (r : nat) (ts : list task) (tk : task) : nat :=
  match tk with
  | Multi true _ items st =>
      if released st then 0 else sum_list_with (λ id, item_lock r (ts !! id)) items
  | _ => 0
  end.

Definition owns (t : nat) (tk : task) : nat :=
  match tk with
  | Multi true _ items st =>
      if released st then 0
      else sum_list_with (λ id, if decide (id = t) then 1 else 0) items
  | _ => 0
  end.

Definition locks_of (r : nat) (ts : list task) : nat :=
  sum_list_with (holds_lock r) ts + sum_list_with (batch_locks r ts) ts.

Definition locks (r : nat) (s : engine) : nat := locks_of r (tasks s).

(** The items of a batch are the tasks spawned just before it, every fetch
    for [getMultipleWith] is an item of a batch, the entries a batch has
    locked are those its items were handed, a batch that has run its
    [finally] had all its items settled, and an object is locked exactly as
    often as locks on it are held. *)
Definition item_locked (s : engine) (id : nat) (kc : K * nat) : Prop :=
  ∃ key hash now,
    tasks s !! id
    = Some (Fetch ItemLock key hash now (Settled (Fulfilled (RLocked kc.1 kc.2)))).

Definition item_settled (s : engine) (id : nat) : Prop :=
  ∃ c key hash now o, tasks s !! id = Some (Fetch c key hash now (Settled o)).

Record lock_ok (s : engine) : Prop := {
  lock_count : ∀ r e, heap s !! r = Some e → locked e = Z.of_nat (locks r s);
  lock_items : ∀ m lock keys items st,
    tasks s !! m = Some (Multi lock keys items st) →
    items = seq (m - length items) (length items) ∧ length items ≤ m;
  lock_batch : ∀ m keys items kcs,
    tasks s !! m = Some (Multi true keys items (AwaitTransformerAll kcs)) →
    Forall2 (item_locked s) items kcs;
  lock_owner : ∀ id key hash now st,
    tasks s !! id = Some (Fetch ItemLock key hash now st) →
    ∃ m keys items mst, tasks s !! m = Some (Multi true keys items mst) ∧ id ∈ items;
  lock_passed : ∀ m keys items mst,
    tasks s !! m = Some (Multi true keys items mst) → released mst = true →
    Forall (item_settled s) items;
}.

(** The transformer's error is only found where a transformer ran. *)
Definition task_clean (tk : task) : Prop :=
  match tk with
  | Fetch _ _ _ _ (AwaitShrink _ (ShrinkSettled (Rejected e)))
  | Fetch _ _ _ _ (Fetched (Rejected e)) => e ≠ TransformerError
  | Fetch c _ _ _ (Settled (Rejected e)) => c = GetWith ∨ e ≠ TransformerError
  | _ => True
  end.

(** Nothing holds a lock: no transformer of a [getWith] is running, and
    every [getMultipleWith] has run its [finally]. *)
Definition idle (tk : task) : bool :=
  match tk with
  | Fetch GetWith _ _ _ (AwaitTransformer _) => false
  | Multi true _ _ st => released st
  | _ => true
  end.

(** ** What a fetch that created an entry goes on with

    Once the factory of a fetch has resolved with [v] and the new object
    [r] has been made (lines 105-111), the fetch has [r] in hand: it is
    past [await create(key)] for good, and what it returns is read from
    [r]. *)
Definition tied (r : nat) (v : V) (st : fetch) : Prop :=
  match st with
  | AwaitCreate | AwaitWait | Woken => False
  | AwaitShrink r' _ | Fetched (Fulfilled r') | AwaitTransformer r' => r' = r
  | Fetched (Rejected _) | Settled (Rejected _) => True
  | Settled (Fulfilled res) =>
      match res with
      | RValue v' | RItem _ v' => v' = v
      | RLocked _ r' => r' = r
      | RPairs _ | RTransformed _ => True
      end
  end.

End Engine.

(** ** Concrete runs

    Keys are strings hashed by the identity, values and transformer results
    are numbers, and the injected clock returns the readings of a list. *)
Definition list_clock (readings : list Z) (n : nat) : Z := default 0%Z (readings !! n).

Definition play (options : Opt.CacheOptions) (readings : list Z)
    (sch : list (@label string nat nat)) : option (@engine string nat nat) :=
  s ← createCache options; run id options (list_clock readings) sch s.

Definition state_after (options : Opt.CacheOptions) (readings : list Z)
    (sch : list (@label string nat nat)) : @engine string nat nat :=
  default {| store := []; heap := []; initializing := ∅; shrinkLock := false;
             reads := 0; tasks := []; log := [] |}
          (play options readings sch).

Definition noBounds : Opt.CacheOptions := {| Opt.size := None; Opt.expiry := None |}.
Definition sizeOne : Opt.CacheOptions := {| Opt.size := Some 1%Z; Opt.expiry := None |}.
Definition expiryFive : Opt.CacheOptions := {| Opt.size := None; Opt.expiry := Some 5%Z |}.
Definition sizeOneExpiryFive : Opt.CacheOptions :=
  {| Opt.size := Some 1%Z; Opt.expiry := Some 5%Z |}.

(** [get(key)] from the call to its result under [expiry], the factory
    resolving with [v] (and no [destroy]) and the trim pass having nothing
    to wait for. *)
Definition get_created (t : nat) (key : string) (v : nat) : list (@label string nat nat) :=
  [CallGet key; Created t v false; Resume t; Resume t; Resume t].

(** Two [get("k")] at clock 1 and 2 on the empty cache of size 1, and a
    [get("j")] at clock 3 whose factory resolves first: when the factory of
    ["k"] resolves, its entry is the least recently accessed and the trim
    pass deletes it at once; the waiting call finds no entry and creates
    again. *)
Definition two_gets_and_a_neighbour : list (@label string nat nat) :=
  [CallGet "k"; CallGet "k"; CallGet "j";
   Created 2 20 false; Resume 2; Resume 2;
   Created 0 10 false; Resume 0; Resume 0; Resume 0;
   Resume 1; Resume 1; Created 1 11 false; Resume 1; Resume 1; Resume 1].

(** [get("x")] at clock 0, then again when the clock reads 5. *)
Definition get_at_the_boundary : list (@label string nat nat) :=
  get_created 0 "x" 1 ++ [CallGet "x"].

(** [get("a")] at clock 0 and [get("b")] at clock 10, under [size = 1] and
    [expiry = 5]: ["a"] is both beyond the size bound and expired. *)
Definition get_evicting_twice : list (@label string nat nat) :=
  get_created 0 "a" 1 ++ get_created 1 "b" 2.

(** [getMultipleWith(["a", "b"], transformer)] where the factory fails for
    ["b"] and resolves for ["a"]. *)
Definition batch_with_a_failure : list (@label string nat nat) :=
  [CallGetMultipleWith ["a"; "b"]; Created 0 1 false; CreateFailed 1;
   Resume 1; Resume 2; Resume 0; Resume 0].

(** [getWith("k", transformer)] at clock 0, whose transformer is still
    running when [get("k")] is called at clock 10. *)
Definition locked_then_expired : list (@label string nat nat) :=
  [CallGetWith "k"; Created 0 1 false; Resume 0; Resume 0; Resume 0; CallGet "k"].

(** Under [size = 1]: ["a"] has a [destroy] callback; [get("b")] starts its
    removal; while [destroy] runs, [getWith("a", transformer)] locks the
    entry. *)
Definition destroy_pending : list (@label string nat nat) :=
  [CallGet "a"; Created 0 1 true; Resume 0; Resume 0; CallGet "b"; Created 1 2 false].

Definition locked_during_destroy : list (@label string nat nat) :=
  destroy_pending ++ [CallGetWith "a"; Resume 3].

(** Under [size = 1]: ["a"] is locked by a running transformer when ["b"]
    is created, so the store holds two entries. *)
Definition locked_and_one_more : list (@label string nat nat) :=
  [CallGetWith "a"; Created 0 1 false; Resume 0; Resume 0;
   CallGet "b"; Created 1 2 false].

(** [getMultiple(["a", "b", "c"])] whose fetches complete in the order
    ["c"], ["a"], ["b"]. *)
Definition batch_out_of_order : list (@label string nat nat) :=
  [CallGetMultiple ["a"; "b"; "c"];
   Created 2 30 false; Resume 2; Resume 2;
   Created 0 10 false; Resume 0; Resume 0;
   Created 1 20 false; Resume 1; Resume 1; Resume 3].

(** The same batch when its fetches have completed, in that order, and it
    has not gone on yet. *)
Definition batch_fetched_out_of_order : list (@label string nat nat) :=
  [CallGetMultiple ["a"; "b"; "c"];
   Created 2 30 false; Resume 2; Resume 2;
   Created 0 10 false; Resume 0; Resume 0;
   Created 1 20 false; Resume 1; Resume 1].

(** [getMultipleWith(["a", "b"], transformer)] whose fetches have completed,
    the one of ["b"] first, and which has not gone on yet. *)
Definition batch_locked_out_of_order : list (@label string nat nat) :=
  [CallGetMultipleWith ["a"; "b"];
   Created 1 2 false; Resume 1; Resume 1;
   Created 0 1 false; Resume 0; Resume 0].



(** Three [get("k")] issued together; the factory resolves once. *)
Definition three_gets : list (@label string nat nat) :=
  [CallGet "k"; CallGet "k"; CallGet "k";
   Created 0 7 false; Resume 0; Resume 0;
   Resume 2; Resume 2; Resume 2; Resume 1; Resume 1; Resume 1].

(** [get(key)] from the call to its result when no trim pass starts. *)
Definition get_stored (t : nat) (key : string) (v : nat) : list (@label string nat nat) :=
  [CallGet key; Created t v false; Resume t; Resume t].

(** Under [size = 1]: [get("k")] from the call to its result, then
    [get("j")], whose insertion evicts the entry of ["k"]. *)
Definition evicted_by_a_neighbour : list (@label string nat nat) :=
  get_stored 0 "k" 1 ++ [CallGet "j"; Created 1 20 false; Resume 1; Resume 1; Resume 1].

(** After that, two [get("k")] issued together; the factory resolves once,
    the insertion evicts the entry of ["j"], and the call that waited finds
    the entry. *)
Definition two_gets_later : list (@label string nat nat) :=
  [CallGet "k"; CallGet "k"; Created 2 7 false; Resume 2; Resume 2; Resume 2;
   Resume 3; Resume 3; Resume 3].

(** [getWith("k", transformer)] up to the call of the transformer. *)
Definition transformer_running : list (@label string nat nat) :=
  [CallGetWith "k"; Created 0 1 false; Resume 0; Resume 0].

(** [getMultipleWith(["a", "b"], transformer)] from the call to its result,
    the transformer resolving with [5]. *)
Definition batch_transformed : list (@label string nat nat) :=
  [CallGetMultipleWith ["a"; "b"];
   Created 0 1 false; Resume 0; Resume 0;
   Created 1 2 false; Resume 1; Resume 1;
   Resume 2; Transformed 2 5].

(** Under [size = 1]: two [get("k")] and a [get("j")] whose factory
    resolves first, so that the entry of ["k"] is evicted by the trim pass
    of its own insertion. *)
Definition neighbour_first : list (@label string nat nat) :=
  [CallGet "k"; CallGet "k"; CallGet "j"; Created 2 20 false; Resume 2; Resume 2].

(** * Properties *)

(** ** Own-property lookup after assignment and [delete] *)
Module JsObjectFacts.
Import JsObject.
Section obj.
Context {A : Type}.
Implicit Types (o : @JsObject.t A) (h : string) (v : A).

Lemma get_remove_eq h o : get h (remove h o) = None.
Proof.
  induction o as [|[k v] o IH]; simpl; [done|].
  destruct (decide (k = h)); simpl; [done|].
  by rewrite decide_False.
Qed.

Lemma get_remove_ne h h' o : h ≠ h' → get h' (remove h o) = get h' o.
Proof.
  intros Hne. induction o as [|[k v] o IH]; simpl; [done|].
  destruct (decide (k = h)) as [->|]; simpl.
  - by rewrite decide_False.
  - by rewrite IH.
Qed.

Lemma get_replace_eq h v o : is_Some (get h o) → get h (replace h v o) = Some v.
Proof.
  induction o as [|[k x] o IH]; simpl; [by intros [? ?]|].
  destruct (decide (k = h)) as [->|]; simpl.
  - by rewrite decide_True.
  - intros. by rewrite decide_False; auto.
Qed.

Lemma get_replace_ne h h' v o : h ≠ h' → get h' (replace h v o) = get h' o.
Proof.
  intros Hne. induction o as [|[k x] o IH]; simpl; [done|].
  destruct (decide (k = h)) as [->|]; simpl.
  - by rewrite !decide_False.
  - by rewrite IH.
Qed.

Lemma get_place_index n h h' v o :
  array_index h = Some n →
  get h' (place_index n h v o) = if decide (h = h') then Some v else get h' o.
Proof.
  intros Hn. induction o as [|[k x] o IH]; simpl; [done|].
  destruct (array_index k) as [m|] eqn:Hk; [destruct (m <? n)%N eqn:Hlt|];
    simpl; try done.
  rewrite IH. destruct (decide (h = h')) as [->|]; [|done].
  rewrite decide_False; [done|]. intros ->.
  rewrite Hk in Hn. injection Hn as ->. apply N.ltb_lt in Hlt. lia.
Qed.

Lemma get_app_absent h h' v o :
  get h' (o ++ [(h, v)]) =
    match get h' o with Some x => Some x | None => if decide (h = h') then Some v else None end.
Proof.
  induction o as [|[k x] o IH]; simpl; [done|].
  destruct (decide (k = h')); [done|]. apply IH.
Qed.

Lemma get_set_eq h v o : get h (set h v o) = Some v.
Proof.
  unfold set. destruct (get h o) as [x|] eqn:Hg.
  - apply get_replace_eq. by rewrite Hg.
  - destruct (array_index h) as [n|] eqn:Hn.
    + rewrite (get_place_index n) by done. by rewrite decide_True.
    + rewrite get_app_absent, Hg. by rewrite decide_True.
Qed.

Lemma get_set_ne h h' v o : h ≠ h' → get h' (set h v o) = get h' o.
Proof.
  intros Hne. unfold set. destruct (get h o) as [x|] eqn:Hg.
  - by apply get_replace_ne.
  - destruct (array_index h) as [n|] eqn:Hn.
    + rewrite (get_place_index n) by done. by rewrite decide_False.
    + rewrite get_app_absent. rewrite decide_False by done.
      by destruct (get h' o).
Qed.

Lemma has_get h o : has h o = true ↔ is_Some (get h o).
Proof. unfold has. destruct (get h o); split; try done; eauto. Qed.

Lemma has_false h o : has h o = false ↔ get h o = None.
Proof. unfold has. by destruct (get h o). Qed.

Lemma get_None h o : get h o = None ↔ h ∉ o.*1.
Proof.
  induction o as [|[k x] o IH]; simpl.
  - split; [intros _; apply not_elem_of_nil | done].
  - rewrite not_elem_of_cons. destruct (decide (k = h)) as [->|].
    + split; [done | by intros [? _]].
    + rewrite IH. split; [by split | by intros [_ ?]].
Qed.

Lemma get_Some_elem h v o : get h o = Some v → (h, v) ∈ o.
Proof.
  induction o as [|[k x] o IH]; simpl; [done|].
  destruct (decide (k = h)) as [->|]; [intros [= ->]; left | right; auto].
Qed.

Lemma elem_get h v o : NoDup o.*1 → (h, v) ∈ o → get h o = Some v.
Proof.
  induction o as [|[k x] o IH]; simpl; [by intros _ ?%elem_of_nil|].
  intros [Hk Hnd]%NoDup_cons [[= <- <-]|Hin]%elem_of_cons.
  - by rewrite decide_True.
  - rewrite decide_False; [auto|]. intros ->. apply Hk.
    apply list_elem_of_fmap. by exists (h, v).
Qed.

Lemma remove_sublist h o : remove h o `sublist_of` o.
Proof.
  induction o as [|[k x] o IH]; simpl; [done|].
  destruct (decide (k = h)); by constructor.
Qed.

Lemma replace_keys h v o : (replace h v o).*1 = o.*1.
Proof.
  induction o as [|[k x] o IH]; simpl; [done|].
  destruct (decide (k = h)); simpl; [done | by f_equal].
Qed.

Lemma replace_length h v o : length (replace h v o) = length o.
Proof. by rewrite <-(length_fmap fst), replace_keys, length_fmap. Qed.

Lemma replace_elem p h v o : p ∈ replace h v o → p ∈ o ∨ p.2 = v.
Proof.
  induction o as [|[k x] o IH]; simpl; [by intros ?%elem_of_nil|].
  destruct (decide (k = h)) as [->|].
  - intros [->|?]%elem_of_cons; [by right | left; by apply list_elem_of_further].
  - intros [->|?]%elem_of_cons; [left; by apply list_elem_of_here|].
    destruct IH as [?|?]; [done | left; by apply list_elem_of_further | by right].
Qed.

Lemma replace_values_NoDup h v o :
  NoDup o.*2 → v ∉ o.*2 → NoDup (replace h v o).*2.
Proof.
  induction o as [|[k x] o IH]; simpl; [done|].
  intros [Hx Hnd]%NoDup_cons [Hvx Hv]%not_elem_of_cons.
  destruct (decide (k = h)) as [->|]; simpl.
  - by apply NoDup_cons.
  - apply NoDup_cons. split; [|auto].
    intros ([k' x'] & Heq & Hin)%list_elem_of_fmap. simpl in Heq. subst x'.
    apply replace_elem in Hin as [Hin|Hin]; [|by simpl in Hin].
    apply Hx, list_elem_of_fmap. by exists (k', x).
Qed.

Lemma place_index_perm n h v o : place_index n h v o ≡ₚ (h, v) :: o.
Proof.
  induction o as [|[k x] o IH]; simpl; [done|].
  destruct (array_index k) as [m|]; [destruct (m <? n)%N|]; try done.
  rewrite IH. apply Permutation_swap.
Qed.

Lemma set_absent h v o : get h o = None → set h v o ≡ₚ (h, v) :: o.
Proof.
  intros Hg. unfold set. rewrite Hg. destruct (array_index h).
  - apply place_index_perm.
  - by rewrite Permutation_app_comm.
Qed.

Lemma set_present h v o : is_Some (get h o) → set h v o = replace h v o.
Proof. intros [x Hx]. unfold set. by rewrite Hx. Qed.

Lemma set_keys_NoDup h v o : NoDup o.*1 → NoDup (set h v o).*1.
Proof.
  intros Hnd. destruct (get h o) as [x|] eqn:Hg.
  - rewrite set_present by eauto. by rewrite replace_keys.
  - rewrite (set_absent _ _ _ Hg). simpl. apply NoDup_cons. split; [|done].
    by apply get_None.
Qed.

Lemma set_values_NoDup h v o : NoDup o.*2 → v ∉ o.*2 → NoDup (set h v o).*2.
Proof.
  intros Hnd Hv. destruct (get h o) as [x|] eqn:Hg.
  - rewrite set_present by eauto. by apply replace_values_NoDup.
  - rewrite (set_absent _ _ _ Hg). simpl. by apply NoDup_cons.
Qed.

Lemma set_elem p h v o : p ∈ set h v o → p ∈ o ∨ p.2 = v.
Proof.
  destruct (get h o) as [x|] eqn:Hg.
  - rewrite set_present by eauto. apply replace_elem.
  - rewrite (set_absent _ _ _ Hg). intros [->|?]%elem_of_cons; auto.
Qed.

End obj.
End JsObjectFacts.

(** ** [sortBy] sorts and permutes *)
Section sortBy_facts.
Context {A : Type} (f : A → Z).
Local Abbreviation le_by := (le_by f).

Lemma insert_by_perm x l : insert_by f x l ≡ₚ x :: l.
Proof.
  induction l as [|y l IH]; simpl; [done|].
  destruct (f x <=? f y)%Z; [done|]. rewrite IH. apply Permutation_swap.
Qed.

Lemma sortBy_perm l : sortBy f l ≡ₚ l.
Proof.
  induction l as [|x l IH]; simpl; [done|].
  by rewrite insert_by_perm, IH.
Qed.

Lemma insert_by_sorted x l :
  StronglySorted le_by l → StronglySorted le_by (insert_by f x l).
Proof.
  induction 1 as [|y l Hl IH Hy]; simpl.
  - repeat constructor.
  - destruct (f x <=? f y)%Z eqn:Hxy.
    + apply Z.leb_le in Hxy. constructor; [by constructor|].
      constructor; [done|].
      eapply Forall_impl; [exact Hy|]. unfold le_by. intros; lia.
    + apply Z.leb_gt in Hxy. constructor; [done|].
      rewrite insert_by_perm. constructor; [unfold le_by; lia|done].
Qed.

Lemma sortBy_sorted l : StronglySorted le_by (sortBy f l).
Proof.
  induction l as [|x l IH]; simpl; [constructor|]. by apply insert_by_sorted.
Qed.

(** Of the list sorted downwards, whatever lies beyond the first [n] elements
    is no greater than any of these. *)
Lemma sortBy_reverse_split n l x y :
  x ∈ take n (reverse (sortBy f l)) → y ∈ drop n (reverse (sortBy f l)) →
  (f y ≤ f x)%Z.
Proof.
  intros Hx Hy.
  pose proof (sortBy_sorted l) as Hs.
  rewrite <-(reverse_involutive (sortBy f l)) in Hs.
  rewrite <-(take_drop n (reverse (sortBy f l))), reverse_app in Hs.
  apply (StronglySorted_app_1_elem_of _ _ _ y x) in Hs; [done|..];
    by apply elem_of_reverse.
Qed.

End sortBy_facts.

(** ** The engine *)
Section EngineFacts.
Context {K V W : Type}.
Variable hasher : K → string.
Variable options : Opt.CacheOptions.
Variable clock : nat → Z.

Local Abbreviation engine := (@engine K V W).
Local Abbreviation task := (@task K V W).
Local Abbreviation label := (@label K V W).
Local Abbreviation event := (@event K V).
Local Abbreviation result := (@result K V W).
Local Abbreviation fetch := (@fetch K V W).
Local Abbreviation step := (step hasher options clock).
Local Abbreviation run := (run hasher options clock).
Local Abbreviation reachable := (reachable hasher options clock).
Local Abbreviation getCachedValue := (getCachedValue hasher options clock).
Local Abbreviation getCachedValues := (getCachedValues hasher options clock).
Local Abbreviation getOrInsertCachedValue := (getOrInsertCachedValue options).
Local Abbreviation afterWait := (afterWait options).
Local Abbreviation isExpired := (isExpired options).
Local Abbreviation shrinkCache := (shrinkCache options).
Local Abbreviation trim := (trim options).
Local Abbreviation trims := (trims options).
Local Abbreviation trim_start := (trim_start options).
Local Abbreviation oldestValues := (oldestValues options).
Local Abbreviation expiredValues := (expiredValues options).
Local Abbreviation resume := (resume options).
Local Abbreviation resume_fetch := (resume_fetch options).
Local Abbreviation createCache := (@createCache K V W options).
Local Abbreviation Step := (Step hasher options clock).
Local Abbreviation fetch_start := (fetch_start options).
Local Abbreviation fetch_call := (fetch_call hasher options clock).
Local Abbreviation fetch_calls := (fetch_calls hasher options clock).
Local Abbreviation flight_ok := (flight_ok hasher).
Local Abbreviation factory_calls := (factory_calls hasher).
Local Abbreviation factory_failures := (factory_failures hasher).
Local Abbreviation call_at := (call_at hasher).
Local Abbreviation failure_at := (failure_at hasher).
Local Abbreviation unbounded := (unbounded options).
Local Abbreviation quiet := (quiet hasher).
Local Abbreviation quiet_ok := (quiet_ok hasher).
Local Abbreviation disturbs := (disturbs hasher).
Local Abbreviation leads_to := (leads_to hasher options clock).
Local Abbreviation memoized := (memoized hasher options clock).

Implicit Types (s : engine) (t : nat) (hash : string) (key : K) (l : label).
Implicit Types (kcs : list (K * nat)) (keys : list K) (tk : task).
Implicit Types (os : list (option (outcome result))) (rs : list result).

Lemma run_app sch1 sch2 s :
  run (sch1 ++ sch2) s = s' ← run sch1 s; run sch2 s'.
Proof.
  revert s. induction sch1 as [|l sch1 IH]; intros s; simpl; [done|].
  destruct (step l s); simpl; [apply IH | done].
Qed.

Lemma reachable_step l s s' : reachable s → step l s = Some s' → reachable s'.
Proof.
  intros (sch & s0 & H0 & Hrun) Hstep. exists (sch ++ [l]), s0. split; [done|].
  rewrite run_app, Hrun. simpl. by rewrite Hstep.
Qed.

Lemma reachable_run sch s s' : reachable s → run sch s = Some s' → reachable s'.
Proof.
  revert s. induction sch as [|l sch IH]; intros s Hs; simpl.
  - by intros [= <-].
  - destruct (step l s) as [s1|] eqn:Hstep; simpl; [|done].
    apply IH. by eapply reachable_step.
Qed.

(** Induction over the reachable states. *)
Lemma reachable_invariant (P : engine → Prop) :
  (∀ s0, createCache = Some s0 → P s0) →
  (∀ l s s', reachable s → P s → step l s = Some s' → P s') →
  ∀ s, reachable s → P s.
Proof.
  intros Hinit Hstep s (sch & s0 & H0 & Hrun).
  assert (Hr0 : reachable s0) by (by exists [], s0).
  specialize (Hinit _ H0). clear H0.
  revert s0 Hr0 Hinit Hrun. induction sch as [|l sch IH]; intros s0 Hr0 Hinit; simpl.
  - by intros [= <-].
  - destruct (step l s0) as [s1|] eqn:Hs1; simpl; [|done].
    apply IH; [by eapply reachable_step | by eapply Hstep].
Qed.

(** *** Every transition is one of the cases of [Step] *)

Lemma getOrInsertCachedValue_start t s key hash now s' st :
  getOrInsertCachedValue t s key hash now = Some (s', st) →
  fetch_start t s key hash now s' st.
Proof.
  unfold getOrInsertCachedValue, addToStore, touch.
  destruct (bool_decide (hash ∈ initializing s)) eqn:Hinit.
  - apply bool_decide_eq_true in Hinit. rewrite andb_false_r.
    intros [= <- <-]. by constructor.
  - apply bool_decide_eq_false in Hinit. rewrite andb_true_r.
    destruct (negb (JsObject.has hash (store s))) eqn:Hhas; simpl.
    { intros [= <- <-]. constructor; [left; by apply negb_true_iff|done]. }
    destruct (isExpired s hash now) eqn:Hexp.
    { intros [= <- <-]. constructor; [by right|done]. }
    destruct (JsObject.get hash (store s)) as [r|] eqn:Hget; simpl; [|done].
    intros [= <- <-]. by constructor.
Qed.

Lemma getCachedValue_call c key s s' :
  getCachedValue c key s = Some s' → fetch_call c key s s'.
Proof.
  unfold getCachedValue. destruct (inherited (hasher key)) eqn:Hinh; [done|].
  destruct (getOrInsertCachedValue _ _ _ _ _) as [[s1 st]|] eqn:Hg; simpl; [|done].
  intros [= <-]. constructor; [done|]. by apply getOrInsertCachedValue_start.
Qed.

Lemma getCachedValues_calls c keys s s' ids :
  getCachedValues c keys s = Some (s', ids) → fetch_calls c keys s s' ids.
Proof.
  revert s s' ids. induction keys as [|key keys IH]; intros s s' ids; simpl.
  - intros [= <- <-]. constructor.
  - destruct (getCachedValue c key s) as [s1|] eqn:H1; simpl; [|done].
    destruct (getCachedValues c keys s1) as [[s2 ids2]|] eqn:H2; simpl; [|done].
    intros [= <- <-]. econstructor; [by apply getCachedValue_call | by apply IH].
Qed.

Lemma step_Step l s s' : step l s = Some s' → Step l s s'.
Proof.
  destruct l; simpl.
  - intros H%getCachedValue_call. by eapply Step_call.
  - intros H%getCachedValue_call. by eapply Step_call.
  - destruct (getCachedValues _ _ _) as [[s1 ids]|] eqn:H1; simpl; [|done].
    intros [= <-]. apply getCachedValues_calls in H1.
    by eapply Step_multi with (lock := false).
  - destruct (getCachedValues _ _ _) as [[s1 ids]|] eqn:H1; simpl; [|done].
    intros [= <-]. apply getCachedValues_calls in H1.
    by eapply Step_multi with (lock := true).
  - destruct (bool_decide _) eqn:He; [|done]. apply bool_decide_eq_true in He.
    destruct (shrinkCache _ _) as [s1 sh] eqn:H1. intros [= <-].
    by apply Step_timer.
  - unfold resume. destruct (tasks s !! t) as [tk|] eqn:Ht; simpl; [|done].
    destruct tk as [c key hash now st|lock keys items st|hash st|sh].
    + unfold resume_fetch. destruct st as [|r sh| | |o|r|o]; try done.
      * destruct sh as [o|cs failed].
        -- intros [= <-]. by eapply Step_shrunk.
        -- destruct (trim_settles _ _ _) eqn:Hs; simpl; [|done].
           intros [= <-]. by eapply Step_trimmed.
      * destruct (bool_decide _) eqn:Hi; intros [= <-].
        -- apply bool_decide_eq_true in Hi. by eapply Step_poll.
        -- apply bool_decide_eq_false in Hi. by eapply Step_woken.
      * unfold afterWait.
        destruct (negb _) eqn:Hhas.
        -- destruct (getOrInsertCachedValue _ _ _ _ _) as [[s1 st]|] eqn:Hg; simpl; [|done].
           intros [= <-]. apply getOrInsertCachedValue_start in Hg.
           eapply Step_retry; [done| |done]. by apply negb_true_iff.
        -- unfold touch.
           destruct (JsObject.get hash (store s)) as [r|] eqn:Hg; simpl; [|done].
           intros [= <-]. by eapply Step_found.
      * destruct o as [r|e]; [|intros [= <-]; by eapply Step_rejected].
        destruct (heap s !! r) as [e|] eqn:He; simpl; [|done].
        destruct c; intros [= <-].
        -- by eapply Step_get.
        -- by eapply Step_lock.
        -- by eapply Step_item.
        -- by eapply Step_item_lock.
    + destruct st; try done. unfold resume_multi.
      destruct (promise_all _) as [[rs|e]|] eqn:Hall; simpl; [| |done].
      * destruct lock.
        -- destruct (mapM as_locked rs) as [kcs|] eqn:Hk; simpl; [|done].
           destruct (mapM _ kcs) as [kvs|] eqn:Hv; simpl; [|done].
           intros [= <-]. by eapply Step_all_locked.
        -- destruct (mapM as_pair rs) eqn:Hk; simpl; [|done].
           intros [= <-]. by eapply Step_all_pairs.
      * intros [= <-]. by eapply Step_all_rejected.
    + done.
    + destruct sh as [|cs failed]; [done|].
      destruct (trim_settles _ _ _) eqn:Hs; simpl; [|done].
      intros [= <-]. by eapply Step_scheduled.
  - destruct (tasks s !! t) as [[c key hash now []| | |]|] eqn:Ht; simpl; try done.
    destruct (shrinkCache _ _) as [s2 sh] eqn:H2. intros [= <-].
    by eapply Step_created.
  - destruct (tasks s !! t) as [[c key hash now []| | |]|] eqn:Ht; simpl; try done.
    intros [= <-]. by eapply Step_create_failed.
  - destruct (tasks s !! t) as [[| |hash []|]|] eqn:Ht; simpl; try done.
    intros [= <-]. by eapply Step_destroyed.
  - destruct (tasks s !! t) as [[| |hash []|]|] eqn:Ht; simpl; try done.
    intros [= <-]. by eapply Step_destroy_failed.
  - unfold transformer_settles.
    destruct (tasks s !! t) as [[[] key hash now []|[] keys items []| |]|] eqn:Ht;
      simpl; try done; intros [= <-].
    + by eapply Step_unlock.
    + by eapply Step_unlock_all.
  - unfold transformer_settles.
    destruct (tasks s !! t) as [[[] key hash now []|[] keys items []| |]|] eqn:Ht;
      simpl; try done; intros [= <-].
    + by eapply Step_unlock.
    + by eapply Step_unlock_all.
Qed.

(** *** The store and the objects along a transition *)

Lemma keeps_identity_set_timestamp now : keeps_identity (set_timestamp (V:=V) now).
Proof. by intros e. Qed.

Lemma keeps_identity_add_locked d : keeps_identity (add_locked (V:=V) d).
Proof. by intros e. Qed.

Lemma evolves_refl s : evolves s s.
Proof. by apply evolves_same. Qed.

Lemma evolves_proj s1 s2 s1' s2' :
  evolves s1 s2 →
  store s1' = store s1 → heap s1' = heap s1 →
  store s2' = store s2 → heap s2' = heap s2 →
  evolves s1' s2'.
Proof.
  intros H ? ? ? ?. eapply evolves_trans; [by apply evolves_same|].
  eapply evolves_trans; [exact H|]. by apply evolves_same.
Qed.

Local Ltac evolves_via H := eapply (evolves_proj _ _ _ _ H); done.

Lemma remove_candidates_evolves cs s s' ids failed :
  remove_candidates cs s = (s', ids, failed) → evolves s s'.
Proof.
  revert s s' ids failed. induction cs as [|hash cs IH]; intros s s' ids failed; simpl.
  - intros [= <- _ _]. apply evolves_refl.
  - destruct (entry s hash) as [[r e]|].
    + destruct (0 <? locked e)%Z; [by apply IH|].
      destruct (destroy e).
      * destruct (remove_candidates cs _) as [[s1 ids1] f1] eqn:Hrec.
        intros [= <- _ _]. apply IH in Hrec.
        evolves_via Hrec.
      * intros Hrec. apply IH in Hrec.
        eapply evolves_trans; [|exact Hrec]. by eapply evolves_remove.
    + destruct (remove_candidates cs s) as [[s1 ids1] f1] eqn:Hrec.
      intros [= <- _ _]. by eapply IH.
Qed.

Lemma shrinkCache_evolves s now s' sh :
  shrinkCache s now = (s', sh) → evolves s s'.
Proof.
  unfold shrinkCache, trim.
  destruct (shrinkLock s); [intros [= <- _]; apply evolves_refl|].
  destruct (_ || _); [|intros [= <- _]; apply evolves_refl].
  destruct (remove_candidates _ _) as [[s1 ids] failed] eqn:Hrec.
  intros [= <- _]. apply remove_candidates_evolves in Hrec.
  evolves_via Hrec.
Qed.

Lemma touch_evolves s hash now s' st :
  touch s hash now = Some (s', st) → evolves s s'.
Proof.
  unfold touch. destruct (JsObject.get hash (store s)) as [r|]; simpl; [|done].
  intros [= <- _]. eapply evolves_alter; [apply keeps_identity_set_timestamp|done..].
Qed.

Lemma getOrInsertCachedValue_evolves t s key hash now s' st :
  getOrInsertCachedValue t s key hash now = Some (s', st) → evolves s s'.
Proof.
  unfold getOrInsertCachedValue, addToStore.
  destruct (_ && _); [intros [= <- _]; by apply evolves_same|].
  destruct (bool_decide _); [intros [= <- _]; apply evolves_refl|].
  apply touch_evolves.
Qed.

Lemma getCachedValue_evolves c key s s' :
  getCachedValue c key s = Some s' → evolves s s'.
Proof.
  unfold getCachedValue. destruct (inherited _); [done|].
  destruct (getOrInsertCachedValue _ _ _ _ _) as [[s1 st]|] eqn:Hg; simpl; [|done].
  intros [= <-]. apply getOrInsertCachedValue_evolves in Hg.
  evolves_via Hg.
Qed.

Lemma getCachedValues_evolves c keys s s' ids :
  getCachedValues c keys s = Some (s', ids) → evolves s s'.
Proof.
  revert s s' ids. induction keys as [|key keys IH]; intros s s' ids; simpl.
  - intros [= <- _]. apply evolves_refl.
  - destruct (getCachedValue c key s) as [s1|] eqn:H1; simpl; [|done].
    destruct (getCachedValues c keys s1) as [[s2 ids2]|] eqn:H2; simpl; [|done].
    intros [= <- _]. eapply evolves_trans; [by eapply getCachedValue_evolves|by eapply IH].
Qed.

Lemma unlock_all_evolves kcs s s' :
  store s' = store s → heap s' = unlock_all kcs (heap s) → evolves s s'.
Proof.
  revert s. induction kcs as [|kc kcs IH]; intros s Hst Hhp; simpl in *.
  - by apply evolves_same.
  - apply (evolves_trans _ (with_heap (alter (add_locked (-1)) kc.2) s)).
    + eapply evolves_alter; [apply (keeps_identity_add_locked (-1))|done..].
    + by apply IH.
Qed.

Lemma step_evolves l s s' : step l s = Some s' → evolves s s'.
Proof.
  destruct l; simpl.
  - apply getCachedValue_evolves.
  - apply getCachedValue_evolves.
  - destruct (getCachedValues _ _ _) as [[s1 ids]|] eqn:H1; simpl; [|done].
    intros [= <-]. apply getCachedValues_evolves in H1.
    evolves_via H1.
  - destruct (getCachedValues _ _ _) as [[s1 ids]|] eqn:H1; simpl; [|done].
    intros [= <-]. apply getCachedValues_evolves in H1.
    evolves_via H1.
  - destruct (bool_decide _); [|done].
    destruct (shrinkCache _ _) as [s1 sh] eqn:H1. intros [= <-].
    apply shrinkCache_evolves in H1.
    evolves_via H1.
  - unfold resume. destruct (tasks s !! t) as [tk|]; simpl; [|done].
    destruct tk as [c key hash now st|lock keys items st|hash st|sh].
    + unfold resume_fetch. destruct st as [|r sh| | |o|r|o]; try done.
      * destruct sh as [o|cs failed].
        -- intros [= <-]. by apply evolves_same.
        -- destruct (trim_settles _ _ _); simpl; [|done].
           intros [= <-]. by apply evolves_same.
      * destruct (bool_decide _); intros [= <-]; by apply evolves_same.
      * unfold afterWait.
        destruct (negb _).
        -- destruct (getOrInsertCachedValue _ _ _ _ _) as [[s1 st]|] eqn:Hg; simpl; [|done].
           intros [= <-]. apply getOrInsertCachedValue_evolves in Hg.
           evolves_via Hg.
        -- destruct (touch _ _ _) as [[s1 st]|] eqn:Hg; simpl; [|done].
           intros [= <-]. apply touch_evolves in Hg.
           evolves_via Hg.
      * destruct o as [r|e]; [|intros [= <-]; by apply evolves_same].
        destruct (heap s !! r) as [e|]; simpl; [|done].
        destruct c; intros [= <-]; try by apply evolves_same.
        -- eapply evolves_alter; [apply (keeps_identity_add_locked 1)|done..].
        -- eapply evolves_alter; [apply (keeps_identity_add_locked 1)|done..].
    + destruct st; try done. unfold resume_multi.
      destruct (promise_all _) as [[rs|e]|]; simpl; [| |done].
      * destruct lock.
        -- destruct (mapM as_locked rs) as [kcs|]; simpl; [|done].
           destruct (mapM _ kcs); simpl; [|done].
           intros [= <-]. by apply evolves_same.
        -- destruct (mapM as_pair rs); simpl; [|done].
           intros [= <-]. by apply evolves_same.
      * intros [= <-]. by apply evolves_same.
    + done.
    + destruct sh as [|cs failed]; [done|].
      destruct (trim_settles _ _ _); simpl; [|done].
      intros [= <-]. by apply evolves_same.
  - destruct (tasks s !! t) as [[c key hash now []| | |]|]; simpl; try done.
    destruct (shrinkCache _ _) as [s2 sh] eqn:H2. intros [= <-].
    apply shrinkCache_evolves in H2.
    match type of H2 with
    | evolves ?m _ => apply (evolves_trans _ m); [by eapply (evolves_publish _ _ hash)|]
    end.
    evolves_via H2.
  - destruct (tasks s !! t) as [[c key hash now []| | |]|]; simpl; try done.
    intros [= <-]. by apply evolves_same.
  - destruct (tasks s !! t) as [[| |hash []|]|]; simpl; try done.
    intros [= <-]. by eapply evolves_remove.
  - destruct (tasks s !! t) as [[| |hash []|]|]; simpl; try done.
    intros [= <-]. by apply evolves_same.
  - unfold transformer_settles.
    destruct (tasks s !! t) as [[[] key hash now []|[] keys items []| |]|];
      simpl; try done; intros [= <-].
    + eapply evolves_alter; [apply (keeps_identity_add_locked (-1))|done..].
    + by apply (unlock_all_evolves kcs).
  - unfold transformer_settles.
    destruct (tasks s !! t) as [[[] key hash now []|[] keys items []| |]|];
      simpl; try done; intros [= <-].
    + eapply evolves_alter; [apply (keeps_identity_add_locked (-1))|done..].
    + by apply (unlock_all_evolves kcs).
Qed.

Lemma evolves_store_ok s s' : evolves s s' → store_ok s → store_ok s'.
Proof.
  induction 1 as [s s' Hst Hhp|s s' f r _ Hst Hhp|s s' hash e Hst Hhp
                 |s s' hash Hst Hhp|s1 s2 s3 _ IH1 _ IH2]; intros Hok;
    [destruct Hok as [Hr Hk Ho]..|auto].
  - split; by rewrite ?Hst, ?Hhp.
  - split; rewrite ?Hst, ?Hhp, ?length_alter; done.
  - split; rewrite Hst, ?Hhp.
    + rewrite length_app. simpl. apply Forall_forall. intros p Hp.
      apply JsObjectFacts.set_elem in Hp as [Hp|Hp]; [|lia].
      rewrite Forall_forall in Hr. specialize (Hr _ Hp). lia.
    + by apply JsObjectFacts.set_keys_NoDup.
    + apply JsObjectFacts.set_values_NoDup; [done|].
      intros ([k x] & Hx & Hin)%list_elem_of_fmap. simpl in Hx.
      rewrite Forall_forall in Hr. specialize (Hr _ Hin). simpl in Hr. lia.
  - pose proof (JsObjectFacts.remove_sublist hash (store s)) as Hsub.
    split; rewrite Hst, ?Hhp.
    + apply Forall_forall. intros p Hp. rewrite Forall_forall in Hr.
      apply Hr. by eapply elem_of_sublist.
    + eapply sublist_NoDup; [exact Hk|]. by apply fmap_sublist.
    + eapply sublist_NoDup; [exact Ho|]. by apply fmap_sublist.
Qed.

(** Every reachable state has a well-formed store. *)
Lemma reachable_store_ok s : reachable s → store_ok s.
Proof.
  apply reachable_invariant.
  - intros s0. unfold createCache. destruct (validateOptions _); [|done].
    intros [= <-]. split; simpl; constructor.
  - intros l s1 s2 _ Hok Hstep. eapply evolves_store_ok; [|done].
    by eapply step_evolves.
Qed.

(** *** What a trim pass leaves alone *)

Lemma trim_event_removed hash s ev :
  trim_event (with_store (JsObject.remove hash) (emit (EvDelete hash) s)) ev →
  trim_event s ev.
Proof.
  assert (Hentry : ∀ h r e,
    entry (with_store (JsObject.remove hash) (emit (EvDelete hash) s)) h = Some (r, e) →
    entry s h = Some (r, e)).
  { intros h r e. unfold entry. simpl. destruct (decide (hash = h)) as [->|Hne].
    - by rewrite JsObjectFacts.get_remove_eq.
    - by rewrite JsObjectFacts.get_remove_ne. }
  destruct ev as [| |h r|h|]; simpl; try done.
  - intros (e & He%Hentry & ?). by exists e.
  - intros (r & e & He%Hentry & ?). by exists r, e.
Qed.

Lemma remove_candidates_frame cs s s' ids failed :
  remove_candidates cs s = (s', ids, failed) →
  heap s' = heap s ∧ initializing s' = initializing s ∧
  shrinkLock s' = shrinkLock s ∧ reads s' = reads s ∧
  (∀ hash r, JsObject.get hash (store s') = Some r →
             JsObject.get hash (store s) = Some r) ∧
  (∃ new, tasks s' = tasks s ++ new ∧ Forall parked_removal new ∧
          ids = seq (length (tasks s)) (length new)) ∧
  (∃ evs, log s' = log s ++ evs ∧ Forall (trim_event s) evs ∧
          ∀ h, EvDelete h ∉ evs → JsObject.get h (store s') = JsObject.get h (store s)).
Proof.
  revert s s' ids failed. induction cs as [|hash cs IH]; intros s s' ids failed; simpl.
  - intros [= <- <- _]. split_and!; try done.
    + exists []. by rewrite app_nil_r.
    + exists []. by rewrite app_nil_r.
  - destruct (entry s hash) as [[r e]|] eqn:Hentry.
    + destruct (0 <? locked e)%Z eqn:Hlocked; [by apply IH|].
      apply Z.ltb_ge in Hlocked.
      destruct (destroy e) eqn:Hdestroy.
      * destruct (remove_candidates cs _) as [[s1 ids1] f1] eqn:Hrec.
        intros [= <- <- _].
        apply IH in Hrec as (? & ? & ? & ? & Hst & (new & Hnew & Hall & ->)
                             & (evs & Hlog & Hevs & Hkeep)).
        split_and!; try done.
        -- exists (Removal hash AwaitDestroy :: new). split_and!.
           ++ rewrite Hnew. simpl. by rewrite <-app_assoc.
           ++ constructor; [by exists hash|done].
           ++ simpl. rewrite length_app. simpl. f_equal. f_equal. lia.
        -- exists (EvDestroy hash r :: evs). split_and!.
           ++ rewrite Hlog. simpl. by rewrite <-app_assoc.
           ++ constructor; [|done]. by exists e.
           ++ intros h [_ Hh]%not_elem_of_cons. by apply Hkeep.
      * intros Hrec.
        apply IH in Hrec as (? & ? & ? & ? & Hst & Hnew & (evs & Hlog & Hevs & Hkeep)).
        split_and!; try done.
        -- intros h' r' Hget. apply Hst in Hget. simpl in Hget.
           destruct (decide (hash = h')) as [->|Hne].
           ++ by rewrite JsObjectFacts.get_remove_eq in Hget.
           ++ by rewrite JsObjectFacts.get_remove_ne in Hget.
        -- exists (EvDelete hash :: evs). split_and!.
           ++ rewrite Hlog. simpl. by rewrite <-app_assoc.
           ++ constructor; [by exists r, e|].
              eapply Forall_impl; [exact Hevs|]. apply trim_event_removed.
           ++ intros h [Hh1 Hh2]%not_elem_of_cons. rewrite (Hkeep h Hh2). simpl.
              apply JsObjectFacts.get_remove_ne. congruence.
    + destruct (remove_candidates cs s) as [[s1 ids1] f1] eqn:Hrec.
      intros [= <- <- _]. by apply IH in Hrec.
Qed.

Lemma shrinkCache_frame s now s' sh :
  shrinkCache s now = (s', sh) →
  heap s' = heap s ∧ initializing s' = initializing s ∧ reads s' = reads s ∧
  (∀ hash r, JsObject.get hash (store s') = Some r →
             JsObject.get hash (store s) = Some r) ∧
  (∃ new, tasks s' = tasks s ++ new ∧ Forall parked_removal new) ∧
  (∃ evs, log s' = log s ++ evs ∧ Forall (trim_event s) evs ∧
          ∀ h, EvDelete h ∉ evs → JsObject.get h (store s') = JsObject.get h (store s)).
Proof.
  unfold shrinkCache, trim.
  assert (Hid : ∀ s0 : engine,
    heap s0 = heap s0 ∧ initializing s0 = initializing s0 ∧ reads s0 = reads s0 ∧
    (∀ hash r, JsObject.get hash (store s0) = Some r →
               JsObject.get hash (store s0) = Some r) ∧
    (∃ new, tasks s0 = tasks s0 ++ new ∧ Forall parked_removal new) ∧
    (∃ evs, log s0 = log s0 ++ evs ∧ Forall (trim_event s0) evs ∧
            ∀ h, EvDelete h ∉ evs → JsObject.get h (store s0) = JsObject.get h (store s0))).
  { intros s0. split_and!; try done; exists []; by rewrite app_nil_r. }
  destruct (shrinkLock s); [by intros [= <- _]|].
  destruct (_ || _); [|by intros [= <- _]].
  destruct (remove_candidates _ _) as [[s1 ids] failed] eqn:Hrec.
  intros [= <- _].
  apply remove_candidates_frame in Hrec as (? & ? & ? & ? & ? & (new & Hnew & Hall & _) & ?).
  split_and!; try done. by exists new.
Qed.

(** *** Tasks and clock readings along a transition *)

Lemma fetch_start_frame t s key hash now s1 st :
  fetch_start t s key hash now s1 st →
  tasks s1 = tasks s ∧ reads s1 = reads s ∧ store s1 = store s ∧
  shrinkLock s1 = shrinkLock s ∧ length (heap s1) = length (heap s) ∧
  starting st ∧
  ∃ evs, log s1 = log s ++ evs ∧ Forall (λ ev, ∃ k o, ev = EvFactory t k o) evs.
Proof.
  destruct 1; split_and!; try done; simpl; rewrite ?length_alter; try done.
  - eexists [EvFactory t key _]. split; [done|]. constructor; [by eauto|done].
  - exists []. by rewrite app_nil_r.
  - exists []. by rewrite app_nil_r.
Qed.

Lemma fetch_call_frame c key s s' :
  fetch_call c key s s' →
  reads s' = S (reads s) ∧
  (∃ st, tasks s' = tasks s ++ [Fetch c key (hasher key) (clock (reads s)) st] ∧
         starting st) ∧
  ∃ evs, log s' = log s ++ evs ∧ Forall (λ ev, ∃ t k o, ev = EvFactory t k o) evs.
Proof.
  destruct 1 as [s1 st _ Hs].
  apply fetch_start_frame in Hs as (Ht & Hr & _ & _ & _ & Hst & evs & Hlog & Hevs).
  simpl. rewrite Ht, Hr. split_and!; [done|by exists st|].
  exists evs. split; [done|]. eapply Forall_impl; [exact Hevs|]. naive_solver.
Qed.

Lemma fetch_calls_frame c keys s s' ids :
  fetch_calls c keys s s' ids →
  reads s' = reads s + length keys ∧
  ids = seq (length (tasks s)) (length keys) ∧
  (∃ new, tasks s' = tasks s ++ new ∧
     Forall2 (λ key tk, ∃ now st, tk = Fetch c key (hasher key) now st ∧ starting st)
       keys new) ∧
  ∃ evs, log s' = log s ++ evs ∧ Forall (λ ev, ∃ t k o, ev = EvFactory t k o) evs.
Proof.
  induction 1 as [s|key keys s s1 s2 ids H1 H2
                  (IHr & IHi & (new & IHt & IHf) & (evs & IHl & IHe))]; simpl.
  - split_and!; [lia|done| |]; exists []; by rewrite app_nil_r.
  - apply fetch_call_frame in H1 as (Hr & (st & Ht & Hst) & (evs1 & Hl & He)).
    rewrite Ht, length_app in IHi. simpl in IHi.
    split_and!; [lia| | |].
    + rewrite IHi. do 2 f_equal. lia.
    + eexists (_ :: new). rewrite IHt, Ht, <-app_assoc. split; [done|].
      constructor; [by eauto|done].
    + exists (evs1 ++ evs). rewrite IHl, Hl, <-app_assoc. split; [done|].
      by apply Forall_app.
Qed.

Lemma same_call_refl tk : same_call tk tk.
Proof. by destruct tk. Qed.


Lemma tasks_grow_refl s : tasks_grow s s.
Proof. intros t tk ?. exists tk. eauto using same_call_refl. Qed.


Lemma tasks_grow_app s s' new : tasks s' = tasks s ++ new → tasks_grow s s'.
Proof.
  intros Heq t tk Ht. exists tk. split; [|apply same_call_refl].
  rewrite Heq. by apply lookup_app_l_Some.
Qed.

Lemma tasks_grow_same s s' : tasks s' = tasks s → tasks_grow s s'.
Proof. intros Heq. apply (tasks_grow_app _ _ []). by rewrite app_nil_r. Qed.

Lemma tasks_grow_park s s1 t tk tk' :
  tasks_grow s s1 → tasks s !! t = Some tk → same_call tk tk' →
  tasks_grow s (park t tk' s1).
Proof.
  intros Hg Ht Hsame t0 tk0 Ht0. simpl.
  destruct (Hg _ _ Ht0) as (tk1 & Ht1 & Hs1).
  destruct (decide (t = t0)) as [->|Hne].
  - exists tk'. rewrite list_lookup_insert_eq by (by eapply lookup_lt_Some).
    split; [done|]. congruence.
  - exists tk1. by rewrite list_lookup_insert_ne.
Qed.

(** A task, once spawned, stays the same call with the same captured
    timestamp. *)
Lemma Step_tasks_grow l s s' : Step l s s' → tasks_grow s s'.
Proof.
  destruct 1;
    try (eapply tasks_grow_park; [by apply tasks_grow_same|done|done]);
    try apply tasks_grow_refl.
  - match goal with H : fetch_call _ _ _ _ |- _ =>
      apply fetch_call_frame in H as (_ & (st & Ht & _) & _) end.
    by eapply tasks_grow_app.
  - match goal with H : fetch_calls _ _ _ _ _ |- _ =>
      apply fetch_calls_frame in H as (_ & _ & (new & Ht & _) & _) end.
    eapply (tasks_grow_app _ _ (new ++ [_])). simpl. rewrite Ht. by rewrite <-app_assoc.
  - match goal with H : shrinkCache _ _ = _ |- _ =>
      apply shrinkCache_frame in H as (_ & _ & _ & _ & (new & Hnew & _) & _) end.
    simpl in Hnew. intros t tk Ht. exists tk. split; [|apply same_call_refl].
    simpl. rewrite Hnew.
    rewrite list_lookup_insert_ne by (apply lookup_lt_Some in Ht; lia).
    rewrite <-app_assoc. by apply lookup_app_l_Some.
  - match goal with H : fetch_start _ _ _ _ _ _ _ |- _ =>
      apply fetch_start_frame in H as (Hs & _) end.
    eapply tasks_grow_park; [by apply tasks_grow_same|done|done].
  - match goal with H : shrinkCache _ _ = _ |- _ =>
      apply shrinkCache_frame in H as (_ & _ & _ & _ & (new & Hnew & _) & _) end.
    eapply tasks_grow_park; [by eapply tasks_grow_app|done|done].
Qed.




(** *** The captured timestamp *)


(** *** Refreshing an expired entry *)


Lemma store_ok_valid s h r :
  store_ok s → JsObject.get h (store s) = Some r → r < length (heap s).
Proof.
  intros [Hr _ _] H%JsObjectFacts.get_Some_elem.
  rewrite Forall_forall in Hr. by apply Hr in H.
Qed.


(** *** Batches keep the order of their keys *)

Lemma lookup_park t x s1 t0 tk0 :
  tasks (park t x s1) !! t0 = Some tk0 →
  (t0 = t ∧ tk0 = x) ∨ (t0 ≠ t ∧ tasks s1 !! t0 = Some tk0).
Proof.
  simpl. rewrite list_lookup_insert. case_decide as Hd.
  - destruct Hd as [-> _]. intros [= <-]. by left.
  - intros H. destruct (decide (t0 = t)) as [->|]; [|by right].
    exfalso. apply Hd. split; [done|]. by eapply lookup_lt_Some.
Qed.

Lemma lookup_spawn x s1 t0 tk0 :
  tasks (spawn x s1) !! t0 = Some tk0 →
  (t0 = length (tasks s1) ∧ tk0 = x) ∨ tasks s1 !! t0 = Some tk0.
Proof.
  simpl. intros [H|[Hlen H]]%lookup_app_Some; [by right|left].
  apply list_lookup_singleton_Some in H as [H <-]. split; [lia|done].
Qed.

Lemma lookup_new_removal (ts new : list task) t0 tk0 :
  Forall parked_removal new → (ts ++ new) !! t0 = Some tk0 →
  ts !! t0 = Some tk0 ∨ parked_removal tk0.
Proof.
  intros Hall [H|[_ H]]%lookup_app_Some; [by left|right].
  rewrite Forall_forall in Hall. apply Hall. by eapply list_elem_of_lookup_2.
Qed.

Lemma Step_order_fetch l s s' :
  Step l s s' →
  (∀ t c key hash now r,
     tasks s !! t = Some (Fetch c key hash now (Settled (Fulfilled r))) →
     settled_for c key r) →
  ∀ t c key hash now r,
    tasks s' !! t = Some (Fetch c key hash now (Settled (Fulfilled r))) →
    settled_for c key r.
Proof.
  intros HS Hinv t0 c0 key0 hash0 now0 r0 H0.
  destruct HS;
    try (apply lookup_park in H0 as [[-> H0]|[_ H0]];
         [by simplify_eq/= | by eapply Hinv]).
  - match goal with H : fetch_call _ _ _ _ |- _ =>
      apply fetch_call_frame in H as (_ & (st & Ht & Hst) & _) end.
    rewrite Ht in H0. apply lookup_app_Some in H0 as [H0|[_ H0]]; [by eapply Hinv|].
    apply list_lookup_singleton_Some in H0 as [_ H0]. by simplify_eq.
  - match goal with H : fetch_calls _ _ _ _ _ |- _ =>
      apply fetch_calls_frame in H as (_ & _ & (new & Ht & Hnew) & _) end.
    apply lookup_spawn in H0 as [[_ ?]|H0]; [done|].
    rewrite Ht in H0. apply lookup_app_Some in H0 as [H0|[_ H0]]; [by eapply Hinv|].
    apply list_elem_of_lookup_2 in H0.
    apply (Forall2_Forall_r _ (λ tk, ∃ key now st,
             tk = Fetch (item_caller lock) key (hasher key) now st ∧ starting st)) in Hnew.
    + rewrite Forall_forall in Hnew. apply Hnew in H0 as (? & ? & ? & ? & ?).
      by simplify_eq.
    + apply Forall_true. naive_solver.
  - match goal with H : shrinkCache _ _ = _ |- _ =>
      apply shrinkCache_frame in H as (_ & _ & _ & _ & (new & Hnew & Hall) & _) end.
    apply lookup_park in H0 as [[_ ?]|[_ H0]]; [done|].
    rewrite Hnew in H0. simpl in H0.
    apply (lookup_new_removal _ _ _ _ Hall) in H0 as [H0|[? ?]]; [|done].
    apply lookup_app_Some in H0 as [H0|[_ H0]]; [by eapply Hinv|].
    by apply list_lookup_singleton_Some in H0 as [_ ?].
  - by eapply Hinv.
  - match goal with H : fetch_start _ _ _ _ _ _ _ |- _ =>
      apply fetch_start_frame in H as (Ht & _ & _ & _ & _ & Hst & _) end.
    apply lookup_park in H0 as [[-> H0]|[_ H0]]; [by simplify_eq|].
    rewrite Ht in H0. by eapply Hinv.
  - match goal with H : shrinkCache _ _ = _ |- _ =>
      apply shrinkCache_frame in H as (_ & _ & _ & _ & (new & Hnew & Hall) & _) end.
    apply lookup_park in H0 as [[_ ?]|[_ H0]]; [done|].
    rewrite Hnew in H0. simpl in H0.
    apply (lookup_new_removal _ _ _ _ Hall) in H0 as [H0|[? ?]]; [|done].
    by eapply Hinv.
  - apply lookup_park in H0 as [[-> H0]|[_ H0]]; [|by eapply Hinv].
    destruct l; simplify_eq/=. done.
Qed.

Lemma is_item_grow s s' lock id key :
  tasks_grow s s' → is_item s lock id key → is_item s' lock id key.
Proof.
  intros Hg (hash & now & st & Ht). apply Hg in Ht as (tk & Ht & Hsame).
  destruct tk as [c' key' hash' now' st'| | |]; try done.
  destruct Hsame as (<- & <- & <- & <-). by exists hash, now, st'.
Qed.

Lemma promise_all_fulfilled os rs :
  promise_all os = Some (Fulfilled rs) →
  Forall2 (λ o r, o = Some (Fulfilled r)) os rs.
Proof.
  unfold promise_all. destruct (head _); [done|].
  destruct (mapM fulfilment os) as [rs'|] eqn:Hm; simpl; [|done].
  intros [= <-]. apply mapM_Some in Hm.
  eapply Forall2_impl; [exact Hm|]. intros [[r|e]|] r'; simpl; congruence.
Qed.

(** The results [Promise.all] hands over are those of the keys, in order. *)
Lemma promise_all_keys s lock items keys rs :
  (∀ t c key hash now r,
     tasks s !! t = Some (Fetch c key hash now (Settled (Fulfilled r))) →
     settled_for c key r) →
  Forall2 (is_item s lock) items keys →
  promise_all (item_outcome s <$> items) = Some (Fulfilled rs) →
  Forall2 (λ r key, settled_for (item_caller lock) key r) rs keys.
Proof.
  intros Hfetch Hitems Hall%promise_all_fulfilled.
  revert rs Hall. induction Hitems as [|id key items keys Hid _ IH]; intros rs Hall.
  - apply Forall2_nil_inv_l in Hall as ->. constructor.
  - rewrite fmap_cons in Hall.
    apply Forall2_cons_inv_l in Hall as (r & rs' & Hr & Hrs & ->).
    constructor; [|by apply IH].
    destruct Hid as (hash & now & st & Ht).
    unfold item_outcome in Hr. rewrite Ht in Hr.
    destruct st; simplify_eq. by eapply Hfetch.
Qed.

Lemma pairs_keys lock rs keys kvs :
  Forall2 (λ r key, settled_for (item_caller lock) key r) rs keys →
  mapM as_pair rs = Some kvs → kvs.*1 = keys.
Proof.
  intros Hrs Hm%mapM_Some. revert kvs Hm.
  induction Hrs as [|r key rs keys Hr _ IH]; intros kvs Hm.
  - by apply Forall2_nil_inv_l in Hm as ->.
  - apply Forall2_cons_inv_l in Hm as (kv & kvs' & Hkv & Hkvs & ->).
    simpl. f_equal; [|by apply IH].
    destruct lock, r; simplify_eq/=; done.
Qed.

Lemma locked_keys lock rs keys kcs :
  Forall2 (λ r key, settled_for (item_caller lock) key r) rs keys →
  mapM as_locked rs = Some kcs → kcs.*1 = keys.
Proof.
  intros Hrs Hm%mapM_Some. revert kcs Hm.
  induction Hrs as [|r key rs keys Hr _ IH]; intros kcs Hm.
  - by apply Forall2_nil_inv_l in Hm as ->.
  - apply Forall2_cons_inv_l in Hm as (kc & kcs' & Hkc & Hkcs & ->).
    simpl. f_equal; [|by apply IH].
    destruct lock, r; simplify_eq/=; done.
Qed.

Lemma values_keys (h : list (CachedValue V)) kcs (kvs : list (K * V)) :
  mapM (λ kc, e ← h !! kc.2; Some (kc.1, value e)) kcs = Some kvs →
  kvs.*1 = kcs.*1.
Proof.
  intros Hm%mapM_Some.
  induction Hm as [|kc kv kcs kvs Hkv _ IH]; [done|].
  simpl. f_equal; [|done].
  destruct (h !! kc.2); simplify_eq/=; done.
Qed.

Lemma Step_order_multi l s s' :
  Step l s s' → order_ok s →
  ∀ t lock keys items st,
    tasks s' !! t = Some (Multi lock keys items st) →
    Forall2 (is_item s' lock) items keys ∧ multi_ok lock keys st.
Proof.
  intros HS [Hfetch Hmulti _].
  pose proof (Step_tasks_grow _ _ _ HS) as Hgrow.
  assert (Hold : ∀ t lock keys items st,
    tasks s !! t = Some (Multi lock keys items st) →
    Forall2 (is_item s' lock) items keys ∧ multi_ok lock keys st).
  { intros t lock keys items st [Hitems Hst]%Hmulti. split; [|done].
    eapply Forall2_impl; [exact Hitems|]. intros id key. by apply is_item_grow. }
  assert (Hitems : ∀ t lock keys items st,
    tasks s !! t = Some (Multi lock keys items st) →
    Forall2 (is_item s' lock) items keys).
  { intros t lock keys items st Ht. by eapply Hold. }
  clear Hgrow.
  intros t0 lock0 keys0 items0 st0 H0.
  destruct HS;
    try (apply lookup_park in H0 as [[-> H0]|[_ H0]];
         [simplify_eq/=; by eauto | by eapply Hold]).
  - match goal with H : fetch_call _ _ _ _ |- _ =>
      apply fetch_call_frame in H as (_ & (st & Ht & Hst) & _) end.
    rewrite Ht in H0. apply lookup_app_Some in H0 as [H0|[_ H0]]; [by eapply Hold|].
    by apply list_lookup_singleton_Some in H0 as [_ ?].
  - match goal with H : fetch_calls _ _ _ _ _ |- _ =>
      apply fetch_calls_frame in H as (_ & -> & (new & Ht & Hnew) & _) end.
    apply lookup_spawn in H0 as [[_ H0]|H0].
    + simplify_eq. split; [|done]. clear Hold Hitems Hmulti Hfetch.
      apply Forall2_same_length_lookup_2.
      { by rewrite length_seq. }
      intros i id key Hid Hkey. apply lookup_seq in Hid as [-> Hi].
      destruct (Forall2_lookup_l _ _ _ _ _ Hnew Hkey) as (tk & Htk & now & st & -> & _).
      exists (hasher key), now, st. simpl. rewrite Ht.
      rewrite <-app_assoc. by rewrite lookup_app_r, Nat.add_comm, Nat.add_sub,
        (lookup_app_l_Some _ _ _ _ Htk) by lia.
    + rewrite Ht in H0. apply lookup_app_Some in H0 as [H0|[_ H0]]; [by eapply Hold|].
      apply list_elem_of_lookup_2 in H0.
      apply (Forall2_Forall_r _ (λ tk, ∃ key now st,
               tk = Fetch (item_caller lock) key (hasher key) now st ∧ starting st)) in Hnew.
      * rewrite Forall_forall in Hnew. apply Hnew in H0 as (? & ? & ? & ? & ?).
        by simplify_eq.
      * apply Forall_true. intros key tk (now & st & ? & ?). by exists key, now, st.
  - match goal with H : shrinkCache _ _ = _ |- _ =>
      apply shrinkCache_frame in H as (_ & _ & _ & _ & (new & Hnew & Hall) & _) end.
    apply lookup_park in H0 as [[_ ?]|[_ H0]]; [done|].
    rewrite Hnew in H0. simpl in H0.
    apply (lookup_new_removal _ _ _ _ Hall) in H0 as [H0|[? ?]]; [|done].
    apply lookup_app_Some in H0 as [H0|[_ H0]]; [by eapply Hold|].
    by apply list_lookup_singleton_Some in H0 as [_ ?].
  - by eapply Hold.
  - match goal with H : fetch_start _ _ _ _ _ _ _ |- _ =>
      apply fetch_start_frame in H as (Ht & _ & _ & _ & _ & Hst & _) end.
    apply lookup_park in H0 as [[-> H0]|[_ H0]]; [by simplify_eq|].
    rewrite Ht in H0. by eapply Hold.
  - (* [getMultiple] assembles its pairs *)
    apply lookup_park in H0 as [[-> H0]|[_ H0]]; [|by eapply Hold].
    simplify_eq. split; [by eauto|]. simpl.
    eapply (pairs_keys false); [|done].
    eapply promise_all_keys; [done| |done]. by eapply Hmulti.
  - (* [getMultipleWith] assembles its locked entries *)
    apply lookup_park in H0 as [[-> H0]|[_ H0]]; [|by eapply Hold].
    simplify_eq. split; [by eauto|]. simpl.
    eapply (locked_keys true); [|done].
    eapply promise_all_keys; [done| |done]. by eapply Hmulti.
  - match goal with H : shrinkCache _ _ = _ |- _ =>
      apply shrinkCache_frame in H as (_ & _ & _ & _ & (new & Hnew & Hall) & _) end.
    apply lookup_park in H0 as [[_ ?]|[_ H0]]; [done|].
    rewrite Hnew in H0. simpl in H0.
    apply (lookup_new_removal _ _ _ _ Hall) in H0 as [H0|[? ?]]; [|done].
    by eapply Hold.
  - apply lookup_park in H0 as [[-> H0]|[_ H0]]; [|by eapply Hold].
    simplify_eq. split; [by eauto|]. destruct l; simplify_eq/=; done.
Qed.

Lemma Step_order_log l s s' :
  Step l s s' → order_ok s →
  ∀ t kvs,
    EvTransformer t kvs ∈ log s' →
    match tasks s' !! t with
    | Some (Multi true keys _ _) => kvs.*1 = keys
    | Some (Fetch GetWith key _ _ _) => kvs.*1 = [key]
    | _ => False
    end.
Proof.
  intros HS Hok.
  pose proof (Step_tasks_grow _ _ _ HS) as Hgrow.
  pose proof (Step_order_multi _ _ _ HS Hok) as Hmulti'.
  assert (Hold : ∀ t kvs,
    EvTransformer t kvs ∈ log s →
    match tasks s' !! t with
    | Some (Multi true keys _ _) => kvs.*1 = keys
    | Some (Fetch GetWith key _ _ _) => kvs.*1 = [key]
    | _ => False
    end).
  { intros t kvs Hin%(order_log _ Hok).
    destruct (tasks s !! t) as [tk|] eqn:Ht; [|done].
    apply Hgrow in Ht as (tk' & -> & Hsame).
    destruct tk as [[] ? ? ? ?|[] ? ? ?| |], tk' as [? ? ? ? ?|? ? ? ?| |];
      try done; simpl in Hsame; destruct_and?; by simplify_eq. }
  assert (Hfactory : ∀ evs t kvs,
    Forall (λ ev : event, ∃ t k o, ev = EvFactory t k o) evs → EvTransformer t kvs ∉ evs).
  { intros evs t kvs Hall Hin. rewrite Forall_forall in Hall.
    by apply Hall in Hin as (? & ? & ? & ?). }
  assert (Hdestroy : ∀ s0 evs t kvs,
    Forall (trim_event s0) evs → EvTransformer t kvs ∉ evs).
  { intros s0 evs t kvs Hall Hin. rewrite Forall_forall in Hall.
    by apply Hall in Hin. }
  clear Hgrow.
  intros t0 kvs0 Hin.
  destruct HS; simpl in Hin; try (by apply Hold).
  - match goal with H : fetch_call _ _ _ _ |- _ =>
      apply fetch_call_frame in H as (_ & _ & (evs & Hlog & Hevs)) end.
    rewrite Hlog in Hin. apply elem_of_app in Hin as [Hin|Hin]; [by apply Hold|].
    by apply Hfactory in Hin.
  - match goal with H : fetch_calls _ _ _ _ _ |- _ =>
      apply fetch_calls_frame in H as (_ & _ & _ & (evs & Hlog & Hevs)) end.
    rewrite Hlog in Hin. apply elem_of_app in Hin as [Hin|Hin]; [by apply Hold|].
    by apply Hfactory in Hin.
  - match goal with H : shrinkCache _ _ = _ |- _ =>
      apply shrinkCache_frame in H as (_ & _ & _ & _ & _ & (evs & Hlog & Hevs & _)) end.
    rewrite Hlog in Hin. apply elem_of_app in Hin as [Hin|Hin]; [by apply Hold|].
    by eapply Hdestroy in Hin.
  - match goal with H : fetch_start _ _ _ _ _ _ _ |- _ =>
      apply fetch_start_frame in H as (_ & _ & _ & _ & _ & _ & (evs & Hlog & Hevs)) end.
    rewrite Hlog in Hin. apply elem_of_app in Hin as [Hin|Hin]; [by apply Hold|].
    eapply Hfactory in Hin; [done|].
    eapply Forall_impl; [exact Hevs|]. intros ev (k & o & ->). by eauto.
  - (* [getWith] calls its transformer *)
    apply elem_of_app in Hin as [Hin|Hin]; [by apply Hold|].
    apply list_elem_of_singleton in Hin. simplify_eq. simpl.
    rewrite list_lookup_insert_eq; [done|]. by eapply lookup_lt_Some.
  - (* [getMultipleWith] calls its transformer *)
    apply elem_of_app in Hin as [Hin|Hin]; [by apply Hold|].
    apply list_elem_of_singleton in Hin. simplify_eq.
    assert (Ht' : tasks (park t (Multi true keys items (AwaitTransformerAll kcs))
                          (emit (EvTransformer t kvs) s)) !! t
                  = Some (Multi true keys items (AwaitTransformerAll kcs))).
    { simpl. rewrite list_lookup_insert_eq; [done|]. by eapply lookup_lt_Some. }
    rewrite Ht'. apply Hmulti' in Ht' as [_ Hk]. simpl in Hk.
    rewrite <-Hk. by eapply values_keys.
  - match goal with H : shrinkCache _ _ = _ |- _ =>
      apply shrinkCache_frame in H as (_ & _ & _ & _ & _ & (evs & Hlog & Hevs & _)) end.
    simpl in Hlog.
    rewrite Hlog in Hin. apply elem_of_app in Hin as [Hin|Hin]; [by apply Hold|].
    by eapply Hdestroy in Hin.
  - apply elem_of_app in Hin as [Hin|Hin]; [by apply Hold|].
    by apply list_elem_of_singleton in Hin.
  - apply elem_of_app in Hin as [Hin|Hin]; [by apply Hold|].
    by apply list_elem_of_singleton in Hin.
Qed.

Lemma Step_order_ok l s s' : Step l s s' → order_ok s → order_ok s'.
Proof.
  intros HS Hok. split.
  - eapply Step_order_fetch; [done|]. apply Hok.
  - by eapply Step_order_multi.
  - by eapply Step_order_log.
Qed.

Lemma reachable_order_ok s : reachable s → order_ok s.
Proof.
  apply reachable_invariant.
  - intros s0. unfold createCache. destruct (validateOptions _); [|done].
    intros [= <-]. split; simpl.
    + intros t ? ? ? ? ? Ht. by rewrite lookup_nil in Ht.
    + intros t ? ? ? ? Ht. by rewrite lookup_nil in Ht.
    + intros t kvs Hin. by apply elem_of_nil in Hin.
  - intros l s1 s2 _ Hok Hstep. eapply Step_order_ok; [|done]. by apply step_Step.
Qed.

(** *** Single flight *)

Lemma sum_insert (w : task → nat) (ts : list task) t x tk :
  ts !! t = Some tk →
  sum_list_with w (<[t:=x]> ts) + w tk = sum_list_with w ts + w x.
Proof.
  revert t. induction ts as [|y ts IH]; intros [|t] Ht; simplify_eq/=; [lia|].
  specialize (IH _ Ht). lia.
Qed.

Lemma sum_removals (w : task → nat) (new : list task) :
  (∀ hash st, w (Removal hash st) = 0) → Forall parked_removal new →
  sum_list_with w new = 0.
Proof.
  intros Hw. induction 1 as [|tk new [hash ->] _ IH]; [done|].
  simpl. by rewrite Hw, IH.
Qed.

(** The sum of a weight over the tasks after a transition that parks task
    [t] in a state of a given weight and spawns removals only. *)
Lemma weight_park (w : task → nat) s s1 t x tk new :
  (∀ hash st, w (Removal hash st) = 0) →
  tasks s1 = tasks s ++ new → Forall parked_removal new →
  tasks s !! t = Some tk →
  sum_list_with w (tasks (park t x s1)) + w tk = sum_list_with w (tasks s) + w x.
Proof.
  intros Hw Hs1 Hnew Ht. simpl. rewrite Hs1.
  rewrite insert_app_l by (by eapply lookup_lt_Some).
  rewrite sum_list_with_app, (sum_removals _ _ Hw Hnew).
  pose proof (sum_insert w _ _ x _ Ht). lia.
Qed.

Lemma weight_park_same (w : task → nat) s s1 t x tk :
  tasks s1 = tasks s → tasks s !! t = Some tk →
  sum_list_with w (tasks (park t x s1)) + w tk = sum_list_with w (tasks s) + w x.
Proof. intros Hs1 Ht. simpl. rewrite Hs1. by apply sum_insert. Qed.

Lemma Step_flight_hash l s s' :
  Step l s s' →
  (∀ t c key hash now st,
     tasks s !! t = Some (Fetch c key hash now st) → hash = hasher key) →
  ∀ t c key hash now st,
    tasks s' !! t = Some (Fetch c key hash now st) → hash = hasher key.
Proof.
  intros HS Hinv t0 c0 key0 hash0 now0 st0 H0.
  destruct HS;
    try (apply lookup_park in H0 as [[-> H0]|[_ H0]];
         [simplify_eq/=; by eapply Hinv | by eapply Hinv]).
  - match goal with H : fetch_call _ _ _ _ |- _ =>
      apply fetch_call_frame in H as (_ & (st & Ht & Hst) & _) end.
    rewrite Ht in H0. apply lookup_app_Some in H0 as [H0|[_ H0]]; [by eapply Hinv|].
    apply list_lookup_singleton_Some in H0 as [_ H0]. by simplify_eq.
  - match goal with H : fetch_calls _ _ _ _ _ |- _ =>
      apply fetch_calls_frame in H as (_ & _ & (new & Ht & Hnew) & _) end.
    apply lookup_spawn in H0 as [[_ ?]|H0]; [done|].
    rewrite Ht in H0. apply lookup_app_Some in H0 as [H0|[_ H0]]; [by eapply Hinv|].
    apply list_elem_of_lookup_2 in H0.
    apply (Forall2_Forall_r _ (λ tk, ∃ key now st,
             tk = Fetch (item_caller lock) key (hasher key) now st ∧ starting st)) in Hnew.
    + rewrite Forall_forall in Hnew. apply Hnew in H0 as (? & ? & ? & ? & ?).
      by simplify_eq.
    + apply Forall_true. intros key tk (now & st & ? & ?). by exists key, now, st.
  - match goal with H : shrinkCache _ _ = _ |- _ =>
      apply shrinkCache_frame in H as (_ & _ & _ & _ & (new & Hnew & Hall) & _) end.
    apply lookup_park in H0 as [[_ ?]|[_ H0]]; [done|].
    rewrite Hnew in H0. simpl in H0.
    apply (lookup_new_removal _ _ _ _ Hall) in H0 as [H0|[? ?]]; [|done].
    apply lookup_app_Some in H0 as [H0|[_ H0]]; [by eapply Hinv|].
    by apply list_lookup_singleton_Some in H0 as [_ ?].
  - by eapply Hinv.
  - match goal with H : fetch_start _ _ _ _ _ _ _ |- _ =>
      apply fetch_start_frame in H as (Ht & _ & _ & _ & _ & Hst & _) end.
    apply lookup_park in H0 as [[-> H0]|[_ H0]]; [simplify_eq; by eapply Hinv|].
    rewrite Ht in H0. by eapply Hinv.
  - match goal with H : shrinkCache _ _ = _ |- _ =>
      apply shrinkCache_frame in H as (_ & _ & _ & _ & (new & Hnew & Hall) & _) end.
    apply lookup_park in H0 as [[-> H0]|[_ H0]]; [simplify_eq; by eapply Hinv|].
    rewrite Hnew in H0. simpl in H0.
    apply (lookup_new_removal _ _ _ _ Hall) in H0 as [H0|[? ?]]; [|done].
    by eapply Hinv.
Qed.

Lemma creating_at_removal h hash st : creating_at h (Removal hash st : task) = 0.
Proof. done. Qed.

Lemma fetch_start_creating t s key hash now s1 st c h :
  fetch_start t s key hash now s1 st →
  creating h s = (if decide (h ∈ initializing s) then 1 else 0) →
  creating h s + creating_at h (Fetch c key hash now st)
  = if decide (h ∈ initializing s1) then 1 else 0.
Proof.
  destruct 1; simpl; intros Hinv; rewrite Hinv; repeat case_decide; try lia; set_solver.
Qed.

Lemma fetch_call_flight_one c key s s' :
  fetch_call c key s s' →
  (∀ h, creating h s = if decide (h ∈ initializing s) then 1 else 0) →
  ∀ h, creating h s' = if decide (h ∈ initializing s') then 1 else 0.
Proof.
  destruct 1 as [s1 st _ Hs]. intros Hinv h.
  pose proof (fetch_start_creating _ _ _ _ _ _ _ c h Hs (Hinv h)) as Heq.
  apply fetch_start_frame in Hs as (Ht & _).
  unfold creating in *. simpl in *. rewrite Ht, sum_list_with_app. simpl. lia.
Qed.

Lemma fetch_calls_flight_one c keys s s' ids :
  fetch_calls c keys s s' ids →
  (∀ h, creating h s = if decide (h ∈ initializing s) then 1 else 0) →
  ∀ h, creating h s' = if decide (h ∈ initializing s') then 1 else 0.
Proof. induction 1; eauto using fetch_call_flight_one. Qed.

Lemma Step_flight_one l s s' :
  Step l s s' → flight_ok s →
  ∀ h, creating h s' = if decide (h ∈ initializing s') then 1 else 0.
Proof.
  intros HS [Hhash Hinv] h. specialize (Hinv h) as Hh.
  destruct HS;
    try (match goal with
         | Ht : tasks ?s !! ?t = Some ?tk |- context [park ?t ?X ?s1] =>
             pose proof (weight_park_same (creating_at h) s s1 t X tk eq_refl Ht)
         end;
         unfold creating in *; simpl in *; repeat case_decide; try lia; set_solver).
  - by eapply fetch_call_flight_one.
  - match goal with H : fetch_calls _ _ _ _ _ |- _ =>
      eapply fetch_calls_flight_one in H; [|done] end.
    unfold creating in *. simpl. rewrite sum_list_with_app. simpl.
    match goal with H : _ |- _ => rewrite <-H end. lia.
  - match goal with H : shrinkCache _ _ = _ |- _ =>
      apply shrinkCache_frame in H as (_ & Hi & _ & _ & (new & Hnew & Hall) & _) end.
    pose proof (weight_park (creating_at h) _ s1 (length (tasks s)) (Scheduled sh) _ new
                  (creating_at_removal h) Hnew Hall
                  (list_lookup_middle (tasks s) [] _ _ eq_refl)) as Hw.
    simpl in Hi, Hw. rewrite sum_list_with_app in Hw. simpl in Hw.
    unfold creating in *. simpl. rewrite Hi. lia.
  - done.
  - match goal with H : fetch_start _ _ _ _ _ _ _ |- _ =>
      pose proof (fetch_start_creating _ _ _ _ _ _ _ c h H Hh) as Heq;
      apply fetch_start_frame in H as (Hts & _) end.
    match goal with
    | Ht : tasks ?s !! ?t = Some ?tk |- context [park ?t ?X ?s1] =>
        pose proof (weight_park_same (creating_at h) s s1 t X tk Hts Ht) as Hw
    end.
    unfold creating in *. simpl in *. lia.
  - match goal with H : shrinkCache _ _ = _ |- _ =>
      apply shrinkCache_frame in H as (_ & Hi & _ & _ & (new & Hnew & Hall) & _) end.
    match goal with
    | Ht : tasks ?s !! ?t = Some ?tk |- context [park ?t ?X ?s1] =>
        pose proof (weight_park (creating_at h) s s1 t X tk new
                      (creating_at_removal h) Hnew Hall Ht) as Hw
    end.
    unfold creating in *. simpl in *. rewrite Hi. lia.
Qed.

Lemma Step_flight_ok l s s' : Step l s s' → flight_ok s → flight_ok s'.
Proof.
  intros HS Hok. split.
  - eapply Step_flight_hash; [done|]. apply Hok.
  - by eapply Step_flight_one.
Qed.

Lemma reachable_flight_ok s : reachable s → flight_ok s.
Proof.
  apply reachable_invariant.
  - intros s0. unfold createCache. destruct (validateOptions _); [|done].
    intros [= <-]. split; simpl.
    + intros t ? ? ? ? ? Ht. by rewrite lookup_nil in Ht.
    + intros h. unfold creating. simpl. by rewrite decide_False by set_solver.
  - intros l s1 s2 _ Hok Hstep. eapply Step_flight_ok; [|done]. by apply step_Step.
Qed.

(** *** Hashes whose entry is neither deleted nor refreshed *)

Lemma evolves_value s s' r e :
  evolves s s' → heap s !! r = Some e →
  ∃ e', heap s' !! r = Some e' ∧ value e' = value e.
Proof.
  intros Hev. revert e.
  induction Hev as [s s' _ Hhp|s s' f r0 Hf _ Hhp|s s' hash e0 _ Hhp
                   |s s' hash _ Hhp|s1 s2 s3 _ IH1 _ IH2]; intros e He.
  - exists e. by rewrite Hhp.
  - rewrite Hhp. destruct (decide (r0 = r)) as [->|Hne].
    + exists (f e). rewrite list_lookup_alter_eq, He. split; [done|]. apply Hf.
    + exists e. by rewrite list_lookup_alter_ne.
  - exists e. rewrite Hhp. split; [|done]. by apply lookup_app_l_Some.
  - exists e. by rewrite Hhp.
  - apply IH1 in He as (e1 & He1 & <-). by apply IH2 in He1.
Qed.

Lemma weight_lookup (w : task → nat) (ts : list task) t tk :
  ts !! t = Some tk → w tk ≤ sum_list_with w ts.
Proof. intros Ht. apply sum_list_with_in. by eapply list_elem_of_lookup_2. Qed.

Lemma flying_le_creating h s : flying h s ≤ creating h s.
Proof.
  unfold flying, creating. induction (tasks s) as [|tk ts IH]; simpl; [done|].
  assert (flying_at h tk ≤ creating_at h tk); [|lia].
  destruct tk as [? ? ? ? []| | |]; simpl; try case_decide; lia.
Qed.

Lemma stored_get h s r : JsObject.get h (store s) = Some r → stored h s = 1.
Proof. unfold stored, JsObject.has. by intros ->. Qed.

Lemma stored_has h s : JsObject.has h (store s) = false → stored h s = 0.
Proof. unfold stored. by intros ->. Qed.

Lemma stored_same h s s' :
  JsObject.get h (store s') = JsObject.get h (store s) → stored h s' = stored h s.
Proof. unfold stored, JsObject.has. by intros ->. Qed.

Lemma stored_set h hash r s s' :
  JsObject.get h (store s')
  = JsObject.get h (JsObject.set hash r (store s)) →
  stored h s' = if decide (hash = h) then 1 else stored h s.
Proof.
  intros Hst. unfold stored, JsObject.has. rewrite Hst. case_decide as Hh.
  - subst. by rewrite JsObjectFacts.get_set_eq.
  - by rewrite JsObjectFacts.get_set_ne.
Qed.

Lemma flying_at_removal h hash st : flying_at h (Removal hash st : task) = 0.
Proof. done. Qed.

Lemma quiet_app h s s' evs :
  log s' = log s ++ evs → quiet h s' = true →
  quiet h s = true ∧ forallb (λ ev, negb (disturbs h ev)) evs = true.
Proof.
  unfold quiet. intros ->. rewrite forallb_app. by intros [? ?]%andb_true_iff.
Qed.

Lemma quiet_no_delete h evs :
  forallb (λ ev, negb (disturbs h ev)) evs = true → (EvDelete h : event) ∉ evs.
Proof.
  intros Hq Hin%list_elem_of_In. rewrite forallb_forall in Hq.
  apply Hq in Hin. simpl in Hin. by rewrite bool_decide_eq_true_2 in Hin.
Qed.

(** What a fetch that starts adds to the accounts of a hash. *)
Lemma fetch_start_account t s key hash now s1 st c h :
  hash = hasher key →
  fetch_start t s key hash now s1 st →
  quiet h s1 = true →
  creating h s = (if decide (h ∈ initializing s) then 1 else 0) →
  quiet h s = true ∧
  factory_calls h s1 = factory_calls h s + flying_at h (Fetch c key hash now st) ∧
  factory_failures h s1 = factory_failures h s ∧
  stored h s1 = stored h s ∧
  (flying_at h (Fetch c key hash now st) = 1 → flying h s = 0 ∧ stored h s = 0).
Proof.
  intros -> Hs Hq Hone. pose proof (flying_le_creating h s) as Hle.
  destruct Hs as [_ Hinit|Hinit|r Hget Hinit];
    unfold factory_calls, factory_failures; simpl.
  - apply (quiet_app h s _ [EvFactory t key (JsObject.get (hasher key) (store s))]) in Hq
      as [Hq Hnew]; [|done].
    rewrite !sum_list_with_app. simpl. split_and!; [done|lia|lia|done|].
    destruct (decide (hasher key = h)) as [Hh|Hh]; [|intros; lia]. subst h. intros _.
    rewrite decide_False in Hone by done. split; [lia|].
    apply stored_has. unfold JsObject.has. simpl in Hnew.
    destruct (JsObject.get (hasher key) (store s)); [|done].
    by rewrite bool_decide_eq_true_2 in Hnew.
  - split_and!; [done|lia|done..].
  - split_and!; [done|lia|done..].
Qed.

Lemma fetch_start_quiet t s key hash now s1 st h :
  fetch_start t s key hash now s1 st → quiet h s1 = true → quiet h s = true.
Proof.
  intros (_ & _ & _ & _ & _ & _ & evs & Hlog & _)%fetch_start_frame Hq.
  by apply (quiet_app h s s1 evs) in Hq as [? _].
Qed.

Lemma fetch_call_quiet m h c key s s' :
  fetch_call c key s s' →
  flight_ok s → quiet_ok m h s → quiet_ok m h s'.
Proof.
  intros Hcall [_ Hone] [Hacc Hfresh Hholds Hyields].
  destruct Hcall as [s1 st _ Hs]. split.
  - intros Hq.
    destruct (fetch_start_account _ _ _ _ _ _ _ c h eq_refl Hs Hq (Hone h))
      as (Hq0 & Hc & Hf & Hst & _).
    apply fetch_start_frame in Hs as (Hts & _).
    unfold factory_calls, factory_failures, stored in *. simpl in *.
    rewrite Hc, Hf, Hst. specialize (Hacc Hq0).
    unfold flying in *. simpl. rewrite Hts, sum_list_with_app. simpl in *. lia.
  - intros Hq.
    destruct (fetch_start_account _ _ _ _ _ _ _ c h eq_refl Hs Hq (Hone h))
      as (Hq0 & _ & _ & Hst & Hnew).
    apply fetch_start_frame in Hs as (Hts & _).
    remember (flying_at h (Fetch c key (hasher key) (clock (reads s)) st)) as w eqn:Hw.
    assert (w ≤ 1) as Hw1.
    { subst w. simpl. destruct st; try lia. destruct (decide (hasher key = h)); lia. }
    specialize (Hfresh Hq0). unfold stored, flying in *. simpl in Hst, Hnew |- *.
    simpl in Hts. rewrite Hst, Hts, sum_list_with_app.
    change (sum_list_with (flying_at h) [Fetch c key (hasher key) (clock (reads s)) st])
      with (flying_at h (Fetch c key (hasher key) (clock (reads s)) st) + 0).
    rewrite <-Hw.
    destruct (decide (w = 1)) as [Hw2|Hw2]; [destruct (Hnew Hw2); lia | lia].
  - intros t c0 key0 now0 st0 r Hm Hq Ht Hr.
    pose proof (fetch_start_quiet _ _ _ _ _ _ _ _ Hs Hq) as Hq0.
    apply lookup_spawn in Ht as [[_ Ht]|Ht].
    + simplify_eq. destruct Hs; simplify_eq/=. done.
    + pose proof Hs as (Hts & _ & Hst & _)%fetch_start_frame.
      rewrite Hts in Ht. simpl. rewrite Hst. by eapply Hholds.
  - intros t c0 key0 now0 st0 v Hm Hq Ht Hv.
    pose proof (fetch_start_quiet _ _ _ _ _ _ _ _ Hs Hq) as Hq0.
    apply lookup_spawn in Ht as [[_ Ht]|Ht].
    + simplify_eq. by destruct Hs.
    + pose proof Hs as (Hts & _ & Hst & _)%fetch_start_frame.
      rewrite Hts in Ht. simpl. rewrite Hst.
      destruct (Hyields _ _ _ _ _ _ Hm Hq0 Ht Hv) as (r & e & Hget & He & Hval).
      assert (Hev : evolves s s1).
      { destruct Hs; [by apply evolves_same..|].
        eapply evolves_alter; [apply keeps_identity_set_timestamp|done..]. }
      destruct (evolves_value _ _ _ _ Hev He) as (e' & He' & Hval').
      exists r, e'. split_and!; [done|done|congruence].
Qed.

Lemma fetch_call_flight_ok c key s s' :
  fetch_call c key s s' → flight_ok s → flight_ok s'.
Proof.
  intros Hcall [Hhash Hone]. split; [|by eapply fetch_call_flight_one].
  apply fetch_call_frame in Hcall as (_ & (st & Ht & _) & _).
  intros t c0 key0 hash0 now0 st0 H0. rewrite Ht in H0.
  apply lookup_app_Some in H0 as [H0|[_ H0]]; [by eapply Hhash|].
  apply list_lookup_singleton_Some in H0 as [_ H0]. by simplify_eq.
Qed.

Lemma fetch_calls_quiet m h c keys s s' ids :
  fetch_calls c keys s s' ids →
  flight_ok s → quiet_ok m h s → flight_ok s' ∧ quiet_ok m h s'.
Proof.
  induction 1 as [|key keys s s1 s2 ids H1 H2 IH]; [done|].
  intros Hf Hu. apply IH.
  - by eapply fetch_call_flight_ok.
  - by eapply fetch_call_quiet.
Qed.

Lemma spawn_multi_quiet m h lock keys ids s :
  quiet_ok m h s → quiet_ok m h (spawn (Multi lock keys ids AwaitAll) s).
Proof.
  intros [Hacc Hfresh Hholds Hyields]. split.
  - intros Hq. specialize (Hacc Hq). unfold flying in *. simpl.
    rewrite sum_list_with_app. simpl. unfold factory_calls, factory_failures, stored in *.
    simpl. lia.
  - intros Hq. specialize (Hfresh Hq). unfold flying, stored in *. simpl.
    rewrite sum_list_with_app. simpl. lia.
  - intros t c key now st r Hm Hq Ht.
    apply lookup_spawn in Ht as [[_ ?]|Ht]; [done|]. by eapply Hholds.
  - intros t c key now st v Hm Hq Ht.
    apply lookup_spawn in Ht as [[_ ?]|Ht]; [done|]. by eapply Hyields.
Qed.

Lemma trim_events_silent s h evs :
  Forall (trim_event s) evs →
  sum_list_with (call_at h) evs = 0 ∧ sum_list_with (failure_at h) evs = 0.
Proof.
  induction 1 as [|ev evs Hev _ [IH1 IH2]]; [done|].
  destruct ev; simpl in Hev; try done; simpl; by rewrite IH1, IH2.
Qed.

(** A trim pass, seen from a hash that is still quiet after it. *)
Lemma shrinkCache_quiet s now s' sh h :
  shrinkCache s now = (s', sh) → quiet h s' = true →
  quiet h s = true ∧ JsObject.get h (store s') = JsObject.get h (store s) ∧
  heap s' = heap s ∧ (∃ new, tasks s' = tasks s ++ new ∧ Forall parked_removal new) ∧
  factory_calls h s' = factory_calls h s ∧
  factory_failures h s' = factory_failures h s.
Proof.
  intros (Hheap & _ & _ & _ & Hnew & (evs & Hlog & Htrim & Hkeep))%shrinkCache_frame Hq.
  apply (quiet_app h s s' evs) in Hq as [Hq Hevs]; [|done].
  destruct (trim_events_silent s h evs Htrim) as [Hc Hf].
  split_and!; [done| |done..| |].
  - by apply Hkeep, quiet_no_delete.
  - unfold factory_calls. rewrite Hlog, sum_list_with_app. lia.
  - unfold factory_failures. rewrite Hlog, sum_list_with_app. lia.
Qed.

Lemma quiet_emit h ev s s' :
  quiet h s' = true → log s' = log s ++ [ev] →
  quiet h s = true ∧ disturbs h ev = false.
Proof.
  intros Hq Hlog. apply (quiet_app h s s' [ev]) in Hq as [Hq Hev]; [|done].
  split; [done|]. simpl in Hev. by destruct (disturbs h ev).
Qed.

Lemma Step_log l s s' : Step l s s' → ∃ evs, log s' = log s ++ evs.
Proof.
  destruct 1; simpl; try (by exists []; rewrite app_nil_r); try (by eexists [_]).
  - match goal with H : fetch_call _ _ _ _ |- _ =>
      apply fetch_call_frame in H as (_ & _ & evs & Hlog & _) end. by exists evs.
  - match goal with H : fetch_calls _ _ _ _ _ |- _ =>
      apply fetch_calls_frame in H as (_ & _ & _ & evs & Hlog & _) end. by exists evs.
  - match goal with H : shrinkCache _ _ = _ |- _ =>
      apply shrinkCache_frame in H as (_ & _ & _ & _ & _ & evs & Hlog & _) end.
    by exists evs.
  - match goal with H : fetch_start _ _ _ _ _ _ _ |- _ =>
      apply fetch_start_frame in H as (_ & _ & _ & _ & _ & _ & evs & Hlog & _) end.
    by exists evs.
  - match goal with H : shrinkCache _ _ = _ |- _ =>
      apply shrinkCache_frame in H as (_ & _ & _ & _ & _ & evs & Hlog & _) end.
    by exists evs.
Qed.

Lemma Step_quiet l s s' h : Step l s s' → quiet h s' = true → quiet h s = true.
Proof.
  intros [evs Hlog]%Step_log Hq. by apply (quiet_app h s s' evs) in Hq as [? _].
Qed.

Lemma Step_quiet_account m l s s' h :
  Step l s s' → flight_ok s → quiet_ok m h s → quiet h s' = true →
  factory_calls h s' = factory_failures h s' + flying h s' + stored h s' ∧
  flying h s' + stored h s' ≤ 1.
Proof.
  intros HS Hfl Hok Hq. pose proof (Step_quiet _ _ _ _ HS Hq) as Hq0.
  pose proof Hfl as [Hhash Hone]. pose proof Hok as [Hacc Hfresh _ _].
  specialize (Hacc Hq0). specialize (Hfresh Hq0). specialize (Hone h).
  destruct HS;
    try (match goal with
         | Ht : tasks ?s !! ?t = Some ?tk |- context [park ?t ?X ?s1] =>
             pose proof (weight_park_same (flying_at h) s s1 t X tk eq_refl Ht)
         end;
         unfold flying, factory_calls, factory_failures, stored in *; simpl in *;
         rewrite ?sum_list_with_app; simpl; lia).
  - match goal with H : fetch_call _ _ _ _ |- _ =>
      apply (fetch_call_quiet m h) in H as [Ha Hf _ _]; [|done..] end.
    split; [by apply Ha | by apply Hf].
  - match goal with H : fetch_calls _ _ _ _ _ |- _ =>
      apply (fetch_calls_quiet m h) in H as [_ Hu]; [|done..] end.
    apply (spawn_multi_quiet m h lock keys ids) in Hu as [Ha Hf _ _].
    split; [by apply Ha | by apply Hf].
  - (* the timer fires *)
    match goal with H : shrinkCache _ _ = _ |- _ =>
      destruct (shrinkCache_quiet _ _ _ _ h H Hq)
        as (_ & Hst & _ & (new & Hnew & Hall) & Hc & Hf) end.
    pose proof (weight_park (flying_at h) _ s1 (length (tasks s)) (Scheduled sh) _ new
                  (flying_at_removal h) Hnew Hall
                  (list_lookup_middle (tasks s) [] _ _ eq_refl)) as Hw.
    simpl in Hw. rewrite sum_list_with_app in Hw. simpl in Hw.
    pose proof (stored_same h s (park (length (tasks s)) (Scheduled sh) s1) Hst) as Hsame.
    unfold flying, factory_calls, factory_failures, stored in *. simpl in *. lia.
  - done.
  - (* a retry after waiting *)
    match goal with Ht : tasks _ !! _ = Some _ |- _ =>
      pose proof (Hhash _ _ _ _ _ _ Ht) as Hkey end.
    match goal with H : fetch_start _ _ _ _ _ _ _ |- _ =>
      destruct (fetch_start_account _ _ _ _ _ _ _ c h Hkey H Hq Hone)
        as (_ & Hc & Hf & Hst & Hnew);
      apply fetch_start_frame in H as (Hts & _) end.
    match goal with
    | Ht : tasks ?s !! ?t = Some ?tk |- context [park ?t ?X ?s1] =>
        pose proof (weight_park_same (flying_at h) s s1 t X tk Hts Ht) as Hw
    end.
    remember (flying_at h (Fetch c key hash now st)) as w eqn:Hweq.
    assert (w ≤ 1) as Hw1.
    { subst w. simpl. destruct st; try lia. destruct (decide (hash = h)); lia. }
    change (flying_at h (Fetch c key hash now Woken)) with 0 in Hw.
    unfold flying, factory_calls, factory_failures, stored in *. simpl in *.
    destruct (decide (w = 1)) as [Hw2|Hw2]; [destruct (Hnew Hw2)|]; lia.
  - (* the factory resolves *)
    match goal with H : shrinkCache _ _ = _ |- _ =>
      destruct (shrinkCache_quiet _ _ _ _ h H Hq)
        as (_ & Hst & _ & (new & Hnew & Hall) & Hc & Hf) end.
    match goal with
    | Ht : tasks ?s !! ?t = Some ?tk |- context [park ?t ?X ?s1] =>
        pose proof (weight_park (flying_at h) s s1 t X tk new
                      (flying_at_removal h) Hnew Hall Ht) as Hw;
        pose proof (weight_lookup (flying_at hash) _ _ _ Ht) as Hfly;
        pose proof (stored_set h hash (length (heap s)) s (park t X s1) Hst) as Hset
    end.
    unfold flying, factory_calls, factory_failures in *. simpl in *.
    rewrite decide_True in Hfly by done.
    destruct (decide (hash = h)); [subst; lia|lia].
  - (* the factory fails *)
    match goal with Ht : tasks _ !! _ = Some _ |- _ =>
      pose proof (Hhash _ _ _ _ _ _ Ht) as Hkey end.
    match goal with
    | Ht : tasks ?s !! ?t = Some ?tk |- context [park ?t ?X ?s1] =>
        pose proof (weight_park_same (flying_at h) s s1 t X tk eq_refl Ht) as Hw
    end.
    unfold flying, factory_calls, factory_failures, stored in *. simpl in *.
    rewrite !sum_list_with_app. simpl. subst hash.
    destruct (decide (hasher key = h)); lia.
  - (* [delete store[hash]] after [destroy()] *)
    destruct (quiet_emit h (EvDelete hash) s _ Hq eq_refl) as [_ Hd].
    simpl in Hd. apply bool_decide_eq_false in Hd.
    match goal with
    | Ht : tasks ?s !! ?t = Some ?tk |- context [park ?t ?X ?s1] =>
        pose proof (weight_park_same (flying_at h) s s1 t X tk eq_refl Ht) as Hw;
        pose proof (stored_same h s (park t X s1)
                      (JsObjectFacts.get_remove_ne _ _ _ Hd)) as Hsame
    end.
    unfold flying, factory_calls, factory_failures, stored in *. simpl in *.
    rewrite !sum_list_with_app. simpl. lia.
Qed.

Lemma Step_quiet_holds m hash0 l s s' :
  Step l s s' → flight_ok s → quiet_ok m hash0 s →
  ∀ t c key now st r,
    m ≤ t → quiet hash0 s' = true →
    tasks s' !! t = Some (Fetch c key hash0 now st) → holds st = Some r →
    JsObject.get hash0 (store s') = Some r.
Proof.
  intros HS Hfl Hok t0 c0 key0 now0 st0 r0 Hm Hq H0 Hr0.
  pose proof (Step_quiet _ _ _ _ HS Hq) as Hq0.
  pose proof Hok as [_ Hfresh Hholds _]. specialize (Hfresh Hq0).
  assert (Hheld : ∀ c key now st r,
    tasks s !! t0 = Some (Fetch c key hash0 now st) → holds st = Some r →
    JsObject.get hash0 (store s) = Some r) by (intros; by eapply Hholds).
  pose proof Hok as Hok0.
  clear Hholds.
  destruct HS;
    try (apply lookup_park in H0 as [[-> H0]|[_ H0]];
         [simplify_eq/=; try done; by (eapply Hheld; [eassumption|done])
         |by (eapply Hheld; eassumption)]).
  - match goal with H : fetch_call _ _ _ _ |- _ =>
      apply (fetch_call_quiet m hash0) in H as [_ _ Hh _]; [|done..] end.
    by eapply Hh.
  - match goal with H : fetch_calls _ _ _ _ _ |- _ =>
      apply (fetch_calls_quiet m hash0) in H as [_ Hu]; [|done..] end.
    apply (spawn_multi_quiet m hash0 lock keys ids) in Hu as [_ _ Hh _].
    by eapply Hh.
  - (* the timer fires *)
    match goal with H : shrinkCache _ _ = _ |- _ =>
      destruct (shrinkCache_quiet _ _ _ _ hash0 H Hq)
        as (_ & Hst & _ & (new & Hnew & Hall) & _) end.
    apply lookup_park in H0 as [[_ ?]|[_ H0]]; [done|].
    rewrite Hnew in H0. simpl in H0.
    apply (lookup_new_removal _ _ _ _ Hall) in H0 as [H0|[? ?]]; [|done].
    apply lookup_app_Some in H0 as [H0|[_ H0]];
      [|by apply list_lookup_singleton_Some in H0 as [_ ?]].
    simpl. rewrite Hst. by (eapply Hheld; eassumption).
  - (* [addToStore] returns *)
    apply lookup_park in H0 as [[-> H0]|[_ H0]]; [|by (eapply Hheld; eassumption)].
    simplify_eq/=. destruct o; simplify_eq/=.
    by (eapply Hheld; [eassumption|done]).
  - by (eapply Hheld; eassumption).
  - (* a retry after waiting *)
    match goal with H : fetch_start _ _ _ _ _ _ _ |- _ =>
      pose proof H as (Hts & _ & Hst & _)%fetch_start_frame end.
    apply lookup_park in H0 as [[-> H0]|[_ H0]].
    + simplify_eq/=. rewrite Hst.
      match goal with H : fetch_start _ _ _ _ _ _ _ |- _ => destruct H end;
        by simplify_eq/=.
    + rewrite Hts in H0. simpl. rewrite Hst. by (eapply Hheld; eassumption).
  - (* the factory resolves *)
    match goal with H : shrinkCache _ _ = _ |- _ =>
      destruct (shrinkCache_quiet _ _ _ _ hash0 H Hq)
        as (_ & Hst & _ & (new & Hnew & Hall) & _) end.
    simpl. rewrite Hst. simpl.
    apply lookup_park in H0 as [[-> H0]|[_ H0]].
    + simplify_eq/=. apply JsObjectFacts.get_set_eq.
    + rewrite Hnew in H0. simpl in H0.
      apply (lookup_new_removal _ _ _ _ Hall) in H0 as [H0|[? ?]]; [|done].
      destruct (decide (hash = hash0)) as [->|Hne].
      * exfalso.
        pose proof (Hheld _ _ _ _ _ H0 Hr0) as Hget%stored_get.
        match goal with Ht : tasks s !! _ = Some (Fetch _ _ _ _ AwaitCreate) |- _ =>
          pose proof (weight_lookup (flying_at hash0) _ _ _ Ht) as Hfly end.
        unfold flying in *. simpl in Hfly. rewrite decide_True in Hfly by done. lia.
      * rewrite JsObjectFacts.get_set_ne by done. by (eapply Hheld; eassumption).
  - (* [delete store[hash]] after [destroy()] *)
    destruct (quiet_emit hash0 (EvDelete hash) s _ Hq eq_refl) as [_ Hd].
    simpl in Hd. apply bool_decide_eq_false in Hd.
    apply lookup_park in H0 as [[-> H0]|[_ H0]]; [done|].
    simpl. rewrite JsObjectFacts.get_remove_ne by done. by (eapply Hheld; eassumption).
  - (* the transformer settles *)
    apply lookup_park in H0 as [[-> H0]|[_ H0]]; [|by (eapply Hheld; eassumption)].
    simplify_eq/=. destruct l; by simplify_eq/=.
Qed.

Lemma Step_quiet_yields m hash0 l s s' :
  Step l s s' → evolves s s' → flight_ok s → quiet_ok m hash0 s →
  ∀ t c key now st v,
    m ≤ t → quiet hash0 s' = true →
    tasks s' !! t = Some (Fetch c key hash0 now st) → yields st = Some v →
    ∃ r e, JsObject.get hash0 (store s') = Some r ∧ heap s' !! r = Some e ∧ value e = v.
Proof.
  intros HS Hev Hfl Hok t0 c0 key0 now0 st0 v0 Hm Hq H0 Hv0.
  pose proof (Step_quiet _ _ _ _ HS Hq) as Hq0.
  pose proof Hok as [_ Hfresh Hholds Hyields]. specialize (Hfresh Hq0).
  assert (Hold : ∀ c key now st v,
    tasks s !! t0 = Some (Fetch c key hash0 now st) → yields st = Some v →
    JsObject.get hash0 (store s') = JsObject.get hash0 (store s) →
    ∃ r e, JsObject.get hash0 (store s') = Some r ∧ heap s' !! r = Some e ∧ value e = v).
  { intros c key now st v Ht Hv Hst.
    destruct (Hyields _ _ _ _ _ _ Hm Hq0 Ht Hv) as (r & e & Hget & He & Hval).
    destruct (evolves_value _ _ _ _ Hev He) as (e' & He' & Hval').
    exists r, e'. rewrite Hst. split_and!; [done|done|congruence]. }
  assert (Hheld : ∀ c key now r e,
    tasks s !! t0 = Some (Fetch c key hash0 now (Fetched (Fulfilled r))) →
    heap s !! r = Some e →
    JsObject.get hash0 (store s') = JsObject.get hash0 (store s) →
    ∃ r' e', JsObject.get hash0 (store s') = Some r' ∧ heap s' !! r' = Some e' ∧
             value e' = value e).
  { intros c key now r e Ht He Hst.
    pose proof (Hholds _ _ _ _ _ r Hm Hq0 Ht eq_refl) as Hget.
    destruct (evolves_value _ _ _ _ Hev He) as (e' & He' & Hval').
    exists r, e'. rewrite Hst. by split_and!. }
  assert (Hgot : ∀ c key now st v,
    tasks s !! t0 = Some (Fetch c key hash0 now st) → yields st = Some v →
    stored hash0 s = 1).
  { intros c key now st v Ht Hv.
    by destruct (Hyields _ _ _ _ _ _ Hm Hq0 Ht Hv) as (r & e & Hget%stored_get & _). }
  pose proof Hok as Hok0.
  clear Hev Hholds Hyields.
  destruct HS;
    try (apply lookup_park in H0 as [[-> H0]|[_ H0]];
         [simplify_eq/=; try done; by (eapply Hheld; [eassumption..|done])
         |by (eapply Hold; [eassumption..|done])]).
  - match goal with H : fetch_call _ _ _ _ |- _ =>
      apply (fetch_call_quiet m hash0) in H as [_ _ _ Hy]; [|done..] end.
    by eapply Hy.
  - match goal with H : fetch_calls _ _ _ _ _ |- _ =>
      apply (fetch_calls_quiet m hash0) in H as [_ Hu]; [|done..] end.
    apply (spawn_multi_quiet m hash0 lock keys ids) in Hu as [_ _ _ Hy].
    by eapply Hy.
  - (* the timer fires *)
    match goal with H : shrinkCache _ _ = _ |- _ =>
      destruct (shrinkCache_quiet _ _ _ _ hash0 H Hq)
        as (_ & Hst & _ & (new & Hnew & Hall) & _) end.
    apply lookup_park in H0 as [[_ ?]|[_ H0]]; [done|].
    rewrite Hnew in H0. simpl in H0.
    apply (lookup_new_removal _ _ _ _ Hall) in H0 as [H0|[? ?]]; [|done].
    apply lookup_app_Some in H0 as [H0|[_ H0]];
      [|by apply list_lookup_singleton_Some in H0 as [_ ?]].
    by (eapply Hold; [eassumption..|done]).
  - by (eapply Hold; [eassumption..|done]).
  - (* a retry after waiting *)
    match goal with H : fetch_start _ _ _ _ _ _ _ |- _ =>
      pose proof H as (Hts & _ & Hst & _ & _ & Hstart & _)%fetch_start_frame end.
    apply lookup_park in H0 as [[-> H0]|[_ H0]].
    + simplify_eq/=. by destruct st as [| | | |[]| |].
    + rewrite Hts in H0. by (eapply Hold; [eassumption..|simpl; by rewrite Hst]).
  - (* the factory resolves *)
    match goal with H : shrinkCache _ _ = _ |- _ =>
      destruct (shrinkCache_quiet _ _ _ _ hash0 H Hq)
        as (_ & Hst & _ & (new & Hnew & Hall) & _) end.
    apply lookup_park in H0 as [[-> H0]|[_ H0]]; [by simplify_eq/=|].
    rewrite Hnew in H0. simpl in H0.
    apply (lookup_new_removal _ _ _ _ Hall) in H0 as [H0|[? ?]]; [|done].
    eapply Hold; [eassumption..|]. simpl. rewrite Hst. simpl.
    destruct (decide (hash = hash0)) as [->|Hne].
    + exfalso. pose proof (Hgot _ _ _ _ _ H0 Hv0) as Hget.
      match goal with Ht : tasks s !! _ = Some (Fetch _ _ _ _ AwaitCreate) |- _ =>
        pose proof (weight_lookup (flying_at hash0) _ _ _ Ht) as Hfly end.
      unfold flying in *. simpl in Hfly. rewrite decide_True in Hfly by done. lia.
    + by rewrite JsObjectFacts.get_set_ne.
  - (* [delete store[hash]] after [destroy()] *)
    destruct (quiet_emit hash0 (EvDelete hash) s _ Hq eq_refl) as [_ Hd].
    simpl in Hd. apply bool_decide_eq_false in Hd.
    apply lookup_park in H0 as [[-> H0]|[_ H0]]; [done|].
    eapply Hold; [eassumption..|]. simpl. by rewrite JsObjectFacts.get_remove_ne.
  - (* the transformer settles *)
    apply lookup_park in H0 as [[-> H0]|[_ H0]];
      [|by (eapply Hold; [eassumption..|done])].
    simplify_eq/=. destruct l; by simplify_eq/=.
Qed.

(** *** Episodes: the log since a state

    The engine never reads its log, so it runs on [since s0 s] as it runs
    on [s]. *)

Lemma since_emit s0 ev s :
  length (log s0) ≤ length (log s) → since s0 (emit ev s) = emit ev (since s0 s).
Proof. intros Hle. unfold since, emit. simpl. by rewrite drop_app_le. Qed.

Lemma remove_candidates_since s0 cs s :
  length (log s0) ≤ length (log s) →
  remove_candidates cs (since s0 s)
  = (since s0 (remove_candidates cs s).1.1, (remove_candidates cs s).1.2,
     (remove_candidates cs s).2).
Proof.
  revert s. induction cs as [|hash cs IH]; intros s Hle; [done|].
  simpl. change (entry (since s0 s) hash) with (entry s hash).
  destruct (entry s hash) as [[r e]|].
  - destruct (0 <? locked e)%Z; [by apply IH|].
    destruct (destroy e).
    + change (tasks (since s0 s)) with (tasks s).
      change (spawn (Removal hash AwaitDestroy) (emit (EvDestroy hash r) (since s0 s)))
        with (spawn (Removal hash AwaitDestroy : task) (emit (EvDestroy hash r) (since s0 s))).
      rewrite <-since_emit by done.
      change (spawn (Removal hash AwaitDestroy : task) (since s0 (emit (EvDestroy hash r) s)))
        with (since s0 (spawn (Removal hash AwaitDestroy) (emit (EvDestroy hash r) s))).
      rewrite IH by (simpl; rewrite length_app; lia).
      by destruct (remove_candidates cs _) as [[? ?] ?].
    + rewrite <-since_emit by done.
      change (with_store (JsObject.remove hash) (since s0 (emit (EvDelete hash) s)))
        with (since s0 (with_store (JsObject.remove hash) (emit (EvDelete hash) s))).
      apply IH. simpl. rewrite length_app. lia.
  - rewrite IH by done. by destruct (remove_candidates cs s) as [[? ?] ?].
Qed.

Lemma shrinkCache_since s0 s now :
  length (log s0) ≤ length (log s) →
  shrinkCache (since s0 s) now = (since s0 (shrinkCache s now).1, (shrinkCache s now).2).
Proof.
  intros Hle. unfold shrinkCache.
  change (shrinkLock (since s0 s)) with (shrinkLock s).
  change (currentSize (since s0 s)) with (currentSize s).
  destruct (shrinkLock s); [done|].
  destruct (_ || _); [|done].
  unfold trim.
  change (oldestValues (with_shrinkLock true (since s0 s)))
    with (oldestValues (with_shrinkLock true s)).
  change (expiredValues (with_shrinkLock true (since s0 s)) now)
    with (expiredValues (with_shrinkLock true s) now).
  change (with_shrinkLock true (since s0 s)) with (since s0 (with_shrinkLock true s)).
  rewrite remove_candidates_since by done.
  by destruct (remove_candidates _ _) as [[? ?] ?].
Qed.

Lemma getOrInsertCachedValue_since s0 t s key hash now :
  length (log s0) ≤ length (log s) →
  getOrInsertCachedValue t (since s0 s) key hash now
  = (λ p, (since s0 p.1, p.2)) <$> getOrInsertCachedValue t s key hash now.
Proof.
  intros Hle. unfold getOrInsertCachedValue.
  change (store (since s0 s)) with (store s).
  change (isExpired (since s0 s) hash now) with (isExpired s hash now).
  change (initializing (since s0 s)) with (initializing s).
  destruct (_ && _).
  - simpl. unfold addToStore. do 2 f_equal.
    change (with_initializing (λ i, {[hash]} ∪ i) (since s0 s))
      with (since s0 (with_initializing (λ i, {[hash]} ∪ i) s)).
    by rewrite since_emit.
  - destruct (bool_decide _); [done|].
    unfold touch. change (store (since s0 s)) with (store s).
    by destruct (JsObject.get hash (store s)).
Qed.

Lemma getCachedValue_since s0 c key s :
  length (log s0) ≤ length (log s) →
  getCachedValue c key (since s0 s) = since s0 <$> getCachedValue c key s.
Proof.
  intros Hle. unfold getCachedValue. destruct (inherited _); [done|].
  change (reads (since s0 s)) with (reads s).
  change (tasks (since s0 s)) with (tasks s).
  change (with_reads (S (reads s)) (since s0 s)) with (since s0 (with_reads (S (reads s)) s)).
  rewrite getOrInsertCachedValue_since by done.
  by destruct (getOrInsertCachedValue _ _ _ _ _) as [[? ?]|].
Qed.

Lemma step_log_le l s s' : step l s = Some s' → length (log s) ≤ length (log s').
Proof.
  intros [evs ->]%step_Step%Step_log. rewrite length_app. lia.
Qed.

Lemma getCachedValues_since s0 c keys s :
  length (log s0) ≤ length (log s) →
  getCachedValues c keys (since s0 s)
  = (λ p, (since s0 p.1, p.2)) <$> getCachedValues c keys s.
Proof.
  revert s. induction keys as [|key keys IH]; intros s Hle; [done|].
  simpl. rewrite getCachedValue_since by done.
  destruct (getCachedValue c key s) as [s1|] eqn:H1; [|done]. simpl.
  rewrite IH.
  - by destruct (getCachedValues c keys s1) as [[? ?]|].
  - etrans; [done|]. apply getCachedValue_call, fetch_call_frame in H1
      as (_ & _ & evs & -> & _). rewrite length_app. lia.
Qed.

Lemma resume_since s0 t s :
  length (log s0) ≤ length (log s) →
  resume t (since s0 s) = since s0 <$> resume t s.
Proof.
  intros Hle. unfold resume. change (tasks (since s0 s)) with (tasks s).
  destruct (tasks s !! t) as [[c key hash now st|lock keys items [| |]|?|[o|cs failed]]|];
    try done.
  - simpl. destruct st as [|r [o|cs failed]| | |[r|e]|r|o]; try done; simpl.
    + change (trim_settles (since s0 s) cs failed) with (trim_settles s cs failed).
      by destruct (trim_settles s cs failed).
    + change (initializing (since s0 s)) with (initializing s).
      by destruct (bool_decide _).
    + unfold afterWait. change (store (since s0 s)) with (store s).
      destruct (negb _).
      * rewrite getOrInsertCachedValue_since by done.
        by destruct (getOrInsertCachedValue _ _ _ _ _) as [[? ?]|].
      * unfold touch. change (store (since s0 s)) with (store s).
        by destruct (JsObject.get hash (store s)).
    + change (heap (since s0 s)) with (heap s).
      destruct (heap s !! r) as [e|]; [|done]. simpl.
      destruct c; try done. simpl. f_equal.
      change (with_heap (alter (add_locked 1) r) (since s0 s))
        with (since s0 (with_heap (alter (add_locked 1) r) s)).
      by rewrite <-since_emit.
  - simpl. unfold resume_multi.
    change (item_outcome (since s0 s)) with (item_outcome s).
    destruct (promise_all _) as [[rs|e]|]; try done. simpl.
    destruct lock; [|by destruct (mapM as_pair rs)].
    destruct (mapM as_locked rs) as [kcs|]; [|done]. simpl.
    change (heap (since s0 s)) with (heap s).
    destruct (mapM _ kcs) as [kvs|]; [|done]. simpl. f_equal.
    by rewrite <-since_emit.
  - simpl. change (trim_settles (since s0 s) cs failed) with (trim_settles s cs failed).
    by destruct (trim_settles s cs failed).
Qed.

Lemma step_since s0 l s :
  length (log s0) ≤ length (log s) →
  step l (since s0 s) = since s0 <$> step l s.
Proof.
  intros Hle. destruct l as [key|key|keys|keys| |t|t v d|t|t|t|t w|t]; simpl.
  - by apply getCachedValue_since.
  - by apply getCachedValue_since.
  - rewrite getCachedValues_since by done.
    by destruct (getCachedValues Item keys s) as [[? ?]|].
  - rewrite getCachedValues_since by done.
    by destruct (getCachedValues ItemLock keys s) as [[? ?]|].
  - destruct (bool_decide _); [|done].
    change (reads (since s0 s)) with (reads s).
    change (tasks (since s0 s)) with (tasks s).
    change (spawn (Scheduled (ShrinkSettled (Fulfilled ())))
              (with_reads (S (reads s)) (since s0 s)))
      with (since s0 (spawn (Scheduled (ShrinkSettled (Fulfilled ())))
                        (with_reads (S (reads s)) s))).
    rewrite shrinkCache_since by done.
    by destruct (shrinkCache _ _).
  - by apply resume_since.
  - change (tasks (since s0 s)) with (tasks s).
    destruct (tasks s !! t) as [[c key hash now []| | |]|]; try done. simpl.
    match goal with |- context [shrinkCache ?x now] =>
      change x with (since s0 (publish s hash now v d).1) end.
    rewrite shrinkCache_since by done. simpl.
    by destruct (shrinkCache _ _).
  - change (tasks (since s0 s)) with (tasks s).
    destruct (tasks s !! t) as [[c key hash now []| | |]|]; try done. simpl. f_equal.
    change (with_initializing (λ i, i ∖ {[hash]}) (since s0 s))
      with (since s0 (with_initializing (λ i, i ∖ {[hash]}) s)).
    by rewrite <-since_emit.
  - change (tasks (since s0 s)) with (tasks s).
    destruct (tasks s !! t) as [[| |hash [|]|]|]; try done. simpl. f_equal.
    by rewrite <-since_emit.
  - change (tasks (since s0 s)) with (tasks s).
    by destruct (tasks s !! t) as [[| |hash [|]|]|].
  - unfold transformer_settles. change (tasks (since s0 s)) with (tasks s).
    destruct (tasks s !! t) as [[[] key hash now []|[] keys items []| |]|]; done.
  - unfold transformer_settles. change (tasks (since s0 s)) with (tasks s).
    destruct (tasks s !! t) as [[[] key hash now []|[] keys items []| |]|]; done.
Qed.

Lemma run_invariant (P : engine → Prop) sch s s' :
  (∀ l s1 s2, P s1 → step l s1 = Some s2 → P s2) →
  P s → run sch s = Some s' → P s'.
Proof.
  intros Hstep. revert s. induction sch as [|l sch IH]; intros s Hs; simpl.
  - by intros [= <-].
  - destruct (step l s) as [s1|] eqn:Hs1; simpl; [|done].
    apply IH. by eapply Hstep.
Qed.

Lemma flight_ok_since s0 s : flight_ok s → flight_ok (since s0 s).
Proof. intros [Hhash Hone]. by split. Qed.

(** The accounts of the factory, from a state in which the hash has neither
    an entry nor a creation in flight, stay balanced for as long as the
    hash is quiet. *)
Lemma run_quiet_ok s0 h sch s :
  reachable s0 →
  JsObject.has h (store s0) = false → h ∉ initializing s0 →
  run sch s0 = Some s →
  reachable s ∧ length (log s0) ≤ length (log s) ∧
  quiet_ok (length (tasks s0)) h (since s0 s).
Proof.
  intros Hr0 Hhas Hinit.
  apply (run_invariant (λ s, reachable s ∧ length (log s0) ≤ length (log s) ∧
                             quiet_ok (length (tasks s0)) h (since s0 s))).
  - intros l s1 s2 (Hr1 & Hle & Hok) Hstep.
    split; [by eapply reachable_step|].
    split; [etrans; [done|by eapply step_log_le]|].
    assert (Hstep' : step l (since s0 s1) = Some (since s0 s2)).
    { rewrite step_since by done. by rewrite Hstep. }
    pose proof (flight_ok_since s0 _ (reachable_flight_ok _ Hr1)) as Hfl.
    pose proof (step_evolves _ _ _ Hstep') as Hev.
    apply step_Step in Hstep'. split.
    + intros Hq. by eapply Step_quiet_account.
    + intros Hq. by eapply Step_quiet_account.
    + by eapply Step_quiet_holds.
    + by eapply Step_quiet_yields.
  - split; [done|]. split; [done|].
    pose proof (reachable_flight_ok _ Hr0) as [_ Hone].
    assert (Hfly : flying h s0 = 0).
    { pose proof (flying_le_creating h s0) as Hle. rewrite Hone in Hle.
      rewrite decide_False in Hle by done. lia. }
    split.
    + intros _. unfold factory_calls, factory_failures. simpl.
      rewrite drop_all. simpl.
      change (flying h (since s0 s0)) with (flying h s0).
      change (stored h (since s0 s0)) with (stored h s0).
      rewrite Hfly, (stored_has _ _ Hhas). done.
    + intros _.
      change (flying h (since s0 s0)) with (flying h s0).
      change (stored h (since s0 s0)) with (stored h s0).
      rewrite Hfly, (stored_has _ _ Hhas). lia.
    + intros t c key now st r Hm _ Ht. apply lookup_lt_Some in Ht. simpl in Ht. lia.
    + intros t c key now st v Hm _ Ht. apply lookup_lt_Some in Ht. simpl in Ht. lia.
Qed.

(** *** A cache that never evicts *)

Lemma shrinkCache_unbounded s now :
  unbounded → shrinkCache s now = (s, ShrinkSettled (Fulfilled ())).
Proof.
  intros [Hsize Hexp]. unfold shrinkCache. rewrite Hsize, Hexp.
  by destruct (shrinkLock s).
Qed.

Lemma isExpired_unbounded s hash now : unbounded → isExpired s hash now = false.
Proof. intros [_ Hexp]. unfold isExpired, expiryInMilliseconds. by rewrite Hexp. Qed.

Lemma quiet_extend h s s' evs :
  log s' = log s ++ evs → quiet h s = true →
  forallb (λ ev, negb (disturbs h ev)) evs = true → quiet h s' = true.
Proof. unfold quiet. intros -> Hq Hevs. rewrite forallb_app. by rewrite Hq, Hevs. Qed.

Lemma fetch_start_unbounded t s key hash now s1 st h :
  unbounded → fetch_start t s key hash now s1 st →
  quiet h s = true → quiet h s1 = true.
Proof.
  intros Hunb Hs Hq. destruct Hs as [[Hhas|Hexp] _| |]; [| |done..].
  - apply (quiet_extend h s _ [EvFactory t key (JsObject.get hash (store s))]);
      [done..|].
    unfold JsObject.has in Hhas. simpl. by destruct (JsObject.get hash (store s)).
  - by rewrite isExpired_unbounded in Hexp.
Qed.

Lemma fetch_call_unbounded c key s s' :
  unbounded → fetch_call c key s s' →
  (∀ t hash st, tasks s !! t ≠ Some (Removal hash st)) ∧ (∀ h, quiet h s = true) →
  (∀ t hash st, tasks s' !! t ≠ Some (Removal hash st)) ∧ (∀ h, quiet h s' = true).
Proof.
  intros Hunb [s1 st _ Hs] [Htasks Hq]. split.
  - intros t hash st0 Ht. apply lookup_spawn in Ht as [[_ ?]|Ht]; [done|].
    apply fetch_start_frame in Hs as (Hts & _). rewrite Hts in Ht. by eapply Htasks.
  - intros h. exact (fetch_start_unbounded _ _ _ _ _ _ _ h Hunb Hs (Hq h)).
Qed.

Lemma fetch_calls_unbounded c keys s s' ids :
  unbounded → fetch_calls c keys s s' ids →
  (∀ t hash st, tasks s !! t ≠ Some (Removal hash st)) ∧ (∀ h, quiet h s = true) →
  (∀ t hash st, tasks s' !! t ≠ Some (Removal hash st)) ∧ (∀ h, quiet h s' = true).
Proof.
  intros Hunb. induction 1 as [|key keys s s1 s2 ids H1 H2 IH]; [done|].
  intros Hok. by eapply IH, fetch_call_unbounded.
Qed.

Lemma Step_unbounded l s s' :
  unbounded → Step l s s' →
  (∀ t hash st, tasks s !! t ≠ Some (Removal hash st)) ∧ (∀ h, quiet h s = true) →
  (∀ t hash st, tasks s' !! t ≠ Some (Removal hash st)) ∧ (∀ h, quiet h s' = true).
Proof.
  intros Hunb HS [Htasks Hq].
  destruct HS;
    try (split;
         [intros t0 hash0 st0 Hlook;
          apply lookup_park in Hlook as [[-> Hlook]|[_ Hlook]];
          [simplify_eq/=; by eapply Htasks | by eapply Htasks]
         |intros h0; specialize (Hq h0); unfold quiet in *; simpl;
          rewrite ?forallb_app, ?Hq; done]).
  - by eapply fetch_call_unbounded.
  - match goal with H : fetch_calls _ _ _ _ _ |- _ =>
      apply (fetch_calls_unbounded _ _ _ _ _ Hunb) in H as [Ht' Hq']; [|done] end.
    split; [|done]. intros t0 hash0 st0 Hlook.
    apply lookup_spawn in Hlook as [[_ ?]|Hlook]; [done|]. by eapply Ht'.
  - destruct Hunb as [_ Hexp]. rewrite Hexp in *. by destruct H as [? ?].
  - done.
  - match goal with H : fetch_start _ _ _ _ _ _ _ |- _ =>
      pose proof H as (Ht & _)%fetch_start_frame end.
    split.
    + intros t0 hash0 st0 Hlook.
      apply lookup_park in Hlook as [[-> Hlook]|[_ Hlook]]; [done|].
      rewrite Ht in Hlook. by eapply Htasks.
    + intros h0.
      match goal with H : fetch_start _ _ _ _ _ _ _ |- _ =>
        exact (fetch_start_unbounded _ _ _ _ _ _ _ h0 Hunb H (Hq h0)) end.
  - rewrite shrinkCache_unbounded in * by done. simplify_eq. split.
    + intros t0 hash0 st0 Hlook.
      apply lookup_park in Hlook as [[-> Hlook]|[_ Hlook]]; [done|]. by eapply Htasks.
    + done.
  - exfalso. by eapply Htasks.
Qed.

(** In a cache with neither [size] nor [expiry] no removal is ever started
    and every hash stays quiet. *)
Lemma reachable_unbounded s :
  unbounded → reachable s →
  (∀ t hash st, tasks s !! t ≠ Some (Removal hash st)) ∧ (∀ h, quiet h s = true).
Proof.
  intros Hunb Hreach. revert s Hreach. apply reachable_invariant.
  - intros s0. unfold createCache. destruct (validateOptions _); [|done].
    intros [= <-]. split; [|done]. intros t ? ? Ht. simpl in Ht.
    by rewrite lookup_nil in Ht.
  - intros l s1 s2 _ Hok Hstep%step_Step. by eapply Step_unbounded.
Qed.

(** *** Every fetch can run to completion *)

Lemma leads_to_refl s : leads_to s s.
Proof. by exists []. Qed.

Lemma leads_to_step l s s' : step l s = Some s' → leads_to s s'.
Proof. intros H. exists [l]. simpl. by rewrite H. Qed.

Lemma leads_to_trans s1 s2 s3 : leads_to s1 s2 → leads_to s2 s3 → leads_to s1 s3.
Proof.
  intros [sch1 H1] [sch2 H2]. exists (sch1 ++ sch2). by rewrite run_app, H1.
Qed.

Lemma reachable_leads_to s s' : reachable s → leads_to s s' → reachable s'.
Proof. intros Hr [sch H]. by eapply reachable_run. Qed.

Lemma kept_but_refl o s : kept_but o s s.
Proof. by intros t tk _ Ht _. Qed.

Lemma kept_but_trans o s1 s2 s3 : kept_but o s1 s2 → kept_but o s2 s3 → kept_but o s1 s3.
Proof. intros H1 H2 t tk Hne Ht Hp. apply H2; [done| |done]. by apply H1. Qed.

Lemma kept_but_weaken o s s' : kept_but None s s' → kept_but o s s'.
Proof. intros H t tk _ Ht Hp. by apply H. Qed.

Lemma kept_but_park t x s s1 new :
  tasks s1 = tasks s ++ new → kept_but (Some t) s (park t x s1).
Proof.
  intros Hs1 t0 tk Hne Ht _. simpl. rewrite Hs1.
  rewrite list_lookup_insert_ne by congruence. by apply lookup_app_l_Some.
Qed.

Lemma lookup_parked t x s tk :
  tasks s !! t = Some tk → tasks (park t x s) !! t = Some x.
Proof. intros Ht. simpl. apply list_lookup_insert_eq. by eapply lookup_lt_Some. Qed.

Lemma evolves_length s s' : evolves s s' → length (heap s) ≤ length (heap s').
Proof.
  induction 1 as [s s' _ Hhp|s s' f r0 _ _ Hhp|s s' hash e0 _ Hhp
                 |s s' hash _ Hhp|s1 s2 s3 _ IH1 _ IH2].
  - by rewrite Hhp.
  - by rewrite Hhp, length_alter.
  - rewrite Hhp, length_app. lia.
  - by rewrite Hhp.
  - lia.
Qed.

Lemma fetch_start_evolves t s key hash now s1 st :
  fetch_start t s key hash now s1 st → evolves s s1.
Proof.
  destruct 1; [by apply evolves_same..|].
  eapply evolves_alter; [apply keeps_identity_set_timestamp|done..].
Qed.

Lemma fetch_call_evolves c key s s' : fetch_call c key s s' → evolves s s'.
Proof. intros [s1 st _ Hs]. apply fetch_start_evolves in Hs. evolves_via Hs. Qed.

Lemma is_removal_grow s s' id : tasks_grow s s' → is_removal s id → is_removal s' id.
Proof.
  intros Hg (hash & st & Ht). apply Hg in Ht as (tk' & Ht' & Hsame).
  destruct tk'; try done. by eexists _, _.
Qed.

Lemma shrinkCache_ids s now s' cs failed :
  shrinkCache s now = (s', Trimming cs failed) → Forall (is_removal s') cs.
Proof.
  unfold shrinkCache, trim. destruct (shrinkLock s); [done|].
  destruct (_ || _); [|done].
  destruct (remove_candidates _ _) as [[s1 ids] f1] eqn:Hrec. intros [= <- <- <-].
  apply remove_candidates_frame in Hrec
    as (_ & _ & _ & _ & _ & (new & Hnew & Hall & ->) & _).
  apply Forall_seq. intros i Hi. unfold is_removal. rewrite Hnew.
  destruct (lookup_lt_is_Some_2 new (i - length (tasks (with_shrinkLock true s))))
    as [tk Htk]; [lia|].
  rewrite Forall_lookup in Hall. destruct (Hall _ _ Htk) as [hash ->].
  exists hash, AwaitDestroy. rewrite lookup_app_r by lia. done.
Qed.

Lemma fetch_call_live c key s s' :
  fetch_call c key s s' → store_ok s → live_ok s → live_ok s'.
Proof.
  intros Hcall Hst [Hheld Hcaller Htrim].
  pose proof (fetch_call_frame _ _ _ _ Hcall) as (_ & (st0 & Hts & _) & _).
  assert (Hg : tasks_grow s s') by (by eapply tasks_grow_app).
  destruct Hcall as [s1 st _ Hs].
  pose proof (evolves_length _ _ (fetch_start_evolves _ _ _ _ _ _ _ Hs)) as Hlen.
  pose proof (fetch_start_frame _ _ _ _ _ _ _ Hs) as (Hts' & _).
  simpl in Hlen, Hts'. split.
  - intros t c0 key0 hash0 now0 st1 r [[_ Ht]|Ht]%lookup_spawn Hr.
    + simplify_eq. destruct Hs; simplify_eq/=. rewrite length_alter.
      by eapply (store_ok_valid s).
    + rewrite Hts' in Ht. simpl. eapply Nat.lt_le_trans; [by eapply Hheld|done].
  - intros t c0 key0 hash0 now0 r [[_ Ht]|Ht]%lookup_spawn.
    + simplify_eq. by inversion Hs.
    + rewrite Hts' in Ht. by eapply Hcaller.
  - intros t c0 key0 hash0 now0 r cs failed [[_ Ht]|Ht]%lookup_spawn.
    + simplify_eq. by inversion Hs.
    + rewrite Hts' in Ht.
      eapply Forall_impl; [by eapply Htrim|]. intros id. by apply is_removal_grow.
Qed.

Lemma fetch_calls_live c keys s s' ids :
  fetch_calls c keys s s' ids → store_ok s → live_ok s → live_ok s'.
Proof.
  induction 1 as [|key keys s s1 s2 ids H1 H2 IH]; [done|].
  intros Hst Hl. apply IH.
  - eapply evolves_store_ok; [by eapply fetch_call_evolves|done].
  - by eapply fetch_call_live.
Qed.

Lemma spawn_multi_live lock keys ids s :
  live_ok s → live_ok (spawn (Multi lock keys ids AwaitAll) s).
Proof.
  intros [Hheld Hcaller Htrim]. split.
  - intros t c key hash now st r [[_ ?]|Ht]%lookup_spawn; [done|]. by eapply Hheld.
  - intros t c key hash now r [[_ ?]|Ht]%lookup_spawn; [done|]. by eapply Hcaller.
  - intros t c key hash now r cs failed [[_ ?]|Ht]%lookup_spawn; [done|].
    eapply Forall_impl; [by eapply Htrim|]. intros id.
    apply is_removal_grow. by eapply tasks_grow_app.
Qed.

Lemma Step_live_held l s s' :
  Step l s s' → evolves s s' → store_ok s → live_ok s →
  ∀ t c key hash now st r,
    tasks s' !! t = Some (Fetch c key hash now st) → holds st = Some r →
    r < length (heap s').
Proof.
  intros HS Hev Hst Hl t0 c0 key0 hash0 now0 st0 r0 H0 Hr0.
  pose proof (evolves_length _ _ Hev) as Hlen. pose proof Hl as [Hheld _ _].
  assert (Hold : ∀ t c key hash now st r,
    tasks s !! t = Some (Fetch c key hash now st) → holds st = Some r →
    r < length (heap s')).
  { intros. eapply Nat.lt_le_trans; [by eapply Hheld|done]. }
  assert (Hnew : ∀ hash r, JsObject.get hash (store s) = Some r → r < length (heap s')).
  { intros. eapply Nat.lt_le_trans; [by eapply store_ok_valid|done]. }
  clear Hev Hheld.
  destruct HS;
    try (apply lookup_park in H0 as [[-> H0]|[_ H0]];
         [simplify_eq/=; try done; by (eapply Hold; [eassumption|done])
         |by (eapply Hold; eassumption)]).
  - match goal with H : fetch_call _ _ _ _ |- _ =>
      apply fetch_call_live in H as [Hh _ _]; [|done..] end.
    by eapply Hh.
  - match goal with H : fetch_calls _ _ _ _ _ |- _ =>
      apply fetch_calls_live in H; [|done..];
      apply (spawn_multi_live lock keys ids) in H as [Hh _ _] end.
    by eapply Hh.
  - match goal with H : shrinkCache _ _ = _ |- _ =>
      apply shrinkCache_frame in H as (_ & _ & _ & _ & (new & Hts & Hall) & _) end.
    apply lookup_park in H0 as [[_ ?]|[_ H0]]; [done|].
    rewrite Hts in H0. simpl in H0.
    apply (lookup_new_removal _ _ _ _ Hall) in H0 as [H0|[? ?]]; [|done].
    apply lookup_app_Some in H0 as [H0|[_ H0]];
      [|by apply list_lookup_singleton_Some in H0 as [_ ?]].
    by (eapply Hold; eassumption).
  - apply lookup_park in H0 as [[-> H0]|[_ H0]]; [|by (eapply Hold; eassumption)].
    simplify_eq/=. destruct o; simplify_eq/=.
    by (eapply Hold; [eassumption|done]).
  - by (eapply Hold; eassumption).
  - match goal with H : fetch_start _ _ _ _ _ _ _ |- _ =>
      pose proof H as (Hts & _)%fetch_start_frame end.
    apply lookup_park in H0 as [[-> H0]|[_ H0]].
    + simplify_eq/=.
      match goal with H : fetch_start _ _ _ _ _ _ _ |- _ => destruct H end;
        simplify_eq/=. by eapply Hnew.
    + rewrite Hts in H0. by (eapply Hold; eassumption).
  - apply lookup_park in H0 as [[-> H0]|[_ H0]]; [|by (eapply Hold; eassumption)].
    simplify_eq/=. by eapply Hnew.
  - match goal with H : shrinkCache _ _ = _ |- _ =>
      apply shrinkCache_frame in H as (Hhp & _ & _ & _ & (new & Hts & Hall) & _) end.
    apply lookup_park in H0 as [[-> H0]|[_ H0]].
    + simplify_eq/=. rewrite Hhp. simpl. rewrite length_app. simpl. lia.
    + rewrite Hts in H0. simpl in H0.
      apply (lookup_new_removal _ _ _ _ Hall) in H0 as [H0|[? ?]]; [|done].
      by (eapply Hold; eassumption).
  - apply lookup_park in H0 as [[-> H0]|[_ H0]]; [|by (eapply Hold; eassumption)].
    simplify_eq/=. destruct l; by simplify_eq/=.
Qed.

Lemma Step_live_caller l s s' :
  Step l s s' → store_ok s → live_ok s →
  ∀ t c key hash now r,
    tasks s' !! t = Some (Fetch c key hash now (AwaitTransformer r)) → c = GetWith.
Proof.
  intros HS Hst Hl t0 c0 key0 hash0 now0 r0 H0. pose proof Hl as [_ Hcaller _].
  destruct HS;
    try (apply lookup_park in H0 as [[-> H0]|[_ H0]];
         [by simplify_eq/= | by (eapply Hcaller; eassumption)]).
  - match goal with H : fetch_call _ _ _ _ |- _ =>
      apply fetch_call_live in H as [_ Hc _]; [|done..] end.
    by eapply Hc.
  - match goal with H : fetch_calls _ _ _ _ _ |- _ =>
      apply fetch_calls_live in H; [|done..];
      apply (spawn_multi_live lock keys ids) in H as [_ Hc _] end.
    by eapply Hc.
  - match goal with H : shrinkCache _ _ = _ |- _ =>
      apply shrinkCache_frame in H as (_ & _ & _ & _ & (new & Hts & Hall) & _) end.
    apply lookup_park in H0 as [[_ ?]|[_ H0]]; [done|].
    rewrite Hts in H0. simpl in H0.
    apply (lookup_new_removal _ _ _ _ Hall) in H0 as [H0|[? ?]]; [|done].
    apply lookup_app_Some in H0 as [H0|[_ H0]];
      [|by apply list_lookup_singleton_Some in H0 as [_ ?]].
    by (eapply Hcaller; eassumption).
  - by (eapply Hcaller; eassumption).
  - match goal with H : fetch_start _ _ _ _ _ _ _ |- _ =>
      pose proof H as (Hts & _)%fetch_start_frame end.
    apply lookup_park in H0 as [[-> H0]|[_ H0]].
    + simplify_eq/=.
      match goal with H : fetch_start _ _ _ _ _ _ _ |- _ => by inversion H end.
    + rewrite Hts in H0. by (eapply Hcaller; eassumption).
  - match goal with H : shrinkCache _ _ = _ |- _ =>
      apply shrinkCache_frame in H as (_ & _ & _ & _ & (new & Hts & Hall) & _) end.
    apply lookup_park in H0 as [[-> H0]|[_ H0]]; [by simplify_eq/=|].
    rewrite Hts in H0. simpl in H0.
    apply (lookup_new_removal _ _ _ _ Hall) in H0 as [H0|[? ?]]; [|done].
    by (eapply Hcaller; eassumption).
Qed.

Lemma Step_live_trim l s s' :
  Step l s s' → store_ok s → live_ok s →
  ∀ t c key hash now r cs failed,
    tasks s' !! t = Some (Fetch c key hash now (AwaitShrink r (Trimming cs failed))) →
    Forall (is_removal s') cs.
Proof.
  intros HS Hst Hl t0 c0 key0 hash0 now0 r0 cs0 failed0 H0.
  pose proof (Step_tasks_grow _ _ _ HS) as Hg. pose proof Hl as [_ _ Htrim].
  assert (Hold : ∀ t c key hash now r cs failed,
    tasks s !! t = Some (Fetch c key hash now (AwaitShrink r (Trimming cs failed))) →
    Forall (is_removal s') cs).
  { intros. eapply Forall_impl; [by eapply Htrim|]. intros id. by apply is_removal_grow. }
  clear Hg Htrim.
  destruct HS;
    try (apply lookup_park in H0 as [[-> H0]|[_ H0]];
         [by simplify_eq/= | by (eapply Hold; eassumption)]).
  - match goal with H : fetch_call _ _ _ _ |- _ =>
      apply fetch_call_live in H as [_ _ Hc]; [|done..] end.
    by eapply Hc.
  - match goal with H : fetch_calls _ _ _ _ _ |- _ =>
      apply fetch_calls_live in H; [|done..];
      apply (spawn_multi_live lock keys ids) in H as [_ _ Hc] end.
    by eapply Hc.
  - match goal with H : shrinkCache _ _ = _ |- _ =>
      apply shrinkCache_frame in H as (_ & _ & _ & _ & (new & Hts & Hall) & _) end.
    apply lookup_park in H0 as [[_ ?]|[_ H0]]; [done|].
    rewrite Hts in H0. simpl in H0.
    apply (lookup_new_removal _ _ _ _ Hall) in H0 as [H0|[? ?]]; [|done].
    apply lookup_app_Some in H0 as [H0|[_ H0]];
      [|by apply list_lookup_singleton_Some in H0 as [_ ?]].
    by (eapply Hold; eassumption).
  - by (eapply Hold; eassumption).
  - match goal with H : fetch_start _ _ _ _ _ _ _ |- _ =>
      pose proof H as (Hts & _)%fetch_start_frame end.
    apply lookup_park in H0 as [[-> H0]|[_ H0]].
    + simplify_eq/=.
      match goal with H : fetch_start _ _ _ _ _ _ _ |- _ => by inversion H end.
    + rewrite Hts in H0. by (eapply Hold; eassumption).
  - match goal with H : shrinkCache _ _ = _ |- _ =>
      pose proof H as (_ & _ & _ & _ & (new & Hts & Hall) & _)%shrinkCache_frame end.
    apply lookup_park in H0 as [[-> H0]|[_ H0]].
    + simplify_eq/=.
      match goal with H : shrinkCache _ _ = _ |- _ => apply shrinkCache_ids in H end.
      eapply Forall_impl; [done|]. intros id (hash' & st' & Hid).
      exists hash', st'. simpl. rewrite list_lookup_insert_ne; [done|].
      intros <-. rewrite Hts in Hid. simpl in Hid.
      match goal with Ht : tasks s !! _ = Some _ |- _ =>
        rewrite (lookup_app_l_Some _ _ _ _ Ht) in Hid end.
      done.
    + rewrite Hts in H0. simpl in H0.
      apply (lookup_new_removal _ _ _ _ Hall) in H0 as [H0|[? ?]]; [|done].
      by (eapply Hold; eassumption).
Qed.

Lemma reachable_live_ok s : reachable s → live_ok s.
Proof.
  revert s. apply reachable_invariant.
  - intros s0. unfold createCache. destruct (validateOptions _); [|done].
    intros [= <-]. split; simpl.
    + intros t ? ? ? ? ? ? Ht. by rewrite lookup_nil in Ht.
    + intros t ? ? ? ? ? Ht. by rewrite lookup_nil in Ht.
    + intros t ? ? ? ? ? ? ? Ht. by rewrite lookup_nil in Ht.
  - intros l s1 s2 Hr1 Hok Hstep.
    pose proof (reachable_store_ok _ Hr1) as Hst.
    pose proof (step_evolves _ _ _ Hstep) as Hev.
    apply step_Step in Hstep. split.
    + by eapply Step_live_held.
    + by eapply Step_live_caller.
    + by eapply Step_live_trim.
Qed.

Lemma step_resume t s c key hash now st :
  tasks s !! t = Some (Fetch c key hash now st) →
  step (Resume t) s = resume_fetch t s c key hash now st.
Proof. intros Ht. simpl. unfold resume. by rewrite Ht. Qed.

(** The removals a trim pass waits for can all settle. *)
Lemma removals_settle cs s :
  Forall (is_removal s) cs →
  ∃ s', leads_to s s' ∧ forallb (removal_settled s') cs = true ∧ kept_but None s s'.
Proof.
  revert s. induction cs as [|id cs IH]; intros s Hall.
  - exists s. split_and!; [apply leads_to_refl|done|apply kept_but_refl].
  - apply Forall_cons in Hall as [(hash & st & Hid) Hcs].
    assert (∃ s1, leads_to s s1 ∧ tasks s1 !! id = Some (Removal hash RemovalSettled) ∧
                  kept_but None s s1 ∧ tasks_grow s s1) as (s1 & Hl1 & Hid1 & Hk1 & Hg1).
    { destruct st.
      - exists (park id (Removal hash RemovalSettled) s). split_and!.
        + apply (leads_to_step (DestroyFailed id)). simpl. by rewrite Hid.
        + by eapply lookup_parked.
        + intros t tk _ Ht Hp. simpl. rewrite list_lookup_insert_ne; [done|].
          intros ->. apply Hp. rewrite Hid in Ht. simplify_eq. by exists hash.
        + eapply tasks_grow_park; [apply tasks_grow_refl|done|done].
      - exists s. split_and!;
          [apply leads_to_refl|done|apply kept_but_refl|apply tasks_grow_refl]. }
    destruct (IH s1) as (s2 & Hl2 & Hall2 & Hk2).
    { eapply Forall_impl; [done|]. intros i. by apply is_removal_grow. }
    exists s2. split_and!.
    + by eapply leads_to_trans.
    + simpl. rewrite Hall2, andb_true_r. unfold removal_settled.
      rewrite (Hk2 id (Removal hash RemovalSettled)); [done..|]. by intros [? ?].
    + by eapply kept_but_trans.
Qed.

(** A fetch at [await shrinkCache()] can leave [addToStore]. *)
Lemma shrinking_fetch_leaves s t c key hash now r sh :
  reachable s →
  tasks s !! t = Some (Fetch c key hash now (AwaitShrink r sh)) →
  ∃ s' o, leads_to s s' ∧ tasks s' !! t = Some (Fetch c key hash now (Fetched o)) ∧
          hash ∉ initializing s' ∧ kept_but (Some t) s s' ∧
          (failing (AwaitShrink r sh : fetch) = false → o = Fulfilled r).
Proof.
  intros Hreach Ht.
  assert (∃ s1 o, leads_to s s1 ∧
            tasks s1 !! t = Some (Fetch c key hash now (AwaitShrink r (ShrinkSettled o))) ∧
            kept_but (Some t) s s1 ∧
            (failing (AwaitShrink r sh : fetch) = false → o = Fulfilled ()))
    as (s1 & o & Hl1 & Ht1 & Hk1 & Ho1).
  { destruct sh as [o|cs failed].
    - exists s, o. split_and!; [apply leads_to_refl|done|apply kept_but_refl|].
      by destruct o as [[]|].
    - pose proof (reachable_live_ok s Hreach) as [_ _ Htrim].
      destruct (removals_settle cs s) as (s0 & Hl0 & Hall & Hk0); [by eapply Htrim|].
      assert (Ht0 : tasks s0 !! t
                    = Some (Fetch c key hash now (AwaitShrink r (Trimming cs failed)))).
      { apply Hk0; [done|done|]. by intros [? ?]. }
      assert (∃ o, trim_settles s0 cs failed = Some o) as [o Ho].
      { unfold trim_settles. destruct failed; [by eauto|]. rewrite Hall. by eauto. }
      exists (park t (Fetch c key hash now (AwaitShrink r (ShrinkSettled o)))
                (with_shrinkLock false s0)), o.
      split_and!; [| | |done].
      + eapply leads_to_trans; [done|]. apply (leads_to_step (Resume t)).
        rewrite (step_resume _ _ _ _ _ _ _ Ht0). simpl. by rewrite Ho.
      + by eapply (lookup_parked t _ (with_shrinkLock false s0)).
      + eapply kept_but_trans; [by apply kept_but_weaken|].
        apply (kept_but_park t _ s0 _ []). simpl. by rewrite app_nil_r. }
  eexists _, _. split_and!.
  - eapply leads_to_trans; [done|]. apply (leads_to_step (Resume t)).
    rewrite (step_resume _ _ _ _ _ _ _ Ht1). simpl. done.
  - by eapply (lookup_parked t _ (with_initializing _ s1)).
  - simpl. set_solver.
  - eapply kept_but_trans; [done|].
    apply (kept_but_park t _ s1 _ []). simpl. by rewrite app_nil_r.
  - intros Hf. by rewrite (Ho1 Hf).
Qed.

(** So can a fetch whose factory resolves. *)
Lemma creating_fetch_leaves (v : V) s t c key hash now st :
  reachable s →
  tasks s !! t = Some (Fetch c key hash now st) →
  creating_at hash (Fetch c key hash now st) = 1 →
  ∃ s' o, leads_to s s' ∧ tasks s' !! t = Some (Fetch c key hash now (Fetched o)) ∧
          hash ∉ initializing s' ∧ kept_but (Some t) s s' ∧
          (unbounded → failing st = false → ∃ r, o = Fulfilled r).
Proof.
  intros Hreach Ht Hc. destruct st as [|r sh0| | | | |]; simpl in Hc; try done.
  - destruct (shrinkCache (publish s hash now v false).1 now) as [s2 sh] eqn:Hsh.
    pose proof (shrinkCache_frame _ _ _ _ Hsh) as (_ & _ & _ & _ & (new & Hts & _) & _).
    assert (Hstep : step (Created t v false) s
                    = Some (park t (Fetch c key hash now (AwaitShrink (length (heap s)) sh)) s2)).
    { simpl. rewrite Ht. simpl. simpl in Hsh. by rewrite Hsh. }
    destruct (shrinking_fetch_leaves
                (park t (Fetch c key hash now (AwaitShrink (length (heap s)) sh)) s2)
                t c key hash now (length (heap s)) sh)
      as (s' & o & Hl & Ht' & Hi & Hk & Ho).
    { by eapply reachable_step. }
    { eapply (lookup_parked t _ s2). rewrite Hts. by apply lookup_app_l_Some. }
    exists s', o. split_and!; [|done..| |].
    + eapply leads_to_trans; [by eapply leads_to_step|done].
    + eapply kept_but_trans; [|done]. by eapply kept_but_park.
    + intros Hunb _. rewrite shrinkCache_unbounded in Hsh by done.
      injection Hsh as _ <-. eexists. by apply Ho.
  - destruct (shrinking_fetch_leaves s t c key hash now r sh0 Hreach Ht)
      as (s' & o & Hl & Ht' & Hi & Hk & Ho).
    exists s', o. split_and!; [done..|]. intros _ Hf. eexists. by apply Ho.
Qed.

(** A [get] that has its entry, or its error, settles. *)
Lemma fetched_get_settles s t key hash now o :
  reachable s → tasks s !! t = Some (Fetch Get key hash now (Fetched o)) →
  ∃ s' o', leads_to s s' ∧ tasks s' !! t = Some (Fetch Get key hash now (Settled o')) ∧
           (failing (Fetched o : fetch) = false → ∃ v, o' = Fulfilled (RValue v)).
Proof.
  intros Hreach Ht. destruct o as [r|e].
  - pose proof (reachable_live_ok s Hreach) as [Hheld _ _].
    destruct (lookup_lt_is_Some_2 (heap s) r) as [e He]; [by eapply Hheld|].
    eexists _, _. split_and!.
    + apply (leads_to_step (Resume t)). rewrite (step_resume _ _ _ _ _ _ _ Ht).
      simpl. rewrite He. simpl. done.
    + by eapply lookup_parked.
    + by eauto.
  - eexists _, _. split_and!.
    + apply (leads_to_step (Resume t)). rewrite (step_resume _ _ _ _ _ _ _ Ht).
      simpl. done.
    + by eapply lookup_parked.
    + done.
Qed.

Lemma creating_get_settles (v : V) s t key hash now st :
  reachable s →
  tasks s !! t = Some (Fetch Get key hash now st) →
  creating_at hash (Fetch Get key hash now st) = 1 →
  ∃ s' o, leads_to s s' ∧ tasks s' !! t = Some (Fetch Get key hash now (Settled o)) ∧
          (unbounded → failing st = false → ∃ v', o = Fulfilled (RValue v')).
Proof.
  intros Hreach Ht Hc.
  destruct (creating_fetch_leaves v s t Get key hash now st Hreach Ht Hc)
    as (s1 & o & Hl1 & Ht1 & _ & _ & Ho1).
  destruct (fetched_get_settles s1 t key hash now o) as (s2 & o' & Hl2 & Ht2 & Ho2);
    [by eapply reachable_leads_to|done|].
  exists s2, o'. split_and!; [by eapply leads_to_trans|done|].
  intros Hunb Hf. apply Ho2. by destruct (Ho1 Hunb Hf) as [r ->].
Qed.

(** A woken [get] whose hash has no creation in flight finds the entry or
    calls the factory itself. *)
Lemma woken_get_settles (v : V) s t key hash now :
  reachable s → tasks s !! t = Some (Fetch Get key hash now Woken) →
  hash ∉ initializing s →
  ∃ s' o, leads_to s s' ∧ tasks s' !! t = Some (Fetch Get key hash now (Settled o)) ∧
          (unbounded → ∃ v', o = Fulfilled (RValue v')).
Proof.
  intros Hreach Ht Hinit.
  assert (∃ s1 st, step (Resume t) s = Some s1 ∧
            tasks s1 !! t = Some (Fetch Get key hash now st) ∧
            (st = AwaitCreate ∨ ∃ r, st = Fetched (Fulfilled r)))
    as (s1 & st & Hstep & Ht1 & Hst).
  { rewrite (step_resume _ _ _ _ _ _ _ Ht). simpl.
    unfold afterWait, getOrInsertCachedValue, touch, JsObject.has.
    destruct (JsObject.get hash (store s)) as [r|] eqn:Hget; simpl.
    - eexists _, _. split_and!; [done| |right; by eauto].
      by eapply (lookup_parked t _ (with_heap _ s)).
    - rewrite bool_decide_eq_false_2 by done. simpl.
      eexists _, _. split_and!; [done| |by left].
      by eapply (lookup_parked t _ (emit _ (with_initializing _ s))). }
  pose proof (reachable_step _ _ _ Hreach Hstep) as Hr1.
  assert (∃ s' o, leads_to s1 s' ∧
            tasks s' !! t = Some (Fetch Get key hash now (Settled o)) ∧
            (unbounded → ∃ v', o = Fulfilled (RValue v')))
    as (s' & o & Hl & Ht' & Ho).
  { destruct Hst as [->|[r ->]].
    - destruct (creating_get_settles v s1 t key hash now AwaitCreate Hr1 Ht1)
        as (s' & o & Hl & Ht' & Ho); [simpl; by rewrite decide_True|].
      exists s', o. split_and!; [done..|]. intros Hunb. by apply Ho.
    - destruct (fetched_get_settles s1 t key hash now (Fulfilled r) Hr1 Ht1)
        as (s' & o & Hl & Ht' & Ho).
      exists s', o. split_and!; [done..|]. intros _. by apply Ho. }
  exists s', o. split_and!; [|done..].
  eapply leads_to_trans; [by eapply leads_to_step|done].
Qed.

Lemma sum_list_with_pos (w : task → nat) (ts : list task) :
  sum_list_with w ts ≠ 0 → ∃ t tk, ts !! t = Some tk ∧ w tk ≠ 0.
Proof.
  induction ts as [|tk ts IH]; simpl; [done|]. intros Hsum.
  destruct (decide (w tk = 0)) as [Hw|Hw].
  - destruct IH as (t & tk' & Ht & Hw'); [lia|]. by exists (S t), tk'.
  - by exists 0, tk.
Qed.

(** A waiting [get]: the creation it waits for can complete, and then the
    poll of [waitUntil] succeeds. *)
Lemma waiting_get_settles (v : V) s t key hash now :
  reachable s → tasks s !! t = Some (Fetch Get key hash now AwaitWait) →
  ∃ s' o, leads_to s s' ∧ tasks s' !! t = Some (Fetch Get key hash now (Settled o)) ∧
          (unbounded → ∃ v', o = Fulfilled (RValue v')).
Proof.
  intros Hreach Ht.
  assert (∃ s1, leads_to s s1 ∧ tasks s1 !! t = Some (Fetch Get key hash now AwaitWait) ∧
                hash ∉ initializing s1) as (s1 & Hl1 & Ht1 & Hi1).
  { destruct (decide (hash ∈ initializing s)) as [Hin|Hout];
      [|exists s; split_and!; [apply leads_to_refl|done..]].
    pose proof (reachable_flight_ok s Hreach) as [_ Hone]. specialize (Hone hash).
    rewrite decide_True in Hone by done.
    destruct (sum_list_with_pos (creating_at hash) (tasks s)) as (t' & tk & Ht' & Hw).
    { unfold creating in Hone. lia. }
    destruct tk as [c' key' hash' now' st'| | |]; simpl in Hw; try done.
    assert (hash' = hash ∧ creating_at hash (Fetch c' key' hash now' st') = 1
            ∧ st' ≠ AwaitWait) as (-> & Hc & Hst').
    { destruct st'; try done; destruct (decide (hash' = hash)) as [->|]; try done;
        simpl; by rewrite decide_True. }
    destruct (creating_fetch_leaves v s t' c' key' hash now' st' Hreach Ht' Hc)
      as (s1 & o & Hl1 & _ & Hi1 & Hk1 & _).
    exists s1. split_and!; [done| |done].
    apply Hk1; [|done|by intros [? ?]]. intros [= ->]. rewrite Ht in Ht'. by simplify_eq. }
  pose proof (reachable_leads_to _ _ Hreach Hl1) as Hr1.
  assert (Hstep : step (Resume t) s1 = Some (park t (Fetch Get key hash now Woken) s1)).
  { rewrite (step_resume _ _ _ _ _ _ _ Ht1). simpl.
    by rewrite bool_decide_eq_false_2. }
  destruct (woken_get_settles v (park t (Fetch Get key hash now Woken) s1) t key hash now)
    as (s2 & o & Hl2 & Ht2 & Ho2);
    [by eapply reachable_step|by eapply lookup_parked|done|].
  exists s2, o. split_and!; [|done..].
  eapply leads_to_trans; [done|]. eapply leads_to_trans; [by eapply leads_to_step|done].
Qed.

(** Whatever a [get] is waiting for, some continuation of the schedule
    settles it; in a cache that never evicts it is fulfilled, unless it is
    already bound to reject. *)
Lemma get_settles (v : V) s t key hash now st :
  reachable s → tasks s !! t = Some (Fetch Get key hash now st) →
  ∃ s' o, leads_to s s' ∧ tasks s' !! t = Some (Fetch Get key hash now (Settled o)) ∧
          (unbounded → failing st = false → ∃ v', o = Fulfilled (RValue v')).
Proof.
  intros Hreach Ht. destruct st as [|r sh| | |o|r|o].
  - eapply (creating_get_settles v); [done..|]. simpl. by rewrite decide_True.
  - eapply (creating_get_settles v); [done..|]. simpl. by rewrite decide_True.
  - destruct (waiting_get_settles v s t key hash now Hreach Ht)
      as (s' & o & Hl & Ht' & Ho).
    exists s', o. split_and!; [done..|]. intros Hunb _. by apply Ho.
  - assert (∃ s' o, leads_to s s' ∧
              tasks s' !! t = Some (Fetch Get key hash now (Settled o)) ∧
              (unbounded → ∃ v', o = Fulfilled (RValue v')))
      as (s' & o & Hl & Ht' & Ho).
    { destruct (decide (hash ∈ initializing s)) as [Hin|Hout];
        [|by eapply (woken_get_settles v)].
      assert (∃ s1 st, step (Resume t) s = Some s1 ∧
                tasks s1 !! t = Some (Fetch Get key hash now st) ∧
                (st = AwaitWait ∨ ∃ r, st = Fetched (Fulfilled r)))
        as (s1 & st & Hstep & Ht1 & Hst).
      { rewrite (step_resume _ _ _ _ _ _ _ Ht). simpl.
        unfold afterWait, getOrInsertCachedValue, touch, JsObject.has.
        destruct (JsObject.get hash (store s)) as [r|] eqn:Hget; simpl.
        - eexists _, _. split_and!; [done| |right; by eauto].
          by eapply (lookup_parked t _ (with_heap _ s)).
        - rewrite bool_decide_eq_true_2 by done. simpl.
          eexists _, _. split_and!; [done| |by left]. by eapply lookup_parked. }
      pose proof (reachable_step _ _ _ Hreach Hstep) as Hr1.
      assert (∃ s' o, leads_to s1 s' ∧
                tasks s' !! t = Some (Fetch Get key hash now (Settled o)) ∧
                (unbounded → ∃ v', o = Fulfilled (RValue v')))
        as (s' & o & Hl & Ht' & Ho).
      { destruct Hst as [->|[r ->]].
        - by eapply (waiting_get_settles v).
        - destruct (fetched_get_settles s1 t key hash now (Fulfilled r) Hr1 Ht1)
            as (s' & o & Hl & Ht' & Ho).
          exists s', o. split_and!; [done..|]. intros _. by apply Ho. }
      exists s', o. split_and!; [|done..].
      eapply leads_to_trans; [by eapply leads_to_step|done]. }
    exists s', o. split_and!; [done..|]. intros Hunb _. by apply Ho.
  - destruct (fetched_get_settles s t key hash now o Hreach Ht)
      as (s' & o' & Hl & Ht' & Ho).
    exists s', o'. split_and!; [done..|]. intros _. by apply Ho.
  - pose proof (reachable_live_ok s Hreach) as [_ Hcaller _].
    by pose proof (Hcaller _ _ _ _ _ _ Ht).
  - exists s, o. split_and!; [apply leads_to_refl|done|].
    intros _ Hf. destruct o as [res|]; [|done].
    pose proof (reachable_order_ok s Hreach) as [Hfetch _ _].
    apply Hfetch in Ht. destruct res; try done. by eauto.
Qed.

Lemma quiet_since s0 h s : quiet h s = true → quiet h (since s0 s) = true.
Proof.
  unfold quiet. simpl. intros H.
  rewrite <-(take_drop (length (log s0)) (log s)), forallb_app in H.
  by apply andb_true_iff in H as [_ ?].
Qed.

(** C1 (amended): the calls are those for hashes that are no names every
    object inherits.  At any moment at most one fetch per hash is inside
    [addToStore], so the factory never runs twice at once for a hash.  Take
    a reachable state [s0] in which the hash [h] has neither an entry nor a
    creation in flight, and any run from it.  Call [h] quiet since [s0]
    while, since [s0], no entry of [h] has been deleted from the store and
    the factory has not been called for [h] over an entry the store still
    held.  For a hash that is quiet since [s0] and for which the factory has
    not failed since [s0], the factory has been called at most once since
    [s0]; once a [get] for the hash that was issued since [s0] has resolved
    it has been called exactly once since [s0], and every such [get] that
    has resolved returned the value of the one entry the store holds for
    the hash.  In a cache with neither [size] nor [expiry] every hash is
    quiet since every state.  And every [get] that has been issued can run
    to completion: some continuation of the schedule settles it, and in a
    cache with neither [size] nor [expiry] it is fulfilled with a value
    unless its promise was already bound to reject. *)
Theorem single_flight :
  (∀ s h, reachable s → calls_own s = true → creating h s ≤ 1) ∧
  (∀ s0 sch s h,
     reachable s0 →
     JsObject.has h (store s0) = false → h ∉ initializing s0 →
     run sch s0 = Some s → calls_own s = true →
     quiet h (since s0 s) = true → factory_failures h (since s0 s) = 0 →
     factory_calls h (since s0 s) ≤ 1 ∧
     (∀ t key now v,
        length (tasks s0) ≤ t →
        tasks s !! t = Some (Fetch Get key h now (Settled (Fulfilled (RValue v)))) →
        factory_calls h (since s0 s) = 1 ∧
        ∃ r e, JsObject.get h (store s) = Some r ∧ heap s !! r = Some e ∧ value e = v) ∧
     (∀ t1 t2 key1 key2 now1 now2 v1 v2,
        length (tasks s0) ≤ t1 → length (tasks s0) ≤ t2 →
        tasks s !! t1 = Some (Fetch Get key1 h now1 (Settled (Fulfilled (RValue v1)))) →
        tasks s !! t2 = Some (Fetch Get key2 h now2 (Settled (Fulfilled (RValue v2)))) →
        v1 = v2)) ∧
  (Opt.size options = None → Opt.expiry options = None →
   ∀ s0 sch s h, reachable s0 → run sch s0 = Some s → quiet h (since s0 s) = true) ∧
  (∀ (v : V) s t key h now st,
     reachable s → calls_own s = true →
     tasks s !! t = Some (Fetch Get key h now st) →
     ∃ s' o, leads_to s s' ∧
       tasks s' !! t = Some (Fetch Get key h now (Settled o)) ∧
       (Opt.size options = None → Opt.expiry options = None → failing st = false →
        ∃ v', o = Fulfilled (RValue v'))).
Proof.
  split_and!.
  - intros s h [_ Hone]%reachable_flight_ok _. rewrite Hone. case_decide; lia.
  - intros s0 sch s h Hr0 Hhas Hinit Hrun _ Hq Hfail.
    destruct (run_quiet_ok s0 h sch s Hr0 Hhas Hinit Hrun)
      as (_ & _ & [Hacc Hfresh _ Hyields]).
    specialize (Hacc Hq). specialize (Hfresh Hq).
    assert (Hres : ∀ t key now v,
      length (tasks s0) ≤ t →
      tasks s !! t = Some (Fetch Get key h now (Settled (Fulfilled (RValue v)))) →
      factory_calls h (since s0 s) = 1 ∧
      ∃ r e, JsObject.get h (store s) = Some r ∧ heap s !! r = Some e ∧ value e = v).
    { intros t key now v Hm Ht.
      destruct (Hyields _ _ _ _ _ v Hm Hq Ht eq_refl) as (r & e & Hget & He & Hv).
      split; [|by exists r, e]. apply (stored_get h (since s0 s)) in Hget. lia. }
    split_and!; [lia|done|].
    intros t1 t2 key1 key2 now1 now2 v1 v2 Hm1 Hm2 H1 H2.
    destruct (Hres _ _ _ _ Hm1 H1) as [_ (r1 & e1 & Hg1 & He1 & <-)].
    destruct (Hres _ _ _ _ Hm2 H2) as [_ (r2 & e2 & Hg2 & He2 & <-)].
    congruence.
  - intros Hsize Hexp s0 sch s h Hr0 Hrun.
    assert (Hunb : unbounded) by done.
    apply quiet_since.
    by destruct (reachable_unbounded s Hunb (reachable_run _ _ _ Hr0 Hrun)) as [_ Hq].
  - intros v s t key h now st Hreach _ Ht.
    destruct (get_settles v s t key h now st Hreach Ht) as (s' & o & Hl & Ht' & Ho).
    exists s', o. split_and!; [done..|]. intros Hsize Hexp. by apply Ho.
Qed.

(** *** The candidates of the size bound *)

Lemma toPairs_keys s : store_ok s → (toPairs s).*1 = JsObject.keys (store s).
Proof.
  intros [Hr _ _]. unfold toPairs, JsObject.keys.
  induction Hr as [|[h r] o Hlt _ IH]; [done|]. simpl in Hlt.
  destruct (lookup_lt_is_Some_2 (heap s) r Hlt) as [e He].
  csimpl. rewrite He. csimpl. by f_equal.
Qed.

Lemma trim_start_step l s0 s :
  trim_start l s0 = Some s →
  ∃ t tk now, step l s0 = Some (park t tk (trim s now).1).
Proof.
  unfold trim_start, trims, step, shrinkCache. intros H.
  destruct l as [| | | | | |t v d| | | | |]; try done.
  - destruct (bool_decide (is_Some (Opt.expiry options))); [|done]. simpl in *.
    destruct (shrinkLock s0); [done|]. simpl in *.
    destruct (_ || _); [|done]. injection H as <-.
    destruct (trim _ _) as [s' sh] eqn:Htrim. by eexists _, _, _; rewrite Htrim.
  - destruct (tasks s0 !! t) as [[c key hash now []| | |]|]; try done. simpl in *.
    destruct (shrinkLock s0); [done|]. simpl in *.
    destruct (_ || _); [|done]. injection H as <-.
    destruct (trim _ _) as [s' sh] eqn:Htrim. by eexists _, _, _; rewrite Htrim.
Qed.

Lemma trim_start_store_ok l s0 s :
  store_ok s0 → trim_start l s0 = Some s → store_ok s.
Proof.
  unfold trim_start. intros Hok H.
  destruct l as [| | | | | |t v d| | | | |]; try done.
  - destruct (bool_decide (is_Some (Opt.expiry options))); [|done].
    destruct (trims _); [|done]. injection H as <-. destruct Hok. by split.
  - destruct (tasks s0 !! t) as [[c key hash now []| | |]|]; try done. simpl in *.
    destruct (trims _); [|done]. injection H as <-.
    assert (Hok1 : store_ok (publish s0 hash now v d).1)
      by (eapply evolves_store_ok; [|exact Hok];
          eapply (evolves_publish s0 _ hash); reflexivity).
    destruct Hok1. by split.
Qed.

(** C4: when a step of a reachable state starts a trim pass, on a state [s]
    (the one [trim] is called on, with [shrinkLock] set) whose store holds
    more than [n] entries under the size bound [n], the entries split into
    [n] kept ones and the evicted ones; [oldestValues], the size candidates
    of that pass, are the hashes of the evicted, and no evicted entry was
    accessed later than a kept one. *)
Theorem oldestValues_least_recent l s0 s n :
  reachable s0 → trim_start l s0 = Some s →
  Opt.size options = Some n → Z.to_nat n < currentSize s →
  (∃ t tk now, step l s0 = Some (park t tk (trim s now).1)) ∧
  ∃ kept evicted : list (string * CachedValue V),
    toPairs s ≡ₚ kept ++ evicted ∧
    (toPairs s).*1 = JsObject.keys (store s) ∧
    length kept = Z.to_nat n ∧
    oldestValues s = evicted.*1 ∧
    ∀ k c, k ∈ kept → c ∈ evicted → (timestamp c.2 ≤ timestamp k.2)%Z.
Proof.
  intros Hok0%reachable_store_ok Hstart Hn Hsize.
  split; [by eapply trim_start_step|].
  pose proof (trim_start_store_ok _ _ _ Hok0 Hstart) as Hok.
  pose proof (toPairs_keys s Hok) as Hkeys.
  set (sorted := reverse (sortBy (λ p, timestamp p.2) (toPairs s))).
  exists (take (Z.to_nat n) sorted), (drop (Z.to_nat n) sorted).
  split_and!.
  - rewrite take_drop. unfold sorted. by rewrite reverse_Permutation, sortBy_perm.
  - done.
  - rewrite length_take. unfold sorted.
    rewrite length_reverse, sortBy_perm, <-(length_fmap fst), Hkeys.
    unfold JsObject.keys. rewrite length_fmap.
    unfold currentSize, JsObject.size in Hsize. lia.
  - unfold oldestValues. by rewrite Hn.
  - intros k c Hk Hc.
    apply (sortBy_reverse_split (λ p : string * CachedValue V, timestamp p.2)
             (Z.to_nat n) (toPairs s) k c); done.
Qed.

(** *** Expiry on lookup *)

(** C3 (amended): under [expiry = d] (a non-zero duration), with the entry of
    the key's hash inserted at [insertionTimestamp e] and no creation in
    flight for the hash, a get-family call that reads the clock at [now]
    calls the factory when [insertionTimestamp e + d < now], and when
    [now ≤ insertionTimestamp e + d] it calls no factory and settles with the
    cached entry, whose access timestamp becomes [now] while its other
    fields stay.  The insertion time, the duration, their sum and the clock
    reading are safe integers, for which the sum and the comparison of line
    121 are exact; the hash is not a name that every object inherits. *)
Theorem lookup_expiry c key s r e d :
  Opt.expiry options = Some d → d ≠ 0%Z →
  inherited (hasher key) = false →
  entry s (hasher key) = Some (r, e) →
  hasher key ∉ initializing s →
  safe_integer (insertionTimestamp e) → safe_integer d →
  safe_integer (insertionTimestamp e + d) → safe_integer (clock (reads s)) →
  ((insertionTimestamp e + d < clock (reads s))%Z →
     ∃ s', getCachedValue c key s = Some s' ∧
       log s' = log s ++ [EvFactory (length (tasks s)) key (Some r)] ∧
       tasks s' = tasks s ++
         [Fetch c key (hasher key) (clock (reads s)) AwaitCreate]) ∧
  ((clock (reads s) ≤ insertionTimestamp e + d)%Z →
     ∃ s', getCachedValue c key s = Some s' ∧
       log s' = log s ∧
       tasks s' = tasks s ++
         [Fetch c key (hasher key) (clock (reads s)) (Fetched (Fulfilled r))] ∧
       store s' = store s ∧
       heap s' !! r =
         Some {| value := value e; insertionTimestamp := insertionTimestamp e;
                 timestamp := clock (reads s); locked := locked e;
                 destroy := destroy e |} ∧
       (∀ r', r' ≠ r → heap s' !! r' = heap s !! r')).
Proof.
  intros Hd Hd0 Hinh Hentry Hinit _ _ _ _.
  assert (Hget : JsObject.get (hasher key) (store s) = Some r ∧ heap s !! r = Some e).
  { unfold entry in Hentry. destruct (JsObject.get _ _) as [r'|]; simpl in *; [|done].
    destruct (heap s !! r') eqn:?; simpl in *; by simplify_eq. }
  destruct Hget as [Hget Hheap].
  assert (Hexp : ∀ now, isExpired (with_reads (S (reads s)) s) (hasher key) now
                        = (insertionTimestamp e + d <? now)%Z).
  { intros now. unfold isExpired, expiryInMilliseconds. rewrite Hd.
    rewrite decide_False by done.
    replace (entry (with_reads (S (reads s)) s) (hasher key)) with (Some (r, e)); done. }
  unfold getCachedValue, getOrInsertCachedValue. rewrite Hinh, Hexp.
  unfold JsObject.has. simpl. rewrite Hget. simpl.
  rewrite (bool_decide_eq_false_2 _ Hinit). simpl.
  split; intros Hnow.
  - apply Z.ltb_lt in Hnow. rewrite Hnow. simpl. unfold addToStore. simpl.
    rewrite Hget. eauto.
  - apply Z.ltb_ge in Hnow. rewrite Hnow. simpl.
    unfold touch. simpl. rewrite Hget. simpl.
    eexists; repeat split; simpl.
    + by rewrite list_lookup_alter_eq, Hheap.
    + intros r' Hr'. by rewrite list_lookup_alter_ne.
Qed.

(** *** Failure of a [destroy] callback *)

(** C7: when the [destroy] callback of a candidate of a trim pass fails,
    the removal ends there: the store and every entry are as they were, no
    other task is touched, and the removal counts as fulfilled for the
    [Promise.all] of the pass, so that no caller sees the failure. *)
Theorem destroy_failure_swallowed s t hash :
  tasks s !! t = Some (Removal hash AwaitDestroy) →
  ∃ s', step (DestroyFailed t) s = Some s' ∧
    store s' = store s ∧ heap s' = heap s ∧ log s' = log s ∧
    initializing s' = initializing s ∧
    tasks s' = <[t := Removal hash RemovalSettled]> (tasks s) ∧
    removal_settled s' t = true ∧
    (∀ cs, forallb (removal_settled s) (filter (λ c, c ≠ t) cs) = true →
           trim_settles s' cs false = Some (Fulfilled ())).
Proof.
  intros Ht. simpl. rewrite Ht. simpl. eexists; split; [done|].
  repeat split.
  - unfold removal_settled. simpl.
    rewrite list_lookup_insert_eq; [done|]. by eapply lookup_lt_Some.
  - intros cs Hcs. unfold trim_settles.
    replace (forallb _ cs) with true; [done|]. symmetry.
    apply forallb_forall. intros c Hc.
    destruct (decide (c = t)) as [->|Hne].
    + unfold removal_settled. simpl.
      rewrite list_lookup_insert_eq; [done|]. by eapply lookup_lt_Some.
    + rewrite forallb_forall in Hcs.
      specialize (Hcs c). unfold removal_settled in *. simpl.
      rewrite list_lookup_insert_ne by done. apply Hcs.
      apply list_elem_of_In, list_elem_of_filter. split; [done|].
      by apply list_elem_of_In.
Qed.

(** ** Further properties of the engine *)

(** *** The two guards: [shrinkLock] and [initializing] *)

Lemma trimming_at_removal hash st : trimming_at (Removal hash st : task) = 0.
Proof. done. Qed.

Lemma shrinkCache_lock s now s' sh :
  shrinkCache s now = (s', sh) →
  (if shrinkLock s' then 1 else 0) = (if shrinkLock s then 1 else 0) + shrink_weight sh.
Proof.
  unfold shrinkCache, trim. destruct (shrinkLock s) eqn:Hl; [intros [= <- <-]; by rewrite Hl|].
  destruct (_ || _); [|intros [= <- <-]; by rewrite Hl].
  destruct (remove_candidates _ _) as [[s1 ids] failed] eqn:Hrec. intros [= <- <-].
  apply remove_candidates_frame in Hrec as (_ & _ & -> & _). done.
Qed.

Lemma fetch_start_trimming t s key hash now s1 st c :
  fetch_start t s key hash now s1 st →
  shrinkLock s1 = shrinkLock s ∧ tasks s1 = tasks s ∧
  trimming_at (Fetch c key hash now st) = 0.
Proof. by destruct 1. Qed.

Lemma fetch_call_trimming c key s s' :
  fetch_call c key s s' →
  trimming s = (if shrinkLock s then 1 else 0) →
  trimming s' = (if shrinkLock s' then 1 else 0).
Proof.
  intros [s1 st _ Hs]. apply (fetch_start_trimming _ _ _ _ _ _ _ c) in Hs as (Hl & Hts & Hw).
  unfold trimming. simpl in *. rewrite Hl, Hts, sum_list_with_app. simpl.
  rewrite Hw. lia.
Qed.

Lemma fetch_calls_trimming c keys s s' ids :
  fetch_calls c keys s s' ids →
  trimming s = (if shrinkLock s then 1 else 0) →
  trimming s' = (if shrinkLock s' then 1 else 0).
Proof. induction 1; eauto using fetch_call_trimming. Qed.

Lemma Step_trimming l s s' :
  Step l s s' →
  trimming s = (if shrinkLock s then 1 else 0) →
  trimming s' = (if shrinkLock s' then 1 else 0).
Proof.
  intros HS Hinv.
  destruct HS;
    try (match goal with
         | Ht : tasks ?s !! ?t = Some ?tk |- context [park ?t ?X ?s1] =>
             pose proof (weight_park_same trimming_at s s1 t X tk eq_refl Ht)
         end;
         unfold trimming in *; simpl in *; lia).
  - by eapply fetch_call_trimming.
  - match goal with H : fetch_calls _ _ _ _ _ |- _ =>
      eapply fetch_calls_trimming in H; [|done] end.
    unfold trimming in *. simpl. rewrite sum_list_with_app. simpl.
    match goal with H : _ |- _ => rewrite <-H end. lia.
  - (* the timer fires *)
    match goal with H : shrinkCache _ _ = _ |- _ =>
      pose proof (shrinkCache_lock _ _ _ _ H) as Hlock;
      apply shrinkCache_frame in H as (_ & _ & _ & _ & (new & Hnew & Hall) & _) end.
    pose proof (weight_park trimming_at _ s1 (length (tasks s)) (Scheduled sh) _ new
                  trimming_at_removal Hnew Hall
                  (list_lookup_middle (tasks s) [] _ _ eq_refl)) as Hw.
    simpl in Hlock, Hw. rewrite sum_list_with_app in Hw. simpl in Hw.
    unfold trimming in *. simpl. lia.
  - (* [trim] returns to a fetch *)
    match goal with
    | Ht : tasks ?s !! ?t = Some ?tk |- context [park ?t ?X ?s1] =>
        pose proof (weight_park_same trimming_at s s1 t X tk eq_refl Ht) as Hw;
        pose proof (weight_lookup trimming_at _ _ _ Ht) as Hin
    end.
    unfold trimming in *. simpl in *. destruct (shrinkLock s); lia.
  - done.
  - match goal with H : fetch_start _ _ _ _ _ _ _ |- _ =>
      apply (fetch_start_trimming _ _ _ _ _ _ _ c) in H as (Hl & Hts & Hw0) end.
    match goal with
    | Ht : tasks ?s !! ?t = Some ?tk |- context [park ?t ?X ?s1] =>
        pose proof (weight_park_same trimming_at s s1 t X tk Hts Ht) as Hw
    end.
    unfold trimming in *. simpl in *. rewrite Hl. lia.
  - (* [trim] returns to the timer's callback *)
    match goal with
    | Ht : tasks ?s !! ?t = Some ?tk |- context [park ?t ?X ?s1] =>
        pose proof (weight_park_same trimming_at s s1 t X tk eq_refl Ht) as Hw;
        pose proof (weight_lookup trimming_at _ _ _ Ht) as Hin
    end.
    unfold trimming in *. simpl in *. destruct (shrinkLock s); lia.
  - (* the factory resolves *)
    match goal with H : shrinkCache _ _ = _ |- _ =>
      pose proof (shrinkCache_lock _ _ _ _ H) as Hlock;
      apply shrinkCache_frame in H as (_ & _ & _ & _ & (new & Hnew & Hall) & _) end.
    match goal with
    | Ht : tasks ?s !! ?t = Some ?tk |- context [park ?t ?X ?s1] =>
        pose proof (weight_park trimming_at s s1 t X tk new
                      trimming_at_removal Hnew Hall Ht) as Hw
    end.
    simpl in Hlock, Hw. unfold trimming in *. simpl. lia.
Qed.

Lemma sum_list_with_unique (w : task → nat) (ts : list task) i j x y :
  sum_list_with w ts ≤ 1 → ts !! i = Some x → ts !! j = Some y →
  w x ≠ 0 → w y ≠ 0 → i = j.
Proof.
  revert i j. induction ts as [|tk ts IH]; intros i j Hsum Hi Hj Hx Hy; [done|].
  simpl in Hsum. destruct i as [|i], j as [|j]; simplify_eq/=; [done| | |].
  - pose proof (weight_lookup w _ _ _ Hj). lia.
  - pose proof (weight_lookup w _ _ _ Hi). lia.
  - f_equal. apply IH; [lia|done..].
Qed.

(** X1: trim passes never overlap.  In every reachable state [shrinkLock]
    is set exactly when one task is inside [trim], and no two tasks are
    inside [trim] at once; the lock is released when that pass ends, also
    when it throws. *)
Theorem trim_exclusive s :
  reachable s →
  trimming s = (if shrinkLock s then 1 else 0) ∧
  (∀ t1 t2 tk1 tk2,
     tasks s !! t1 = Some tk1 → tasks s !! t2 = Some tk2 →
     trimming_at tk1 = 1 → trimming_at tk2 = 1 → t1 = t2).
Proof.
  intros Hreach.
  assert (Hinv : trimming s = (if shrinkLock s then 1 else 0)).
  { revert s Hreach. apply reachable_invariant.
    - intros s0. unfold createCache. destruct (validateOptions _); [|done].
      by intros [= <-].
    - intros l s1 s2 _ Hinv Hstep%step_Step. by eapply Step_trimming. }
  split; [done|]. intros t1 t2 tk1 tk2 H1 H2 Hw1 Hw2.
  eapply (sum_list_with_unique trimming_at (tasks s)); [|done..|lia|lia].
  unfold trimming in Hinv. destruct (shrinkLock s); lia.
Qed.

(** X2: the marker [initializing] is exact.  In every reachable state a hash
    is in [initializing] exactly when some fetch for that hash is inside
    [addToStore], between [initializing.add] and the [finally] that deletes
    it: the marker is never left behind, whatever the factory or the trim
    pass did. *)
Theorem initializing_exact s h :
  reachable s →
  h ∈ initializing s ↔
  ∃ t c key now st, tasks s !! t = Some (Fetch c key h now st) ∧
    (st = AwaitCreate ∨ ∃ r sh, st = AwaitShrink r sh).
Proof.
  intros [_ Hone]%reachable_flight_ok. specialize (Hone h). split.
  - intros Hin. rewrite decide_True in Hone by done.
    destruct (sum_list_with_pos (creating_at h) (tasks s)) as (t & tk & Ht & Hw).
    { unfold creating in Hone. lia. }
    destruct tk as [c key hash now st| | |]; simpl in Hw; try done.
    exists t, c, key, now, st.
    destruct st; try done; destruct (decide (hash = h)) as [->|]; try done;
      split; by eauto.
  - intros (t & c & key & now & st & Ht & Hst).
    pose proof (weight_lookup (creating_at h) _ _ _ Ht) as Hw.
    destruct (decide (h ∈ initializing s)) as [|Hout]; [done|]. exfalso.
    unfold creating in Hone. rewrite Hone in Hw.
    destruct Hst as [->|(r & sh & ->)]; simpl in Hw; rewrite decide_True in Hw by done; lia.
Qed.

(** *** Failure of the factory *)

(** X3: a failure of the factory is not cached.  When the factory of a fetch
    rejects, the call rejects with that error, whoever the caller is (for
    [getWith] before any lock is taken and without the transformer being
    called); the store and the entries are as before and the hash is no
    longer marked as initializing, so that the next call for the hash, if
    the store has no entry for it, calls the factory again. *)
Theorem factory_failure_not_cached s t c key hash now :
  tasks s !! t = Some (Fetch c key hash now AwaitCreate) →
  ∃ s1 s2,
    step (CreateFailed t) s = Some s1 ∧ step (Resume t) s1 = Some s2 ∧
    tasks s2 = <[t := Fetch c key hash now (Settled (Rejected FactoryError))]> (tasks s) ∧
    store s2 = store s ∧ heap s2 = heap s ∧
    initializing s2 = initializing s ∖ {[hash]} ∧
    log s2 = log s ++ [EvFactoryFailed t key] ∧
    (∀ c' key',
       hasher key' = hash → inherited hash = false →
       JsObject.has hash (store s) = false →
       ∃ s3, getCachedValue c' key' s2 = Some s3 ∧
         log s3 = log s2 ++ [EvFactory (length (tasks s2)) key' None] ∧
         tasks s3 = tasks s2 ++ [Fetch c' key' hash (clock (reads s2)) AwaitCreate]).
Proof.
  intros Ht. eexists _, _. split_and!.
  - simpl. rewrite Ht. simpl. done.
  - rewrite (step_resume t _ c key hash now (Fetched (Rejected FactoryError)));
      [done|]. by eapply lookup_parked.
  - simpl. by rewrite list_insert_insert_eq.
  - done.
  - done.
  - done.
  - done.
  - intros c' key' Hkey Hinh Hhas. unfold getCachedValue, getOrInsertCachedValue.
    rewrite Hkey, Hinh. simpl. rewrite Hhas. simpl.
    rewrite bool_decide_eq_false_2 by set_solver. simpl.
    unfold addToStore, JsObject.has in *. simpl.
    destruct (JsObject.get hash (store s)); [done|]. by eexists.
Qed.

(** *** A value is stored until its entry leaves the store *)

Lemma run_evolves sch s s' : run sch s = Some s' → evolves s s'.
Proof.
  revert s. induction sch as [|l sch IH]; intros s; simpl.
  - intros [= <-]. apply evolves_refl.
  - destruct (step l s) as [s1|] eqn:H1; simpl; [|done].
    intros H2. eapply evolves_trans; [by eapply step_evolves | by apply IH].
Qed.

(** X4: insert, then look up.  After the factory of a fetch has resolved
    with [v], and whatever has run since, as long as the store still holds
    the entry created then under its hash, a [get] for a key of that hash
    that finds the entry not expired and no creation in flight resolves with
    [v]; the factory is not called and the store is left as it is. *)
Theorem lookup_after_insert s t c key hash now v d s1 sch s2 key' :
  tasks s !! t = Some (Fetch c key hash now AwaitCreate) →
  step (Created t v d) s = Some s1 →
  run sch s1 = Some s2 →
  JsObject.get hash (store s2) = Some (length (heap s)) →
  hasher key' = hash → inherited hash = false →
  hash ∉ initializing s2 →
  isExpired s2 hash (clock (reads s2)) = false →
  ∃ s3, run [CallGet key'; Resume (length (tasks s2))] s2 = Some s3 ∧
    tasks s3 = tasks s2 ++
      [Fetch Get key' hash (clock (reads s2)) (Settled (Fulfilled (RValue v)))] ∧
    log s3 = log s2 ∧ store s3 = store s2.
Proof.
  intros Ht Hstep Hrun Hget Hkey Hinh Hinit Hexp.
  assert (Hnew : ∃ e, heap s1 !! length (heap s) = Some e ∧ value e = v) .
  { simpl in Hstep. rewrite Ht in Hstep. simpl in Hstep.
    destruct (shrinkCache _ _) as [s' sh] eqn:Hsh. injection Hstep as <-.
    apply shrinkCache_frame in Hsh as (Hheap & _). simpl in *.
    eexists. rewrite Hheap. split; [by apply list_lookup_middle|done]. }
  destruct Hnew as (e1 & He1 & Hv1).
  destruct (evolves_value _ _ _ _ (run_evolves _ _ _ Hrun) He1) as (e2 & He2 & Hv2).
  simpl. unfold getCachedValue, getOrInsertCachedValue. rewrite Hkey, Hinh.
  change (isExpired (with_reads (S (reads s2)) s2) hash (clock (reads s2)))
    with (isExpired s2 hash (clock (reads s2))).
  rewrite Hexp. unfold JsObject.has. simpl. rewrite Hget. simpl.
  rewrite bool_decide_eq_false_2 by done. simpl.
  unfold touch. simpl. rewrite Hget. simpl.
  unfold resume. simpl. rewrite list_lookup_middle by done. simpl.
  rewrite list_lookup_alter_eq, He2. simpl.
  eexists. split_and!; [done| |done..].
  simpl. rewrite insert_app_r_alt by done. rewrite Nat.sub_diag. simpl.
  do 5 f_equal. congruence.
Qed.

(** *** What a trim pass does to the store *)

Lemma entry_get s h r e : entry s h = Some (r, e) → JsObject.get h (store s) = Some r.
Proof.
  unfold entry. destruct (JsObject.get h (store s)) as [r'|]; simpl; [|done].
  destruct (heap s !! r'); simpl; [|done]. by intros [= -> _].
Qed.

Lemma entry_frame s s' h :
  JsObject.get h (store s') = JsObject.get h (store s) → heap s' = heap s →
  entry s' h = entry s h.
Proof. unfold entry. by intros -> ->. Qed.

Lemma remove_candidates_effect cs s s' ids failed h r e :
  remove_candidates cs s = (s', ids, failed) →
  entry s h = Some (r, e) →
  ∃ evs, log s' = log s ++ evs ∧
    (h ∉ cs ∨ (0 < locked e)%Z →
       JsObject.get h (store s') = Some r ∧
       (EvDestroy h r : event) ∉ evs ∧ (EvDelete h : event) ∉ evs) ∧
    (h ∈ cs → (locked e ≤ 0)%Z → destroy e = true →
       JsObject.get h (store s') = Some r ∧ (EvDestroy h r : event) ∈ evs) ∧
    (h ∈ cs → (locked e ≤ 0)%Z → destroy e = false →
       JsObject.get h (store s') = None ∧ (EvDelete h : event) ∈ evs).
Proof.
  revert s s' ids failed.
  induction cs as [|hash cs IH]; intros s s' ids failed Hrec Hentry; simpl in Hrec.
  { injection Hrec as <- _ _. exists []. rewrite app_nil_r. split; [done|].
    pose proof (entry_get _ _ _ _ Hentry) as Hget.
    split_and!.
    - intros _. split_and!; [done|apply not_elem_of_nil..].
    - by intros ?%elem_of_nil.
    - by intros ?%elem_of_nil. }
  destruct (entry s hash) as [[r0 e0]|] eqn:Hhash.
  - destruct (0 <? locked e0)%Z eqn:Hlk.
    + (* a locked candidate is skipped *)
      apply Z.ltb_lt in Hlk.
      destruct (IH _ _ _ _ Hrec Hentry) as (evs & Hlog & H1 & H2 & H3).
      exists evs. split; [done|].
      destruct (decide (h = hash)) as [->|Hne].
      * assert (r0 = r ∧ e0 = e) as [-> ->] by (split; congruence).
        split_and!; [intros _; apply H1; by right|intros; lia..].
      * split_and!.
        -- intros [Hn|Hl]; apply H1; [left|by right].
           by apply not_elem_of_cons in Hn as [_ ?].
        -- intros [?|Hin]%elem_of_cons; [done|]. by apply H2.
        -- intros [?|Hin]%elem_of_cons; [done|]. by apply H3.
    + apply Z.ltb_ge in Hlk. destruct (destroy e0) eqn:Hd.
      * (* [destroy()] is called, the removal is parked *)
        destruct (remove_candidates cs _) as [[s1 ids1] f1] eqn:Hrec1.
        injection Hrec as <- _ _.
        destruct (IH _ _ _ _ Hrec1 Hentry) as (evs & Hlog & H1 & H2 & H3).
        exists (EvDestroy hash r0 :: evs). split.
        { rewrite Hlog. simpl. by rewrite <-app_assoc. }
        destruct (decide (h = hash)) as [->|Hne].
        -- assert (r0 = r ∧ e0 = e) as [-> ->] by (split; congruence).
           split_and!.
           ++ intros [Hn|Hl]; [|lia]. exfalso. apply Hn. by left.
           ++ intros _ _ _. split; [|by left].
              destruct (decide (hash ∈ cs)) as [Hin|Hout];
                [by apply H2|by apply H1; left].
           ++ intros _ _ ?. congruence.
        -- split_and!.
           ++ intros Hor.
              destruct H1 as (? & ? & ?).
              { destruct Hor as [Hn|Hl]; [left|by right].
                by apply not_elem_of_cons in Hn as [_ ?]. }
              split_and!; [done| |].
              ** apply not_elem_of_cons. split; [congruence|done].
              ** apply not_elem_of_cons. split; [done|done].
           ++ intros [?|Hin]%elem_of_cons Hl Hds; [done|].
              destruct (H2 Hin Hl Hds). split; [done|by right].
           ++ intros [?|Hin]%elem_of_cons Hl Hds; [done|].
              destruct (H3 Hin Hl Hds). split; [done|by right].
      * (* [delete store[hash]] at once *)
        destruct (decide (h = hash)) as [->|Hne].
        -- assert (r0 = r ∧ e0 = e) as [-> ->] by (split; congruence).
           pose proof (remove_candidates_frame _ _ _ _ _ Hrec)
             as (_ & _ & _ & _ & Hkeep & _ & (evs & Hlog & _)).
           exists (EvDelete hash :: evs). split.
           { rewrite Hlog. simpl. by rewrite <-app_assoc. }
           split_and!.
           ++ intros [Hn|Hl]; [|lia]. exfalso. apply Hn. by left.
           ++ intros _ _ ?. congruence.
           ++ intros _ _ _. split; [|by left].
              destruct (JsObject.get hash (store s')) as [x|] eqn:Hx; [|done].
              apply Hkeep in Hx. simpl in Hx.
              by rewrite JsObjectFacts.get_remove_eq in Hx.
        -- destruct (IH _ _ _ _ Hrec) as (evs & Hlog & H1 & H2 & H3).
           { rewrite <-Hentry. apply entry_frame; [|done]. simpl.
             apply JsObjectFacts.get_remove_ne. congruence. }
           exists (EvDelete hash :: evs). split.
           { rewrite Hlog. simpl. by rewrite <-app_assoc. }
           split_and!.
           ++ intros Hor.
              destruct H1 as (? & ? & ?).
              { destruct Hor as [Hn|Hl]; [left|by right].
                by apply not_elem_of_cons in Hn as [_ ?]. }
              split_and!; [done| |].
              ** apply not_elem_of_cons. split; [done|done].
              ** apply not_elem_of_cons. split; [congruence|done].
           ++ intros [?|Hin]%elem_of_cons Hl Hds; [done|].
              destruct (H2 Hin Hl Hds). split; [done|by right].
           ++ intros [?|Hin]%elem_of_cons Hl Hds; [done|].
              destruct (H3 Hin Hl Hds). split; [done|by right].
  - (* the candidate is gone: the code throws here, the others go on *)
    destruct (remove_candidates cs s) as [[s1 ids1] f1] eqn:Hrec1.
    injection Hrec as <- _ _.
    destruct (IH _ _ _ _ Hrec1 Hentry) as (evs & Hlog & H1 & H2 & H3).
    exists evs. split; [done|].
    assert (Hne : h ≠ hash) by congruence.
    split_and!.
    + intros [Hn|Hl]; apply H1; [left|by right].
      by apply not_elem_of_cons in Hn as [_ ?].
    + intros [?|Hin]%elem_of_cons; [done|]. by apply H2.
    + intros [?|Hin]%elem_of_cons; [done|]. by apply H3.
Qed.

(** X5: what a trim pass does, entry by entry.  For an entry the store
    holds when [trim] starts: if it is no candidate (neither beyond the size
    bound nor expired), or is locked, it stays, and neither is its [destroy]
    called nor its slot deleted; an unlocked candidate without [destroy] is
    deleted at once; the [destroy] of an unlocked candidate that has one is
    called, the entry staying until [destroy] has resolved.  No entry is
    modified. *)
Theorem trim_pass_effect s now s' sh h r e :
  trim s now = (s', sh) →
  entry s h = Some (r, e) →
  ∃ evs, log s' = log s ++ evs ∧ heap s' = heap s ∧
    (h ∉ oldestValues s ++ expiredValues s now ∨ (0 < locked e)%Z →
       JsObject.get h (store s') = Some r ∧
       (EvDestroy h r : event) ∉ evs ∧ (EvDelete h : event) ∉ evs) ∧
    (h ∈ oldestValues s ++ expiredValues s now → (locked e ≤ 0)%Z → destroy e = true →
       JsObject.get h (store s') = Some r ∧ (EvDestroy h r : event) ∈ evs) ∧
    (h ∈ oldestValues s ++ expiredValues s now → (locked e ≤ 0)%Z → destroy e = false →
       JsObject.get h (store s') = None ∧ (EvDelete h : event) ∈ evs).
Proof.
  unfold trim. intros Htrim Hentry.
  destruct (remove_candidates _ s) as [[s1 ids] failed] eqn:Hrec.
  injection Htrim as <- _.
  pose proof (remove_candidates_frame _ _ _ _ _ Hrec) as (Hheap & _).
  destruct (remove_candidates_effect _ _ _ _ _ _ _ _ Hrec Hentry) as (evs & Hlog & H).
  exists evs. split; [done|]. split; [done|]. exact H.
Qed.

(** *** The size bound after an insertion *)

Lemma entry_of_key s k :
  store_ok s → k ∈ JsObject.keys (store s) → ∃ r e, entry s k = Some (r, e).
Proof.
  intros Hok Hk. pose proof Hok as [Hrefs Hnd _].
  apply list_elem_of_fmap in Hk as ([k' r] & -> & Hin).
  pose proof (JsObjectFacts.elem_get _ _ _ Hnd Hin) as Hget. simpl in *.
  destruct (lookup_lt_is_Some_2 (heap s) r) as [e He]; [by eapply store_ok_valid|].
  exists r, e. unfold entry. rewrite Hget. simpl. by rewrite He.
Qed.

Lemma kept_or_oldest s n k :
  store_ok s → Opt.size options = Some n → k ∈ JsObject.keys (store s) →
  k ∈ (take (Z.to_nat n) (reverse (sortBy (λ p, timestamp p.2) (toPairs s)))).*1 ∨
  k ∈ oldestValues s.
Proof.
  intros Hok Hn Hk. unfold oldestValues. rewrite Hn.
  rewrite <-(toPairs_keys s Hok) in Hk.
  rewrite <-elem_of_app, <-fmap_app, take_drop.
  by rewrite reverse_Permutation, sortBy_perm.
Qed.

Lemma remove_candidates_size cs s s' ids failed n :
  store_ok s → Opt.size options = Some n →
  (∀ h r e, entry s h = Some (r, e) → (locked e ≤ 0)%Z ∧ destroy e = false) →
  remove_candidates cs s = (s', ids, failed) →
  (∀ h, h ∈ oldestValues s → h ∈ cs) →
  currentSize s' ≤ Z.to_nat n.
Proof.
  intros Hok Hn Hfree Hrec Hcs.
  pose proof (evolves_store_ok _ _ (remove_candidates_evolves _ _ _ _ _ Hrec) Hok)
    as Hok'.
  pose proof (remove_candidates_frame _ _ _ _ _ Hrec)
    as (_ & _ & _ & _ & Hkeep & _).
  set (kept := (take (Z.to_nat n)
                  (reverse (sortBy (λ p, timestamp p.2) (toPairs s)))).*1).
  assert (Hsub : JsObject.keys (store s') ⊆+ kept).
  { apply NoDup_submseteq; [apply Hok'|]. intros k Hk.
    destruct (entry_of_key _ _ Hok' Hk) as (r & e & Hentry).
    pose proof (Hkeep _ _ (entry_get _ _ _ _ Hentry)) as Hget.
    destruct (lookup_lt_is_Some_2 (heap s) r) as [e0 He0]; [by eapply store_ok_valid|].
    assert (Hentry0 : entry s k = Some (r, e0)).
    { unfold entry. rewrite Hget. simpl. by rewrite He0. }
    destruct (kept_or_oldest s n k Hok Hn) as [?|Hold]; [|done|].
    { apply list_elem_of_fmap. exists (k, r). split; [done|].
      by apply JsObjectFacts.get_Some_elem. }
    exfalso. destruct (Hfree _ _ _ Hentry0) as [Hl Hd].
    destruct (remove_candidates_effect _ _ _ _ _ k r e0 Hrec Hentry0)
      as (evs & _ & _ & _ & H3).
    destruct (H3 (Hcs _ Hold) Hl Hd) as [Hnone _].
    rewrite (entry_get _ _ _ _ Hentry) in Hnone. done. }
  apply submseteq_length in Hsub. unfold currentSize, JsObject.size.
  unfold JsObject.keys in Hsub. rewrite length_fmap in Hsub.
  unfold kept in Hsub. rewrite length_fmap, length_take in Hsub. lia.
Qed.

Lemma entry_toPairs s h r e : entry s h = Some (r, e) → (h, e) ∈ toPairs s.
Proof.
  intros Hentry. pose proof (entry_get _ _ _ _ Hentry) as Hget.
  unfold entry in Hentry. rewrite Hget in Hentry. simpl in Hentry.
  destruct (heap s !! r) as [e'|] eqn:He; simplify_eq/=.
  unfold toPairs. apply list_elem_of_omap. exists (h, r). split.
  - by apply JsObjectFacts.get_Some_elem.
  - simpl. by rewrite He.
Qed.

Lemma created_within_size s t c key hash now v n :
  store_ok s →
  Opt.size options = Some n →
  tasks s !! t = Some (Fetch c key hash now AwaitCreate) →
  shrinkLock s = false →
  (∀ h r e, entry s h = Some (r, e) → (locked e ≤ 0)%Z ∧ destroy e = false) →
  ∃ s', step (Created t v false) s = Some s' ∧ currentSize s' ≤ Z.to_nat n.
Proof.
  intros Hok Hn Ht Hlock Hfree.
  set (s1 := (publish s hash now v false).1).
  assert (Hok1 : store_ok (with_shrinkLock true s1)).
  { assert (Hok1 : store_ok s1)
      by (eapply evolves_store_ok; [|exact Hok];
          eapply (evolves_publish s s1 hash); reflexivity).
    destruct Hok1. by split. }
  assert (Hfree1 : ∀ h r e, entry (with_shrinkLock true s1) h = Some (r, e) →
                            (locked e ≤ 0)%Z ∧ destroy e = false).
  { intros h r e Hentry. unfold entry in Hentry. simpl in Hentry.
    destruct (decide (hash = h)) as [->|Hne].
    - rewrite JsObjectFacts.get_set_eq in Hentry. simpl in Hentry.
      rewrite list_lookup_middle in Hentry by done. by simplify_eq/=.
    - rewrite JsObjectFacts.get_set_ne in Hentry by done.
      destruct (JsObject.get h (store s)) as [r'|] eqn:Hg; simpl in *; [|done].
      rewrite lookup_app_l in Hentry by (by eapply store_ok_valid).
      apply (Hfree h r e). unfold entry. by rewrite Hg. }
  simpl. rewrite Ht. simpl.
  destruct (shrinkCache _ now) as [s2 sh] eqn:Hsh.
  eexists. split; [done|].
  change (currentSize s2 ≤ Z.to_nat n).
  unfold shrinkCache in Hsh. simpl in Hsh. rewrite Hlock, Hn in Hsh.
  match type of Hsh with (if ?b then _ else _) = _ => destruct b eqn:Hcond end.
  - unfold trim in Hsh.
    destruct (remove_candidates _ _) as [[s3 ids] failed] eqn:Hrec.
    injection Hsh as <- _.
    eapply (remove_candidates_size _ _ _ _ _ n Hok1 Hn Hfree1 Hrec).
    intros h Hh. apply elem_of_app. by left.
  - injection Hsh as <- _. apply orb_false_iff in Hcond as [Hsize _].
    apply Z.ltb_ge in Hsize. unfold currentSize in *. simpl in *. lia.
Qed.

(** X6: an insertion trims the cache back to its size bound.  Under
    [size = n], when the factory of a fetch resolves with a value that has
    no [destroy], no trim pass is in flight, and no entry of the store is
    locked or has a [destroy] callback, the store holds at most [n] entries
    when [addToStore] reaches [await shrinkCache(now)]. *)
Theorem insertion_respects_size s t c key hash now v n :
  reachable s →
  Opt.size options = Some n →
  tasks s !! t = Some (Fetch c key hash now AwaitCreate) →
  shrinkLock s = false →
  Forall (λ p, (locked p.2 ≤ 0)%Z ∧ destroy p.2 = false) (toPairs s) →
  ∃ s', step (Created t v false) s = Some s' ∧ currentSize s' ≤ Z.to_nat n.
Proof.
  intros Hreach Hn Ht Hlock Hfree.
  eapply created_within_size; [by apply reachable_store_ok|done..|].
  intros h r e Hentry. rewrite Forall_forall in Hfree.
  apply (Hfree (h, e)), (entry_toPairs s h r e Hentry).
Qed.

(** *** The errors a caller can see *)

Lemma oldestValues_NoDup s : store_ok s → NoDup (oldestValues s).
Proof.
  intros Hok. unfold oldestValues. destruct (Opt.size options); [|constructor].
  rewrite fmap_drop. eapply sublist_NoDup; [|apply sublist_drop].
  rewrite reverse_Permutation, sortBy_perm, (toPairs_keys s Hok). apply Hok.
Qed.

Lemma oldestValues_keys s h :
  store_ok s → h ∈ oldestValues s → h ∈ JsObject.keys (store s).
Proof.
  intros Hok. unfold oldestValues. destruct (Opt.size options); [|by intros ?%elem_of_nil].
  rewrite fmap_drop. intros Hin%subseteq_drop.
  rewrite <-(toPairs_keys s Hok).
  by rewrite reverse_Permutation, sortBy_perm in Hin.
Qed.

Lemma expiredValues_NoDup s now : store_ok s → NoDup (expiredValues s now).
Proof.
  intros Hok. unfold expiredValues. destruct (Opt.expiry options); [|constructor].
  apply NoDup_filter, Hok.
Qed.

Lemma expiredValues_keys s now h :
  h ∈ expiredValues s now → h ∈ JsObject.keys (store s).
Proof.
  unfold expiredValues. destruct (Opt.expiry options); [|by intros ?%elem_of_nil].
  by intros [_ ?]%list_elem_of_filter.
Qed.

(** Candidates that are pairwise distinct own keys of the store are all
    found in it when their turn comes. *)
Lemma remove_candidates_no_failure cs s s' ids failed :
  NoDup cs → (∀ h, h ∈ cs → is_Some (entry s h)) →
  remove_candidates cs s = (s', ids, failed) → failed = false.
Proof.
  revert s s' ids failed.
  induction cs as [|hash cs IH]; intros s s' ids failed Hnd Hin Hrec; simpl in Hrec.
  { by injection Hrec as _ _ <-. }
  apply NoDup_cons in Hnd as [Hhash Hnd].
  destruct (Hin hash) as [[r0 e0] Hentry]; [by left|]. rewrite Hentry in Hrec.
  destruct (0 <? locked e0)%Z.
  - eapply IH; [done| |done]. intros h Hh. apply Hin. by right.
  - destruct (destroy e0).
    + destruct (remove_candidates cs _) as [[s1 ids1] f1] eqn:Hrec1.
      injection Hrec as _ _ <-. eapply IH; [done| |done].
      intros h Hh. apply (Hin h). by right.
    + eapply IH; [done| |done]. intros h Hh.
      rewrite (entry_frame s _ h); [apply Hin; by right| |done].
      simpl. apply JsObjectFacts.get_remove_ne. congruence.
Qed.

Lemma shrinkCache_sound s now s' sh :
  Opt.size options = None ∨ Opt.expiry options = None →
  store_ok s → shrinkCache s now = (s', sh) → shrink_sound sh.
Proof.
  intros Hone Hok. unfold shrinkCache, trim.
  destruct (shrinkLock s); [by intros [= _ <-]|].
  destruct (_ || _); [|by intros [= _ <-]].
  destruct (remove_candidates _ _) as [[s1 ids] failed] eqn:Hrec. intros [= _ <-].
  simpl. eapply remove_candidates_no_failure; [| |done].
  - destruct Hone as [Hn|He].
    + unfold oldestValues at 1. rewrite Hn. simpl.
      apply (expiredValues_NoDup (with_shrinkLock true s)). destruct Hok. by split.
    + unfold expiredValues. rewrite He, app_nil_r.
      apply (oldestValues_NoDup (with_shrinkLock true s)). destruct Hok. by split.
  - intros h Hh.
    assert (h ∈ JsObject.keys (store s)) as Hk.
    { apply elem_of_app in Hh as [Hh|Hh].
      - apply (oldestValues_keys (with_shrinkLock true s)) in Hh; [done|].
        destruct Hok. by split.
      - by apply (expiredValues_keys (with_shrinkLock true s)) in Hh. }
    destruct (entry_of_key _ _ Hok Hk) as (r & e & Hentry). by exists (r, e).
Qed.

Lemma promise_all_rejected os e :
  promise_all os = Some (Rejected e) → Some (Rejected e) ∈ os.
Proof.
  unfold promise_all. destruct (head (omap rejection os)) as [e'|] eqn:Hhead.
  - intros [= ->]. apply head_Some_elem_of in Hhead.
    apply list_elem_of_omap in Hhead as (o & Ho & Hrej).
    destruct o as [[|e']|]; simplify_eq/=. done.
  - destruct (mapM fulfilment os); by simpl.
Qed.

Lemma starting_sound c key hash now st :
  starting st → task_sound (Fetch c key hash now st : task).
Proof. destruct st as [| | | |[]| |]; done. Qed.

Lemma trim_settles_sound s cs o : trim_settles s cs false = Some o → o = Fulfilled ().
Proof. unfold trim_settles. destruct (forallb _ _); by intros [= <-]. Qed.

Lemma Step_sound l s s' :
  Opt.size options = None ∨ Opt.expiry options = None →
  Step l s s' → store_ok s → order_ok s →
  (∀ t tk, tasks s !! t = Some tk → task_sound tk) →
  ∀ t tk, tasks s' !! t = Some tk → task_sound tk.
Proof.
  intros Hone HS Hok Hord Hinv t0 tk0 H0.
  destruct HS;
    try (apply lookup_park in H0 as [[-> ->]|[_ H0]]; [|by eapply Hinv];
         match goal with Ht : tasks _ !! _ = Some _ |- _ =>
           pose proof (Hinv _ _ Ht) as Hs end;
         simpl in *; by auto).
  - match goal with H : fetch_call _ _ _ _ |- _ =>
      apply fetch_call_frame in H as (_ & (st & Ht & Hst) & _) end.
    rewrite Ht in H0. apply lookup_app_Some in H0 as [H0|[_ H0]]; [by eapply Hinv|].
    apply list_lookup_singleton_Some in H0 as [_ <-]. by apply starting_sound.
  - match goal with H : fetch_calls _ _ _ _ _ |- _ =>
      apply fetch_calls_frame in H as (_ & _ & (new & Ht & Hnew) & _) end.
    apply lookup_spawn in H0 as [[_ ->]|H0]; [done|].
    rewrite Ht in H0. apply lookup_app_Some in H0 as [H0|[_ H0]]; [by eapply Hinv|].
    apply list_elem_of_lookup_2 in H0.
    apply (Forall2_Forall_r _ task_sound) in Hnew.
    + rewrite Forall_forall in Hnew. by apply Hnew.
    + apply Forall_true. intros key tk (now & st & -> & ?). by apply starting_sound.
  - (* the timer fires *)
    match goal with H : shrinkCache _ _ = _ |- _ =>
      pose proof H as (_ & _ & _ & _ & (new & Hnew & Hall) & _)%shrinkCache_frame;
      apply shrinkCache_sound in H; [|done|destruct Hok; by split] end.
    apply lookup_park in H0 as [[_ ->]|[_ H0]]; [done|].
    rewrite Hnew in H0. simpl in H0.
    apply (lookup_new_removal _ _ _ _ Hall) in H0 as [H0|[? ->]]; [|done].
    apply lookup_app_Some in H0 as [H0|[_ H0]]; [by eapply Hinv|].
    by apply list_lookup_singleton_Some in H0 as [_ <-].
  - (* [trim] returns to a fetch *)
    apply lookup_park in H0 as [[-> ->]|[_ H0]]; [|by eapply Hinv].
    match goal with Ht : tasks _ !! _ = Some _ |- _ =>
      pose proof (Hinv _ _ Ht) as Hs end.
    simpl in Hs. subst. simpl. by eapply trim_settles_sound.
  - (* [addToStore] returns *)
    apply lookup_park in H0 as [[-> ->]|[_ H0]]; [|by eapply Hinv].
    match goal with Ht : tasks _ !! _ = Some _ |- _ =>
      pose proof (Hinv _ _ Ht) as Hs end.
    simpl in Hs. by subst.
  - by eapply Hinv.
  - match goal with H : fetch_start _ _ _ _ _ _ _ |- _ =>
      apply fetch_start_frame in H as (Hts & _ & _ & _ & _ & Hst & _) end.
    apply lookup_park in H0 as [[-> ->]|[_ H0]]; [by apply starting_sound|].
    rewrite Hts in H0. by eapply Hinv.
  - (* a rejected fetch settles *)
    apply lookup_park in H0 as [[-> ->]|[_ H0]]; [|by eapply Hinv].
    match goal with Ht : tasks _ !! _ = Some _ |- _ =>
      pose proof (Hinv _ _ Ht) as Hs end.
    simpl in *. destruct Hs as [?|[? _]]; [by left|done].
  - (* [Promise.all] rejects *)
    apply lookup_park in H0 as [[-> ->]|[_ H0]]; [|by eapply Hinv].
    simpl. left.
    match goal with H : promise_all _ = _ |- _ =>
      apply promise_all_rejected, list_elem_of_fmap in H as (id & Hid & Hin) end.
    match goal with Ht : tasks _ !! _ = Some (Multi _ _ _ _) |- _ =>
      destruct (order_multi _ Hord _ _ _ _ _ Ht) as [Hitems _] end.
    apply (Forall2_Forall_l _ (λ id, ∃ key hash now st,
             tasks s !! id = Some (Fetch (item_caller lock) key hash now st))) in Hitems.
    2:{ apply Forall_true. intros id' key (hash & now & st & ?). by eauto. }
    rewrite Forall_forall in Hitems.
    destruct (Hitems _ Hin) as (key & hash & now & st & Hfetch).
    unfold item_outcome in Hid. rewrite Hfetch in Hid.
    destruct st; simplify_eq/=.
    pose proof (Hinv _ _ Hfetch) as Hs. simpl in Hs.
    destruct Hs as [?|[Hw _]]; [done|]. by destruct lock.
  - (* [trim] returns to the timer's callback *)
    apply lookup_park in H0 as [[-> ->]|[_ H0]]; [|by eapply Hinv].
    match goal with Ht : tasks _ !! _ = Some _ |- _ =>
      pose proof (Hinv _ _ Ht) as Hs end.
    simpl in Hs. subst. simpl. by eapply trim_settles_sound.
  - (* the factory resolves *)
    match goal with H : shrinkCache _ _ = _ |- _ =>
      pose proof H as (_ & _ & _ & _ & (new & Hnew & Hall) & _)%shrinkCache_frame;
      apply shrinkCache_sound in H; [|done|] end.
    2:{ eapply evolves_store_ok; [|exact Hok].
        by eapply (evolves_publish s _ hash). }
    apply lookup_park in H0 as [[-> ->]|[_ H0]]; [done|].
    rewrite Hnew in H0. simpl in H0.
    apply (lookup_new_removal _ _ _ _ Hall) in H0 as [H0|[? ->]]; [|done].
    by eapply Hinv.
  - (* the transformer of [getWith] settles *)
    apply lookup_park in H0 as [[-> ->]|[_ H0]]; [|by eapply Hinv].
    simpl. destruct l; simplify_eq/=; [done|by right].
  - (* the transformer of [getMultipleWith] settles *)
    apply lookup_park in H0 as [[-> ->]|[_ H0]]; [|by eapply Hinv].
    simpl. destruct l; simplify_eq/=; [done|by right].
Qed.

(** X7: with at most one of [size] and [expiry] configured, and as long as
    no call was made for a hash that is a name every object inherits, a
    call is only ever rejected with an error of the caller's own callbacks.
    A settled fetch that is rejected carries the error of the factory, or,
    for [getWith], of the transformer; so does a rejected batch; no trim
    pass throws, and the timer's cleanup is never rejected. *)
Theorem errors_are_the_callbacks s :
  Opt.size options = None ∨ Opt.expiry options = None →
  reachable s →
  calls_own s = true →
  (∀ t c key hash now e,
     tasks s !! t = Some (Fetch c key hash now (Settled (Rejected e))) →
     e = FactoryError ∨ (c = GetWith ∧ e = TransformerError)) ∧
  (∀ t lock keys items e,
     tasks s !! t = Some (Multi lock keys items (MultiSettled (Rejected e))) →
     e = FactoryError ∨ (lock = true ∧ e = TransformerError)) ∧
  (∀ t c key hash now r cs failed,
     tasks s !! t = Some (Fetch c key hash now (AwaitShrink r (Trimming cs failed))) →
     failed = false) ∧
  (∀ t o, tasks s !! t = Some (Scheduled (ShrinkSettled o)) → o = Fulfilled ()).
Proof.
  intros Hone Hreach _.
  assert (Hinv : ∀ t tk, tasks s !! t = Some tk → task_sound tk).
  { revert s Hreach.
    apply (reachable_invariant (λ s, ∀ t tk, tasks s !! t = Some tk → task_sound tk)).
    - intros s0. unfold createCache. destruct (validateOptions _); [|done].
      intros [= <-] t tk Ht. simpl in Ht. by rewrite lookup_nil in Ht.
    - intros l s1 s2 Hr1 Hinv Hstep%step_Step.
      eapply (Step_sound l s1 s2); [done..| | |done].
      + by apply reachable_store_ok.
      + by apply reachable_order_ok. }
  split_and!.
  - intros t c key hash now e Ht%Hinv. simpl in Ht.
    destruct Ht as [?|[Hc ?]]; [by left|right]. by destruct c.
  - intros t lock keys items e Ht%Hinv. done.
  - intros t c key hash now r cs failed Ht%Hinv. done.
  - intros t o Ht%Hinv. done.
Qed.

(** *** Without expiry, entries are never replaced *)

Lemma isExpired_without_expiry s hash now :
  Opt.expiry options = None → isExpired s hash now = false.
Proof. intros Hexp. unfold isExpired, expiryInMilliseconds. by rewrite Hexp. Qed.

Lemma fetch_start_fresh t s key hash now s1 st c h :
  Opt.expiry options = None →
  fetch_start t s key hash now s1 st →
  creating h s = (if decide (h ∈ initializing s) then 1 else 0) →
  flying h s + stored h s ≤ 1 →
  flying h s + flying_at h (Fetch c key hash now st) + stored h s1 ≤ 1 ∧
  ∃ evs, log s1 = log s ++ evs ∧
    Forall (λ ev, ∀ t k old, ev = EvFactory t k old → old = None) evs.
Proof.
  intros Hexp Hs Hone Hle. pose proof (flying_le_creating h s) as Hfc.
  destruct Hs as [[Hhas|Hx] Hinit|Hinit|r Hget Hinit].
  - split.
    + change (stored h (emit _ (with_initializing _ s))) with (stored h s).
      simpl. destruct (decide (hash = h)) as [->|]; [|lia].
      rewrite decide_False in Hone by done. rewrite (stored_has _ _ Hhas). lia.
    + eexists [_]. split; [done|]. constructor; [|done].
      intros t' k old [= _ _ <-]. by apply JsObjectFacts.has_false.
  - by rewrite isExpired_without_expiry in Hx.
  - split; [simpl; lia|]. exists []. by rewrite app_nil_r.
  - split; [|exists []; by rewrite app_nil_r].
    change (stored h (with_heap _ s)) with (stored h s). simpl. lia.
Qed.

Lemma fetch_call_fresh c key s s' :
  Opt.expiry options = None →
  fetch_call c key s s' → flight_ok s →
  (∀ h, flying h s + stored h s ≤ 1) →
  Forall (λ ev, ∀ t k old, ev = EvFactory t k old → old = None) (log s) →
  (∀ h, flying h s' + stored h s' ≤ 1) ∧
  Forall (λ ev, ∀ t k old, ev = EvFactory t k old → old = None) (log s').
Proof.
  intros Hexp [s1 st _ Hs] [_ Hone] Hle Hlog.
  pose proof (fetch_start_frame _ _ _ _ _ _ _ Hs) as (Hts & _).
  split.
  - intros h.
    destruct (fetch_start_fresh _ _ _ _ _ _ _ c h Hexp Hs (Hone h) (Hle h)) as [Hh _].
    unfold flying in *. simpl in *. rewrite Hts, sum_list_with_app. simpl.
    change (stored h (spawn _ s1)) with (stored h s1). lia.
  - destruct (fetch_start_fresh _ _ _ _ _ _ _ c (hasher key) Hexp Hs (Hone _) (Hle _))
      as [_ (evs & Hl & Hevs)].
    simpl. rewrite Hl. apply Forall_app. by split.
Qed.

Lemma fetch_calls_fresh c keys s s' ids :
  Opt.expiry options = None →
  fetch_calls c keys s s' ids → flight_ok s →
  (∀ h, flying h s + stored h s ≤ 1) →
  Forall (λ ev, ∀ t k old, ev = EvFactory t k old → old = None) (log s) →
  (∀ h, flying h s' + stored h s' ≤ 1) ∧
  Forall (λ ev, ∀ t k old, ev = EvFactory t k old → old = None) (log s').
Proof.
  intros Hexp. induction 1 as [|key keys s s1 s2 ids H1 H2 IH]; [done|].
  intros Hf Hle Hlog.
  destruct (fetch_call_fresh _ _ _ _ Hexp H1 Hf Hle Hlog) as [Hle1 Hlog1].
  apply IH; [by eapply fetch_call_flight_ok|done..].
Qed.

Lemma stored_le h s s' :
  (∀ r, JsObject.get h (store s') = Some r → JsObject.get h (store s) = Some r) →
  stored h s' ≤ stored h s.
Proof.
  intros Hkeep. unfold stored, JsObject.has.
  destruct (JsObject.get h (store s')) as [r|]; [|destruct (JsObject.get _ _); lia].
  by rewrite (Hkeep r).
Qed.

Lemma Step_fresh l s s' :
  Opt.expiry options = None →
  Step l s s' → flight_ok s →
  (∀ h, flying h s + stored h s ≤ 1) →
  Forall (λ ev, ∀ t k old, ev = EvFactory t k old → old = None) (log s) →
  (∀ h, flying h s' + stored h s' ≤ 1) ∧
  Forall (λ ev, ∀ t k old, ev = EvFactory t k old → old = None) (log s').
Proof.
  intros Hexp HS Hfl Hle Hlog. pose proof Hfl as [Hhash Hone].
  destruct HS;
    try (split;
         [intros h; specialize (Hle h);
          match goal with
          | Ht : tasks ?s !! ?t = Some ?tk |- context [park ?t ?X ?s1] =>
              pose proof (weight_park_same (flying_at h) s s1 t X tk eq_refl Ht)
          end;
          unfold flying, stored in *; simpl in *; lia
         |simpl; rewrite ?Forall_app; repeat split; try done;
          by repeat constructor]).
  - by eapply fetch_call_fresh.
  - match goal with H : fetch_calls _ _ _ _ _ |- _ =>
      eapply fetch_calls_fresh in H as [Hle1 Hlog1]; [|done..] end.
    split; [|done]. intros h. specialize (Hle1 h).
    unfold flying, stored in *. simpl. rewrite sum_list_with_app. simpl. lia.
  - match goal with H : is_Some _ |- _ => rewrite Hexp in H; by destruct H end.
  - done.
  - (* a retry after waiting *)
    match goal with H : fetch_start _ _ _ _ _ _ _ |- _ =>
      pose proof H as (Hts & _)%fetch_start_frame end.
    split.
    + intros h.
      match goal with H : fetch_start _ _ _ _ _ _ _ |- _ =>
        destruct (fetch_start_fresh _ _ _ _ _ _ _ c h Hexp H (Hone h) (Hle h)) as [Hh _] end.
      match goal with
      | Ht : tasks ?s !! ?t = Some ?tk |- context [park ?t ?X ?s1] =>
          pose proof (weight_park_same (flying_at h) s s1 t X tk Hts Ht) as Hw
      end.
      change (flying_at h (Fetch c key hash now Woken)) with 0 in Hw.
      change (stored h (park t (Fetch c key hash now st) s1)) with (stored h s1).
      unfold flying in *. simpl in *. lia.
    + match goal with H : fetch_start _ _ _ _ _ _ _ |- _ =>
        destruct (fetch_start_fresh _ _ _ _ _ _ _ c hash Hexp H (Hone _) (Hle _))
          as [_ (evs & Hl & Hevs)] end.
      simpl. rewrite Hl. apply Forall_app. by split.
  - (* the factory resolves *)
    match goal with H : shrinkCache _ _ = _ |- _ =>
      apply shrinkCache_frame in H
        as (_ & _ & _ & Hkeep & (new & Hnew & Hall) & (evs & Hl & Hevs & _)) end.
    split.
    + intros h. specialize (Hle h).
      match goal with
      | Ht : tasks ?s !! ?t = Some ?tk |- context [park ?t ?X ?s1] =>
          pose proof (weight_park (flying_at h) s s1 t X tk new
                        (flying_at_removal h) Hnew Hall Ht) as Hw
      end.
      assert (stored h s2 ≤ if decide (hash = h) then 1 else stored h s) as Hst.
      { destruct (decide (hash = h)) as [->|Hne].
        - unfold stored. destruct (JsObject.has _ _); lia.
        - apply stored_le. intros r Hr%Hkeep. simpl in Hr.
          by rewrite JsObjectFacts.get_set_ne in Hr. }
      change (stored h (park t (Fetch c key hash now (AwaitShrink (length (heap s)) sh)) s2))
        with (stored h s2).
      unfold flying in *. simpl in *. destruct (decide (hash = h)); lia.
    + simpl. rewrite Hl. apply Forall_app. split; [done|].
      eapply Forall_impl; [exact Hevs|]. intros ev Hev t' k old ->. done.
  - (* [delete store[hash]] after [destroy()] *)
    split.
    + intros h. specialize (Hle h).
      match goal with
      | Ht : tasks ?s !! ?t = Some ?tk |- context [park ?t ?X ?s1] =>
          pose proof (weight_park_same (flying_at h) s s1 t X tk eq_refl Ht) as Hw
      end.
      assert (stored h (with_store (JsObject.remove hash) s) ≤ stored h s) as Hst.
      { apply stored_le. intros r. simpl.
        destruct (decide (hash = h)) as [->|Hne].
        - by rewrite JsObjectFacts.get_remove_eq.
        - by rewrite JsObjectFacts.get_remove_ne. }
      unfold flying, stored in *. simpl in *. lia.
    + simpl. rewrite Forall_app. split; [done|]. by repeat constructor.
Qed.

Lemma reachable_fresh s :
  Opt.expiry options = None → reachable s →
  (∀ h, flying h s + stored h s ≤ 1) ∧
  Forall (λ ev, ∀ t k old, ev = EvFactory t k old → old = None) (log s).
Proof.
  intros Hexp Hreach. revert s Hreach.
  apply (reachable_invariant (λ s, (∀ h, flying h s + stored h s ≤ 1) ∧
           Forall (λ ev, ∀ t k old, ev = EvFactory t k old → old = None) (log s))).
  - intros s0. unfold createCache. destruct (validateOptions _); [|done].
    intros [= <-]. split; [|by constructor]. intros h. unfold flying, stored. simpl. lia.
  - intros l s1 s2 Hr1 [Hle Hlog] Hstep%step_Step.
    eapply (Step_fresh l s1 s2); [done..|by apply reachable_flight_ok|done|done].
Qed.

Lemma flying_absent s t c key hash now :
  Opt.expiry options = None → reachable s →
  tasks s !! t = Some (Fetch c key hash now AwaitCreate) →
  JsObject.has hash (store s) = false.
Proof.
  intros Hexp Hreach Ht. destruct (reachable_fresh s Hexp Hreach) as [Hle _].
  specialize (Hle hash).
  pose proof (weight_lookup (flying_at hash) _ _ _ Ht) as Hw.
  simpl in Hw. rewrite decide_True in Hw by done.
  unfold flying, stored in Hle. destruct (JsObject.has hash (store s)); [lia|done].
Qed.

(** X8: without [expiry], an entry is never replaced.  In every reachable
    state of a cache with no [expiry], each call of the factory was made for
    a hash the store held no entry for, and while a factory is running the
    store holds no entry for its hash: what it resolves with goes into an
    empty slot, so an entry leaves the store only through a trim pass. *)
Theorem no_overwrite_without_expiry s :
  Opt.expiry options = None →
  reachable s →
  (∀ t k old, EvFactory t k old ∈ log s → old = None) ∧
  (∀ t c key hash now,
     tasks s !! t = Some (Fetch c key hash now AwaitCreate) →
     JsObject.has hash (store s) = false).
Proof.
  intros Hexp Hreach.
  pose proof (reachable_fresh s Hexp Hreach) as Hinv.
  destruct Hinv as [Hle Hlog]. split.
  - intros t k old Hin. rewrite Forall_forall in Hlog. by eapply Hlog.
  - intros t c key hash now Ht. by eapply flying_absent.
Qed.

(** *** The most recently used entry *)

Lemma toPairs_entry s k e :
  store_ok s → (k, e) ∈ toPairs s → ∃ r, entry s k = Some (r, e).
Proof.
  intros [_ Hnd _]. unfold toPairs. intros ([k' r] & Hin & Hp)%list_elem_of_omap.
  simpl in Hp. destruct (heap s !! r) as [e'|] eqn:He; simplify_eq/=.
  exists r. unfold entry. rewrite (JsObjectFacts.elem_get _ _ _ Hnd Hin). simpl.
  by rewrite He.
Qed.

(** X9: the size bound spares the most recently used entry.  When a step of
    a reachable state starts a trim pass on the state [s] under [size = n],
    an entry of [s] whose access timestamp is later than that of every
    other entry of the store is no size candidate of that pass. *)
Theorem latest_entry_survives l s0 s n h r e :
  reachable s0 → trim_start l s0 = Some s →
  Opt.size options = Some n →
  entry s h = Some (r, e) →
  (∀ h' r' e', entry s h' = Some (r', e') → h' ≠ h → (timestamp e' < timestamp e)%Z) →
  (∃ t tk now, step l s0 = Some (park t tk (trim s now).1)) ∧
  h ∉ oldestValues s.
Proof.
  intros Hreach Hstart Hn Hentry Hlatest.
  split; [by eapply trim_start_step|]. intros Hin.
  pose proof (trim_start_store_ok _ _ _ (reachable_store_ok _ Hreach) Hstart) as Hok.
  assert (Hpos : 0 < Z.to_nat n).
  { destruct Hreach as (sch & si & Hc & _). unfold createCache, validateOptions in Hc.
    rewrite Hn in Hc. destruct (n <=? 0)%Z eqn:Hle; [done|].
    apply Z.leb_gt in Hle. lia. }
  unfold oldestValues in Hin. rewrite Hn in Hin.
  set (sorted := reverse (sortBy (λ p, timestamp p.2) (toPairs s))) in *.
  assert (Hperm : sorted ≡ₚ toPairs s).
  { unfold sorted. by rewrite reverse_Permutation, sortBy_perm. }
  apply list_elem_of_fmap in Hin as ([k e1] & -> & Hp). simpl in *.
  assert (e1 = e) as ->.
  { pose proof (subseteq_drop _ _ _ Hp) as Hp'. rewrite Hperm in Hp'.
    destruct (toPairs_entry _ _ _ Hok Hp') as [r1 Hr1]. congruence. }
  assert (Hlen : Z.to_nat n < length sorted).
  { apply list_elem_of_lookup in Hp as [i Hi]. apply lookup_lt_Some in Hi.
    rewrite length_drop in Hi. lia. }
  destruct (lookup_lt_is_Some_2 sorted 0) as [[k0 e0] Hx]; [lia|].
  assert (Hx' : (k0, e0) ∈ take (Z.to_nat n) sorted).
  { apply elem_of_take. exists 0. split; [done|lia]. }
  pose proof (sortBy_reverse_split (λ p : string * CachedValue V, timestamp p.2)
                (Z.to_nat n) (toPairs s) (k0, e0) (k, e) Hx' Hp) as Hle.
  simpl in Hle.
  assert (Hne : k0 ≠ k).
  { assert (Hnd : NoDup sorted.*1).
    { rewrite Hperm, (toPairs_keys s Hok). apply Hok. }
    rewrite <-(take_drop (Z.to_nat n) sorted), fmap_app in Hnd.
    apply NoDup_app in Hnd as (_ & Hdis & _). intros ->.
    apply (Hdis k).
    - apply list_elem_of_fmap. by exists (k, e0).
    - apply list_elem_of_fmap. by exists (k, e). }
  assert (Hin0 : (k0, e0) ∈ toPairs s).
  { rewrite <-Hperm. by eapply list_elem_of_lookup_2. }
  destruct (toPairs_entry _ _ _ Hok Hin0) as [r0 Hr0].
  pose proof (Hlatest _ _ _ Hr0 Hne). lia.
Qed.

(** *** [memoize] *)

Lemma plain_entry s h r e : plain s → entry s h = Some (r, e) → destroy e = false.
Proof.
  intros [Hheap _ _] Hentry. unfold entry in Hentry.
  destruct (JsObject.get h (store s)) as [r'|]; simpl in *; [|done].
  destruct (heap s !! r') as [e'|] eqn:He; simplify_eq/=.
  rewrite Forall_lookup in Hheap. by destruct (Hheap _ _ He).
Qed.

(** Without [destroy] callbacks a trim pass deletes at once and waits for
    nothing. *)
Lemma remove_candidates_plain cs s s' ids failed :
  (∀ h r e, entry s h = Some (r, e) → destroy e = false) →
  remove_candidates cs s = (s', ids, failed) →
  tasks s' = tasks s ∧
  ∃ evs, log s' = log s ++ evs ∧ Forall plain_event evs.
Proof.
  revert s s' ids failed.
  induction cs as [|hash cs IH]; intros s s' ids failed Hplain Hrec; simpl in Hrec.
  { injection Hrec as <- _ _. split; [done|]. exists []. by rewrite app_nil_r. }
  destruct (entry s hash) as [[r0 e0]|] eqn:Hhash.
  - destruct (0 <? locked e0)%Z; [by eapply IH|].
    rewrite (Hplain _ _ _ Hhash) in Hrec.
    assert (Hplain' : ∀ h r e,
      entry (with_store (JsObject.remove hash) (emit (EvDelete hash) s)) h = Some (r, e) →
      destroy e = false).
    { intros h r e Hentry. apply (Hplain h r e). rewrite <-Hentry. symmetry.
      apply entry_frame; [|done]. simpl.
      destruct (decide (hash = h)) as [->|Hne];
        [|by apply JsObjectFacts.get_remove_ne].
      pose proof (entry_get _ _ _ _ Hentry) as Hget. simpl in Hget.
      by rewrite JsObjectFacts.get_remove_eq in Hget. }
    destruct (IH _ _ _ _ Hplain' Hrec) as (Hts & evs & Hlog & Hevs).
    split; [done|]. exists (EvDelete hash :: evs). split.
    + rewrite Hlog. simpl. by rewrite <-app_assoc.
    + by constructor.
  - destruct (remove_candidates cs s) as [[s1 ids1] f1] eqn:Hrec1.
    injection Hrec as <- _ _. by eapply IH.
Qed.

Lemma shrinkCache_plain s now s' sh :
  plain s → shrinkCache s now = (s', sh) →
  tasks s' = tasks s ∧ heap s' = heap s ∧
  ∃ evs, log s' = log s ++ evs ∧ Forall plain_event evs.
Proof.
  intros Hplain Hsh.
  pose proof (shrinkCache_frame _ _ _ _ Hsh) as (Hheap & _).
  revert Hsh. unfold shrinkCache, trim.
  assert (Hid : tasks s = tasks s ∧ heap s = heap s ∧
            ∃ evs : list event, log s = log s ++ evs ∧ Forall plain_event evs).
  { split_and!; [done..|]. exists []. by rewrite app_nil_r. }
  destruct (shrinkLock s); [by intros [= <- _]|].
  destruct (_ || _); [|by intros [= <- _]].
  destruct (remove_candidates _ _) as [[s1 ids] failed] eqn:Hrec. intros [= <- _].
  apply remove_candidates_plain in Hrec as (Hts & Hevs).
  - by split_and!.
  - intros h r e Hentry. by eapply (plain_entry s).
Qed.

Lemma plain_park t x s s1 :
  plain s → heap s1 = heap s → tasks s1 = tasks s → log s1 = log s →
  plain_task x → plain (park t x s1).
Proof.
  intros [Hh Ht Hl] Eh Et El Hx. split; simpl.
  - by rewrite Eh.
  - rewrite Et. by apply Forall_insert.
  - by rewrite El.
Qed.

Lemma plain_lookup s t tk : plain s → tasks s !! t = Some tk → plain_task tk.
Proof. intros [_ Ht _] Hlook. rewrite Forall_lookup in Ht. by eapply Ht. Qed.

Lemma plain_touch now r s : plain s → plain (with_heap (alter (set_timestamp now) r) s).
Proof.
  intros [Hh Ht Hl]. split; [|done..]. simpl.
  apply Forall_alter; [done|]. by intros e _ [? ?].
Qed.

Lemma fetch_start_plain t s key hash now s1 st :
  fetch_start t s key hash now s1 st → plain s → plain s1.
Proof.
  intros Hs Hp. pose proof Hp as [Hh Ht Hl]. destruct Hs.
  - split; [done..|]. simpl. apply Forall_app. split; [done|]. by repeat constructor.
  - done.
  - by apply plain_touch.
Qed.

Lemma Step_memoize l s s' :
  memoize_label l = true → Step l s s' → plain s → plain s'.
Proof.
  intros Hl HS Hp.
  destruct HS;
    try (by destruct l);
    try (match goal with Ht : tasks _ !! _ = Some _ |- _ =>
           pose proof (plain_lookup _ _ _ Hp Ht) as Hc; simpl in Hc end;
         first [done | by (apply (plain_park _ _ s); try done; subst; done)]).
  - (* [get] is called *)
    assert (c = Get) as -> by (destruct l; by simplify_eq/=).
    match goal with H : fetch_call _ _ _ _ |- _ => destruct H as [s1 st _ Hs] end.
    apply fetch_start_plain in Hs; [|by destruct Hp].
    destruct Hs as [Hh Ht Hlog]. split; [done| |done].
    simpl. apply Forall_app. split; [done|]. by repeat constructor.
  - (* the timer fires *)
    match goal with H : shrinkCache _ _ = _ |- _ =>
      apply shrinkCache_plain in H as (Hts & Hheap & evs & Hlog & Hevs) end.
    2:{ destruct Hp as [Hh Ht Hlog]. split; [done| |done].
        simpl. apply Forall_app. split; [done|]. by repeat constructor. }
    destruct Hp as [Hh Ht Hl']. split; simpl.
    + by rewrite Hheap.
    + rewrite Hts. simpl. apply Forall_insert; [|done].
      apply Forall_app. split; [done|]. by repeat constructor.
    + rewrite Hlog. simpl. apply Forall_app. by split.
  - (* a retry after waiting *)
    match goal with Ht : tasks _ !! _ = Some _ |- _ =>
      pose proof (plain_lookup _ _ _ Hp Ht) as Hc; simpl in Hc end.
    match goal with H : fetch_start _ _ _ _ _ _ _ |- _ =>
      apply fetch_start_plain in H as [Hh Ht' Hlog]; [|done] end.
    split; [done| |done]. simpl. by apply Forall_insert.
  - (* woken, the entry is there *)
    match goal with Ht : tasks _ !! _ = Some _ |- _ =>
      pose proof (plain_lookup _ _ _ Hp Ht) as Hc; simpl in Hc end.
    apply (plain_park _ _ (with_heap (alter (set_timestamp now) r) s));
      [by apply plain_touch|done..].
  - (* [behaviour] resolves *)
    match goal with Ht : tasks _ !! _ = Some _ |- _ =>
      pose proof (plain_lookup _ _ _ Hp Ht) as Hc; simpl in Hc end.
    assert (d = false) as -> by (simpl in Hl; by destruct d).
    match goal with H : shrinkCache _ _ = _ |- _ =>
      apply shrinkCache_plain in H as (Hts & Hheap & evs & Hlog & Hevs) end.
    2:{ destruct Hp as [Hh Ht Hlog]. split; [|done..].
        simpl. apply Forall_app. split; [done|]. by repeat constructor. }
    destruct Hp as [Hh Ht Hl']. split; simpl.
    + rewrite Hheap. simpl. apply Forall_app. split; [done|]. by repeat constructor.
    + rewrite Hts. simpl. by apply Forall_insert.
    + rewrite Hlog. simpl. apply Forall_app. by split.
  - (* [behaviour] fails *)
    match goal with Ht : tasks _ !! _ = Some _ |- _ =>
      pose proof (plain_lookup _ _ _ Hp Ht) as Hc; simpl in Hc end.
    destruct Hp as [Hh Ht Hl']. split; simpl; [done| |].
    + by apply Forall_insert.
    + apply Forall_app. split; [done|]. by repeat constructor.
Qed.

Lemma memoized_plain s : memoized s → reachable s ∧ plain s.
Proof.
  intros (sch & s0 & Hc & Hrun & Hsch).
  assert (Hr0 : reachable s0) by (by exists [], s0).
  assert (Hp0 : plain s0).
  { unfold createCache in Hc. destruct (validateOptions _); [|done].
    injection Hc as <-. by split. }
  clear Hc. revert s0 Hr0 Hp0 Hrun.
  induction sch as [|l sch IH]; intros s0 Hr0 Hp0 Hrun; simpl in *.
  - by injection Hrun as <-.
  - apply andb_true_iff in Hsch as [Hl Hsch].
    destruct (step l s0) as [s1|] eqn:Hstep; simpl in *; [|done].
    apply (IH Hsch s1); [by eapply reachable_step| |done].
    eapply Step_memoize; [done|by apply step_Step|done].
Qed.

(** X10: a memoized function.  In every state of the cache behind
    [memoize], no entry is locked or has a [destroy] callback, no [destroy]
    and no transformer has been called, and a trim pass never waits for a
    removal; hence, under [size = n], when [behaviour] resolves while no
    trim pass is in flight, the cache holds at most [n] results when
    [addToStore] reaches [await shrinkCache(now)]. *)
Theorem memoize_plain s :
  memoized s →
  (∀ r e, heap s !! r = Some e → locked e = 0%Z ∧ destroy e = false) ∧
  (∀ ev, ev ∈ log s → ∀ hash r kvs t, ev ≠ EvDestroy hash r ∧ ev ≠ EvTransformer t kvs) ∧
  (∀ t tk, tasks s !! t = Some tk →
     (∃ key hash now st, tk = Fetch Get key hash now st) ∨ ∃ sh, tk = Scheduled sh) ∧
  (∀ n t c key hash now v,
     Opt.size options = Some n →
     tasks s !! t = Some (Fetch c key hash now AwaitCreate) →
     shrinkLock s = false →
     ∃ s', step (Created t v false) s = Some s' ∧ currentSize s' ≤ Z.to_nat n).
Proof.
  intros [Hreach Hp]%memoized_plain. pose proof Hp as [Hh Ht Hl]. split_and!.
  - intros r e He. rewrite Forall_lookup in Hh. by eapply Hh.
  - intros ev Hev hash r kvs t. rewrite Forall_forall in Hl.
    specialize (Hl _ Hev). split; by intros ->.
  - intros t tk Htk. rewrite Forall_lookup in Ht. specialize (Ht _ _ Htk).
    destruct tk as [c key hash now st| | |sh]; simpl in Ht; try done.
    + left. subst. by eauto.
    + right. by eauto.
  - intros n t c key hash now v Hn Htk Hlock.
    eapply created_within_size; [by apply reachable_store_ok|done..|].
    intros h r e Hentry. unfold entry in Hentry.
    destruct (JsObject.get h (store s)) as [r'|]; simpl in *; [|done].
    destruct (heap s !! r') as [e'|] eqn:He; simplify_eq/=.
    rewrite Forall_lookup in Hh. destruct (Hh _ _ He) as [-> ->]. done.
Qed.

(** *** What [getMultiple] resolves with *)

(** A settled call stays as it is. *)
Lemma Step_settled l s s' id c key hash now o :
  Step l s s' →
  tasks s !! id = Some (Fetch c key hash now (Settled o)) →
  tasks s' !! id = Some (Fetch c key hash now (Settled o)).
Proof.
  intros HS Hid.
  destruct HS;
    try (simpl; rewrite list_lookup_insert_ne; [done|]; intros ->; congruence).
  - match goal with H : fetch_call _ _ _ _ |- _ =>
      apply fetch_call_frame in H as (_ & (st & Ht & _) & _) end.
    rewrite Ht. by apply lookup_app_l_Some.
  - match goal with H : fetch_calls _ _ _ _ _ |- _ =>
      apply fetch_calls_frame in H as (_ & _ & (new & Ht & _) & _) end.
    simpl. rewrite Ht. by do 2 apply lookup_app_l_Some.
  - match goal with H : shrinkCache _ _ = _ |- _ =>
      apply shrinkCache_frame in H as (_ & _ & _ & _ & (new & Ht & _) & _) end.
    simpl. rewrite Ht. simpl.
    rewrite list_lookup_insert_ne by (apply lookup_lt_Some in Hid; lia).
    by do 2 apply lookup_app_l_Some.
  - done.
  - match goal with H : fetch_start _ _ _ _ _ _ _ |- _ =>
      apply fetch_start_frame in H as (Ht & _) end.
    simpl. rewrite Ht. rewrite list_lookup_insert_ne; [done|]. intros ->. congruence.
  - match goal with H : shrinkCache _ _ = _ |- _ =>
      apply shrinkCache_frame in H as (_ & _ & _ & _ & (new & Ht & _) & _) end.
    simpl. rewrite Ht. simpl. rewrite list_lookup_insert_ne by (intros ->; congruence).
    by apply lookup_app_l_Some.
Qed.

Lemma item_gave_step l s s' id kv : Step l s s' → item_gave s id kv → item_gave s' id kv.
Proof. intros HS (hash & now & Hid). exists hash, now. by eapply Step_settled. Qed.

Lemma item_failed_step l s s' e id :
  Step l s s' → item_failed s e id → item_failed s' e id.
Proof. intros HS (key & hash & now & Hid). exists key, hash, now. by eapply Step_settled. Qed.

Lemma promise_all_pairs s items keys rs kvs :
  order_ok s →
  Forall2 (is_item s false) items keys →
  promise_all (item_outcome s <$> items) = Some (Fulfilled rs) →
  mapM as_pair rs = Some kvs →
  Forall2 (item_gave s) items kvs.
Proof.
  intros [Hfetch _ _] Hitems Hall%promise_all_fulfilled Hm%mapM_Some.
  revert rs kvs Hall Hm.
  induction Hitems as [|id key items keys Hid _ IH]; intros rs kvs Hall Hm.
  - apply Forall2_nil_inv_l in Hall as ->. apply Forall2_nil_inv_l in Hm as ->.
    constructor.
  - rewrite fmap_cons in Hall.
    apply Forall2_cons_inv_l in Hall as (r & rs' & Hr & Hrs & ->).
    apply Forall2_cons_inv_l in Hm as (kv & kvs' & Hkv & Hkvs & ->).
    constructor; [|by eapply IH].
    destruct Hid as (hash & now & st & Ht).
    unfold item_outcome in Hr. rewrite Ht in Hr.
    destruct st; simplify_eq. pose proof (Hfetch _ _ _ _ _ _ Ht) as Hset.
    destruct r; simplify_eq/=. exists hash, now. done.
Qed.

Lemma Step_batch_ok l s s' : Step l s s' → order_ok s → batch_ok s → batch_ok s'.
Proof.
  intros HS Hord [Hpairs Hrej].
  assert (Hold : ∀ t keys items kvs,
    tasks s !! t = Some (Multi false keys items (MultiSettled (Fulfilled (RPairs kvs)))) →
    Forall2 (item_gave s') items kvs).
  { intros t keys items kvs Ht. eapply Forall2_impl; [by eapply Hpairs|].
    intros id kv. by apply (item_gave_step l). }
  assert (Hold' : ∀ t keys items e,
    tasks s !! t = Some (Multi false keys items (MultiSettled (Rejected e))) →
    Exists (item_failed s' e) items).
  { intros t keys items e Ht. eapply Exists_impl; [by eapply Hrej|].
    intros id. by apply (item_failed_step l). }
  assert (Hnew : ∀ t keys items rs kvs,
    tasks s !! t = Some (Multi false keys items AwaitAll) →
    promise_all (item_outcome s <$> items) = Some (Fulfilled rs) →
    mapM as_pair rs = Some kvs →
    Forall2 (item_gave s') items kvs).
  { intros t keys items rs kvs Ht Hall Hm.
    destruct (order_multi _ Hord _ _ _ _ _ Ht) as [Hitems _].
    eapply Forall2_impl; [by eapply promise_all_pairs|].
    intros id kv. by apply (item_gave_step l). }
  assert (Hnew' : ∀ t keys items e,
    tasks s !! t = Some (Multi false keys items AwaitAll) →
    promise_all (item_outcome s <$> items) = Some (Rejected e) →
    Exists (item_failed s' e) items).
  { intros t keys items e Ht Hall.
    destruct (order_multi _ Hord _ _ _ _ _ Ht) as [Hitems _].
    apply promise_all_rejected, list_elem_of_fmap in Hall as (id & Hid & Hin).
    apply Exists_exists. exists id. split; [done|].
    apply (item_failed_step l s s'); [done|].
    apply (Forall2_Forall_l _ (λ id, ∃ key hash now st,
             tasks s !! id = Some (Fetch Item key hash now st))) in Hitems.
    2:{ apply Forall_true. intros id' key (hash & now & st & ?). by eauto. }
    rewrite Forall_forall in Hitems.
    destruct (Hitems _ Hin) as (key & hash & now & st & Hfetch).
    unfold item_outcome in Hid. rewrite Hfetch in Hid.
    destruct st; simplify_eq/=. by exists key, hash, now. }
  clear Hpairs Hrej.
  split.
  - intros t0 keys0 items0 kvs0 H0.
    destruct HS;
      try (apply lookup_park in H0 as [[-> H0]|[_ H0]];
           [by simplify_eq/=|by eapply Hold]).
    + match goal with H : fetch_call _ _ _ _ |- _ =>
        apply fetch_call_frame in H as (_ & (st & Ht & _) & _) end.
      rewrite Ht in H0. apply lookup_app_Some in H0 as [H0|[_ H0]]; [by eapply Hold|].
      by apply list_lookup_singleton_Some in H0 as [_ ?].
    + match goal with H : fetch_calls _ _ _ _ _ |- _ =>
        apply fetch_calls_frame in H as (_ & _ & (new & Ht & Hnew0) & _) end.
      apply lookup_spawn in H0 as [[_ ?]|H0]; [done|].
      rewrite Ht in H0. apply lookup_app_Some in H0 as [H0|[_ H0]]; [by eapply Hold|].
      apply list_elem_of_lookup_2 in H0.
      apply (Forall2_Forall_r _ (λ tk, ∃ c key hash now st,
               tk = Fetch c key hash now st)) in Hnew0.
      * rewrite Forall_forall in Hnew0. by destruct (Hnew0 _ H0) as (? & ? & ? & ? & ? & ?).
      * apply Forall_true. intros key tk (now & st & ? & ?). by eauto 10.
    + match goal with H : shrinkCache _ _ = _ |- _ =>
        apply shrinkCache_frame in H as (_ & _ & _ & _ & (new & Ht & Hall) & _) end.
      apply lookup_park in H0 as [[_ ?]|[_ H0]]; [done|].
      rewrite Ht in H0. simpl in H0.
      apply (lookup_new_removal _ _ _ _ Hall) in H0 as [H0|[? ?]]; [|done].
      apply lookup_app_Some in H0 as [H0|[_ H0]]; [by eapply Hold|].
      by apply list_lookup_singleton_Some in H0 as [_ ?].
    + by eapply Hold.
    + match goal with H : fetch_start _ _ _ _ _ _ _ |- _ =>
        apply fetch_start_frame in H as (Ht & _) end.
      apply lookup_park in H0 as [[-> H0]|[_ H0]]; [done|].
      rewrite Ht in H0. by eapply Hold.
    + (* [Promise.all] resolves *)
      apply lookup_park in H0 as [[-> H0]|[_ H0]]; [|by eapply Hold].
      simplify_eq/=. by eapply Hnew.
    + match goal with H : shrinkCache _ _ = _ |- _ =>
        apply shrinkCache_frame in H as (_ & _ & _ & _ & (new & Ht & Hall) & _) end.
      apply lookup_park in H0 as [[-> H0]|[_ H0]]; [done|].
      rewrite Ht in H0. simpl in H0.
      apply (lookup_new_removal _ _ _ _ Hall) in H0 as [H0|[? ?]]; [|done].
      by eapply Hold.
  - intros t0 keys0 items0 e0 H0.
    destruct HS;
      try (apply lookup_park in H0 as [[-> H0]|[_ H0]];
           [by simplify_eq/=|by eapply Hold']).
    + match goal with H : fetch_call _ _ _ _ |- _ =>
        apply fetch_call_frame in H as (_ & (st & Ht & _) & _) end.
      rewrite Ht in H0. apply lookup_app_Some in H0 as [H0|[_ H0]]; [by eapply Hold'|].
      by apply list_lookup_singleton_Some in H0 as [_ ?].
    + match goal with H : fetch_calls _ _ _ _ _ |- _ =>
        apply fetch_calls_frame in H as (_ & _ & (new & Ht & Hnew0) & _) end.
      apply lookup_spawn in H0 as [[_ ?]|H0]; [done|].
      rewrite Ht in H0. apply lookup_app_Some in H0 as [H0|[_ H0]]; [by eapply Hold'|].
      apply list_elem_of_lookup_2 in H0.
      apply (Forall2_Forall_r _ (λ tk, ∃ c key hash now st,
               tk = Fetch c key hash now st)) in Hnew0.
      * rewrite Forall_forall in Hnew0. by destruct (Hnew0 _ H0) as (? & ? & ? & ? & ? & ?).
      * apply Forall_true. intros key tk (now & st & ? & ?). by eauto 10.
    + match goal with H : shrinkCache _ _ = _ |- _ =>
        apply shrinkCache_frame in H as (_ & _ & _ & _ & (new & Ht & Hall) & _) end.
      apply lookup_park in H0 as [[_ ?]|[_ H0]]; [done|].
      rewrite Ht in H0. simpl in H0.
      apply (lookup_new_removal _ _ _ _ Hall) in H0 as [H0|[? ?]]; [|done].
      apply lookup_app_Some in H0 as [H0|[_ H0]]; [by eapply Hold'|].
      by apply list_lookup_singleton_Some in H0 as [_ ?].
    + by eapply Hold'.
    + match goal with H : fetch_start _ _ _ _ _ _ _ |- _ =>
        apply fetch_start_frame in H as (Ht & _) end.
      apply lookup_park in H0 as [[-> H0]|[_ H0]]; [done|].
      rewrite Ht in H0. by eapply Hold'.
    + (* [Promise.all] rejects *)
      apply lookup_park in H0 as [[-> H0]|[_ H0]]; [|by eapply Hold'].
      simplify_eq/=. by eapply Hnew'.
    + match goal with H : shrinkCache _ _ = _ |- _ =>
        apply shrinkCache_frame in H as (_ & _ & _ & _ & (new & Ht & Hall) & _) end.
      apply lookup_park in H0 as [[-> H0]|[_ H0]]; [done|].
      rewrite Ht in H0. simpl in H0.
      apply (lookup_new_removal _ _ _ _ Hall) in H0 as [H0|[? ?]]; [|done].
      by eapply Hold'.
Qed.

(** X11: what [getMultiple] resolves with.  In every reachable state, the
    pairs a [getMultiple] has resolved with are, one by one and in order,
    the pairs its fetches resolved with, each under the key it was fetched
    for; and a [getMultiple] that is rejected carries the error one of its
    fetches was rejected with: it never resolves with a part of the
    results. *)
Theorem batch_values s t keys items :
  reachable s →
  (∀ kvs,
     tasks s !! t = Some (Multi false keys items (MultiSettled (Fulfilled (RPairs kvs)))) →
     kvs.*1 = keys ∧
     Forall2 (λ id kv, ∃ hash now,
        tasks s !! id
        = Some (Fetch Item kv.1 hash now (Settled (Fulfilled (RItem kv.1 kv.2)))))
       items kvs) ∧
  (∀ e,
     tasks s !! t = Some (Multi false keys items (MultiSettled (Rejected e))) →
     ∃ id key hash now, id ∈ items ∧
       tasks s !! id = Some (Fetch Item key hash now (Settled (Rejected e)))).
Proof.
  intros Hreach.
  assert (Hinv : batch_ok s).
  { revert s Hreach. apply reachable_invariant.
    - intros s0. unfold createCache. destruct (validateOptions _); [|done].
      intros [= <-]. split; intros t' ? ? ? Ht; simpl in Ht; by rewrite lookup_nil in Ht.
    - intros l s1 s2 Hr1 Hinv Hstep%step_Step.
      eapply Step_batch_ok; [done|by apply reachable_order_ok|done]. }
  destruct Hinv as [Hpairs Hrej]. split.
  - intros kvs Ht. split; [|by eapply Hpairs].
    by destruct (order_multi _ (reachable_order_ok _ Hreach) _ _ _ _ _ Ht) as [_ ?].
  - intros e Ht. apply Hrej, Exists_exists in Ht as (id & Hin & key & hash & now & Hid).
    by exists id, key, hash, now.
Qed.


(** *** Locks *)

Lemma sum_list_with_same {A} (f g : A → nat) (l : list A) :
  (∀ x, x ∈ l → f x = g x) → sum_list_with f l = sum_list_with g l.
Proof.
  induction l as [|x l IH]; intros H; simpl; [done|].
  rewrite (H x) by left. rewrite IH; [done|]. intros y Hy. apply H. by right.
Qed.

Lemma sum_list_with_zero {A} (f : A → nat) (l : list A) :
  (∀ x, x ∈ l → f x = 0) → sum_list_with f l = 0.
Proof.
  intros H. rewrite (sum_list_with_same f (λ _, 0) l H).
  clear H. induction l as [|x l IH]; simpl; [done|]. by rewrite IH.
Qed.

Lemma sum_list_with_plus {A} (f g : A → nat) (l : list A) :
  sum_list_with (λ x, f x + g x) l = sum_list_with f l + sum_list_with g l.
Proof. induction l as [|x l IH]; simpl; lia. Qed.

Lemma sum_list_with_le_one (w : task → nat) (ts : list task) :
  (∀ tk, tk ∈ ts → w tk ≤ 1) →
  (∀ i j x y, ts !! i = Some x → ts !! j = Some y → w x ≠ 0 → w y ≠ 0 → i = j) →
  sum_list_with w ts ≤ 1.
Proof.
  induction ts as [|tk ts IH]; intros Hle Huniq; simpl; [lia|].
  destruct (decide (w tk = 0)) as [Hz|Hnz].
  - rewrite Hz. apply IH.
    + intros x Hx. apply Hle. by right.
    + intros i j x y Hi Hj Hx Hy.
      by pose proof (Huniq (S i) (S j) x y Hi Hj Hx Hy) as [= ->].
  - assert (w tk ≤ 1) by (apply Hle; left).
    destruct (decide (sum_list_with w ts = 0)) as [->|Hsum]; [lia|].
    apply sum_list_with_pos in Hsum as (j & y & Hj & Hy).
    by pose proof (Huniq 0 (S j) tk y eq_refl Hj Hnz Hy).
Qed.

Lemma count_one_elem (t : nat) (l : list nat) :
  sum_list_with (λ id, if decide (id = t) then 1 else 0) l ≠ 0 → t ∈ l.
Proof.
  induction l as [|x l IH]; simpl; [done|].
  case_decide as Hx; [subst; by left|]. intros H. right. apply IH. lia.
Qed.

Lemma count_one_NoDup (t : nat) (l : list nat) :
  NoDup l → sum_list_with (λ id, if decide (id = t) then 1 else 0) l ≤ 1.
Proof.
  induction 1 as [|x l Hx _ IH]; simpl; [lia|].
  case_decide as Hd; [|lia]. subst.
  destruct (decide (sum_list_with (λ id, if decide (id = t) then 1 else 0) l = 0))
    as [->|Hn]; [lia|].
  by apply count_one_elem in Hn.
Qed.

Lemma item_lock_insert_same r (ts : list task) t x old id :
  ts !! t = Some old → item_lock r (Some x) = item_lock r (Some old) →
  item_lock r (<[t:=x]> ts !! id) = item_lock r (ts !! id).
Proof.
  intros Ht Heq. destruct (decide (id = t)) as [->|Hne].
  - rewrite list_lookup_insert_eq by (by eapply lookup_lt_Some). by rewrite Ht.
  - by rewrite list_lookup_insert_ne.
Qed.

Lemma item_lock_app r (ts new : list task) id :
  Forall (λ tk, item_lock r (Some tk) = 0) new →
  item_lock r ((ts ++ new) !! id) = item_lock r (ts !! id).
Proof.
  intros Hnew. destruct (ts !! id) as [tk|] eqn:Hid.
  - by rewrite (lookup_app_l_Some _ _ _ _ Hid).
  - destruct ((ts ++ new) !! id) as [tk|] eqn:Hid'; [|done].
    apply lookup_app_Some in Hid' as [?|[_ Hid']]; [congruence|].
    rewrite Forall_forall in Hnew. apply Hnew. by eapply list_elem_of_lookup_2.
Qed.

Lemma batch_locks_same r (ts ts' : list task) tk :
  (∀ id, item_lock r (ts' !! id) = item_lock r (ts !! id)) →
  batch_locks r ts' tk = batch_locks r ts tk.
Proof.
  intros Heq. destruct tk as [|[] keys items st| |]; simpl; try done.
  destruct (released st); [done|]. apply sum_list_with_same. intros id _. apply Heq.
Qed.

Lemma item_lock_insert_one r (ts : list task) t x old id :
  ts !! t = Some old → item_lock r (Some old) = 0 → item_lock r (Some x) = 1 →
  item_lock r (<[t:=x]> ts !! id)
  = item_lock r (ts !! id) + (if decide (id = t) then 1 else 0).
Proof.
  intros Ht Hold Hx. case_decide as Hd.
  - subst. rewrite list_lookup_insert_eq by (by eapply lookup_lt_Some).
    rewrite Ht, Hold, Hx. done.
  - rewrite list_lookup_insert_ne by done. lia.
Qed.

Lemma batch_locks_insert_one r (ts : list task) t x old tk :
  ts !! t = Some old → item_lock r (Some old) = 0 → item_lock r (Some x) = 1 →
  batch_locks r (<[t:=x]> ts) tk = batch_locks r ts tk + owns t tk.
Proof.
  intros Ht Hold Hx.
  destruct tk as [|[] keys items st| |]; simpl; try lia.
  destruct (released st); [lia|].
  rewrite <-sum_list_with_plus. apply sum_list_with_same. intros id _.
  by eapply item_lock_insert_one.
Qed.

Lemma locks_of_app r (ts new : list task) :
  Forall (λ tk, holds_lock r tk = 0 ∧ item_lock r (Some tk) = 0 ∧
                ∀ lock keys items st, tk = Multi lock keys items st →
                  Forall (λ id, length ts ≤ id) items) new →
  locks_of r (ts ++ new) = locks_of r ts.
Proof.
  intros Hnew. unfold locks_of. rewrite !sum_list_with_app.
  assert (Hitem : Forall (λ tk, item_lock r (Some tk) = 0) new).
  { eapply Forall_impl; [exact Hnew|]. by intros tk (_ & ? & _). }
  rewrite (sum_list_with_zero (holds_lock r) new).
  2:{ rewrite Forall_forall in Hnew. intros tk Htk. by apply Hnew. }
  rewrite (sum_list_with_zero (batch_locks r (ts ++ new)) new).
  2:{ rewrite Forall_forall in Hnew. intros tk Htk.
      destruct (Hnew _ Htk) as (_ & _ & Hm).
      destruct tk as [|[] keys items st| |]; simpl; try done.
      destruct (released st); [done|].
      specialize (Hm _ _ _ _ eq_refl). rewrite Forall_forall in Hm.
      apply sum_list_with_zero. intros id Hid%Hm.
      rewrite (item_lock_app r ts new id Hitem).
      by rewrite (lookup_ge_None_2 ts id). }
  rewrite (sum_list_with_same (batch_locks r (ts ++ new)) (batch_locks r ts) ts); [lia|].
  intros tk _. apply batch_locks_same. intros id. by apply item_lock_app.
Qed.

Lemma locks_of_insert r (ts : list task) t old x :
  ts !! t = Some old → item_lock r (Some x) = item_lock r (Some old) →
  locks_of r (<[t:=x]> ts) + holds_lock r old + batch_locks r ts old
  = locks_of r ts + holds_lock r x + batch_locks r ts x.
Proof.
  intros Ht Heq. unfold locks_of.
  pose proof (sum_insert (holds_lock r) ts t x old Ht).
  pose proof (sum_insert (batch_locks r ts) ts t x old Ht).
  rewrite (sum_list_with_same (batch_locks r (<[t:=x]> ts)) (batch_locks r ts)); [lia|].
  intros tk _. apply batch_locks_same. intros id.
  by eapply item_lock_insert_same.
Qed.

Lemma locks_of_item r (ts : list task) t old x :
  ts !! t = Some old → holds_lock r x = holds_lock r old →
  (∀ ts', batch_locks r ts' old = 0) → (∀ ts', batch_locks r ts' x = 0) →
  item_lock r (Some old) = 0 → item_lock r (Some x) = 1 →
  sum_list_with (owns t) ts = 1 →
  locks_of r (<[t:=x]> ts) = locks_of r ts + 1.
Proof.
  intros Ht Hh Hold Hx Hi Hi' Hown. unfold locks_of.
  pose proof (sum_insert (holds_lock r) ts t x old Ht).
  pose proof (sum_insert (batch_locks r (<[t:=x]> ts)) ts t x old Ht) as Hb.
  rewrite Hold, Hx in Hb.
  assert (sum_list_with (batch_locks r (<[t:=x]> ts)) ts
          = sum_list_with (batch_locks r ts) ts + sum_list_with (owns t) ts); [|lia].
  rewrite <-sum_list_with_plus. apply sum_list_with_same. intros tk _.
  by eapply batch_locks_insert_one.
Qed.

Lemma locked_alter_timestamp (h : list (CachedValue V)) now r0 r e :
  alter (set_timestamp now) r0 h !! r = Some e →
  ∃ e0, h !! r = Some e0 ∧ locked e = locked e0.
Proof.
  rewrite list_lookup_alter. case_decide.
  - subst. intros (e0 & H0 & ->)%fmap_Some. exists e0. by split.
  - intros He. exists e. by split.
Qed.

Lemma locked_alter_add (h : list (CachedValue V)) d r0 r e :
  alter (add_locked d) r0 h !! r = Some e →
  ∃ e0, h !! r = Some e0 ∧
        locked e = (locked e0 + if decide (r = r0) then d else 0)%Z.
Proof.
  rewrite list_lookup_alter. destruct (decide (r0 = r)), (decide (r = r0)); try congruence.
  - subst. intros (e0 & H0 & ->)%fmap_Some. exists e0. by split.
  - intros He. exists e. split; [done|lia].
Qed.

Lemma unlock_all_locked kcs (h : list (CachedValue V)) r e :
  unlock_all kcs h !! r = Some e →
  ∃ e0, h !! r = Some e0 ∧
        locked e
        = (locked e0
           - Z.of_nat (sum_list_with
                         (λ kc : K * nat, if decide (kc.2 = r) then 1%nat else 0%nat) kcs))%Z.
Proof.
  unfold unlock_all. revert h e.
  induction kcs as [|kc kcs IH]; intros h e He; simpl in *.
  - exists e. split; [done|lia].
  - destruct (IH _ _ He) as (e1 & H1 & Hl).
    apply locked_alter_add in H1 as (e0 & H0 & Hl0).
    exists e0. split; [done|]. rewrite Hl, Hl0.
    destruct (decide (r = kc.2)), (decide (kc.2 = r)); try congruence; lia.
Qed.

Lemma fetch_start_locked t s key hash now s1 st r e :
  fetch_start t s key hash now s1 st → heap s1 !! r = Some e →
  ∃ e0, heap s !! r = Some e0 ∧ locked e = locked e0.
Proof.
  destruct 1; simpl; intros He; try (by exists e).
  by eapply locked_alter_timestamp.
Qed.

Lemma fetch_call_locked c key s s' r e :
  fetch_call c key s s' → heap s' !! r = Some e →
  ∃ e0, heap s !! r = Some e0 ∧ locked e = locked e0.
Proof. destruct 1 as [s1 st _ Hs]. simpl. by apply (fetch_start_locked _ _ _ _ _ _ _ _ _ Hs). Qed.

Lemma fetch_calls_locked c keys s s' ids r e :
  fetch_calls c keys s s' ids → heap s' !! r = Some e →
  ∃ e0, heap s !! r = Some e0 ∧ locked e = locked e0.
Proof.
  intros H. revert e. induction H as [s|key keys s s1 s2 ids H1 _ IH]; intros e He.
  - by exists e.
  - destruct (IH _ He) as (e1 & He1 & Hl1).
    destruct (fetch_call_locked _ _ _ _ _ _ H1 He1) as (e0 & He0 & Hl0).
    exists e0. split; [done|congruence].
Qed.

Lemma item_locked_count s items kcs r :
  Forall2 (item_locked s) items kcs →
  sum_list_with (λ id, item_lock r (tasks s !! id)) items
  = sum_list_with (λ kc : K * nat, if decide (kc.2 = r) then 1 else 0) kcs.
Proof.
  induction 1 as [|id kc items kcs (key & hash & now & Hid) _ IH]; simpl; [done|].
  rewrite Hid, IH. done.
Qed.

(** No fetch is an item of two batches. *)
Lemma owns_le_one s t :
  order_ok s →
  (∀ m lock keys items st,
     tasks s !! m = Some (Multi lock keys items st) →
     items = seq (m - length items) (length items) ∧ length items ≤ m) →
  sum_list_with (owns t) (tasks s) ≤ 1.
Proof.
  intros Hord Hitems.
  assert (Hlt : ∀ i j lock keys items st lock' keys' items' st',
    tasks s !! i = Some (Multi lock keys items st) →
    tasks s !! j = Some (Multi lock' keys' items' st') →
    t ∈ items → t ∈ items' → ¬ i < j).
  { intros i j lock keys items st lock' keys' items' st' Hi Hj Hin Hin' Hij.
    destruct (Hitems _ _ _ _ _ Hi) as [Hseq Hlen].
    destruct (Hitems _ _ _ _ _ Hj) as [Hseq' Hlen'].
    rewrite Hseq in Hin. rewrite Hseq' in Hin'.
    apply elem_of_seq in Hin, Hin'.
    assert (Hi' : i ∈ items') by (rewrite Hseq'; apply elem_of_seq; lia).
    destruct (order_multi _ Hord _ _ _ _ _ Hj) as [Hfetch _].
    apply list_elem_of_lookup_1 in Hi' as [n Hn].
    destruct (Forall2_lookup_l _ _ _ _ _ Hfetch Hn) as (key & _ & hash & now & st0 & Hf).
    congruence. }
  apply sum_list_with_le_one.
  - intros tk [m Hm]%list_elem_of_lookup_1.
    destruct tk as [|[] keys items st| |]; simpl; try lia.
    destruct (released st); [lia|].
    destruct (Hitems _ _ _ _ _ Hm) as [-> _]. apply count_one_NoDup, NoDup_seq.
  - intros i j x y Hi Hj Hx Hy.
    destruct x as [|[] keys items st| |]; try done.
    destruct y as [|[] keys' items' st'| |]; try done.
    simpl in Hx, Hy. destruct (released st), (released st'); try done.
    apply count_one_elem in Hx, Hy.
    pose proof (Hlt _ _ _ _ _ _ _ _ _ _ Hi Hj Hx Hy).
    pose proof (Hlt _ _ _ _ _ _ _ _ _ _ Hj Hi Hy Hx). lia.
Qed.

Lemma Step_lock_items l s s' :
  Step l s s' →
  (∀ m lock keys items st,
     tasks s !! m = Some (Multi lock keys items st) →
     items = seq (m - length items) (length items) ∧ length items ≤ m) →
  ∀ m lock keys items st,
    tasks s' !! m = Some (Multi lock keys items st) →
    items = seq (m - length items) (length items) ∧ length items ≤ m.
Proof.
  intros HS Hinv t0 lock0 keys0 items0 st0 H0.
  destruct HS;
    try (apply lookup_park in H0 as [[-> H0]|[_ H0]];
         [simplify_eq/=; by eapply Hinv | by eapply Hinv]).
  - match goal with H : fetch_call _ _ _ _ |- _ =>
      apply fetch_call_frame in H as (_ & (st & Ht & Hst) & _) end.
    rewrite Ht in H0. apply lookup_app_Some in H0 as [H0|[_ H0]]; [by eapply Hinv|].
    by apply list_lookup_singleton_Some in H0 as [_ ?].
  - match goal with H : fetch_calls _ _ _ _ _ |- _ =>
      apply fetch_calls_frame in H as (_ & -> & (new & Ht & Hnew) & _) end.
    apply lookup_spawn in H0 as [[-> H0]|H0].
    + simplify_eq. rewrite length_seq, Ht, length_app, <-(Forall2_length _ _ _ Hnew).
      split; [f_equal; lia|lia].
    + rewrite Ht in H0. apply lookup_app_Some in H0 as [H0|[_ H0]]; [by eapply Hinv|].
      apply list_elem_of_lookup_2 in H0.
      apply (Forall2_Forall_r _ (λ tk, ∃ c key hash now st,
               tk = Fetch c key hash now st)) in Hnew.
      * rewrite Forall_forall in Hnew. by destruct (Hnew _ H0) as (? & ? & ? & ? & ? & ?).
      * apply Forall_true. intros key tk (now & st & ? & ?). by eauto 10.
  - match goal with H : shrinkCache _ _ = _ |- _ =>
      apply shrinkCache_frame in H as (_ & _ & _ & _ & (new & Hnew & Hall) & _) end.
    apply lookup_park in H0 as [[_ ?]|[_ H0]]; [done|].
    rewrite Hnew in H0. simpl in H0.
    apply (lookup_new_removal _ _ _ _ Hall) in H0 as [H0|[? ?]]; [|done].
    apply lookup_app_Some in H0 as [H0|[_ H0]]; [by eapply Hinv|].
    by apply list_lookup_singleton_Some in H0 as [_ ?].
  - by eapply Hinv.
  - match goal with H : fetch_start _ _ _ _ _ _ _ |- _ =>
      apply fetch_start_frame in H as (Ht & _) end.
    apply lookup_park in H0 as [[-> H0]|[_ H0]]; [done|].
    rewrite Ht in H0. by eapply Hinv.
  - match goal with H : shrinkCache _ _ = _ |- _ =>
      apply shrinkCache_frame in H as (_ & _ & _ & _ & (new & Hnew & Hall) & _) end.
    apply lookup_park in H0 as [[-> H0]|[_ H0]]; [done|].
    rewrite Hnew in H0. simpl in H0.
    apply (lookup_new_removal _ _ _ _ Hall) in H0 as [H0|[? ?]]; [|done].
    by eapply Hinv.
Qed.

Lemma item_locked_step l s s' id kc :
  Step l s s' → item_locked s id kc → item_locked s' id kc.
Proof. intros HS (key & hash & now & Hid). exists key, hash, now. by eapply Step_settled. Qed.

Lemma promise_all_locked s items keys rs kcs :
  order_ok s →
  Forall2 (is_item s true) items keys →
  promise_all (item_outcome s <$> items) = Some (Fulfilled rs) →
  mapM as_locked rs = Some kcs →
  Forall2 (item_locked s) items kcs.
Proof.
  intros [Hfetch _ _] Hitems Hall%promise_all_fulfilled Hm%mapM_Some.
  revert rs kcs Hall Hm.
  induction Hitems as [|id key items keys Hid _ IH]; intros rs kcs Hall Hm.
  - apply Forall2_nil_inv_l in Hall as ->. apply Forall2_nil_inv_l in Hm as ->.
    constructor.
  - rewrite fmap_cons in Hall.
    apply Forall2_cons_inv_l in Hall as (r & rs' & Hr & Hrs & ->).
    apply Forall2_cons_inv_l in Hm as (kc & kcs' & Hkc & Hkcs & ->).
    constructor; [|by eapply IH].
    destruct Hid as (hash & now & st & Ht).
    unfold item_outcome in Hr. rewrite Ht in Hr.
    destruct st; simplify_eq.
    destruct r; simplify_eq/=. by exists key, hash, now.
Qed.

Lemma Step_lock_batch l s s' :
  Step l s s' → order_ok s →
  (∀ m keys items kcs,
     tasks s !! m = Some (Multi true keys items (AwaitTransformerAll kcs)) →
     Forall2 (item_locked s) items kcs) →
  ∀ m keys items kcs,
    tasks s' !! m = Some (Multi true keys items (AwaitTransformerAll kcs)) →
    Forall2 (item_locked s') items kcs.
Proof.
  intros HS Hord Hinv.
  assert (Hold : ∀ m keys items kcs,
    tasks s !! m = Some (Multi true keys items (AwaitTransformerAll kcs)) →
    Forall2 (item_locked s') items kcs).
  { intros m keys items kcs Hm. eapply Forall2_impl; [by eapply Hinv|].
    intros id kc. by apply (item_locked_step l). }
  assert (Hnew : ∀ t keys items rs kcs,
    tasks s !! t = Some (Multi true keys items AwaitAll) →
    promise_all (item_outcome s <$> items) = Some (Fulfilled rs) →
    mapM as_locked rs = Some kcs →
    Forall2 (item_locked s') items kcs).
  { intros t keys items rs kcs Ht Hall Hm.
    destruct (order_multi _ Hord _ _ _ _ _ Ht) as [Hitems _].
    eapply Forall2_impl; [by eapply promise_all_locked|].
    intros id kc. by apply (item_locked_step l). }
  clear Hinv.
  intros t0 keys0 items0 kcs0 H0.
  destruct HS;
    try (apply lookup_park in H0 as [[-> H0]|[_ H0]];
         [by simplify_eq/=|by eapply Hold]).
  - match goal with H : fetch_call _ _ _ _ |- _ =>
      apply fetch_call_frame in H as (_ & (st & Ht & _) & _) end.
    rewrite Ht in H0. apply lookup_app_Some in H0 as [H0|[_ H0]]; [by eapply Hold|].
    by apply list_lookup_singleton_Some in H0 as [_ ?].
  - match goal with H : fetch_calls _ _ _ _ _ |- _ =>
      apply fetch_calls_frame in H as (_ & _ & (new & Ht & Hnew0) & _) end.
    apply lookup_spawn in H0 as [[_ ?]|H0]; [done|].
    rewrite Ht in H0. apply lookup_app_Some in H0 as [H0|[_ H0]]; [by eapply Hold|].
    apply list_elem_of_lookup_2 in H0.
    apply (Forall2_Forall_r _ (λ tk, ∃ c key hash now st,
             tk = Fetch c key hash now st)) in Hnew0.
    + rewrite Forall_forall in Hnew0. by destruct (Hnew0 _ H0) as (? & ? & ? & ? & ? & ?).
    + apply Forall_true. intros key tk (now & st & ? & ?). by eauto 10.
  - match goal with H : shrinkCache _ _ = _ |- _ =>
      apply shrinkCache_frame in H as (_ & _ & _ & _ & (new & Ht & Hall) & _) end.
    apply lookup_park in H0 as [[_ ?]|[_ H0]]; [done|].
    rewrite Ht in H0. simpl in H0.
    apply (lookup_new_removal _ _ _ _ Hall) in H0 as [H0|[? ?]]; [|done].
    apply lookup_app_Some in H0 as [H0|[_ H0]]; [by eapply Hold|].
    by apply list_lookup_singleton_Some in H0 as [_ ?].
  - by eapply Hold.
  - match goal with H : fetch_start _ _ _ _ _ _ _ |- _ =>
      apply fetch_start_frame in H as (Ht & _) end.
    apply lookup_park in H0 as [[-> H0]|[_ H0]]; [done|].
    rewrite Ht in H0. by eapply Hold.
  - (* [Promise.all] resolves *)
    apply lookup_park in H0 as [[-> H0]|[_ H0]]; [|by eapply Hold].
    simplify_eq/=. by eapply Hnew.
  - match goal with H : shrinkCache _ _ = _ |- _ =>
      apply shrinkCache_frame in H as (_ & _ & _ & _ & (new & Ht & Hall) & _) end.
    apply lookup_park in H0 as [[-> H0]|[_ H0]]; [done|].
    rewrite Ht in H0. simpl in H0.
    apply (lookup_new_removal _ _ _ _ Hall) in H0 as [H0|[? ?]]; [|done].
    by eapply Hold.
Qed.

Lemma locks_out_of_range s r : live_ok s → length (heap s) ≤ r → locks r s = 0.
Proof.
  intros Hlive Hr. unfold locks, locks_of.
  assert (Hitem : ∀ id, item_lock r (tasks s !! id) = 0).
  { intros id. destruct (tasks s !! id) as [tk|] eqn:Hid; [|done].
    destruct tk as [c key hash now st| | |]; try done.
    destruct c, st as [| | | | | |o]; try done.
    destruct o as [res|]; [|done]. destruct res as [| |k r'| |]; try done.
    pose proof (live_held _ Hlive _ _ _ _ _ _ r' Hid eq_refl).
    simpl. case_decide; [lia|done]. }
  rewrite !sum_list_with_zero; [done| |].
  - intros tk _. destruct tk as [|[] keys items st| |]; simpl; try done.
    destruct (released st); [done|]. apply sum_list_with_zero. intros id _. apply Hitem.
  - intros tk [t Ht]%list_elem_of_lookup_1.
    destruct tk as [c key hash now st| | |]; try done.
    destruct c, st; try done.
    pose proof (live_held _ Hlive _ _ _ _ _ _ r0 Ht eq_refl).
    simpl. case_decide; [lia|done].
Qed.

Lemma locks_park s s1 t x old new r :
  tasks s1 = tasks s ++ new → Forall parked_removal new →
  tasks s !! t = Some old →
  item_lock r (Some x) = item_lock r (Some old) →
  (∀ ts, holds_lock r x + batch_locks r ts x = holds_lock r old + batch_locks r ts old) →
  locks r (park t x s1) = locks r s.
Proof.
  intros Hs1 Hnew Ht Heq Hle. unfold locks. simpl. rewrite Hs1.
  pose proof (locks_of_app r (tasks s) new) as Happ.
  pose proof (locks_of_insert r (tasks s ++ new) t old x
                (lookup_app_l_Some _ _ _ _ Ht) Heq).
  specialize (Hle (tasks s ++ new)).
  rewrite Happ in *; [lia|].
  eapply Forall_impl; [exact Hnew|]. by intros tk [hash ->].
Qed.

Lemma starting_locks r c key hash now (st : fetch) :
  starting st →
  holds_lock r (Fetch c key hash now st) = 0 ∧
  item_lock r (Some (Fetch c key hash now st)) = 0.
Proof. destruct c, st as [| | | |[]| |]; done. Qed.

Lemma all_rejected_clean s t lock keys items e :
  order_ok s → (∀ t tk, tasks s !! t = Some tk → task_clean tk) →
  tasks s !! t = Some (Multi lock keys items AwaitAll) →
  promise_all (item_outcome s <$> items) = Some (Rejected e) →
  e ≠ TransformerError.
Proof.
  intros Hord Hclean Ht Hall.
  apply promise_all_rejected, list_elem_of_fmap in Hall as (id & Hid & Hin).
  destruct (order_multi _ Hord _ _ _ _ _ Ht) as [Hitems _].
  apply (Forall2_Forall_l _ (λ id, ∃ key hash now st,
           tasks s !! id = Some (Fetch (item_caller lock) key hash now st))) in Hitems.
  2:{ apply Forall_true. intros id' key (hash & now & st & ?). by eauto. }
  rewrite Forall_forall in Hitems.
  destruct (Hitems _ Hin) as (key & hash & now & st & Hfetch).
  unfold item_outcome in Hid. rewrite Hfetch in Hid.
  destruct st; simplify_eq/=.
  pose proof (Hclean _ _ Hfetch) as Hs. simpl in Hs.
  destruct Hs as [?|?]; [by destruct lock|done].
Qed.

Lemma owns_one s t key hash now st :
  order_ok s → lock_ok s →
  tasks s !! t = Some (Fetch ItemLock key hash now st) → (∀ o, st ≠ Settled o) →
  sum_list_with (owns t) (tasks s) = 1.
Proof.
  intros Hord [_ Hitems _ Howner Hpassed] Ht Hst.
  pose proof (owns_le_one s t Hord Hitems).
  destruct (Howner _ _ _ _ _ Ht) as (m & keys & items & mst & Hm & Hin).
  pose proof (weight_lookup (owns t) _ _ _ Hm) as Hw. simpl in Hw.
  destruct (released mst) eqn:Hrel.
  - pose proof (Hpassed _ _ _ _ Hm Hrel) as Hall. rewrite Forall_forall in Hall.
    destruct (Hall _ Hin) as (c' & key' & hash' & now' & o & Ht').
    rewrite Ht in Ht'. injection Ht' as _ _ _ _ ->. by destruct (Hst o).
  - pose proof (sum_list_with_in _ (λ id, if decide (id = t) then 1 else 0) _ Hin) as Hi.
    simpl in Hi. rewrite decide_True in Hi by done. lia.
Qed.

Lemma Step_lock_count l s s' :
  Step l s s' → live_ok s → order_ok s →
  (∀ t tk, tasks s !! t = Some tk → task_clean tk) → lock_ok s →
  ∀ r e, heap s' !! r = Some e → locked e = Z.of_nat (locks r s').
Proof.
  intros HS Hlive Hord Hclean Hlock r e He.
  pose proof Hlock as [Hcount Hitems Hbatch Howner Hpassed].
  destruct HS;
    try (match goal with
         | Ht : tasks ?s !! ?t = Some ?old |- context [park ?t ?X ?s1] =>
             assert (locks r (park t X s1) = locks r s) by
               (apply (locks_park s s1 t X old []);
                [simpl; by rewrite app_nil_r|constructor|done
                |simpl; by repeat case_match
                |intros; simpl; repeat case_match; lia])
         end;
         simpl in He; specialize (Hcount _ _ He); lia).
  - (* a call *)
    match goal with H : fetch_call _ _ _ _ |- _ =>
      destruct (fetch_call_locked _ _ _ _ _ _ H He) as (ex & Hex & ->);
      apply fetch_call_frame in H as (_ & (st & Ht & Hst) & _) end.
    unfold locks. rewrite Ht, locks_of_app; [by apply Hcount|].
    constructor; [|done].
    destruct (starting_locks r c key (hasher key) (clock (reads s)) st Hst).
    by split_and!.
  - (* a batch *)
    match goal with H : fetch_calls _ _ _ _ _ |- _ =>
      destruct (fetch_calls_locked _ _ _ _ _ _ _ H He) as (ex & Hex & ->);
      apply fetch_calls_frame in H as (_ & -> & (new & Ht & Hnew) & _) end.
    unfold locks. simpl. rewrite Ht, <-app_assoc, locks_of_app; [by apply Hcount|].
    apply Forall_app. split.
    + apply (Forall2_Forall_r _ (λ tk, ∃ c key hash now st,
               tk = Fetch c key hash now st ∧ starting st)) in Hnew.
      * eapply Forall_impl; [exact Hnew|].
        intros tk (c & key & hash & now & st & -> & Hst).
        destruct (starting_locks r c key hash now st Hst). by split_and!.
      * apply Forall_true. intros key tk (now & st & ? & ?). by eauto 10.
    + constructor; [|done]. split_and!; [done..|].
      intros ? ? items ? [= _ _ <- _]. apply Forall_forall.
      intros id Hid%elem_of_seq. lia.
  - (* the timer fires *)
    match goal with H : shrinkCache _ _ = _ |- _ =>
      apply shrinkCache_frame in H as (Hheap & _ & _ & _ & (new & Hnew & Hall) & _) end.
    simpl in He. rewrite Hheap in He. simpl in He, Hnew.
    set (s0 := spawn (Scheduled (ShrinkSettled (Fulfilled ()))) s).
    assert (locks r (park (length (tasks s)) (Scheduled sh) s1) = locks r s0).
    { apply (locks_park s0 s1 _ _ (Scheduled (ShrinkSettled (Fulfilled ()))) new);
        [done|done| |done|done].
      simpl. by apply list_lookup_middle. }
    assert (locks r s0 = locks r s).
    { unfold locks. simpl. apply locks_of_app. by repeat constructor. }
    specialize (Hcount _ _ He). lia.
  - (* a poll *)
    by apply Hcount.
  - (* a retry *)
    match goal with H : fetch_start _ _ _ _ _ _ _ |- _ =>
      destruct (fetch_start_locked _ _ _ _ _ _ _ _ _ H He) as (ex & Hex & ->);
      apply fetch_start_frame in H as (Ht & _ & _ & _ & _ & Hst & _) end.
    destruct (starting_locks r c key hash now st Hst) as [Hh Hi].
    match goal with
    | Hold : tasks ?s !! ?t = Some ?old |- context [park ?t ?X ?s1] =>
        assert (locks r (park t X s1) = locks r s)
    end.
    { eapply (locks_park _ _ _ _ _ []); [by rewrite app_nil_r|constructor|done| |].
      - rewrite Hi. by destruct c.
      - intros ts. rewrite Hh. by destruct c. }
    specialize (Hcount _ _ Hex). lia.
  - (* a hit after the wait *)
    simpl in He. apply locked_alter_timestamp in He as (ex & Hex & ->).
    match goal with
    | Hold : tasks ?s !! ?t = Some ?old |- context [park ?t ?X ?s1] =>
        assert (locks r (park t X s1) = locks r s)
    end.
    { eapply (locks_park _ _ _ _ _ []); [by rewrite app_nil_r|constructor|done| |].
      - by destruct c.
      - intros ts. by destruct c. }
    specialize (Hcount _ _ Hex). lia.
  - (* [getWith] locks *)
    simpl in He. apply locked_alter_add in He as (ex & Hex & ->).
    match goal with
    | Hold : tasks ?s !! ?t = Some ?old |- context [park ?t ?X ?s1] =>
        pose proof (locks_of_insert r (tasks s) t old X Hold eq_refl) as Hins
    end.
    specialize (Hcount _ _ Hex). unfold locks in *. simpl in *.
    destruct (decide (r0 = r)), (decide (r = r0)); try congruence; lia.
  - (* an item of [getMultipleWith] locks *)
    simpl in He. apply locked_alter_add in He as (ex & Hex & ->).
    specialize (Hcount _ _ Hex).
    destruct (decide (r = r0)) as [->|Hne].
    + match goal with
      | Hold : tasks ?s !! ?t = Some ?old |- context [park ?t ?X ?s1] =>
          pose proof (locks_of_item r0 (tasks s) t old X Hold eq_refl
                        (λ _, eq_refl) (λ _, eq_refl) eq_refl) as Hone;
          pose proof (owns_one s t _ _ _ _ Hord Hlock Hold) as Hown
      end.
      simpl in Hone. rewrite decide_True in Hone by done.
      specialize (Hone eq_refl (Hown ltac:(done))).
      unfold locks in *. simpl in *. lia.
    + match goal with
      | Hold : tasks ?s !! ?t = Some ?old |- context [park ?t ?X ?s1] =>
          assert (locks r (park t X s1) = locks r s)
      end.
      { eapply (locks_park _ _ _ _ _ []); [by rewrite app_nil_r|constructor|done| |].
        - simpl. by case_decide.
        - intros ts. simpl. lia. }
      lia.
  - (* [Promise.all] rejects *)
    match goal with
    | Hold : tasks ?s !! ?t = Some ?old, Hp : promise_all _ = _
      |- context [park ?t ?X ?s1] =>
        pose proof (all_rejected_clean _ _ _ _ _ _ Hord Hclean Hold Hp) as Herr;
        assert (locks r (park t X s1) = locks r s)
    end.
    { eapply (locks_park _ _ _ _ _ []); [by rewrite app_nil_r|constructor|done|done|].
      intros ts. simpl. by destruct lock, e0. }
    simpl in He. specialize (Hcount _ _ He). lia.
  - (* the factory resolves *)
    match goal with H : shrinkCache _ _ = _ |- _ =>
      apply shrinkCache_frame in H as (Hheap & _ & _ & _ & (new & Hnew & Hall) & _) end.
    simpl in He. rewrite Hheap in He. simpl in He, Hnew.
    match goal with
    | Hold : tasks ?s !! ?t = Some ?old |- context [park ?t ?X ?s1] =>
        assert (locks r (park t X s1) = locks r s)
    end.
    { eapply (locks_park _ _ _ _ _ new); [done|done|done| |].
      - by destruct c.
      - intros ts. by destruct c. }
    apply lookup_app_Some in He as [He|[Hlen He]].
    + specialize (Hcount _ _ He). lia.
    + pose proof (locks_out_of_range s r Hlive Hlen).
      apply list_lookup_singleton_Some in He as [_ <-]. simpl. lia.
  - (* the transformer of [getWith] settles *)
    simpl in He. apply locked_alter_add in He as (ex & Hex & ->).
    match goal with
    | Hold : tasks ?s !! ?t = Some ?old |- context [park ?t ?X ?s1] =>
        pose proof (locks_of_insert r (tasks s) t old X Hold eq_refl) as Hins
    end.
    specialize (Hcount _ _ Hex). unfold locks in *. simpl in *.
    destruct (decide (r0 = r)), (decide (r = r0)); try congruence; lia.
  - (* the transformer of [getMultipleWith] settles *)
    simpl in He. apply unlock_all_locked in He as (ex & Hex & ->).
    match goal with
    | Hold : tasks ?s !! ?t = Some ?old |- context [park ?t ?X ?s1] =>
        pose proof (locks_of_insert r (tasks s) t old X Hold eq_refl) as Hins;
        pose proof (item_locked_count s _ _ r (Hbatch _ _ _ _ Hold)) as Hn
    end.
    specialize (Hcount _ _ Hex). unfold locks in *. simpl in *.
    assert (released (MultiSettled o) = true) as Hrel.
    { destruct l; simplify_eq/=; done. }
    simpl in Hrel. rewrite Hrel in Hins. lia.
Qed.

Lemma starting_clean c key hash now (st : fetch) :
  starting st → task_clean (Fetch c key hash now st).
Proof. destruct st as [| | | |[]| |]; done. Qed.

Lemma shrinkCache_clean s now s' sh c key hash now' r :
  shrinkCache s now = (s', sh) →
  task_clean (Fetch c key hash now' (AwaitShrink r sh) : task).
Proof.
  unfold shrinkCache, trim.
  destruct (shrinkLock s); [by intros [= _ <-]|].
  destruct (_ || _); [|by intros [= _ <-]].
  destruct (remove_candidates _ _) as [[s1 ids] failed]. by intros [= _ <-].
Qed.

Lemma trim_settles_clean s cs failed o :
  trim_settles s cs failed = Some o → o ≠ Rejected TransformerError.
Proof.
  unfold trim_settles. destruct failed; [by intros [= <-]|].
  destruct (forallb _ _); by intros [= <-].
Qed.

Lemma Step_clean l s s' :
  Step l s s' →
  (∀ t tk, tasks s !! t = Some tk → task_clean tk) →
  ∀ t tk, tasks s' !! t = Some tk → task_clean tk.
Proof.
  intros HS Hinv t0 tk0 H0.
  destruct HS;
    try (apply lookup_park in H0 as [[-> ->]|[_ H0]]; [|by eapply Hinv];
         match goal with Ht : tasks _ !! _ = Some _ |- _ =>
           pose proof (Hinv _ _ Ht) as Hs end;
         simpl in *; by auto).
  - match goal with H : fetch_call _ _ _ _ |- _ =>
      apply fetch_call_frame in H as (_ & (st & Ht & Hst) & _) end.
    rewrite Ht in H0. apply lookup_app_Some in H0 as [H0|[_ H0]]; [by eapply Hinv|].
    apply list_lookup_singleton_Some in H0 as [_ <-]. by apply starting_clean.
  - match goal with H : fetch_calls _ _ _ _ _ |- _ =>
      apply fetch_calls_frame in H as (_ & _ & (new & Ht & Hnew) & _) end.
    apply lookup_spawn in H0 as [[_ ->]|H0]; [done|].
    rewrite Ht in H0. apply lookup_app_Some in H0 as [H0|[_ H0]]; [by eapply Hinv|].
    apply list_elem_of_lookup_2 in H0.
    apply (Forall2_Forall_r _ task_clean) in Hnew.
    + rewrite Forall_forall in Hnew. by apply Hnew.
    + apply Forall_true. intros key tk (now & st & -> & ?). by apply starting_clean.
  - (* the timer fires *)
    match goal with H : shrinkCache _ _ = _ |- _ =>
      apply shrinkCache_frame in H as (_ & _ & _ & _ & (new & Hnew & Hall) & _) end.
    apply lookup_park in H0 as [[_ ->]|[_ H0]]; [done|].
    rewrite Hnew in H0. simpl in H0.
    apply (lookup_new_removal _ _ _ _ Hall) in H0 as [H0|[? ->]]; [|done].
    apply lookup_app_Some in H0 as [H0|[_ H0]]; [by eapply Hinv|].
    by apply list_lookup_singleton_Some in H0 as [_ <-].
  - (* [trim] returns to a fetch *)
    apply lookup_park in H0 as [[-> ->]|[_ H0]]; [|by eapply Hinv].
    match goal with H : trim_settles _ _ _ = _ |- _ =>
      apply trim_settles_clean in H end.
    simpl. destruct o as [|err]; [done|]. congruence.
  - (* [addToStore] returns *)
    apply lookup_park in H0 as [[-> ->]|[_ H0]]; [|by eapply Hinv].
    match goal with Ht : tasks _ !! _ = Some _ |- _ =>
      pose proof (Hinv _ _ Ht) as Hs end.
    simpl in Hs. by destruct o.
  - by eapply Hinv.
  - match goal with H : fetch_start _ _ _ _ _ _ _ |- _ =>
      apply fetch_start_frame in H as (Hts & _ & _ & _ & _ & Hst & _) end.
    apply lookup_park in H0 as [[-> ->]|[_ H0]]; [by apply starting_clean|].
    rewrite Hts in H0. by eapply Hinv.
  - (* the factory resolves *)
    match goal with H : shrinkCache _ _ = _ |- _ =>
      pose proof H as (_ & _ & _ & _ & (new & Hnew & Hall) & _)%shrinkCache_frame;
      pose proof (shrinkCache_clean _ _ _ _ c key hash now (length (heap s)) H) end.
    apply lookup_park in H0 as [[-> ->]|[_ H0]]; [done|].
    rewrite Hnew in H0. simpl in H0.
    apply (lookup_new_removal _ _ _ _ Hall) in H0 as [H0|[? ->]]; [|done].
    by eapply Hinv.
  - (* the transformer of [getWith] settles *)
    apply lookup_park in H0 as [[-> ->]|[_ H0]]; [|by eapply Hinv].
    simpl. destruct o; [done|by left].
Qed.

Lemma reachable_clean s t tk : reachable s → tasks s !! t = Some tk → task_clean tk.
Proof.
  intros Hreach. revert t tk. revert s Hreach.
  apply (reachable_invariant (λ s, ∀ t tk, tasks s !! t = Some tk → task_clean tk)).
  - intros s0. unfold createCache. destruct (validateOptions _); [|done].
    intros [= <-] t tk. simpl. by rewrite lookup_nil.
  - intros l s1 s2 Hr1 Hinv Hstep%step_Step. by eapply Step_clean.
Qed.

Lemma Step_lock_owner l s s' :
  Step l s s' →
  (∀ id key hash now st,
     tasks s !! id = Some (Fetch ItemLock key hash now st) →
     ∃ m keys items mst, tasks s !! m = Some (Multi true keys items mst) ∧ id ∈ items) →
  ∀ id key hash now st,
    tasks s' !! id = Some (Fetch ItemLock key hash now st) →
    ∃ m keys items mst, tasks s' !! m = Some (Multi true keys items mst) ∧ id ∈ items.
Proof.
  intros HS Hinv.
  pose proof (Step_tasks_grow _ _ _ HS) as Hgrow.
  assert (Hold : ∀ id key hash now st,
    tasks s !! id = Some (Fetch ItemLock key hash now st) →
    ∃ m keys items mst, tasks s' !! m = Some (Multi true keys items mst) ∧ id ∈ items).
  { intros id key hash now st Hid.
    destruct (Hinv _ _ _ _ _ Hid) as (m & keys & items & mst & Hm & Hin).
    destruct (Hgrow _ _ Hm) as (tk & Htk & Hsame).
    destruct tk as [|lock' keys' items' mst'| |]; try done.
    destruct Hsame as (<- & <- & <-). by exists m, keys, items, mst'. }
  clear Hinv Hgrow.
  intros t0 key0 hash0 now0 st0 H0.
  destruct HS;
    try (apply lookup_park in H0 as [[-> H0]|[_ H0]];
         [simplify_eq/=; by eapply Hold | by eapply Hold]).
  - match goal with H : fetch_call _ _ _ _ |- _ =>
      apply fetch_call_frame in H as (_ & (st & Ht & Hst) & _) end.
    rewrite Ht in H0. apply lookup_app_Some in H0 as [H0|[_ H0]]; [by eapply Hold|].
    apply list_lookup_singleton_Some in H0 as [_ H0]. destruct l; simplify_eq/=.
  - match goal with H : fetch_calls _ _ _ _ _ |- _ =>
      apply fetch_calls_frame in H as (_ & -> & (new & Ht & Hnew) & _) end.
    apply lookup_spawn in H0 as [[_ ?]|H0]; [done|].
    rewrite Ht in H0. apply lookup_app_Some in H0 as [H0|[Hlen H0]]; [by eapply Hold|].
    destruct (Forall2_lookup_r _ _ _ _ _ Hnew H0) as (key & Hkey & now & st & Heq & _).
    destruct lock; [|by simplify_eq/=].
    exists (length (tasks s1)), keys, (seq (length (tasks s)) (length keys)), AwaitAll.
    split.
    + simpl. by apply list_lookup_middle.
    + apply elem_of_seq. apply lookup_lt_Some in Hkey. lia.
  - match goal with H : shrinkCache _ _ = _ |- _ =>
      apply shrinkCache_frame in H as (_ & _ & _ & _ & (new & Hnew & Hall) & _) end.
    apply lookup_park in H0 as [[_ ?]|[_ H0]]; [done|].
    rewrite Hnew in H0. simpl in H0.
    apply (lookup_new_removal _ _ _ _ Hall) in H0 as [H0|[? ?]]; [|done].
    apply lookup_app_Some in H0 as [H0|[_ H0]]; [by eapply Hold|].
    by apply list_lookup_singleton_Some in H0 as [_ ?].
  - by eapply Hold.
  - match goal with H : fetch_start _ _ _ _ _ _ _ |- _ =>
      apply fetch_start_frame in H as (Ht & _) end.
    apply lookup_park in H0 as [[-> H0]|[_ H0]]; [simplify_eq; by eapply Hold|].
    rewrite Ht in H0. by eapply Hold.
  - match goal with H : shrinkCache _ _ = _ |- _ =>
      apply shrinkCache_frame in H as (_ & _ & _ & _ & (new & Hnew & Hall) & _) end.
    apply lookup_park in H0 as [[-> H0]|[_ H0]]; [simplify_eq; by eapply Hold|].
    rewrite Hnew in H0. simpl in H0.
    apply (lookup_new_removal _ _ _ _ Hall) in H0 as [H0|[? ?]]; [|done].
    by eapply Hold.
Qed.

Lemma item_settled_step l s s' id : Step l s s' → item_settled s id → item_settled s' id.
Proof.
  intros HS (c & key & hash & now & o & Hid). exists c, key, hash, now, o.
  by eapply Step_settled.
Qed.

Lemma Step_lock_passed l s s' :
  Step l s s' → order_ok s →
  (∀ t tk, tasks s !! t = Some tk → task_clean tk) →
  (∀ m keys items kcs,
     tasks s !! m = Some (Multi true keys items (AwaitTransformerAll kcs)) →
     Forall2 (item_locked s) items kcs) →
  (∀ m keys items mst,
     tasks s !! m = Some (Multi true keys items mst) → released mst = true →
     Forall (item_settled s) items) →
  ∀ m keys items mst,
    tasks s' !! m = Some (Multi true keys items mst) → released mst = true →
    Forall (item_settled s') items.
Proof.
  intros HS Hord Hclean Hbatch Hinv.
  assert (Hold : ∀ m keys items mst,
    tasks s !! m = Some (Multi true keys items mst) → released mst = true →
    Forall (item_settled s') items).
  { intros m keys items mst Hm Hrel. eapply Forall_impl; [by eapply Hinv|].
    intros id. by apply (item_settled_step l). }
  assert (Hnew : ∀ m keys items kcs,
    tasks s !! m = Some (Multi true keys items (AwaitTransformerAll kcs)) →
    Forall (item_settled s') items).
  { intros m keys items kcs Hm. pose proof (Hbatch _ _ _ _ Hm) as Hall.
    apply (Forall2_Forall_l _ (item_settled s')) in Hall; [done|].
    apply Forall_true. intros kc id (key & hash & now & Hid).
    apply (item_settled_step l s s'); [done|].
    by exists ItemLock, key, hash, now, (Fulfilled (RLocked kc.1 kc.2)). }
  clear Hinv.
  intros t0 keys0 items0 mst0 H0 Hrel.
  destruct HS;
    try (apply lookup_park in H0 as [[-> H0]|[_ H0]];
         [by simplify_eq/=|by eapply Hold]).
  - match goal with H : fetch_call _ _ _ _ |- _ =>
      apply fetch_call_frame in H as (_ & (st & Ht & _) & _) end.
    rewrite Ht in H0. apply lookup_app_Some in H0 as [H0|[_ H0]]; [by eapply Hold|].
    by apply list_lookup_singleton_Some in H0 as [_ ?].
  - match goal with H : fetch_calls _ _ _ _ _ |- _ =>
      apply fetch_calls_frame in H as (_ & _ & (new & Ht & Hnew0) & _) end.
    apply lookup_spawn in H0 as [[_ ?]|H0]; [by simplify_eq/=|].
    rewrite Ht in H0. apply lookup_app_Some in H0 as [H0|[_ H0]]; [by eapply Hold|].
    apply list_elem_of_lookup_2 in H0.
    apply (Forall2_Forall_r _ (λ tk, ∃ c key hash now st,
             tk = Fetch c key hash now st)) in Hnew0.
    + rewrite Forall_forall in Hnew0. by destruct (Hnew0 _ H0) as (? & ? & ? & ? & ? & ?).
    + apply Forall_true. intros key tk (now & st & ? & ?). by eauto 10.
  - match goal with H : shrinkCache _ _ = _ |- _ =>
      apply shrinkCache_frame in H as (_ & _ & _ & _ & (new & Ht & Hall) & _) end.
    apply lookup_park in H0 as [[_ ?]|[_ H0]]; [done|].
    rewrite Ht in H0. simpl in H0.
    apply (lookup_new_removal _ _ _ _ Hall) in H0 as [H0|[? ?]]; [|done].
    apply lookup_app_Some in H0 as [H0|[_ H0]]; [by eapply Hold|].
    by apply list_lookup_singleton_Some in H0 as [_ ?].
  - by eapply Hold.
  - match goal with H : fetch_start _ _ _ _ _ _ _ |- _ =>
      apply fetch_start_frame in H as (Ht & _) end.
    apply lookup_park in H0 as [[-> H0]|[_ H0]]; [done|].
    rewrite Ht in H0. by eapply Hold.
  - (* [Promise.all] rejects *)
    apply lookup_park in H0 as [[-> H0]|[_ H0]]; [|by eapply Hold].
    simplify_eq/=.
    match goal with
    | Ht : tasks _ !! _ = Some (Multi _ _ _ AwaitAll), Hp : promise_all _ = _ |- _ =>
        pose proof (all_rejected_clean _ _ _ _ _ _ Hord Hclean Ht Hp) end.
    by destruct e.
  - match goal with H : shrinkCache _ _ = _ |- _ =>
      apply shrinkCache_frame in H as (_ & _ & _ & _ & (new & Ht & Hall) & _) end.
    apply lookup_park in H0 as [[-> H0]|[_ H0]]; [done|].
    rewrite Ht in H0. simpl in H0.
    apply (lookup_new_removal _ _ _ _ Hall) in H0 as [H0|[? ?]]; [|done].
    by eapply Hold.
  - (* the transformer of [getMultipleWith] settles *)
    apply lookup_park in H0 as [[-> H0]|[_ H0]]; [|by eapply Hold].
    simplify_eq/=. by eapply Hnew.
Qed.

Lemma reachable_lock_ok s : reachable s → lock_ok s.
Proof.
  revert s. apply reachable_invariant.
  - intros s0. unfold createCache. destruct (validateOptions _); [|done].
    intros [= <-]. split; simpl; intros *; by rewrite lookup_nil.
  - intros l s1 s2 Hr1 Hinv Hstep%step_Step.
    pose proof (reachable_order_ok _ Hr1) as Hord.
    assert (Hclean : ∀ t tk, tasks s1 !! t = Some tk → task_clean tk).
    { intros t tk. by apply reachable_clean. }
    split.
    + by eapply Step_lock_count; [|apply reachable_live_ok|..].
    + eapply Step_lock_items; [done|]. by destruct Hinv.
    + eapply Step_lock_batch; [done|done|]. by destruct Hinv.
    + eapply Step_lock_owner; [done|]. by destruct Hinv.
    + eapply Step_lock_passed; [done|done|done| |]; by destruct Hinv.
Qed.

Lemma batch_item_locked s t keys items st id key hash now k r :
  reachable s →
  tasks s !! t = Some (Multi true keys items st) → released st = false →
  id ∈ items →
  tasks s !! id = Some (Fetch ItemLock key hash now (Settled (Fulfilled (RLocked k r)))) →
  ∃ e, heap s !! r = Some e ∧ (0 < locked e)%Z.
Proof.
  intros Hreach Ht Hrel Hin Hid.
  pose proof (live_held _ (reachable_live_ok _ Hreach) _ _ _ _ _ _ r Hid eq_refl) as Hr.
  apply lookup_lt_is_Some in Hr as [e He]. exists e. split; [done|].
  pose proof (lock_count _ (reachable_lock_ok _ Hreach) _ _ He) as Hcount.
  pose proof (weight_lookup (batch_locks r (tasks s)) _ _ _ Ht) as Hb.
  simpl in Hb. rewrite Hrel in Hb.
  pose proof (sum_list_with_in _ (λ id, item_lock r (tasks s !! id)) _ Hin) as Hi.
  simpl in Hi. rewrite Hid in Hi. simpl in Hi. rewrite decide_True in Hi by done.
  unfold locks, locks_of in Hcount. lia.
Qed.

Lemma Step_multi_settled l s s' m lock keys items o :
  Step l s s' →
  tasks s !! m = Some (Multi lock keys items (MultiSettled o)) →
  tasks s' !! m = Some (Multi lock keys items (MultiSettled o)).
Proof.
  intros HS Hid.
  destruct HS;
    try (simpl; rewrite list_lookup_insert_ne; [done|]; intros ->; congruence).
  - match goal with H : fetch_call _ _ _ _ |- _ =>
      apply fetch_call_frame in H as (_ & (st & Ht & _) & _) end.
    rewrite Ht. by apply lookup_app_l_Some.
  - match goal with H : fetch_calls _ _ _ _ _ |- _ =>
      apply fetch_calls_frame in H as (_ & _ & (new & Ht & _) & _) end.
    simpl. rewrite Ht. by do 2 apply lookup_app_l_Some.
  - match goal with H : shrinkCache _ _ = _ |- _ =>
      apply shrinkCache_frame in H as (_ & _ & _ & _ & (new & Ht & _) & _) end.
    simpl. rewrite Ht. simpl.
    rewrite list_lookup_insert_ne by (apply lookup_lt_Some in Hid; lia).
    by do 2 apply lookup_app_l_Some.
  - done.
  - match goal with H : fetch_start _ _ _ _ _ _ _ |- _ =>
      apply fetch_start_frame in H as (Ht & _) end.
    simpl. rewrite Ht. rewrite list_lookup_insert_ne; [done|]. intros ->. congruence.
  - match goal with H : shrinkCache _ _ = _ |- _ =>
      apply shrinkCache_frame in H as (_ & _ & _ & _ & (new & Ht & _) & _) end.
    simpl. rewrite Ht. simpl. rewrite list_lookup_insert_ne by (intros ->; congruence).
    by apply lookup_app_l_Some.
Qed.

Lemma run_settled sch s s' id c key hash now o :
  run sch s = Some s' →
  tasks s !! id = Some (Fetch c key hash now (Settled o)) →
  tasks s' !! id = Some (Fetch c key hash now (Settled o)).
Proof.
  revert s. induction sch as [|l sch IH]; intros s; simpl.
  - by intros [= <-].
  - destruct (step l s) as [s1|] eqn:H1; simpl; [|done].
    intros H2 Hid. apply (IH _ H2). by eapply Step_settled; [apply step_Step|].
Qed.

Lemma run_multi_settled sch s s' m lock keys items o :
  run sch s = Some s' →
  tasks s !! m = Some (Multi lock keys items (MultiSettled o)) →
  tasks s' !! m = Some (Multi lock keys items (MultiSettled o)).
Proof.
  revert s. induction sch as [|l sch IH]; intros s; simpl.
  - by intros [= <-].
  - destruct (step l s) as [s1|] eqn:H1; simpl; [|done].
    intros H2 Hid. apply (IH _ H2). by eapply Step_multi_settled; [apply step_Step|].
Qed.

(** X12: an entry is locked while a transformer runs on it.  In every
    reachable state no lock count is negative, the entry that a [getWith]
    has passed to its transformer has a positive lock count until the
    transformer settles, and so has every entry that a [getMultipleWith]
    has passed to its transformer. *)
Theorem locked_while_transforming s :
  reachable s →
  (∀ r e, heap s !! r = Some e → (0 ≤ locked e)%Z) ∧
  (∀ t key hash now r,
     tasks s !! t = Some (Fetch GetWith key hash now (AwaitTransformer r)) →
     ∃ e, heap s !! r = Some e ∧ (0 < locked e)%Z) ∧
  (∀ t keys items kcs kc,
     tasks s !! t = Some (Multi true keys items (AwaitTransformerAll kcs)) →
     kc ∈ kcs →
     ∃ e, heap s !! kc.2 = Some e ∧ (0 < locked e)%Z).
Proof.
  intros Hreach.
  pose proof (reachable_lock_ok _ Hreach) as [Hcount _ Hbatch].
  split_and!.
  - intros r e He. specialize (Hcount _ _ He). lia.
  - intros t key hash now r Ht.
    pose proof (live_held _ (reachable_live_ok _ Hreach) _ _ _ _ _ _ r Ht eq_refl) as Hr.
    apply lookup_lt_is_Some in Hr as [e He]. exists e. split; [done|].
    specialize (Hcount _ _ He).
    pose proof (weight_lookup (holds_lock r) _ _ _ Ht) as Hw.
    simpl in Hw. rewrite decide_True in Hw by done.
    unfold locks, locks_of in Hcount. lia.
  - intros t keys items kcs kc Ht [n Hn]%list_elem_of_lookup_1.
    destruct (Forall2_lookup_r _ _ _ _ _ (Hbatch _ _ _ _ Ht) Hn)
      as (id & Hid & key & hash & now & Hitem).
    eapply batch_item_locked; [done|exact Ht|done| |exact Hitem].
    by eapply list_elem_of_lookup_2.
Qed.

(** X13: a [getMultipleWith] that is rejected before its transformer runs
    leaves its entries locked.  When [Promise.all] has rejected the batch
    (the factory of one key failed, or a trim pass threw), the entry that
    any other key of the batch was handed has a positive lock count in
    that state and in every state after it: the [finally] that unlocks is
    not reached. *)
Theorem rejected_batch_keeps_locks s t keys items err id key hash now k r sch s' :
  reachable s →
  tasks s !! t = Some (Multi true keys items (MultiSettled (Rejected err))) →
  err ≠ TransformerError →
  id ∈ items →
  tasks s !! id = Some (Fetch ItemLock key hash now (Settled (Fulfilled (RLocked k r)))) →
  run sch s = Some s' →
  ∃ e, heap s' !! r = Some e ∧ (0 < locked e)%Z.
Proof.
  intros Hreach Ht Herr Hin Hid Hrun.
  eapply (batch_item_locked s' t keys items (MultiSettled (Rejected err)) id).
  - by eapply reachable_run.
  - by eapply run_multi_settled.
  - by destruct err.
  - done.
  - by eapply run_settled.
Qed.

(** X14: lock counts are balanced.  In every reachable state the lock
    count of an object is the number of [getWith] calls whose transformer
    is running on it, plus the number of keys for which a
    [getMultipleWith] that has not run its [finally] was handed it; so
    when no transformer of a [getWith] is running and every
    [getMultipleWith] has run its [finally], the lock count is 0. *)
Theorem locks_balanced s r e :
  reachable s → heap s !! r = Some e →
  locked e = Z.of_nat (locks r s) ∧
  (forallb idle (tasks s) = true → locked e = 0%Z).
Proof.
  intros Hreach He.
  pose proof (lock_count _ (reachable_lock_ok _ Hreach) _ _ He) as Hcount.
  split; [done|]. intros Hidle. rewrite Hcount.
  rewrite forallb_forall in Hidle. unfold locks, locks_of.
  rewrite !sum_list_with_zero; [done| |].
  - intros tk Htk%list_elem_of_In%Hidle.
    destruct tk as [|[] keys items st| |]; simpl in *; try done. by rewrite Htk.
  - intros tk Htk%list_elem_of_In%Hidle.
    destruct tk as [c key hash now st| | |]; try done. by destruct c, st.
Qed.

(** *** A cache without bounds *)

Lemma unlock_all_length kcs (h : list (CachedValue V)) :
  length (unlock_all kcs h) = length h.
Proof.
  unfold unlock_all. revert h. induction kcs as [|kc kcs IH]; intros h; simpl; [done|].
  by rewrite IH, length_alter.
Qed.

Lemma fetch_calls_store c keys s s' ids :
  fetch_calls c keys s s' ids →
  store s' = store s ∧ length (heap s') = length (heap s).
Proof.
  induction 1 as [s|key keys s s1 s2 ids [s0 st _ H1] _ [IHs IHh]]; [done|].
  apply fetch_start_frame in H1 as (_ & _ & Hst & _ & Hh & _).
  simpl in *. split; congruence.
Qed.

Lemma Step_unbounded_store l s s' :
  unbounded → Step l s s' →
  (∀ t hash st, tasks s !! t ≠ Some (Removal hash st)) →
  (store s' = store s ∧ length (heap s') = length (heap s)) ∨
  (∃ t c key hash now e,
     tasks s !! t = Some (Fetch c key hash now AwaitCreate) ∧
     store s' = JsObject.set hash (length (heap s)) (store s) ∧
     heap s' = heap s ++ [e]).
Proof.
  intros Hunb HS Hnone.
  destruct HS;
    try (left; split; [done|simpl; by rewrite ?length_alter, ?unlock_all_length]).
  - left. match goal with H : fetch_call _ _ _ _ |- _ => destruct H as [s1 st _ Hs] end.
    apply fetch_start_frame in Hs as (_ & _ & Hst & _ & Hh & _). by split.
  - left. match goal with H : fetch_calls _ _ _ _ _ |- _ =>
      apply fetch_calls_store in H as [? ?] end. by split.
  - destruct Hunb as [_ Hexp]. rewrite Hexp in *.
    match goal with H : is_Some None |- _ => by destruct H end.
  - left. match goal with H : fetch_start _ _ _ _ _ _ _ |- _ =>
      apply fetch_start_frame in H as (_ & _ & Hst & _ & Hh & _) end. by split.
  - right. match goal with H : shrinkCache _ _ = _ |- _ =>
      rewrite (shrinkCache_unbounded _ _ Hunb) in H; injection H as <- _ end.
    by eexists t, c, key, hash, now, _.
  - exfalso. by eapply Hnone.
Qed.

(** X15: a cache with neither [size] nor [expiry] keeps everything.  In
    every reachable state [currentSize()] is the number of values the
    factory has produced so far, each of the objects made for them is the
    entry of some hash, and no step makes [currentSize()] smaller. *)
Theorem unbounded_keeps_all s :
  unbounded → reachable s →
  currentSize s = length (heap s) ∧
  (∀ r e, heap s !! r = Some e → ∃ hash, JsObject.get hash (store s) = Some r) ∧
  (∀ l s', step l s = Some s' → currentSize s ≤ currentSize s').
Proof.
  intros Hunb Hreach.
  assert (Hinv : ∀ s, reachable s →
    currentSize s = length (heap s) ∧
    ∀ r, r < length (heap s) → ∃ hash, JsObject.get hash (store s) = Some r).
  { apply (reachable_invariant (λ s, currentSize s = length (heap s) ∧
      ∀ r, r < length (heap s) → ∃ hash, JsObject.get hash (store s) = Some r)).
    - intros s0. unfold createCache. destruct (validateOptions _); [|done].
      intros [= <-]. split; [done|]. simpl. intros r Hr. lia.
    - intros l s1 s2 Hr1 [Hsize Hall] Hstep%step_Step.
      destruct (reachable_unbounded _ Hunb Hr1) as [Hnone _].
      destruct (Step_unbounded_store _ _ _ Hunb Hstep Hnone)
        as [[Hst Hh]|(t & c & key & hash & now & e & Ht & Hst & Hh)].
      + unfold currentSize in *. rewrite Hst, Hh. split; [done|].
        intros r Hr. by apply Hall.
      + pose proof (flying_absent _ _ _ _ _ _ (proj2 Hunb) Hr1 Ht) as Habs.
        apply JsObjectFacts.has_false in Habs.
        unfold currentSize, JsObject.size in *. rewrite Hst, Hh, length_app. simpl.
        rewrite (Permutation_length (JsObjectFacts.set_absent _ _ _ Habs)). simpl.
        split; [lia|]. intros r Hr.
        destruct (decide (r = length (heap s1))) as [->|Hne].
        * exists hash. apply JsObjectFacts.get_set_eq.
        * destruct (Hall r) as [h Hget]; [lia|]. exists h.
          rewrite JsObjectFacts.get_set_ne; [done|]. intros ->. congruence. }
  destruct (Hinv _ Hreach) as [Hsize Hall]. split_and!; [done| |].
  - intros r e He. apply Hall. by eapply lookup_lt_Some.
  - intros l s' Hstep.
    destruct (Hinv _ (reachable_step _ _ _ Hreach Hstep)) as [Hsize' _].
    pose proof (evolves_length _ _ (step_evolves _ _ _ Hstep)). lia.
Qed.

(** *** The scheduled cleanup *)

Lemma expiredValues_expired s now d h r e :
  Opt.expiry options = Some d → d ≠ 0%Z → entry s h = Some (r, e) →
  h ∈ expiredValues s now ↔ (insertionTimestamp e + d < now)%Z.
Proof.
  intros Hexp Hd Hentry. unfold expiredValues. rewrite Hexp.
  rewrite list_elem_of_filter. unfold isExpired, expiryInMilliseconds.
  rewrite Hexp, decide_False, Hentry by done.
  split.
  - intros [Hlt%Is_true_true%Z.ltb_lt _]. done.
  - intros Hlt. split; [by apply Is_true_true, Z.ltb_lt|].
    apply entry_get, JsObjectFacts.get_Some_elem in Hentry.
    apply list_elem_of_fmap. by exists (h, r).
Qed.

(** X16: what the scheduled cleanup does.  Under [expiry] (of a duration
    that is not zero) and without [size], when the timer fires while no
    trim pass is running, the clock is read once and, of the entries of the
    store, those that are not expired at that reading, or are locked, stay;
    an expired unlocked entry without [destroy] is deleted at once, and the
    [destroy] of an expired unlocked entry that has one is called.  When
    the timer fires while a trim pass is running, nothing is removed.  The
    entry's insertion time, the duration, their sum and the clock reading
    are safe integers, for which the sum and the comparison of line 121 are
    exact. *)
Theorem cleanup_removes_expired s d h r e :
  Opt.size options = None → Opt.expiry options = Some d → d ≠ 0%Z →
  entry s h = Some (r, e) →
  safe_integer (insertionTimestamp e) → safe_integer d →
  safe_integer (insertionTimestamp e + d) → safe_integer (clock (reads s)) →
  ∃ s' evs,
    step Timer s = Some s' ∧ heap s' = heap s ∧ reads s' = S (reads s) ∧
    log s' = log s ++ evs ∧
    (shrinkLock s = true → store s' = store s ∧ evs = []) ∧
    (shrinkLock s = false →
     ((clock (reads s) ≤ insertionTimestamp e + d)%Z ∨ (0 < locked e)%Z →
        JsObject.get h (store s') = Some r ∧
        (EvDestroy h r : event) ∉ evs ∧ (EvDelete h : event) ∉ evs) ∧
     ((insertionTimestamp e + d < clock (reads s))%Z → (locked e ≤ 0)%Z →
        destroy e = false →
        JsObject.get h (store s') = None ∧ (EvDelete h : event) ∈ evs) ∧
     ((insertionTimestamp e + d < clock (reads s))%Z → (locked e ≤ 0)%Z →
        destroy e = true →
        JsObject.get h (store s') = Some r ∧ (EvDestroy h r : event) ∈ evs)).
Proof.
  intros Hsize Hexp Hd Hentry _ _ _ _. unfold step. rewrite Hexp.
  rewrite bool_decide_eq_true_2 by eauto.
  destruct (shrinkCache _ _) as [s1 sh] eqn:Hsh.
  unfold shrinkCache in Hsh. simpl in Hsh. rewrite Hsize, Hexp in Hsh. simpl in Hsh.
  destruct (shrinkLock s) eqn:Hlock.
  { injection Hsh as <- _. eexists _, []. simpl. rewrite app_nil_r.
    split_and!; try done. }
  unfold trim in Hsh.
  destruct (remove_candidates _ _) as [[s2 ids] failed] eqn:Hrec.
  injection Hsh as <- _.
  pose proof (remove_candidates_frame _ _ _ _ _ Hrec) as (Hheap & _ & _ & Hreads & _).
  set (s0 := with_shrinkLock true
               (spawn (Scheduled (ShrinkSettled (Fulfilled ())))
                  (with_reads (S (reads s)) s))) in *.
  assert (Hentry0 : entry s0 h = Some (r, e)) by exact Hentry.
  destruct (remove_candidates_effect _ _ _ _ _ _ _ _ Hrec Hentry0)
    as (evs & Hlog & H1 & H2 & H3).
  pose proof (expiredValues_expired s0 (clock (reads s)) d h r e Hexp Hd Hentry0) as Hin.
  assert (Hcs : h ∈ oldestValues s0 ++ expiredValues s0 (clock (reads s))
                ↔ (insertionTimestamp e + d < clock (reads s))%Z).
  { unfold oldestValues. rewrite Hsize. simpl. exact Hin. }
  eexists _, evs. simpl. split_and!; [done|done|done|done|done|]. intros _. split_and!.
  - intros Hor. apply H1. destruct Hor as [Hle|Hl]; [left|by right]. rewrite Hcs. lia.
  - intros Hlt. by apply H3, Hcs.
  - intros Hlt. by apply H2, Hcs.
Qed.

(** *** The value a creating fetch returns *)

Lemma Step_tied l s s' t c key hash now st r v e :
  Step l s s' →
  tasks s !! t = Some (Fetch c key hash now st) → tied r v st →
  heap s !! r = Some e → value e = v →
  ∃ st', tasks s' !! t = Some (Fetch c key hash now st') ∧ tied r v st'.
Proof.
  intros HS Ht Htied He Hv.
  assert (Hkeep : ∀ t0 x (s1 : engine),
    t0 ≠ t → tasks s1 = tasks s →
    ∃ st', tasks (park t0 x s1) !! t = Some (Fetch c key hash now st') ∧ tied r v st').
  { intros t0 x s1 Hne Hs1. exists st. split; [|done].
    simpl. rewrite Hs1. by rewrite list_lookup_insert_ne. }
  assert (Hat : ∀ x (s1 : engine) st',
    tasks s1 = tasks s → x = Fetch c key hash now st' → tied r v st' →
    ∃ st', tasks (park t x s1) !! t = Some (Fetch c key hash now st') ∧ tied r v st').
  { intros x s1 st' Hs1 -> Hst'. exists st'. split; [|done].
    simpl. rewrite Hs1. apply list_lookup_insert_eq. by eapply lookup_lt_Some. }
  destruct HS;
    try (match goal with
         | |- context [park ?t0 ?X ?s1] =>
             destruct (decide (t0 = t)) as [->|Hne]; [|by apply Hkeep];
             simplify_eq/=; try done;
             (eapply Hat; [done|done|]); simpl in *; try done
         end; fail).
  - match goal with H : fetch_call _ _ _ _ |- _ =>
      apply fetch_call_frame in H as (_ & (st0 & Hts & _) & _) end.
    exists st. split; [|done]. rewrite Hts. by apply lookup_app_l_Some.
  - match goal with H : fetch_calls _ _ _ _ _ |- _ =>
      apply fetch_calls_frame in H as (_ & _ & (new & Hts & _) & _) end.
    exists st. split; [|done]. simpl. rewrite Hts. by do 2 apply lookup_app_l_Some.
  - match goal with H : shrinkCache _ _ = _ |- _ =>
      apply shrinkCache_frame in H as (_ & _ & _ & _ & (new & Hts & _) & _) end.
    exists st. split; [|done]. simpl in *. rewrite Hts.
    rewrite list_lookup_insert_ne by (apply lookup_lt_Some in Ht; lia).
    by do 2 apply lookup_app_l_Some.
  - (* [addToStore] returns *)
    destruct (decide (t0 = t)) as [->|Hne]; [|by apply Hkeep].
    simplify_eq/=. eapply Hat; [done|done|]. by destruct o.
  - by exists st.
  - match goal with H : fetch_start _ _ _ _ _ _ _ |- _ =>
      apply fetch_start_frame in H as (Hts & _) end.
    destruct (decide (t0 = t)) as [->|Hne]; [by simplify_eq/=|by apply Hkeep].
  - (* the factory resolves *)
    match goal with H : shrinkCache _ _ = _ |- _ =>
      apply shrinkCache_frame in H as (_ & _ & _ & _ & (new & Hts & _) & _) end.
    destruct (decide (t0 = t)) as [->|Hne]; [by simplify_eq/=|].
    exists st. split; [|done]. simpl in *. rewrite Hts.
    rewrite list_lookup_insert_ne by done. by apply lookup_app_l_Some.
  - (* the transformer settles *)
    destruct (decide (t0 = t)) as [->|Hne]; [|by apply Hkeep].
    simplify_eq/=. eapply Hat; [done|done|]. destruct l; simplify_eq/=; done.
Qed.

Lemma run_tied sch s s' t c key hash now st r v e :
  run sch s = Some s' →
  tasks s !! t = Some (Fetch c key hash now st) → tied r v st →
  heap s !! r = Some e → value e = v →
  ∃ st' e', tasks s' !! t = Some (Fetch c key hash now st') ∧ tied r v st' ∧
            heap s' !! r = Some e' ∧ value e' = v.
Proof.
  revert s st e. induction sch as [|l sch IH]; intros s st e; simpl.
  - intros [= <-] Ht Htied He Hv. by exists st, e.
  - destruct (step l s) as [s1|] eqn:H1; simpl; [|done].
    intros H2 Ht Htied He Hv.
    destruct (Step_tied _ _ _ _ _ _ _ _ _ _ _ _ (step_Step _ _ _ H1) Ht Htied He Hv)
      as (st1 & Ht1 & Htied1).
    destruct (evolves_value _ _ _ _ (step_evolves _ _ _ H1) He) as (e1 & He1 & Hv1).
    eapply IH; [done..|congruence].
Qed.

(** X17: a fetch returns what its own call of the factory produced.  Once
    the factory of a fetch has resolved with [v], then whatever runs in
    between (also when the new entry is evicted or replaced before the
    fetch resumes): the fetch never calls the factory again and never
    waits for another creation, the object it has in hand is the one made
    for [v], which keeps this value, and the value a [get] or a key of
    [getMultiple] resolves with is [v]. *)
Theorem created_value_returned s t c key hash now v d s1 sch s2 st :
  tasks s !! t = Some (Fetch c key hash now AwaitCreate) →
  step (Created t v d) s = Some s1 → run sch s1 = Some s2 →
  tasks s2 !! t = Some (Fetch c key hash now st) →
  st ≠ AwaitCreate ∧ st ≠ AwaitWait ∧ st ≠ Woken ∧
  (∃ e, heap s2 !! length (heap s) = Some e ∧ value e = v) ∧
  (∀ r, holds st = Some r → r = length (heap s)) ∧
  (∀ v', yields st = Some v' → v' = v).
Proof.
  intros Ht Hstep Hrun Ht2.
  pose proof (step_Step _ _ _ Hstep) as HS.
  inversion HS as [| | | | | | | | | | | | | | | | | |t' s' c' key' hash' now' v0 d0 s3 sh Ht' Hsh| | | | |];
    simplify_eq.
  pose proof (shrinkCache_frame _ _ _ _ Hsh) as (Hheap & _ & _ & _ & (new & Hts & _) & _).
  simpl in Hheap, Hts.
  destruct (run_tied sch _ s2 t c key hash now (AwaitShrink (length (heap s)) sh)
              (length (heap s)) v
              {| value := v; insertionTimestamp := now; timestamp := now; locked := 0;
                 destroy := d |} Hrun)
    as (st' & e' & Ht2' & Htied & He' & Hv'); [|done| |done|].
  - simpl. rewrite Hts. apply list_lookup_insert_eq.
    rewrite length_app. apply lookup_lt_Some in Ht. lia.
  - simpl. rewrite Hheap. by apply list_lookup_middle.
  - rewrite Ht2 in Ht2'. injection Ht2' as <-.
    split_and!; try (by intros ->).
    + by exists e'.
    + intros r Hr. destruct st as [|r' sh'| | |[r'|]|r'|[[]|]]; simplify_eq/=; done.
    + intros v' Hy. destruct st as [|r' sh'| | |[r'|]|r'|[[]|]]; simplify_eq/=; done.
Qed.
(** *** The order of a batch *)

Lemma promise_all_of_fulfilled os rs :
  Forall2 (λ o r, o = Some (Fulfilled r)) os rs →
  promise_all os = Some (Fulfilled rs).
Proof.
  intros H. unfold promise_all.
  assert (omap rejection os = []) as ->.
  { induction H as [|o r os' rs' -> _ IH]; [done|]. simpl. exact IH. }
  simpl.
  assert (mapM fulfilment os = Some rs) as ->; [|done].
  apply mapM_Some. eapply Forall2_impl; [exact H|]. by intros o r ->.
Qed.

Lemma items_fulfilled s lock items keys :
  order_ok s → live_ok s →
  Forall2 (is_item s lock) items keys →
  Forall (λ id, ∃ c key hash now r,
            tasks s !! id = Some (Fetch c key hash now (Settled (Fulfilled r)))) items →
  Forall2 (λ id key, ∃ hash now,
     if lock then
       ∃ r e, tasks s !! id
              = Some (Fetch ItemLock key hash now (Settled (Fulfilled (RLocked key r)))) ∧
              heap s !! r = Some e
     else
       ∃ v, tasks s !! id
            = Some (Fetch Item key hash now (Settled (Fulfilled (RItem key v)))))
    items keys.
Proof.
  intros Hok Hlive Hitems Hall.
  induction Hitems as [|id key items keys (hash & now & st & Hid) _ IH]; [constructor|].
  apply Forall_cons in Hall as [(c & key' & hash' & now' & r & Hr) Hall].
  constructor; [|by apply IH].
  rewrite Hid in Hr. simplify_eq.
  pose proof (order_fetch _ Hok _ _ _ _ _ _ Hid) as Hs.
  exists hash', now'. destruct lock; simpl in *.
  - destruct r as [| |k r| |]; try done. subst k.
    destruct (lookup_lt_is_Some_2 (heap s) r) as [e He].
    { eapply (live_held _ Hlive); [exact Hid|done]. }
    by exists r, e.
  - destruct r as [|k v| | |]; try done. subst k. by exists v.
Qed.

Lemma pairs_assembled s items keys :
  Forall2 (λ id key, ∃ hash now v,
     tasks s !! id = Some (Fetch Item key hash now (Settled (Fulfilled (RItem key v)))))
    items keys →
  ∃ rs kvs,
    Forall2 (λ o r, o = Some (Fulfilled r)) (item_outcome s <$> items) rs ∧
    mapM as_pair rs = Some kvs ∧ kvs.*1 = keys ∧
    Forall2 (λ id kv, ∃ hash now,
       tasks s !! id
       = Some (Fetch Item kv.1 hash now (Settled (Fulfilled (RItem kv.1 kv.2)))))
      items kvs.
Proof.
  induction 1 as [|id key items keys (hash & now & v & Hid) _ (rs & kvs & Hrs & Hm & Hk & Hv)].
  - exists [], []. split_and!; by try constructor.
  - exists (RItem key v :: rs), ((key, v) :: kvs). split_and!.
    + rewrite fmap_cons. constructor; [|done]. unfold item_outcome. by rewrite Hid.
    + simpl. by rewrite Hm.
    + by rewrite fmap_cons, Hk.
    + constructor; [|done]. by exists hash, now.
Qed.

Lemma locked_assembled s items keys :
  Forall2 (λ id key, ∃ hash now r e,
     tasks s !! id
     = Some (Fetch ItemLock key hash now (Settled (Fulfilled (RLocked key r)))) ∧
     heap s !! r = Some e)
    items keys →
  ∃ rs kcs kvs,
    Forall2 (λ o r, o = Some (Fulfilled r)) (item_outcome s <$> items) rs ∧
    mapM as_locked rs = Some kcs ∧
    mapM (λ kc, e ← heap s !! kc.2; Some (kc.1, value e)) kcs = Some kvs ∧
    kvs.*1 = keys ∧
    Forall2 (λ id kv, ∃ hash now r e,
       tasks s !! id
       = Some (Fetch ItemLock kv.1 hash now (Settled (Fulfilled (RLocked kv.1 r)))) ∧
       heap s !! r = Some e ∧ kv.2 = value e)
      items kvs.
Proof.
  induction 1 as [|id key items keys (hash & now & r & e & Hid & He) _
                    (rs & kcs & kvs & Hrs & Hm & Hm' & Hk & Hv)].
  - exists [], [], []. split_and!; by try constructor.
  - exists (RLocked key r :: rs), ((key, r) :: kcs), ((key, value e) :: kvs). split_and!.
    + rewrite fmap_cons. constructor; [|done]. unfold item_outcome. by rewrite Hid.
    + simpl. by rewrite Hm.
    + simpl. rewrite He. simpl. by rewrite Hm'.
    + by rewrite fmap_cons, Hk.
    + constructor; [|done]. by exists hash, now, r, e.
Qed.

(** C8: in every reachable state, whatever the order in which the fetches
    of a batch completed, the pairs [getMultiple] has resolved with list the
    keys it was called with, in that order, and so do the pairs the
    transformer of [getMultipleWith] was called with.  And the pairs are
    produced: in a reachable state in which every fetch of a batch has been
    fulfilled, the batch goes on; [getMultiple] then resolves with, and
    [getMultipleWith] then calls its transformer with, one pair for each
    key, in the order of the keys, each made of the key and of the value of
    the entry the fetch of that key was handed. *)
Theorem batch_order s t lock keys items st :
  reachable s →
  tasks s !! t = Some (Multi lock keys items st) →
  (∀ kvs, st = MultiSettled (Fulfilled (RPairs kvs)) → kvs.*1 = keys) ∧
  (∀ kvs, EvTransformer t kvs ∈ log s → kvs.*1 = keys) ∧
  (st = AwaitAll →
   Forall (λ id, ∃ c key hash now r,
             tasks s !! id = Some (Fetch c key hash now (Settled (Fulfilled r)))) items →
   ∃ kvs, kvs.*1 = keys ∧
     (lock = false →
      step (Resume t) s
      = Some (park t (Multi false keys items (MultiSettled (Fulfilled (RPairs kvs)))) s) ∧
      Forall2 (λ id kv, ∃ hash now,
         tasks s !! id
         = Some (Fetch Item kv.1 hash now (Settled (Fulfilled (RItem kv.1 kv.2)))))
        items kvs) ∧
     (lock = true →
      (∃ kcs, step (Resume t) s
              = Some (park t (Multi true keys items (AwaitTransformerAll kcs))
                        (emit (EvTransformer t kvs) s))) ∧
      Forall2 (λ id kv, ∃ hash now r e,
         tasks s !! id
         = Some (Fetch ItemLock kv.1 hash now (Settled (Fulfilled (RLocked kv.1 r)))) ∧
         heap s !! r = Some e ∧ kv.2 = value e)
        items kvs)).
Proof.
  intros Hreach Ht.
  pose proof (reachable_order_ok _ Hreach) as Hok.
  split; [|split].
  - intros kvs ->. by apply (order_multi _ Hok) in Ht as [_ ?].
  - intros kvs Hin%(order_log _ Hok). rewrite Ht in Hin.
    destruct lock; [done|].
    apply (order_multi _ Hok) in Ht as [_ Hst].
    (* a batch without transformer never calls one *)
    done.
  - intros -> Hall.
    pose proof (order_multi _ Hok _ _ _ _ _ Ht) as [Hitems _].
    pose proof (items_fulfilled _ _ _ _ Hok (reachable_live_ok _ Hreach) Hitems Hall) as Hful.
    destruct lock; simpl in Hful.
    + destruct (locked_assembled s items keys) as (rs & kcs & kvs & Hrs & Hm & Hm' & Hk & Hv).
      { eapply Forall2_impl; [exact Hful|]. intros id key (hash & now & r & e & H1 & H2).
        by exists hash, now, r, e. }
      exists kvs. split; [done|]. split; [done|]. intros _. split; [|done].
      exists kcs. simpl. unfold resume. rewrite Ht. simpl. unfold resume_multi.
      rewrite (promise_all_of_fulfilled _ _ Hrs). simpl. rewrite Hm. simpl.
      by rewrite Hm'.
    + destruct (pairs_assembled s items keys) as (rs & kvs & Hrs & Hm & Hk & Hv).
      { eapply Forall2_impl; [exact Hful|]. intros id key (hash & now & v & H1).
        by exists hash, now, v. }
      exists kvs. split; [done|]. split; [|done]. intros _. split; [|done].
      simpl. unfold resume. rewrite Ht. simpl. unfold resume_multi.
      rewrite (promise_all_of_fulfilled _ _ Hrs). simpl. by rewrite Hm.
Qed.

End EngineFacts.

(** ** Concrete runs *)

Lemma not_elem_of_decided (h : string) (X : gset string) :
  bool_decide (h ∈ X) = false → h ∉ X.
Proof. apply bool_decide_eq_false_1. Qed.

Lemma state_after_reachable options readings sch :
  is_Some (play options readings sch) →
  reachable id options (list_clock readings) (state_after options readings sch).
Proof.
  unfold state_after. intros [s Hs]. rewrite Hs. simpl.
  unfold play in Hs. destruct (createCache options) as [s0|] eqn:H0; [|done].
  by exists sch, s0.
Qed.

(** C1, as stated, fails: two [get("k")] are issued on the empty cache of
    size 1 before either completes; both resolve, to different values, and
    the factory has been called twice for ["k"]. *)
Lemma single_flight_counterexample :
  (λ s, (store s, tasks s)) <$> play sizeOne [1; 2; 3]%Z (take 2 two_gets_and_a_neighbour)
  = Some ([], [Fetch Get "k" "k" 1 AwaitCreate; Fetch Get "k" "k" 2 AwaitWait]) ∧
  (λ s, (tasks s, log s, factory_calls id "k" s))
    <$> play sizeOne [1; 2; 3]%Z two_gets_and_a_neighbour
  = Some ([Fetch Get "k" "k" 1 (Settled (Fulfilled (RValue 10)));
           Fetch Get "k" "k" 2 (Settled (Fulfilled (RValue 11)));
           Fetch Get "j" "j" 3 (Settled (Fulfilled (RValue 20)))],
          [EvFactory 0 "k" None; EvFactory 2 "j" None; EvDelete "k"; EvFactory 1 "k" None;
           EvDelete "k"], 2).
Proof. split; vm_compute; reflexivity. Qed.

Lemma single_flight_witness :
  (factory_calls id "k"
     (state_after sizeOne [1; 2; 3; 4]%Z (evicted_by_a_neighbour ++ two_gets_later)) = 2 ∧
   quiet id "k"
     (state_after sizeOne [1; 2; 3; 4]%Z (evicted_by_a_neighbour ++ two_gets_later)) = false ∧
   factory_calls id "k"
     (since (state_after sizeOne [1; 2; 3; 4]%Z evicted_by_a_neighbour)
        (state_after sizeOne [1; 2; 3; 4]%Z (evicted_by_a_neighbour ++ two_gets_later))) ≤ 1 ∧
   (∀ t key now v,
      length (tasks (state_after sizeOne [1; 2; 3; 4]%Z evicted_by_a_neighbour)) ≤ t →
      tasks (state_after sizeOne [1; 2; 3; 4]%Z (evicted_by_a_neighbour ++ two_gets_later)) !! t
      = Some (Fetch Get key "k" now (Settled (Fulfilled (RValue v)))) →
      factory_calls id "k"
        (since (state_after sizeOne [1; 2; 3; 4]%Z evicted_by_a_neighbour)
           (state_after sizeOne [1; 2; 3; 4]%Z (evicted_by_a_neighbour ++ two_gets_later)))
      = 1 ∧
      ∃ r e,
        JsObject.get "k"
          (store (state_after sizeOne [1; 2; 3; 4]%Z
                    (evicted_by_a_neighbour ++ two_gets_later))) = Some r ∧
        heap (state_after sizeOne [1; 2; 3; 4]%Z
                (evicted_by_a_neighbour ++ two_gets_later)) !! r = Some e ∧
        value e = v) ∧
   (∀ t1 t2 key1 key2 now1 now2 v1 v2,
      length (tasks (state_after sizeOne [1; 2; 3; 4]%Z evicted_by_a_neighbour)) ≤ t1 →
      length (tasks (state_after sizeOne [1; 2; 3; 4]%Z evicted_by_a_neighbour)) ≤ t2 →
      tasks (state_after sizeOne [1; 2; 3; 4]%Z (evicted_by_a_neighbour ++ two_gets_later)) !! t1
      = Some (Fetch Get key1 "k" now1 (Settled (Fulfilled (RValue v1)))) →
      tasks (state_after sizeOne [1; 2; 3; 4]%Z (evicted_by_a_neighbour ++ two_gets_later)) !! t2
      = Some (Fetch Get key2 "k" now2 (Settled (Fulfilled (RValue v2)))) →
      v1 = v2)) ∧
  quiet id "k"
    (since (state_after noBounds [1; 2; 3]%Z (take 1 three_gets))
       (state_after noBounds [1; 2; 3]%Z three_gets)) = true ∧
  (∃ s' v',
     leads_to id noBounds (list_clock [1; 2; 3]%Z)
       (state_after noBounds [1; 2; 3]%Z (take 2 three_gets)) s' ∧
     tasks s' !! 1 = Some (Fetch Get "k" "k" 2 (Settled (Fulfilled (RValue v'))))).
Proof.
  split; [|split].
  - split; [vm_compute; reflexivity|]. split; [vm_compute; reflexivity|].
    apply (proj1 (proj2 (single_flight id sizeOne (list_clock [1; 2; 3; 4]%Z)))
             (state_after sizeOne [1; 2; 3; 4]%Z evicted_by_a_neighbour) two_gets_later).
    + apply state_after_reachable. vm_compute. eauto.
    + vm_compute. reflexivity.
    + apply not_elem_of_decided. vm_compute. reflexivity.
    + vm_compute. reflexivity.
    + vm_compute. reflexivity.
    + vm_compute. reflexivity.
    + vm_compute. reflexivity.
  - apply (proj1 (proj2 (proj2 (single_flight id noBounds (list_clock [1; 2; 3]%Z))))
             eq_refl eq_refl
             (state_after noBounds [1; 2; 3]%Z (take 1 three_gets)) (drop 1 three_gets)).
    + apply state_after_reachable. vm_compute. eauto.
    + vm_compute. reflexivity.
  - destruct (proj2 (proj2 (proj2 (single_flight id noBounds (list_clock [1; 2; 3]%Z))))
                7 (state_after noBounds [1; 2; 3]%Z (take 2 three_gets))
                1 "k" "k" 2%Z AwaitWait) as (s' & o & Hl & Ht & Ho).
    + apply state_after_reachable. vm_compute. eauto.
    + vm_compute. reflexivity.
    + vm_compute. reflexivity.
    + destruct (Ho eq_refl eq_refl eq_refl) as [v' ->]. by exists s', v'.
Defined.

(** C3, as stated, fails at the boundary: the entry of ["x"] was inserted
    at 0 under [expiry = 5]; a [get("x")] when the clock reads 5 is handed
    the cached entry and the factory is not called again. *)
Lemma lookup_expiry_counterexample :
  (λ s, (tasks s !! 1, log s)) <$> play expiryFive [0; 5]%Z get_at_the_boundary
  = Some (Some (Fetch Get "x" "x" 5 (Fetched (Fulfilled 0))), [EvFactory 0 "x" None]).
Proof. vm_compute. reflexivity. Qed.

Lemma lookup_expiry_witness :
  (∃ s', getCachedValue id expiryFive (list_clock [0; 6]%Z) Get "x"
           (state_after expiryFive [0; 6]%Z (get_created 0 "x" 1)) = Some s' ∧
     log s' = [EvFactory 0 "x" None] ++ [EvFactory 1 "x" (Some 0)] ∧
     tasks s' = [Fetch Get "x" "x" 0 (Settled (Fulfilled (RValue 1)))] ++
                [Fetch Get "x" "x" 6 AwaitCreate]) ∧
  (∃ s', getCachedValue id expiryFive (list_clock [0; 5]%Z) Get "x"
           (state_after expiryFive [0; 5]%Z (get_created 0 "x" 1)) = Some s' ∧
     log s' = [EvFactory 0 "x" None] ∧
     tasks s' = [Fetch Get "x" "x" 0 (Settled (Fulfilled (RValue 1)))] ++
                [Fetch Get "x" "x" 5 (Fetched (Fulfilled 0))] ∧
     store s' = [("x", 0)] ∧
     heap s' !! 0 =
       Some {| value := 1; insertionTimestamp := 0; timestamp := 5; locked := 0;
               destroy := false |} ∧
     (∀ r', r' ≠ 0 →
        heap s' !! r' = heap (state_after expiryFive [0; 5]%Z (get_created 0 "x" 1)) !! r')).
Proof.
  split.
  - apply (proj1 (lookup_expiry id expiryFive (list_clock [0; 6]%Z) Get "x"
      (state_after expiryFive [0; 6]%Z (get_created 0 "x" 1)) 0
      {| value := 1; insertionTimestamp := 0; timestamp := 0; locked := 0;
         destroy := false |} 5%Z
      eq_refl ltac:(done) eq_refl eq_refl
      ltac:(apply not_elem_of_decided; vm_compute; reflexivity)
      ltac:(vm_compute; done) ltac:(vm_compute; done)
      ltac:(vm_compute; done) ltac:(vm_compute; done))).
    vm_compute. reflexivity.
  - apply (proj2 (lookup_expiry id expiryFive (list_clock [0; 5]%Z) Get "x"
      (state_after expiryFive [0; 5]%Z (get_created 0 "x" 1)) 0
      {| value := 1; insertionTimestamp := 0; timestamp := 0; locked := 0;
         destroy := false |} 5%Z
      eq_refl ltac:(done) eq_refl eq_refl
      ltac:(apply not_elem_of_decided; vm_compute; reflexivity)
      ltac:(vm_compute; done) ltac:(vm_compute; done)
      ltac:(vm_compute; done) ltac:(vm_compute; done))).
    vm_compute. discriminate.
Defined.

Lemma oldestValues_least_recent_witness :
  ∃ s,
    trim_start sizeOne (Created 1 2 false)
      (state_after sizeOne [1; 2]%Z (get_stored 0 "a" 1 ++ [CallGet "b"])) = Some s ∧
    JsObject.keys (store s) = ["a"; "b"] ∧
    (∃ t tk now,
       step id sizeOne (list_clock [1; 2]%Z) (Created 1 2 false)
         (state_after sizeOne [1; 2]%Z (get_stored 0 "a" 1 ++ [CallGet "b"]))
       = Some (park t tk (trim sizeOne s now).1)) ∧
    ∃ kept evicted : list (string * CachedValue nat),
      toPairs s ≡ₚ kept ++ evicted ∧
      (toPairs s).*1 = JsObject.keys (store s) ∧
      length kept = Z.to_nat 1 ∧
      oldestValues sizeOne s = evicted.*1 ∧
      ∀ k c, k ∈ kept → c ∈ evicted → (timestamp c.2 ≤ timestamp k.2)%Z.
Proof.
  eexists. split; [vm_compute; reflexivity|]. split; [vm_compute; reflexivity|].
  apply (oldestValues_least_recent id sizeOne (list_clock [1; 2]%Z) (Created 1 2 false)
           (state_after sizeOne [1; 2]%Z (get_stored 0 "a" 1 ++ [CallGet "b"])) _ 1%Z).
  - apply state_after_reachable. vm_compute. eauto.
  - vm_compute. reflexivity.
  - reflexivity.
  - vm_compute. lia.
Defined.

Lemma destroy_failure_swallowed_witness :
  ∃ s', step id sizeOne (list_clock [1; 2]%Z) (DestroyFailed 2)
          (state_after sizeOne [1; 2]%Z destroy_pending) = Some s' ∧
    store s' = store (state_after sizeOne [1; 2]%Z destroy_pending) ∧
    heap s' = heap (state_after sizeOne [1; 2]%Z destroy_pending) ∧
    log s' = log (state_after sizeOne [1; 2]%Z destroy_pending) ∧
    initializing s' = initializing (state_after sizeOne [1; 2]%Z destroy_pending) ∧
    tasks s' = <[2 := Removal "a" RemovalSettled]>
                 (tasks (state_after sizeOne [1; 2]%Z destroy_pending)) ∧
    removal_settled s' 2 = true ∧
    (∀ cs, forallb (removal_settled (state_after sizeOne [1; 2]%Z destroy_pending))
             (filter (λ c, c ≠ 2) cs) = true →
           trim_settles s' cs false = Some (Fulfilled ())).
Proof.
  apply (destroy_failure_swallowed id sizeOne (list_clock [1; 2]%Z)
           (state_after sizeOne [1; 2]%Z destroy_pending) 2 "a").
  vm_compute. reflexivity.
Defined.

Lemma batch_order_witness :
  (∃ kvs,
     kvs = [("a", 10); ("b", 20); ("c", 30)] ∧
     step id noBounds (list_clock [1; 2; 3]%Z) (Resume 3)
       (state_after noBounds [1; 2; 3]%Z batch_fetched_out_of_order)
     = Some (park 3
               (Multi false ["a"; "b"; "c"] [0; 1; 2]
                  (MultiSettled (Fulfilled (RPairs kvs))))
               (state_after noBounds [1; 2; 3]%Z batch_fetched_out_of_order)) ∧
     Forall2 (λ id kv, ∃ hash now,
        tasks (state_after noBounds [1; 2; 3]%Z batch_fetched_out_of_order) !! id
        = Some (Fetch Item kv.1 hash now (Settled (Fulfilled (RItem kv.1 kv.2)))))
       [0; 1; 2] kvs) ∧
  (∃ kvs,
     kvs = [("a", 1); ("b", 2)] ∧
     (∃ kcs,
        step id noBounds (list_clock [1; 2]%Z) (Resume 2)
          (state_after noBounds [1; 2]%Z batch_locked_out_of_order)
        = Some (park 2 (Multi true ["a"; "b"] [0; 1] (AwaitTransformerAll kcs))
                  (emit (EvTransformer 2 kvs)
                     (state_after noBounds [1; 2]%Z batch_locked_out_of_order)))) ∧
     Forall2 (λ id kv, ∃ hash now r e,
        tasks (state_after noBounds [1; 2]%Z batch_locked_out_of_order) !! id
        = Some (Fetch ItemLock kv.1 hash now (Settled (Fulfilled (RLocked kv.1 r)))) ∧
        heap (state_after noBounds [1; 2]%Z batch_locked_out_of_order) !! r = Some e ∧
        kv.2 = value e)
       [0; 1] kvs).
Proof.
  split.
  - destruct (batch_order id noBounds (list_clock [1; 2; 3]%Z)
                (state_after noBounds [1; 2; 3]%Z batch_fetched_out_of_order) 3 false
                ["a"; "b"; "c"] [0; 1; 2] AwaitAll) as (_ & _ & H).
    + apply state_after_reachable. vm_compute. eauto.
    + vm_compute. reflexivity.
    + destruct H as (kvs & _ & H & _).
      * reflexivity.
      * repeat (constructor; [vm_compute; by eexists _, _, _, _, _|]). constructor.
      * destruct (H eq_refl) as [Hstep Hv]. exists kvs. split; [|by split].
        vm_compute in Hstep. congruence.
  - destruct (batch_order id noBounds (list_clock [1; 2]%Z)
                (state_after noBounds [1; 2]%Z batch_locked_out_of_order) 2 true
                ["a"; "b"] [0; 1] AwaitAll) as (_ & _ & H).
    + apply state_after_reachable. vm_compute. eauto.
    + vm_compute. reflexivity.
    + destruct H as (kvs & _ & _ & H).
      * reflexivity.
      * repeat (constructor; [vm_compute; by eexists _, _, _, _, _|]). constructor.
      * destruct (H eq_refl) as [[kcs Hstep] Hv]. exists kvs. split; [|split; [by exists kcs|done]].
        vm_compute in Hstep. congruence.
Defined.



(** C2 fails on the code.  Under [expiry = 5] the entry of ["k"] is locked by
    a running transformer; a [get("k")] at clock 10 finds it expired and, when
    the factory resolves, the store holds a new object in its place while
    the old one is still locked. *)
Lemma locked_entry_overwritten :
  (λ s, (store s, locked <$> heap s !! 0))
    <$> play expiryFive [0; 10]%Z locked_then_expired
  = Some ([("k", 0)], Some 1%Z) ∧
  (λ s, (store s, locked <$> heap s !! 0))
    <$> play expiryFive [0; 10]%Z (locked_then_expired ++ [Created 1 2 false])
  = Some ([("k", 1)], Some 1%Z).
Proof. split; vm_compute; reflexivity. Qed.

(** The same for a trim pass: the entry of ["a"] is unlocked when the pass
    calls its [destroy], is locked while [destroy] runs, and is deleted when
    [destroy] resolves. *)
Lemma locked_entry_deleted_after_destroy :
  (λ s, (store s, locked <$> heap s !! 0, tasks s !! 2))
    <$> play sizeOne [1; 2; 3]%Z locked_during_destroy
  = Some ([("a", 0); ("b", 1)], Some 1%Z, Some (Removal "a" AwaitDestroy)) ∧
  (λ s, (store s, locked <$> heap s !! 0, tasks s !! 2))
    <$> play sizeOne [1; 2; 3]%Z (locked_during_destroy ++ [Destroyed 2])
  = Some ([("b", 1)], Some 1%Z, Some (Removal "a" RemovalSettled)).
Proof. split; vm_compute; reflexivity. Qed.

(** C5 fails on the code.  [getMultipleWith(["a", "b"], transformer)] on the
    empty cache: the factory fails for ["b"], the call rejects, and the
    entry of ["a"], locked by the call, stays locked although every task of
    the call has settled. *)
Lemma lock_leaked_by_failed_batch :
  (λ s, (tasks s, locked <$> heap s !! 0)) <$> play noBounds [1; 2]%Z batch_with_a_failure
  = Some ([Fetch ItemLock "a" "a" 1 (Settled (Fulfilled (RLocked "a" 0)));
           Fetch ItemLock "b" "b" 2 (Settled (Rejected FactoryError));
           Multi true ["a"; "b"] [0; 1] (MultiSettled (Rejected FactoryError))],
          Some 1%Z).
Proof. vm_compute. reflexivity. Qed.

(** C6 fails on the code.  Under [size = 1] and [expiry = 5], ["a"] was
    inserted at 0; when [get("b")] at clock 10 has its value, ["a"] is a
    candidate twice, the second removal throws at [store[hash].locked], and
    [get("b")] rejects with that error although its own entry is stored. *)
Lemma trim_error_reaches_caller :
  (let s := (publish (state_after sizeOneExpiryFive [0; 10]%Z
                        (get_created 0 "a" 1 ++ [CallGet "b"])) "b" 10 2 false).1 in
   oldestValues sizeOneExpiryFive s ++ expiredValues sizeOneExpiryFive s 10)
  = ["a"; "a"] ∧
  (λ s, (tasks s, store s)) <$> play sizeOneExpiryFive [0; 10]%Z get_evicting_twice
  = Some ([Fetch Get "a" "a" 0 (Settled (Fulfilled (RValue 1)));
           Fetch Get "b" "b" 10 (Settled (Rejected TypeError))],
          [("b", 1)]).
Proof. split; vm_compute; reflexivity. Qed.

(** ** Instances of the further properties *)

Lemma trim_exclusive_witness :
  trimming (state_after sizeOne [1; 2]%Z destroy_pending)
  = (if shrinkLock (state_after sizeOne [1; 2]%Z destroy_pending) then 1 else 0) ∧
  (∀ t1 t2 tk1 tk2,
     tasks (state_after sizeOne [1; 2]%Z destroy_pending) !! t1 = Some tk1 →
     tasks (state_after sizeOne [1; 2]%Z destroy_pending) !! t2 = Some tk2 →
     trimming_at tk1 = 1 → trimming_at tk2 = 1 → t1 = t2).
Proof.
  apply (trim_exclusive id sizeOne (list_clock [1; 2]%Z)
           (state_after sizeOne [1; 2]%Z destroy_pending)).
  apply state_after_reachable. vm_compute. eauto.
Defined.

Lemma initializing_exact_witness :
  "k" ∈ initializing (state_after noBounds [1]%Z [CallGet "k"]) ↔
  ∃ t c key now st,
    tasks (state_after noBounds [1]%Z [CallGet "k"]) !! t = Some (Fetch c key "k" now st) ∧
    (st = AwaitCreate ∨ ∃ r sh, st = AwaitShrink r sh).
Proof.
  apply (initializing_exact id noBounds (list_clock [1]%Z)
           (state_after noBounds [1]%Z [CallGet "k"]) "k").
  apply state_after_reachable. vm_compute. eauto.
Defined.

Lemma factory_failure_not_cached_witness :
  ∃ s1 s2,
    step id noBounds (list_clock [1]%Z) (CreateFailed 0)
      (state_after noBounds [1]%Z [CallGet "k"]) = Some s1 ∧
    step id noBounds (list_clock [1]%Z) (Resume 0) s1 = Some s2 ∧
    tasks s2
    = <[0 := Fetch Get "k" "k" 1 (Settled (Rejected FactoryError))]>
        (tasks (state_after noBounds [1]%Z [CallGet "k"])) ∧
    store s2 = store (state_after noBounds [1]%Z [CallGet "k"]) ∧
    heap s2 = heap (state_after noBounds [1]%Z [CallGet "k"]) ∧
    initializing s2 = initializing (state_after noBounds [1]%Z [CallGet "k"]) ∖ {["k"]} ∧
    log s2 = log (state_after noBounds [1]%Z [CallGet "k"]) ++ [EvFactoryFailed 0 "k"] ∧
    (∀ c' key',
       id key' = "k" → inherited "k" = false →
       JsObject.has "k" (store (state_after noBounds [1]%Z [CallGet "k"])) = false →
       ∃ s3,
         getCachedValue id noBounds (list_clock [1]%Z) c' key' s2 = Some s3 ∧
         log s3 = log s2 ++ [EvFactory (length (tasks s2)) key' None] ∧
         tasks s3
         = tasks s2 ++ [Fetch c' key' "k" (list_clock [1]%Z (reads s2)) AwaitCreate]).
Proof.
  apply (factory_failure_not_cached id noBounds (list_clock [1]%Z)
           (state_after noBounds [1]%Z [CallGet "k"]) 0 Get "k" "k" 1%Z).
  vm_compute. reflexivity.
Defined.

Lemma lookup_after_insert_witness :
  ∃ s3,
    run id noBounds (list_clock [1; 2]%Z)
      [CallGet "k";
       Resume (length (tasks (state_after noBounds [1; 2]%Z (get_stored 0 "k" 7))))]
      (state_after noBounds [1; 2]%Z (get_stored 0 "k" 7)) = Some s3 ∧
    tasks s3
    = tasks (state_after noBounds [1; 2]%Z (get_stored 0 "k" 7))
      ++ [Fetch Get "k" "k"
            (list_clock [1; 2]%Z (reads (state_after noBounds [1; 2]%Z (get_stored 0 "k" 7))))
            (Settled (Fulfilled (RValue 7)))] ∧
    log s3 = log (state_after noBounds [1; 2]%Z (get_stored 0 "k" 7)) ∧
    store s3 = store (state_after noBounds [1; 2]%Z (get_stored 0 "k" 7)).
Proof.
  apply (lookup_after_insert id noBounds (list_clock [1; 2]%Z)
           (state_after noBounds [1; 2]%Z [CallGet "k"]) 0 Get "k" "k" 1%Z 7 false
           (state_after noBounds [1; 2]%Z [CallGet "k"; Created 0 7 false])
           [Resume 0; Resume 0]
           (state_after noBounds [1; 2]%Z (get_stored 0 "k" 7)) "k");
    try (vm_compute; reflexivity).
  apply not_elem_of_decided. vm_compute. reflexivity.
Defined.

Lemma trim_pass_effect_witness :
  ∃ evs,
    log (trim sizeOne
           (publish (state_after sizeOne [1; 2]%Z (get_stored 0 "a" 1 ++ [CallGet "b"]))
              "b" 2 2 false).1 2).1
    = log (publish (state_after sizeOne [1; 2]%Z (get_stored 0 "a" 1 ++ [CallGet "b"]))
             "b" 2 2 false).1 ++ evs ∧
    JsObject.get "a"
      (store (trim sizeOne
                (publish (state_after sizeOne [1; 2]%Z (get_stored 0 "a" 1 ++ [CallGet "b"]))
                   "b" 2 2 false).1 2).1) = None ∧
    EvDelete "a" ∈ evs.
Proof.
  destruct (trim_pass_effect sizeOne
              (publish (state_after sizeOne [1; 2]%Z (get_stored 0 "a" 1 ++ [CallGet "b"]))
                 "b" 2 2 false).1 2%Z
              (trim sizeOne
                 (publish (state_after sizeOne [1; 2]%Z (get_stored 0 "a" 1 ++ [CallGet "b"]))
                    "b" 2 2 false).1 2).1
              (trim sizeOne
                 (publish (state_after sizeOne [1; 2]%Z (get_stored 0 "a" 1 ++ [CallGet "b"]))
                    "b" 2 2 false).1 2).2
              "a" 0
              {| value := 1; insertionTimestamp := 1; timestamp := 1; locked := 0;
                 destroy := false |})
    as (evs & Hlog & _ & _ & _ & Hdel).
  - apply surjective_pairing.
  - vm_compute. reflexivity.
  - exists evs. split; [exact Hlog|]. apply Hdel.
    + vm_compute. left.
    + vm_compute. discriminate.
    + reflexivity.
Defined.

Lemma insertion_respects_size_witness :
  ∃ s',
    step id sizeOne (list_clock [1; 2]%Z) (Created 1 2 false)
      (state_after sizeOne [1; 2]%Z (get_stored 0 "a" 1 ++ [CallGet "b"])) = Some s' ∧
    currentSize s' ≤ Z.to_nat 1.
Proof.
  apply (insertion_respects_size id sizeOne (list_clock [1; 2]%Z)
           (state_after sizeOne [1; 2]%Z (get_stored 0 "a" 1 ++ [CallGet "b"]))
           1 Get "b" "b" 2%Z 2 1%Z).
  - apply state_after_reachable. vm_compute. eauto.
  - reflexivity.
  - vm_compute. reflexivity.
  - vm_compute. reflexivity.
  - vm_compute. repeat constructor. discriminate.
Defined.

Lemma errors_are_the_callbacks_witness :
  (tasks (state_after noBounds [1; 2]%Z batch_with_a_failure) !! 2
   = Some (Multi true ["a"; "b"] [0; 1] (MultiSettled (Rejected FactoryError))) ∧
   (∀ t c key hash now e,
      tasks (state_after noBounds [1; 2]%Z batch_with_a_failure) !! t
      = Some (Fetch c key hash now (Settled (Rejected e))) →
      e = FactoryError ∨ (c = GetWith ∧ e = TransformerError)) ∧
   (∀ t lock keys items e,
      tasks (state_after noBounds [1; 2]%Z batch_with_a_failure) !! t
      = Some (Multi lock keys items (MultiSettled (Rejected e))) →
      e = FactoryError ∨ (lock = true ∧ e = TransformerError)) ∧
   (∀ t c key hash now r cs failed,
      tasks (state_after noBounds [1; 2]%Z batch_with_a_failure) !! t
      = Some (Fetch c key hash now (AwaitShrink r (Trimming cs failed))) →
      failed = false) ∧
   (∀ t o,
      tasks (state_after noBounds [1; 2]%Z batch_with_a_failure) !! t
      = Some (Scheduled (ShrinkSettled o)) → o = Fulfilled ())) ∧
  (tasks (state_after sizeOne [1; 2]%Z destroy_pending) !! 1
   = Some (Fetch Get "b" "b" 2 (AwaitShrink 1 (Trimming [2] false))) ∧
   (∀ t c key hash now e,
      tasks (state_after sizeOne [1; 2]%Z destroy_pending) !! t
      = Some (Fetch c key hash now (Settled (Rejected e))) →
      e = FactoryError ∨ (c = GetWith ∧ e = TransformerError)) ∧
   (∀ t lock keys items e,
      tasks (state_after sizeOne [1; 2]%Z destroy_pending) !! t
      = Some (Multi lock keys items (MultiSettled (Rejected e))) →
      e = FactoryError ∨ (lock = true ∧ e = TransformerError)) ∧
   (∀ t c key hash now r cs failed,
      tasks (state_after sizeOne [1; 2]%Z destroy_pending) !! t
      = Some (Fetch c key hash now (AwaitShrink r (Trimming cs failed))) →
      failed = false) ∧
   (∀ t o,
      tasks (state_after sizeOne [1; 2]%Z destroy_pending) !! t
      = Some (Scheduled (ShrinkSettled o)) → o = Fulfilled ())) ∧
  (tasks (state_after expiryFive [0; 10]%Z (get_created 0 "x" 1 ++ [Timer; Resume 1])) !! 1
   = Some (Scheduled (ShrinkSettled (Fulfilled ()))) ∧
   (∀ t c key hash now e,
      tasks (state_after expiryFive [0; 10]%Z (get_created 0 "x" 1 ++ [Timer; Resume 1])) !! t
      = Some (Fetch c key hash now (Settled (Rejected e))) →
      e = FactoryError ∨ (c = GetWith ∧ e = TransformerError)) ∧
   (∀ t lock keys items e,
      tasks (state_after expiryFive [0; 10]%Z (get_created 0 "x" 1 ++ [Timer; Resume 1])) !! t
      = Some (Multi lock keys items (MultiSettled (Rejected e))) →
      e = FactoryError ∨ (lock = true ∧ e = TransformerError)) ∧
   (∀ t c key hash now r cs failed,
      tasks (state_after expiryFive [0; 10]%Z (get_created 0 "x" 1 ++ [Timer; Resume 1])) !! t
      = Some (Fetch c key hash now (AwaitShrink r (Trimming cs failed))) →
      failed = false) ∧
   (∀ t o,
      tasks (state_after expiryFive [0; 10]%Z (get_created 0 "x" 1 ++ [Timer; Resume 1])) !! t
      = Some (Scheduled (ShrinkSettled o)) → o = Fulfilled ())).
Proof.
  split; [|split]; (split; [vm_compute; reflexivity|]).
  - apply (errors_are_the_callbacks id noBounds (list_clock [1; 2]%Z)
             (state_after noBounds [1; 2]%Z batch_with_a_failure)).
    + left. reflexivity.
    + apply state_after_reachable. vm_compute. eauto.
    + vm_compute. reflexivity.
  - apply (errors_are_the_callbacks id sizeOne (list_clock [1; 2]%Z)
             (state_after sizeOne [1; 2]%Z destroy_pending)).
    + right. reflexivity.
    + apply state_after_reachable. vm_compute. eauto.
    + vm_compute. reflexivity.
  - apply (errors_are_the_callbacks id expiryFive (list_clock [0; 10]%Z)
             (state_after expiryFive [0; 10]%Z (get_created 0 "x" 1 ++ [Timer; Resume 1]))).
    + left. reflexivity.
    + apply state_after_reachable. vm_compute. eauto.
    + vm_compute. reflexivity.
Defined.

Lemma no_overwrite_without_expiry_witness :
  (∀ t k old,
     EvFactory t k old ∈ log (state_after sizeOne [1; 2; 3]%Z two_gets_and_a_neighbour) →
     old = None) ∧
  (∀ t c key hash now,
     tasks (state_after sizeOne [1; 2; 3]%Z two_gets_and_a_neighbour) !! t
     = Some (Fetch c key hash now AwaitCreate) →
     JsObject.has hash (store (state_after sizeOne [1; 2; 3]%Z two_gets_and_a_neighbour))
     = false).
Proof.
  apply (no_overwrite_without_expiry id sizeOne (list_clock [1; 2; 3]%Z)
           (state_after sizeOne [1; 2; 3]%Z two_gets_and_a_neighbour)).
  - reflexivity.
  - apply state_after_reachable. vm_compute. eauto.
Defined.

Lemma latest_entry_survives_witness :
  ∃ s,
    trim_start sizeOne (Created 1 2 false)
      (state_after sizeOne [1; 2]%Z (get_stored 0 "a" 1 ++ [CallGet "b"])) = Some s ∧
    JsObject.keys (store s) = ["a"; "b"] ∧
    (∃ t tk now,
       step id sizeOne (list_clock [1; 2]%Z) (Created 1 2 false)
         (state_after sizeOne [1; 2]%Z (get_stored 0 "a" 1 ++ [CallGet "b"]))
       = Some (park t tk (trim sizeOne s now).1)) ∧
    "b" ∉ oldestValues sizeOne s.
Proof.
  eexists. split; [vm_compute; reflexivity|]. split; [vm_compute; reflexivity|].
  apply (latest_entry_survives id sizeOne (list_clock [1; 2]%Z) (Created 1 2 false)
           (state_after sizeOne [1; 2]%Z (get_stored 0 "a" 1 ++ [CallGet "b"])) _ 1%Z "b" 1
           {| value := 2; insertionTimestamp := 2; timestamp := 2; locked := 0;
              destroy := false |}).
  - apply state_after_reachable. vm_compute. eauto.
  - vm_compute. reflexivity.
  - reflexivity.
  - vm_compute. reflexivity.
  - intros h' r' e' He Hne. unfold entry in He. simpl in He.
    repeat case_decide; simplify_eq/=. reflexivity.
Defined.

Lemma memoize_plain_witness :
  (∀ r e,
     heap (state_after sizeOne [1; 2]%Z (get_stored 0 "a" 1 ++ [CallGet "b"])) !! r = Some e →
     locked e = 0%Z ∧ destroy e = false) ∧
  (∀ ev,
     ev ∈ log (state_after sizeOne [1; 2]%Z (get_stored 0 "a" 1 ++ [CallGet "b"])) →
     ∀ hash r kvs t, ev ≠ EvDestroy hash r ∧ ev ≠ EvTransformer t kvs) ∧
  (∀ t tk,
     tasks (state_after sizeOne [1; 2]%Z (get_stored 0 "a" 1 ++ [CallGet "b"])) !! t = Some tk →
     (∃ key hash now st, tk = Fetch Get key hash now st) ∨ ∃ sh, tk = Scheduled sh) ∧
  (∀ n t c key hash now v,
     Opt.size sizeOne = Some n →
     tasks (state_after sizeOne [1; 2]%Z (get_stored 0 "a" 1 ++ [CallGet "b"])) !! t
     = Some (Fetch c key hash now AwaitCreate) →
     shrinkLock (state_after sizeOne [1; 2]%Z (get_stored 0 "a" 1 ++ [CallGet "b"])) = false →
     ∃ s',
       step id sizeOne (list_clock [1; 2]%Z) (Created t v false)
         (state_after sizeOne [1; 2]%Z (get_stored 0 "a" 1 ++ [CallGet "b"])) = Some s' ∧
       currentSize s' ≤ Z.to_nat n).
Proof.
  apply (memoize_plain id sizeOne (list_clock [1; 2]%Z)
           (state_after sizeOne [1; 2]%Z (get_stored 0 "a" 1 ++ [CallGet "b"]))).
  exists (get_stored 0 "a" 1 ++ [CallGet "b"]),
    {| store := []; heap := []; initializing := ∅; shrinkLock := false;
       reads := 0; tasks := []; log := [] |}.
  split; [reflexivity|]. split; vm_compute; reflexivity.
Defined.

Lemma batch_values_witness :
  (∀ kvs,
     tasks (state_after noBounds [1; 2; 3]%Z batch_out_of_order) !! 3
     = Some (Multi false ["a"; "b"; "c"] [0; 1; 2] (MultiSettled (Fulfilled (RPairs kvs)))) →
     kvs.*1 = ["a"; "b"; "c"] ∧
     Forall2 (λ id kv, ∃ hash now,
        tasks (state_after noBounds [1; 2; 3]%Z batch_out_of_order) !! id
        = Some (Fetch Item kv.1 hash now (Settled (Fulfilled (RItem kv.1 kv.2)))))
       [0; 1; 2] kvs) ∧
  (∀ e,
     tasks (state_after noBounds [1; 2; 3]%Z batch_out_of_order) !! 3
     = Some (Multi false ["a"; "b"; "c"] [0; 1; 2] (MultiSettled (Rejected e))) →
     ∃ id key hash now, id ∈ [0; 1; 2] ∧
       tasks (state_after noBounds [1; 2; 3]%Z batch_out_of_order) !! id
       = Some (Fetch Item key hash now (Settled (Rejected e)))).
Proof.
  apply (batch_values id noBounds (list_clock [1; 2; 3]%Z)
           (state_after noBounds [1; 2; 3]%Z batch_out_of_order) 3 ["a"; "b"; "c"] [0; 1; 2]).
  apply state_after_reachable. vm_compute. eauto.
Defined.

Lemma locked_while_transforming_witness :
  (∀ r e,
     heap (state_after noBounds [1]%Z transformer_running) !! r = Some e →
     (0 ≤ locked e)%Z) ∧
  (∀ t key hash now r,
     tasks (state_after noBounds [1]%Z transformer_running) !! t
     = Some (Fetch GetWith key hash now (AwaitTransformer r)) →
     ∃ e, heap (state_after noBounds [1]%Z transformer_running) !! r = Some e ∧
          (0 < locked e)%Z) ∧
  (∀ t keys items kcs kc,
     tasks (state_after noBounds [1]%Z transformer_running) !! t
     = Some (Multi true keys items (AwaitTransformerAll kcs)) →
     kc ∈ kcs →
     ∃ e, heap (state_after noBounds [1]%Z transformer_running) !! kc.2 = Some e ∧
          (0 < locked e)%Z).
Proof.
  apply (locked_while_transforming id noBounds (list_clock [1]%Z)
           (state_after noBounds [1]%Z transformer_running)).
  apply state_after_reachable. vm_compute. eauto.
Defined.

Lemma rejected_batch_keeps_locks_witness :
  ∃ e,
    heap (state_after noBounds [1; 2; 3]%Z (batch_with_a_failure ++ [CallGet "a"; Resume 3]))
      !! 0 = Some e ∧
    (0 < locked e)%Z.
Proof.
  apply (rejected_batch_keeps_locks id noBounds (list_clock [1; 2; 3]%Z)
           (state_after noBounds [1; 2; 3]%Z batch_with_a_failure) 2 ["a"; "b"] [0; 1]
           FactoryError 0 "a" "a" 1%Z "a" 0 [CallGet "a"; Resume 3]
           (state_after noBounds [1; 2; 3]%Z (batch_with_a_failure ++ [CallGet "a"; Resume 3]))).
  - apply state_after_reachable. vm_compute. eauto.
  - vm_compute. reflexivity.
  - discriminate.
  - left.
  - vm_compute. reflexivity.
  - vm_compute. reflexivity.
Defined.

Lemma locks_balanced_witness :
  locked {| value := 1; insertionTimestamp := 1; timestamp := 1; locked := 0;
            destroy := false |}
  = Z.of_nat (locks 0 (state_after noBounds [1; 2]%Z batch_transformed)) ∧
  (forallb idle (tasks (state_after noBounds [1; 2]%Z batch_transformed)) = true →
   locked {| value := 1; insertionTimestamp := 1; timestamp := 1; locked := 0;
             destroy := false |} = 0%Z).
Proof.
  apply (locks_balanced id noBounds (list_clock [1; 2]%Z)
           (state_after noBounds [1; 2]%Z batch_transformed) 0
           {| value := 1; insertionTimestamp := 1; timestamp := 1; locked := 0;
              destroy := false |}).
  - apply state_after_reachable. vm_compute. eauto.
  - vm_compute. reflexivity.
Defined.

Lemma unbounded_keeps_all_witness :
  currentSize (state_after noBounds [1; 2; 3]%Z batch_out_of_order)
  = length (heap (state_after noBounds [1; 2; 3]%Z batch_out_of_order)) ∧
  (∀ r e,
     heap (state_after noBounds [1; 2; 3]%Z batch_out_of_order) !! r = Some e →
     ∃ hash,
       JsObject.get hash (store (state_after noBounds [1; 2; 3]%Z batch_out_of_order))
       = Some r) ∧
  (∀ l s',
     step id noBounds (list_clock [1; 2; 3]%Z) l
       (state_after noBounds [1; 2; 3]%Z batch_out_of_order) = Some s' →
     currentSize (state_after noBounds [1; 2; 3]%Z batch_out_of_order) ≤ currentSize s').
Proof.
  apply (unbounded_keeps_all id noBounds (list_clock [1; 2; 3]%Z)
           (state_after noBounds [1; 2; 3]%Z batch_out_of_order)).
  - split; reflexivity.
  - apply state_after_reachable. vm_compute. eauto.
Defined.

Lemma cleanup_removes_expired_witness :
  ∃ s' evs,
    step id expiryFive (list_clock [0; 10]%Z) Timer
      (state_after expiryFive [0; 10]%Z (get_created 0 "x" 1)) = Some s' ∧
    log s' = log (state_after expiryFive [0; 10]%Z (get_created 0 "x" 1)) ++ evs ∧
    JsObject.get "x" (store s') = None ∧
    (EvDelete "x" : event) ∈ evs.
Proof.
  destruct (cleanup_removes_expired id expiryFive (list_clock [0; 10]%Z)
              (state_after expiryFive [0; 10]%Z (get_created 0 "x" 1)) 5%Z "x" 0
              {| value := 1; insertionTimestamp := 0; timestamp := 0; locked := 0;
                 destroy := false |})
    as (s' & evs & Hstep & _ & _ & Hlog & _ & Hrun).
  - reflexivity.
  - reflexivity.
  - discriminate.
  - vm_compute. reflexivity.
  - vm_compute. done.
  - vm_compute. done.
  - vm_compute. done.
  - vm_compute. done.
  - exists s', evs. split; [exact Hstep|]. split; [exact Hlog|].
    destruct Hrun as (_ & Hdel & _); [vm_compute; reflexivity|].
    apply Hdel; [vm_compute; reflexivity|vm_compute; discriminate|reflexivity].
Defined.

Lemma created_value_returned_witness :
  JsObject.get "k"
    (store (state_after sizeOne [1; 2; 3]%Z
              (neighbour_first ++ [Created 0 10 false; Resume 0; Resume 0; Resume 0])))
  = None ∧
  (∃ e, heap (state_after sizeOne [1; 2; 3]%Z
                (neighbour_first ++ [Created 0 10 false; Resume 0; Resume 0; Resume 0]))
          !! length (heap (state_after sizeOne [1; 2; 3]%Z neighbour_first)) = Some e ∧
        value e = 10) ∧
  (∀ v', yields (K:=string) (W:=nat) (Settled (Fulfilled (RValue 10))) = Some v' → v' = 10).
Proof.
  split; [vm_compute; reflexivity|].
  destruct (created_value_returned id sizeOne (list_clock [1; 2; 3]%Z)
              (state_after sizeOne [1; 2; 3]%Z neighbour_first) 0 Get "k" "k" 1%Z 10 false
              (state_after sizeOne [1; 2; 3]%Z (neighbour_first ++ [Created 0 10 false]))
              [Resume 0; Resume 0; Resume 0]
              (state_after sizeOne [1; 2; 3]%Z
                 (neighbour_first ++ [Created 0 10 false; Resume 0; Resume 0; Resume 0]))
              (Settled (Fulfilled (RValue 10))))
    as (_ & _ & _ & Hobj & _ & Hval); try (vm_compute; reflexivity).
  split; [exact Hobj|exact Hval].
Defined.
